(** * Incremental local-search substrate: Problem / Solution model

    A shallow embedding of [src/src/base.py] (sequencing with orientation:
    containers between a depot and a treatment plant) and [src/src/tsp.py]
    (closed tour over points), followed by the properties of the two
    [Solution] classes.

    Conventions of the embedding.
    - Python [int]s are [Z]; list and array indices are [Z] too, with
      Python's wrap-around of negative indices and [IndexError] written out.
    - [None] is [None] of an [option].
    - A method that may raise returns a [result]; a method that mutates
      [self] is a state transformer that returns the state reached together
      with the outcome, so that what was already mutated when an exception
      is raised stays visible.
    - A Python [set] is the duplicate-free list of its elements in iteration
      order.
    - The costs of [base.py] are the integers of the instance file (stored
      in float64 arrays, which hold them exactly up to [2 ^ 53]); they are
      [Z].  The distances of [tsp.py] are IEEE binary64 numbers:
      [float]. *)

From Stdlib Require Import ZArith List Bool Lia String Ascii Permutation.
From Stdlib Require Import DecimalString Floats.
Import ListNotations.
Local Open Scope Z_scope.

(* ================================================================== *)
(** * Python runtime: exceptions, results, sequences, sets *)
(* ================================================================== *)

Inductive exn : Type :=
| IndexError
| KeyError
| ValueError
| TypeError
| AssertionError
| OverflowError.

Inductive result (A : Type) : Type :=
| Ok (a : A)
| Raise (e : exn).

Arguments Ok {A} a.
Arguments Raise {A} e.

Definition rbind {A B : Type} (r : result A) (k : A -> result B) : result B :=
  match r with
  | Ok a => k a
  | Raise e => Raise e
  end.

Notation "'let*' x ':=' c 'in' k" := (rbind c (fun x => k))
  (at level 10, x name, c at level 100, k at level 200).

(** [for x in l: acc = f(acc, x)] where the body may raise. *)
Fixpoint rfold {A B : Type} (f : A -> B -> result A) (l : list B) (a : A)
  : result A :=
  match l with
  | [] => Ok a
  | x :: l' => let* a' := f a x in rfold f l' a'
  end.

(** [[f(x) for x in l]] where [f] may raise. *)
Fixpoint rmap {A B : Type} (f : A -> result B) (l : list A) : result (list B) :=
  match l with
  | [] => Ok []
  | x :: l' => let* y := f x in let* ys := rmap f l' in Ok (y :: ys)
  end.

(** State transformers that keep the state reached when they raise. *)
Definition M (St A : Type) : Type := St -> St * result A.

Definition ret {St A : Type} (a : A) : M St A := fun s => (s, Ok a).

Definition bind {St A B : Type} (m : M St A) (k : A -> M St B) : M St B :=
  fun s =>
    match m s with
    | (s', Ok a) => k a s'
    | (s', Raise e) => (s', Raise e)
    end.

Definition get {St : Type} : M St St := fun s => (s, Ok s).

Definition modify {St : Type} (f : St -> St) : M St unit :=
  fun s => (f s, Ok tt).

Definition lift {St A : Type} (r : result A) : M St A := fun s => (s, r).

Notation "x <- c ;; k" := (bind c (fun x => k))
  (at level 61, c at next level, right associativity).
Notation "c ;; k" := (bind c (fun _ => k))
  (at level 61, right associativity).

Section Sequences.
Context {A : Type}.

Definition len (l : list A) : Z := Z.of_nat (List.length l).

(** Position denoted by the index [i] in a sequence of length [n]:
    [i] itself when [0 <= i < n], [i + n] when [-n <= i < 0]. *)
Definition norm_index (n : Z) (i : Z) : option nat :=
  if (0 <=? i) && (i <? n) then Some (Z.to_nat i)
  else if (- n <=? i) && (i <? 0) then Some (Z.to_nat (i + n))
  else None.

(** [l[i]] *)
Definition getitem (l : list A) (i : Z) : result A :=
  match norm_index (len l) i with
  | Some k =>
      match nth_error l k with
      | Some x => Ok x
      | None => Raise IndexError
      end
  | None => Raise IndexError
  end.

Fixpoint update (l : list A) (k : nat) (x : A) : list A :=
  match l, k with
  | [], _ => []
  | _ :: l', O => x :: l'
  | y :: l', S k' => y :: update l' k' x
  end.

(** [l[i] = x] *)
Definition setitem (l : list A) (i : Z) (x : A) : result (list A) :=
  match norm_index (len l) i with
  | Some k => Ok (update l k x)
  | None => Raise IndexError
  end.

(** Bound of a slice: negative bounds count from the end, and the
    result is clamped to [0 .. n]. *)
Definition slice_bound (n : Z) (i : Z) : nat :=
  Z.to_nat (if i <? 0 then Z.max (i + n) 0 else Z.min i n).

(** [l[i:j] = list(reversed(l[i:j]))] *)
Definition reverse_slice (l : list A) (i j : Z) : list A :=
  let lo := slice_bound (len l) i in
  let hi := Nat.max lo (slice_bound (len l) j) in
  firstn lo l ++ rev (firstn (hi - lo) (skipn lo l)) ++ skipn hi l.
End Sequences.

(** [list(range(a, b))] *)
Definition range (a b : Z) : list Z :=
  map (fun k => a + Z.of_nat k) (seq 0 (Z.to_nat (b - a))).

(** [min(l)] and [max(l)]; [ValueError] on an empty sequence. *)
Definition py_min (l : list Z) : result Z :=
  match l with
  | [] => Raise ValueError
  | x :: l' => Ok (fold_left Z.min l' x)
  end.

Definition py_max (l : list Z) : result Z :=
  match l with
  | [] => Raise ValueError
  | x :: l' => Ok (fold_left Z.max l' x)
  end.

(** Sets of integers. *)
Definition mem (x : Z) (s : list Z) : bool := existsb (Z.eqb x) s.

Definition set_add (x : Z) (s : list Z) : list Z :=
  if mem x s then s else s ++ [x].

Definition set_discard (x : Z) (s : list Z) : list Z :=
  filter (fun y => negb (Z.eqb x y)) s.

(** [s.remove(x)] raises [KeyError] when [x] is not a member. *)
Definition set_remove (x : Z) (s : list Z) : result (list Z) :=
  if mem x s then Ok (set_discard x s) else Raise KeyError.

(** [str(v)] for an integer or [None]. *)
Definition py_str (v : option Z) : string :=
  match v with
  | Some z => NilZero.string_of_int (Z.to_int z)
  | None => "None"%string
  end.

Fixpoint bits_value (s : string) (acc : Z) : option Z :=
  match s with
  | EmptyString => Some acc
  | String c s' =>
      if Ascii.eqb c "0"%char then bits_value s' (2 * acc)
      else if Ascii.eqb c "1"%char then bits_value s' (2 * acc + 1)
      else None
  end.

(** [int(s, 2)] on a string made of decimal renderings: an optional sign
    followed by at least one binary digit, [ValueError] otherwise. *)
Definition int_base2 (s : string) : result Z :=
  let digits (t : string) : option Z :=
    match t with
    | EmptyString => None
    | _ => bits_value t 0
    end in
  match s with
  | String c t =>
      if Ascii.eqb c "-"%char then
        match digits t with Some v => Ok (- v) | None => Raise ValueError end
      else
        match digits s with Some v => Ok v | None => Raise ValueError end
  | EmptyString => Raise ValueError
  end.

(** [a + b] on two rows of one numpy array (element by element); rows of
    different lengths do not add. *)
Definition array_add (a b : list Z) : result (list Z) :=
  if Nat.eqb (List.length a) (List.length b)
  then Ok (map (fun xy => fst xy + snd xy) (combine a b))
  else Raise ValueError.

(** [t[a][b]] and [t[a][b][c]] on numpy arrays.  An index that is [None]
    is numpy's [newaxis] and yields an array instead of a cost; the model
    stops there with [TypeError]. *)
Definition lookup2 (t : list (list Z)) (a b : option Z) : result Z :=
  match a, b with
  | Some a, Some b => let* row := getitem t a in getitem row b
  | _, _ => Raise TypeError
  end.

Definition lookup3 (t : list (list (list Z))) (a b c : option Z) : result Z :=
  match a, b, c with
  | Some a, Some b, Some c =>
      let* plane := getitem t a in
      let* row := getitem plane b in
      getitem row c
  | _, _, _ => Raise TypeError
  end.

Definition as_int (v : option Z) : result Z :=
  match v with
  | Some z => Ok z
  | None => Raise TypeError
  end.

(** [int(str(a) + str(b), 2)] *)
Definition dir_index (a b : option Z) : result Z :=
  int_base2 (String.append (py_str a) (py_str b)).

(** ** Strings and arrays, continued *)

(** The new-line character and [sep.join(parts)]. *)
Definition newline : string := String (ascii_of_nat 10) EmptyString.

Fixpoint join (sep : string) (parts : list string) : string :=
  match parts with
  | [] => EmptyString
  | [p] => p
  | p :: rest => String.append p (String.append sep (join sep rest))
  end.

(** The characters [str.rstrip()] removes, among the ASCII ones: tab to
    carriage return, the four separators 28 to 31, and the space. *)
Definition is_space (c : ascii) : bool :=
  let k := nat_of_ascii c in
  ((9 <=? k) && (k <=? 13))%nat || ((28 <=? k) && (k <=? 32))%nat.

(** [s.rstrip()] *)
Fixpoint rstrip (s : string) : string :=
  match s with
  | EmptyString => EmptyString
  | String c s' =>
      match rstrip s' with
      | EmptyString => if is_space c then EmptyString else String c EmptyString
      | t => String c t
      end
  end.

(** A Python integer stored in a cell of a [float64] array: the nearest
    binary64 number, ties to the even one, which is again an integer;
    [OverflowError] when that is beyond the largest binary64 number.
    Integers up to [2 ^ 53] in absolute value are stored as they are. *)
Definition round_float64 (z : Z) : result Z :=
  let a := Z.abs z in
  if a <=? 2 ^ 53 then Ok z
  else
    let e := Z.log2 a - 52 in
    let q := Z.shiftr a e in
    let r := a - Z.shiftl q e in
    let half := Z.shiftl 1 (e - 1) in
    let q' := if (half <? r) || ((r =? half) && Z.odd q) then q + 1 else q in
    let v := Z.shiftl q' e in
    if 2 ^ 1024 <=? v then Raise OverflowError else Ok (Z.sgn z * v).

(** [row[...] = elements] on a row of [n] cells of a numpy array: the
    list must have [n] elements, or one, which is then repeated. *)
Definition assign_row (n : Z) (elements : list Z) : result (list Z) :=
  if len elements =? n then Ok elements
  else match elements with
       | [x] => Ok (repeat x (Z.to_nat n))
       | _ => Raise ValueError
       end.

(* ================================================================== *)
(** * base.py: sequencing with orientation *)
(* ================================================================== *)

(** The costs of an instance are integers that the program keeps in
    [float64] arrays and adds as binary64 numbers.  The model adds them
    as integers: the two agree as long as every sum stays within [2 ^ 53]
    in absolute value.  A statement that compares sums built in different
    ways is made under such a bound ([BaseRoute.exact_costs]). *)

Module Base.

Record Component : Type := mkComponent {
  node : option Z;
  direction : option Z
}.

Record LocalMove : Type := mkLocalMove {
  i : Z;
  j : Z;
  i_dir : Z;
  j_dir : Z
}.

Record Problem : Type := mkProblem {
  n : Z;
  depot_to_container : list (list Z);
  container_to_plant : list (list Z);
  container_to_container : list (list (list Z))
}.

Record Solution : Type := mkSolution {
  problem : Problem;
  containers : list Z;
  directions : list Z;
  picked : list Z;
  not_picked : list Z;
  obj_value : Z
}.

Definition set_containers (l : list Z) (s : Solution) : Solution :=
  mkSolution (problem s) l (directions s) (picked s) (not_picked s) (obj_value s).
Definition set_directions (l : list Z) (s : Solution) : Solution :=
  mkSolution (problem s) (containers s) l (picked s) (not_picked s) (obj_value s).
Definition set_picked (l : list Z) (s : Solution) : Solution :=
  mkSolution (problem s) (containers s) (directions s) l (not_picked s) (obj_value s).
Definition set_not_picked (l : list Z) (s : Solution) : Solution :=
  mkSolution (problem s) (containers s) (directions s) (picked s) l (obj_value s).
Definition set_obj_value (v : Z) (s : Solution) : Solution :=
  mkSolution (problem s) (containers s) (directions s) (picked s) (not_picked s) v.

(** [Problem.empty_solution] *)
Definition empty_solution (p : Problem) : Solution :=
  mkSolution p [] [] [] (range 0 (n p)) 0.

(** [Solution.is_feasible] *)
Definition is_feasible (s : Solution) : bool :=
  let unique_containers := nodup Z.eq_dec (containers s) in
  if negb (len unique_containers =? n (problem s)) then false else true.

(** [Solution.connection_cost] *)
Definition connection_cost (p : Problem) (last_component new_component : Component)
  : result Z :=
  if match node last_component with Some v => v =? -1 | None => false end then
    lookup2 (depot_to_container p) (direction new_component) (node new_component)
  else if match node new_component with Some v => v =? n p | None => false end then
    lookup2 (container_to_plant p) (direction last_component) (node last_component)
  else
    let* dir_idx := dir_index (direction last_component) (direction new_component) in
    lookup3 (container_to_container p) (Some dir_idx)
            (node last_component) (node new_component).

(** [Solution.objective] *)
Definition objective (s : Solution) : result (option Z) :=
  if 0 <? len (not_picked s) then Ok None
  else
    let* d := getitem (directions s) (-1) in
    let* c := getitem (containers s) (-1) in
    let* v := lookup2 (container_to_plant (problem s)) (Some d) (Some c) in
    Ok (Some (obj_value s + v)).

(** The [options] list built for one [dest_con] in
    [Solution.get_minimal_connections]. *)
Definition incoming_options (p : Problem) (conts : list Z) (dest_con : Z)
  : result (list Z) :=
  rmap (fun dd => lookup3 (container_to_container p)
                          (Some (snd dd)) (Some (fst dd)) (Some dest_con))
       (filter (fun dd => negb (fst dd =? dest_con))
               (list_prod conts (range 0 4))).

(** [Solution.get_minimal_connections] *)
Definition get_minimal_connections (p : Problem) (conts : list Z) : result Z :=
  let* acc :=
    rfold (fun acc dest_con =>
             let* options := incoming_options p conts dest_con in
             if 0 <? len options
             then let* m := py_min options in Ok (acc + m)
             else Ok acc)
          conts 0 in
  let* options :=
    rmap (fun dd => lookup2 (container_to_plant p) (Some (snd dd)) (Some (fst dd)))
         (list_prod conts (range 0 2)) in
  let* m := py_min options in
  Ok (acc + m).

(** [Solution.lower_bound] *)
Definition lower_bound (s : Solution) : result (option Z) :=
  if len (not_picked s) =? 0 then Ok None
  else
    let* rest := get_minimal_connections (problem s) (not_picked s) in
    Ok (Some (obj_value s + rest)).

(** [Solution.add_moves] *)
Definition add_moves (s : Solution) : list Component :=
  flat_map (fun container =>
              map (fun d => mkComponent (Some container) (Some d)) (range 0 2))
           (not_picked s).

(** The move yielded for [dir_idx] in the innermost loop of
    [local_moves] and [random_local_moves_wor]. *)
Definition move_of (idx_1 idx_2 dir_idx : Z) : LocalMove :=
  if dir_idx =? 0 then mkLocalMove idx_1 idx_2 0 0
  else if dir_idx =? 1 then mkLocalMove idx_1 idx_2 0 1
  else if dir_idx =? 2 then mkLocalMove idx_1 idx_2 1 0
  else mkLocalMove idx_1 idx_2 1 1.

(** [Solution.local_moves], drained into a list. *)
Definition local_moves (s : Solution) : list LocalMove :=
  flat_map (fun idx_1 =>
    flat_map (fun idx_2 => map (move_of idx_1 idx_2) (range 0 4))
             (range idx_1 (n (problem s))))
    (range 0 (n (problem s))).

(** The dictionary [best_candidate] of [Solution.heuristic_add_move]. *)
Record Best : Type := mkBest {
  val : Z;
  idx : option Z;
  best_direction : option Z
}.

(** The list [candidates] built at the start of
    [Solution.heuristic_add_move]: two rows of costs. *)
Definition candidate_rows (s : Solution) : result (list Z * list Z) :=
  let p := problem s in
  if len (containers s) =? 0 then
    let* c0 := getitem (depot_to_container p) 0 in
    let* c1 := getitem (depot_to_container p) 1 in
    Ok (c0, c1)
  else
    let* d0 := getitem (directions s) (-1) in
    let* dir_idx_0 := dir_index (Some d0) (Some 0) in
    let* d1 := getitem (directions s) (-1) in
    let* dir_idx_1 := dir_index (Some d1) (Some 1) in
    let* t0 := getitem (container_to_container p) dir_idx_0 in
    let* l0 := getitem (containers s) (-1) in
    let* c0 := getitem t0 l0 in
    let* t1 := getitem (container_to_container p) dir_idx_1 in
    let* l1 := getitem (containers s) (-1) in
    let* c1 := getitem t1 l1 in
    Ok (c0, c1).

(** One round of the loop of [Solution.heuristic_add_move]. *)
Definition consider (candidates : list Z * list Z) (best : Best) (k : Z)
  : result Best :=
  let* v0 := getitem (fst candidates) k in
  let best :=
    if v0 <? val best then mkBest v0 (Some k) (Some 0) else best in
  let* v1 := getitem (snd candidates) k in
  Ok (if v1 <? val best then mkBest v1 (Some k) (Some 1) else best).

(** [Solution.heuristic_add_move] *)
Definition heuristic_add_move (s : Solution) : result (option Component) :=
  if len (not_picked s) =? 0 then Ok None
  else
    let* candidates := candidate_rows s in
    let* sums := array_add (fst candidates) (snd candidates) in
    let* top := py_max sums in
    let* best := rfold (consider candidates) (not_picked s) (mkBest top None None) in
    Ok (Some (mkComponent (idx best) (best_direction best))).

(** [Solution.add].  A component with a [None] field is outside the
    declared field types ([int]); the model gives [TypeError] where the
    field is first needed as a number. *)
Definition add (component : Component) : M Solution unit :=
  s <- get ;;
  cost <- lift
    (if len (containers s) =? 0 then
       lookup2 (depot_to_container (problem s))
               (direction component) (node component)
     else
       let* lc := getitem (containers s) (-1) in
       let* ld := getitem (directions s) (-1) in
       connection_cost (problem s) (mkComponent (Some lc) (Some ld)) component) ;;
  modify (set_obj_value (obj_value s + cost)) ;;
  v <- lift (as_int (node component)) ;;
  modify (fun s => set_containers (containers s ++ [v]) s) ;;
  d <- lift (as_int (direction component)) ;;
  modify (fun s => set_directions (directions s ++ [d]) s) ;;
  modify (fun s => set_picked (set_add v (picked s)) s) ;;
  s <- get ;;
  rest <- lift (set_remove v (not_picked s)) ;;
  modify (set_not_picked rest).

(** [Solution.step] *)
Definition step (lmove : LocalMove) : M Solution unit :=
  s <- get ;;
  tmp <- lift (getitem (containers s) (i lmove)) ;;
  cj <- lift (getitem (containers s) (j lmove)) ;;
  cs <- lift (setitem (containers s) (i lmove) cj) ;;
  modify (set_containers cs) ;;
  s <- get ;;
  cs <- lift (setitem (containers s) (j lmove) tmp) ;;
  modify (set_containers cs) ;;
  s <- get ;;
  ds <- lift (setitem (directions s) (i lmove) (i_dir lmove)) ;;
  modify (set_directions ds) ;;
  s <- get ;;
  ds <- lift (setitem (directions s) (j lmove) (j_dir lmove)) ;;
  modify (set_directions ds).

(** [Solution.objective_incr_local] *)
Definition objective_incr_local (s : Solution) (lmove : LocalMove) : result Z :=
  let p := problem s in
  let* pc_1 := (if 0 <? i lmove then let* c := getitem (containers s) (i lmove - 1) in Ok c
                else Ok (-1)) in
  let* pd_1 := (if 0 <? i lmove then let* d := getitem (directions s) (i lmove - 1) in Ok (Some d)
                else Ok None) in
  let* cc_1 := getitem (containers s) (i lmove) in
  let* cd_1 := getitem (directions s) (i lmove) in
  let* fc_1 := (if i lmove <? n p - 1 then getitem (containers s) (i lmove + 1)
                else Ok (n p)) in
  let* fd_1 := (if i lmove <? n p - 1 then let* d := getitem (directions s) (i lmove + 1) in Ok (Some d)
                else Ok None) in
  let* pc_2 := (if 0 <? j lmove then let* c := getitem (containers s) (j lmove - 1) in Ok c
                else Ok (-1)) in
  let* pd_2 := (if 0 <? j lmove then let* d := getitem (directions s) (j lmove - 1) in Ok (Some d)
                else Ok None) in
  let* cc_2 := getitem (containers s) (j lmove) in
  let* cd_2 := getitem (directions s) (j lmove) in
  let* fc_2 := (if j lmove <? n p - 1 then getitem (containers s) (j lmove + 1)
                else Ok (n p)) in
  let* fd_2 := (if j lmove <? n p - 1 then let* d := getitem (directions s) (j lmove + 1) in Ok (Some d)
                else Ok None) in
  let C := fun c d => mkComponent (Some c) d in
  let* o1 := connection_cost p (C pc_1 pd_1) (C cc_1 (Some cd_1)) in
  let* o2 := connection_cost p (C cc_1 (Some cd_1)) (C fc_1 fd_1) in
  let* o3 := connection_cost p (C pc_2 pd_2) (C cc_2 (Some cd_2)) in
  let* o4 := connection_cost p (C cc_2 (Some cd_2)) (C fc_2 fd_2) in
  let obj_value_old := 0 + o1 + o2 + o3 + o4 in
  let* n1 := connection_cost p (C pc_1 pd_1) (C cc_2 (Some (j_dir lmove))) in
  let* n2 := connection_cost p (C cc_2 (Some (j_dir lmove))) (C fc_1 fd_1) in
  let* n3 := connection_cost p (C pc_2 pd_2) (C cc_1 (Some (i_dir lmove))) in
  let* n4 := connection_cost p (C cc_1 (Some (i_dir lmove))) (C fc_2 fd_2) in
  let obj_value_new := 0 + n1 + n2 + n3 + n4 in
  Ok (obj_value_new - obj_value_old).

(** ** Randomised enumeration

    [random.shuffle] draws from Python's global generator.  Its state is
    threaded explicitly: [shuffle l g] is the order in which [l] is left
    and the generator state afterwards. *)
Section Random.
Variable rng : Type.
Variable shuffle : list Z -> rng -> list Z * rng.

(** [for x in l: <body, which yields and draws>], drained. *)
Fixpoint for_each {A B : Type} (l : list A) (body : A -> rng -> list B * rng)
  (g : rng) : list B * rng :=
  match l with
  | [] => ([], g)
  | x :: l' =>
      let (ys, g1) := body x g in
      let (zs, g2) := for_each l' body g1 in
      (ys ++ zs, g2)
  end.

(** [Solution.random_local_moves_wor], drained into a list. *)
Definition random_local_moves_wor (s : Solution) (g : rng)
  : list LocalMove * rng :=
  let (range_1, g) := shuffle (range 0 (n (problem s))) g in
  for_each range_1 (fun idx_1 g =>
    let (range_2, g) := shuffle (range idx_1 (n (problem s))) g in
    for_each range_2 (fun idx_2 g =>
      let (range_dir, g) := shuffle (range 0 4) g in
      (map (move_of idx_1 idx_2) range_dir, g)) g) g.
End Random.

(** ** Further methods *)

(** [Component.cid] *)
Definition cid (c : Component) : option Z * option Z := (node c, direction c).

(** [Solution.output] *)
Definition output (s : Solution) : result string :=
  let* str :=
    rfold (fun str k =>
             let* c := getitem (containers s) k in
             let* d := getitem (directions s) k in
             Ok (String.append str
                   (String.append (py_str (Some (c + 1)))
                      (String.append " " (String.append (py_str (Some d)) newline)))))
          (range 0 (len (containers s))) EmptyString in
  Ok (rstrip str).

(** [Solution.components], drained into a list. *)
Definition components (s : Solution) : result (list Component) :=
  rmap (fun k =>
          let* c := getitem (containers s) k in
          let* d := getitem (directions s) k in
          Ok (mkComponent (Some c) (Some d)))
       (range 0 (n (problem s))).

(** [Solution.lower_bound_incr_add].  It takes the container out of
    [not_picked] and puts it back; what is left of that when a call in
    between raises stays visible. *)
Definition lower_bound_incr_add (component : Component) : M Solution Z :=
  s <- get ;;
  if len (not_picked s) =? 1 then ret 0
  else
    new_obj_value <- lift
      (if len (containers s) =? 0 then
         lookup2 (depot_to_container (problem s))
                 (direction component) (node component)
       else
         let* lc := getitem (containers s) (-1) in
         let* ld := getitem (directions s) (-1) in
         let* c := connection_cost (problem s) (mkComponent (Some lc) (Some ld))
                                   component in
         Ok (obj_value s + c)) ;;
    v <- lift (as_int (node component)) ;;
    rest <- lift (set_remove v (not_picked s)) ;;
    modify (set_not_picked rest) ;;
    s <- get ;;
    more <- lift (get_minimal_connections (problem s) (not_picked s)) ;;
    modify (fun s => set_not_picked (set_add v (not_picked s)) s) ;;
    s <- get ;;
    bound <- lift (lower_bound s) ;;
    match bound with
    | Some b => ret (new_obj_value + more - b)
    | None => lift (Raise TypeError)
    end.

(** [Problem.from_textio], from the numbers read: [n] is the first line
    and [lines] holds, for each line after it, the list [elements] of its
    integers (a line past the end of the file reads as the empty list).
    The arrays made by [np.empty] start with arbitrary cells, here 0; every
    cell is assigned before the method returns.  The arrays hold binary64
    numbers: an integer of the file is stored as [round_float64] gives
    it. *)
Definition blank2 (r c : Z) : list (list Z) :=
  repeat (repeat 0 (Z.to_nat c)) (Z.to_nat r).

Definition blank3 (k r c : Z) : list (list (list Z)) :=
  repeat (blank2 r c) (Z.to_nat k).

(** [t[a] = elements] and [t[a][b] = elements]: numpy first turns the
    list into numbers of the array's type, then fits it to the row. *)
Definition store_row2 (n : Z) (t : list (list Z)) (a : Z) (elements : list Z)
  : result (list (list Z)) :=
  let* old := getitem t a in
  let* cells := rmap round_float64 elements in
  let* row := assign_row n cells in
  setitem t a row.

Definition store_row3 (n : Z) (t : list (list (list Z))) (a b : Z)
  (elements : list Z) : result (list (list (list Z))) :=
  let* plane := getitem t a in
  let* plane' := store_row2 n plane b elements in
  setitem t a plane'.

Definition from_textio (n : Z) (lines : list (list Z)) : result Problem :=
  if n <? 0 then Raise ValueError
  else
    rfold (fun p idx =>
             let elements := nth (Z.to_nat (idx - 1)) lines [] in
             if idx =? 1 then
               let* t := store_row2 n (depot_to_container p) 0 elements in
               Ok (mkProblem n t (container_to_plant p) (container_to_container p))
             else if idx =? 2 then
               let* t := store_row2 n (depot_to_container p) 1 elements in
               Ok (mkProblem n t (container_to_plant p) (container_to_container p))
             else if idx =? 3 then
               let* t := store_row2 n (container_to_plant p) 0 elements in
               Ok (mkProblem n (depot_to_container p) t (container_to_container p))
             else if idx =? 4 then
               let* t := store_row2 n (container_to_plant p) 1 elements in
               Ok (mkProblem n (depot_to_container p) t (container_to_container p))
             else if idx <? n + 5 then
               let* t := store_row3 n (container_to_container p) 0 (idx - 5) elements in
               Ok (mkProblem n (depot_to_container p) (container_to_plant p) t)
             else if idx <? 2 * n + 5 then
               let* t := store_row3 n (container_to_container p) 1 (idx - n - 5) elements in
               Ok (mkProblem n (depot_to_container p) (container_to_plant p) t)
             else if idx <? 3 * n + 5 then
               let* t := store_row3 n (container_to_container p) 3 (idx - 2 * n - 5) elements in
               Ok (mkProblem n (depot_to_container p) (container_to_plant p) t)
             else
               let* t := store_row3 n (container_to_container p) 2 (idx - 3 * n - 5) elements in
               Ok (mkProblem n (depot_to_container p) (container_to_plant p) t))
          (range 1 (5 + 4 * n))
          (mkProblem n (blank2 2 n) (blank2 2 n) (blank3 4 n n)).

(** ** Random moves and [perturb] *)
Section RandomMove.
Variable rng : Type.
Variable shuffle : list Z -> rng -> list Z * rng.

(** [for x in l: <body>] up to the first value the body yields. *)
Fixpoint for_first {A B : Type} (l : list A) (body : A -> rng -> option B * rng)
  (g : rng) : option B * rng :=
  match l with
  | [] => (None, g)
  | x :: l' =>
      match body x g with
      | (Some y, g1) => (Some y, g1)
      | (None, g1) => for_first l' body g1
      end
  end.

(** [Solution.random_local_move]: the first move of
    [random_local_moves_wor], which is run no further. *)
Definition random_local_move (s : Solution) (g : rng) : option LocalMove * rng :=
  let (range_1, g) := shuffle (range 0 (n (problem s))) g in
  for_first range_1 (fun idx_1 g =>
    let (range_2, g) := shuffle (range idx_1 (n (problem s))) g in
    for_first range_2 (fun idx_2 g =>
      let (range_dir, g) := shuffle (range 0 4) g in
      (option_map (move_of idx_1 idx_2) (hd_error range_dir), g)) g) g.

(** How [Solution.perturb] ends: normally, with an exception of [step],
    or with the [AttributeError] of [step(None)] when there was no move. *)
Inductive perturbed : Type :=
| Perturbed
| StepRaised (e : exn)
| NoMove.

Fixpoint perturb_loop (k : nat) (s : Solution) (g : rng)
  : Solution * perturbed * rng :=
  match k with
  | O => (s, Perturbed, g)
  | S k' =>
      let (move, g1) := random_local_move s g in
      match move with
      | None => (s, NoMove, g1)
      | Some m =>
          match step m s with
          | (s', Ok _) => perturb_loop k' s' g1
          | (s', Raise e) => (s', StepRaised e, g1)
          end
      end
  end.

(** [Solution.perturb] *)
Definition perturb (ks : Z) (s : Solution) (g : rng) : Solution * perturbed * rng :=
  perturb_loop (Z.to_nat ks) s g.
End RandomMove.

End Base.

(* ================================================================== *)
(** * tsp.py: closed tour *)
(* ================================================================== *)

(** [math.isclose(a, b)] with the default tolerances
    ([rel_tol = 1e-09], [abs_tol = 0.0]). *)
Definition isclose (a b : float) : bool :=
  let rel_tol := 0x1.12e0be826d695p-30%float in
  if PrimFloat.eqb a b then true
  else if PrimFloat.is_infinity a || PrimFloat.is_infinity b then false
  else
    let diff := PrimFloat.abs (PrimFloat.sub b a) in
    PrimFloat.leb diff (PrimFloat.abs (PrimFloat.mul rel_tol b))
    || PrimFloat.leb diff (PrimFloat.abs (PrimFloat.mul rel_tol a))
    || PrimFloat.leb diff 0%float.

(** Modelled from the spec: [pairwise] of [api.utils] is not among the
    sources; the spec has the recomputation run over the transitions
    "between consecutive sequence elements", so [pairwise l] is the list of
    the pairs of neighbours of [l]. *)
Fixpoint pairwise {A : Type} (l : list A) : list (A * A) :=
  match l with
  | x :: (y :: _) as l' => (x, y) :: pairwise l'
  | _ => []
  end.

Module Tsp.

Record Component : Type := mkComponent {
  u : Z;
  v : Z
}.

Record LocalMove : Type := mkLocalMove {
  i : Z;
  j : Z
}.

Record Point : Type := mkPoint {
  x : float;
  y : float
}.

(** [euclidean_dist].  Rocq's binary64 numbers have a single NaN where
    the program's carry a sign and a payload; statements that two
    distances are the same number are made for finite coordinates, where
    no NaN arises. *)
Definition euclidean_dist (a b : Point) : float :=
  let dx := PrimFloat.sub (x a) (x b) in
  let dy := PrimFloat.sub (y a) (y b) in
  PrimFloat.sqrt (PrimFloat.add (PrimFloat.mul dx dx) (PrimFloat.mul dy dy)).

(** [distance_matrix] *)
Definition distance_matrix (coords : list Point) : list (list float) :=
  map (fun a => map (fun b => euclidean_dist a b) coords) coords.

(** The class [Problem]; [pdist] is its attribute [dist]. *)
Record Problem : Type := mkProblem {
  nnodes : Z;
  coords : list Point;
  pdist : list (list float)
}.

(** [Problem.__init__] *)
Definition new_problem (coords : list Point) : Problem :=
  mkProblem (len coords) coords (distance_matrix coords).

Record Solution : Type := mkSolution {
  problem : Problem;
  start : Z;
  path : list Z;
  used : list Z;
  unused : list Z;
  dist : float
}.

Definition set_path (l : list Z) (s : Solution) : Solution :=
  mkSolution (problem s) (start s) l (used s) (unused s) (dist s).
Definition set_used (l : list Z) (s : Solution) : Solution :=
  mkSolution (problem s) (start s) (path s) l (unused s) (dist s).
Definition set_unused (l : list Z) (s : Solution) : Solution :=
  mkSolution (problem s) (start s) (path s) (used s) l (dist s).
Definition set_dist (d : float) (s : Solution) : Solution :=
  mkSolution (problem s) (start s) (path s) (used s) (unused s) d.

(** [Problem.empty_solution] *)
Definition empty_solution (p : Problem) : Solution :=
  mkSolution p 0 [0] [0] (range 1 (nnodes p)) 0%float.

(** [Problem.empty_solution_with_start] *)
Definition empty_solution_with_start (p : Problem) (start : Z) : Solution :=
  mkSolution p start [start] [start]
             (set_discard start (range 0 (nnodes p))) 0%float.

(** [self.problem.dist[a][b]] *)
Definition dist_at (p : Problem) (a b : Z) : result float :=
  let* row := getitem (pdist p) a in
  getitem row b.

(** [Solution.is_feasible] *)
Definition is_feasible (s : Solution) : bool :=
  len (path s) =? nnodes (problem s) + 1.

(** [Solution.objective] *)
Definition objective (s : Solution) : option float :=
  if len (path s) =? nnodes (problem s) + 1 then Some (dist s) else None.

(** [Solution.lower_bound] *)
Definition lower_bound (s : Solution) : option float :=
  Some (dist s).

(** [Solution.add_moves], drained into a list. *)
Definition add_moves (s : Solution) : result (list Component) :=
  if len (path s) <? nnodes (problem s) then
    let* u := getitem (path s) (-1) in
    Ok (map (fun v => mkComponent u v) (unused s))
  else if len (path s) =? nnodes (problem s) then
    let* u := getitem (path s) (-1) in
    Ok [mkComponent u (start s)]
  else Ok [].

(** [Solution.local_moves], drained into a list. *)
Definition local_moves (s : Solution) : list LocalMove :=
  flat_map (fun i => map (fun j => mkLocalMove i j) (range (i + 2) (len (path s))))
           (range 1 (len (path s))).

(** [Solution.heuristic_add_move] *)
Definition heuristic_add_move (s : Solution) : result (option Component) :=
  if len (path s) <? nnodes (problem s) then
    let* u := getitem (path s) (-1) in
    let* best :=
      rfold (fun (best : option (Component * float)) v =>
               let* d := dist_at (problem s) u v in
               Ok (match best with
                   | None => Some (mkComponent u v, d)
                   | Some (_, bestd) =>
                       if PrimFloat.ltb d bestd then Some (mkComponent u v, d)
                       else best
                   end))
            (unused s) None in
    Ok (option_map fst best)
  else if len (path s) =? nnodes (problem s) then
    let* u := getitem (path s) (-1) in
    Ok (Some (mkComponent u (start s)))
  else Ok None.

(** [Solution.add] *)
Definition add (component : Component) : M Solution unit :=
  let u := u component in
  let v := v component in
  modify (fun s => set_path (path s ++ [v]) s) ;;
  s <- get ;;
  (if negb (v =? start s) then
     rest <- lift (set_remove v (unused s)) ;;
     modify (set_unused rest)
   else ret tt) ;;
  modify (fun s => set_used (set_add v (used s)) s) ;;
  s <- get ;;
  d <- lift (dist_at (problem s) u v) ;;
  modify (set_dist (PrimFloat.add (dist s) d)).

(** [self.problem.dist[self.path[a]][self.path[b]]] *)
Definition edge (s : Solution) (a b : Z) : result float :=
  let* pa := getitem (path s) a in
  let* row := getitem (pdist (problem s)) pa in
  let* pb := getitem (path s) b in
  getitem row pb.

(** The sum recomputed under [__debug__] in [Solution.step]: [sum]
    adds from the left, starting from 0. *)
Definition recomputed_dist (s : Solution) : result float :=
  let* terms := rmap (fun t => dist_at (problem s) (fst t) (snd t))
                     (pairwise (path s)) in
  Ok (fold_left PrimFloat.add terms 0%float).

Definition py_assert {St : Type} (b : bool) : M St unit :=
  if b then ret tt else lift (Raise AssertionError).

(** [Solution.step], with the checks made under [__debug__]. *)
Definition step (lmove : LocalMove) : M Solution unit :=
  let i := i lmove in
  let j := j lmove in
  s <- get ;;
  d <- lift (edge s (i - 1) i) ;;
  modify (set_dist (PrimFloat.sub (dist s) d)) ;;
  s <- get ;;
  d <- lift (edge s (j - 1) j) ;;
  modify (set_dist (PrimFloat.sub (dist s) d)) ;;
  modify (fun s => set_path (reverse_slice (path s) i j) s) ;;
  s <- get ;;
  d <- lift (edge s (i - 1) i) ;;
  modify (set_dist (PrimFloat.add (dist s) d)) ;;
  s <- get ;;
  d <- lift (edge s (j - 1) j) ;;
  modify (set_dist (PrimFloat.add (dist s) d)) ;;
  s <- get ;;
  total <- lift (recomputed_dist s) ;;
  py_assert (isclose total (dist s)) ;;
  first <- lift (getitem (path s) 0) ;;
  py_assert (first =? start s) ;;
  last <- lift (getitem (path s) (-1)) ;;
  py_assert (last =? start s).

(** [Solution.objective_incr_local] *)
Definition objective_incr_local (s : Solution) (lmove : LocalMove) : result float :=
  let i := i lmove in
  let j := j lmove in
  let ndist := dist s in
  let* d := edge s (i - 1) i in
  let ndist := PrimFloat.sub ndist d in
  let* d := edge s (j - 1) j in
  let ndist := PrimFloat.sub ndist d in
  let* d := edge s (i - 1) (j - 1) in
  let ndist := PrimFloat.add ndist d in
  let* d := edge s i j in
  let ndist := PrimFloat.add ndist d in
  Ok (PrimFloat.sub ndist (dist s)).

(** ** Randomised enumeration

    [sample2] of [api.utils] is not among the sources; it is a parameter:
    [sample2 n m g] is the sequence of pairs it yields and the generator
    state afterwards. *)
Section Random.
Variable rng : Type.
Variable sample2 : Z -> Z -> rng -> list (Z * Z) * rng.

(** [Solution.random_local_moves_wor], drained into a list. *)
Definition random_local_moves_wor (s : Solution) (g : rng)
  : list LocalMove * rng :=
  let (pairs, g) := sample2 (len (path s)) (len (path s)) g in
  (map (fun ij => mkLocalMove (fst ij) (snd ij))
       (filter (fun ij => (1 <=? fst ij) && (fst ij + 2 <=? snd ij)) pairs),
   g).
End Random.

(** ** Further methods *)

(** [Component.cid] *)
Definition cid (c : Component) : Z * Z := (u c, v c).

(** [Solution.output] *)
Definition output (s : Solution) : string :=
  join newline (map (fun z => py_str (Some z)) (path s)).

(** [Solution.components], drained into a list. *)
Definition components (s : Solution) : result (list Component) :=
  rmap (fun k =>
          let* a := getitem (path s) (k - 1) in
          let* b := getitem (path s) k in
          Ok (mkComponent a b))
       (range 1 (len (path s))).

(** [Solution.lower_bound_incr_add] *)
Definition lower_bound_incr_add (s : Solution) (component : Component)
  : result float :=
  if len (path s) + 1 <=? nnodes (problem s) then
    dist_at (problem s) (u component) (v component)
  else Ok 0%float.

(** ** Random moves and [perturb]

    [random.randrange] is a parameter, threaded like the other draws:
    [randrange a b g] is the number drawn from [range(a, b)], or the
    exception raised, and the generator state afterwards. *)
Section RandomMove.
Variable rng : Type.
Variable randrange : Z -> Z -> rng -> result Z * rng.

(** [Solution.random_local_move] *)
Definition random_local_move (s : Solution) (g : rng)
  : result (option LocalMove) * rng :=
  if 4 <=? len (path s) then
    match randrange 1 (len (path s) - 2) g with
    | (Ok i, g1) =>
        match randrange (i + 2) (len (path s)) g1 with
        | (Ok j, g2) => (Ok (Some (mkLocalMove i j)), g2)
        | (Raise e, g2) => (Raise e, g2)
        end
    | (Raise e, g1) => (Raise e, g1)
    end
  else (Ok None, g).

Fixpoint perturb_loop (k : nat) (s : Solution) (g : rng)
  : Solution * result unit * rng :=
  match k with
  | O => (s, Ok tt, g)
  | S k' =>
      match random_local_move s g with
      | (Ok (Some move), g1) =>
          match step move s with
          | (s', Ok _) => perturb_loop k' s' g1
          | (s', Raise e) => (s', Raise e, g1)
          end
      | (Ok None, g1) => perturb_loop k' s g1
      | (Raise e, g1) => (s, Raise e, g1)
      end
  end.

(** [Solution.perturb] *)
Definition perturb (ks : Z) (s : Solution) (g : rng) : Solution * result unit * rng :=
  perturb_loop (Z.to_nat ks) s g.
End RandomMove.

End Tsp.

(* ================================================================== *)
(** * The object store: references, aliasing and [copy] *)
(* ================================================================== *)

(** Lists, sets and [Solution]s are mutable objects reached through
    references; two [Solution]s may or may not share them.  A heap is the
    list of the objects allocated so far, a reference is a position in it.
    A [Solution] object holds references to its problem and to its
    collections, and its numbers by value (Python numbers are immutable).

    The methods of [Base] and [Tsp] act on the contents of the objects
    reached from [self]; [base_call] and [tsp_call] run them against the
    store: the contents are read through [self]'s references, the method
    runs, and what it leaves is written back into the same objects. *)
Module Store.

Definition loc : Type := nat.

Record BaseObject : Type := mkBaseObject {
  b_problem : loc;
  b_containers : loc;
  b_directions : loc;
  b_picked : loc;
  b_not_picked : loc;
  b_obj_value : Z
}.

Record TspObject : Type := mkTspObject {
  t_problem : loc;
  t_start : Z;
  t_path : loc;
  t_used : loc;
  t_unused : loc;
  t_dist : float
}.

Inductive object : Type :=
| OList (l : list Z)
| OSet (l : list Z)
| OBaseProblem (p : Base.Problem)
| OTspProblem (p : Tsp.Problem)
| OBaseSolution (r : BaseObject)
| OTspSolution (r : TspObject).

Definition heap : Type := list object.

Definition alloc (o : object) (h : heap) : heap * loc :=
  (h ++ [o], List.length h).

Definition read (h : heap) (l : loc) : option object := nth_error h l.

Definition write (h : heap) (l : loc) (o : object) : heap := update h l o.

(** The references are pairwise distinct. *)
Fixpoint distinct (ls : list loc) : bool :=
  match ls with
  | [] => true
  | l :: ls' => negb (existsb (Nat.eqb l) ls') && distinct ls'
  end.

(** ** base.py *)

(** The [Solution] that [self] denotes. *)
Definition base_view (h : heap) (self : loc) : option Base.Solution :=
  match read h self with
  | Some (OBaseSolution r) =>
      if distinct [self; b_containers r; b_directions r; b_picked r; b_not_picked r]
      then
        match read h (b_problem r), read h (b_containers r),
              read h (b_directions r), read h (b_picked r),
              read h (b_not_picked r) with
        | Some (OBaseProblem p), Some (OList cs), Some (OList ds),
          Some (OSet pk), Some (OSet np) =>
            Some (Base.mkSolution p cs ds pk np (b_obj_value r))
        | _, _, _, _, _ => None
        end
      else None
  | _ => None
  end.

Definition base_store (h : heap) (self : loc) (s : Base.Solution) : heap :=
  match read h self with
  | Some (OBaseSolution r) =>
      let h := write h (b_containers r) (OList (Base.containers s)) in
      let h := write h (b_directions r) (OList (Base.directions s)) in
      let h := write h (b_picked r) (OSet (Base.picked s)) in
      let h := write h (b_not_picked r) (OSet (Base.not_picked s)) in
      write h self
            (OBaseSolution
               (mkBaseObject (b_problem r) (b_containers r) (b_directions r)
                             (b_picked r) (b_not_picked r) (Base.obj_value s)))
  | _ => h
  end.

(** A method of [Base.Solution] called on the object [self]. *)
Definition base_call {A : Type} (m : M Base.Solution A) (self : loc) : M heap A :=
  fun h =>
    match base_view h self with
    | Some s => let (s', r) := m s in (base_store h self s', r)
    | None => (h, Raise TypeError)
    end.

(** [Problem.empty_solution]: fresh collections, the problem by
    reference. *)
Definition base_empty_solution (problem : loc) : M heap loc :=
  fun h =>
    match read h problem with
    | Some (OBaseProblem p) =>
        let s := Base.empty_solution p in
        let (h, lc) := alloc (OList (Base.containers s)) h in
        let (h, ld) := alloc (OList (Base.directions s)) h in
        let (h, lp) := alloc (OSet (Base.picked s)) h in
        let (h, ln) := alloc (OSet (Base.not_picked s)) h in
        let (h, l) := alloc (OBaseSolution
                               (mkBaseObject problem lc ld lp ln (Base.obj_value s))) h in
        (h, Ok l)
    | _ => (h, Raise TypeError)
    end.

(** [Solution.copy]: [copy(...)] of each collection is a new object with
    the same elements; the problem is passed on by reference. *)
Definition base_copy (self : loc) : M heap loc :=
  fun h =>
    match read h self with
    | Some (OBaseSolution r) =>
        match read h (b_containers r), read h (b_directions r),
              read h (b_picked r), read h (b_not_picked r) with
        | Some (OList cs), Some (OList ds), Some (OSet pk), Some (OSet np) =>
            let (h, lc) := alloc (OList cs) h in
            let (h, ld) := alloc (OList ds) h in
            let (h, lp) := alloc (OSet pk) h in
            let (h, ln) := alloc (OSet np) h in
            let (h, l) := alloc (OBaseSolution
                                   (mkBaseObject (b_problem r) lc ld lp ln
                                                 (b_obj_value r))) h in
            (h, Ok l)
        | _, _, _, _ => (h, Raise TypeError)
        end
    | _ => (h, Raise TypeError)
    end.

(** A second [Solution] object built on the same collections (what
    [copy] would be without the four [copy(...)] calls). *)
Definition base_alias (self : loc) : M heap loc :=
  fun h =>
    match read h self with
    | Some (OBaseSolution r) =>
        let (h, l) := alloc (OBaseSolution r) h in (h, Ok l)
    | _ => (h, Raise TypeError)
    end.

Inductive base_op : Type :=
| BaseAdd (c : Base.Component)
| BaseStep (m : Base.LocalMove).

Definition base_apply (self : loc) (o : base_op) (h : heap) : heap :=
  match o with
  | BaseAdd c => fst (base_call (Base.add c) self h)
  | BaseStep m => fst (base_call (Base.step m) self h)
  end.

(** A sequence of [add] and [step] calls on [self], whatever each call
    returns or raises. *)
Definition base_run (self : loc) (ops : list base_op) (h : heap) : heap :=
  fold_left (fun h o => base_apply self o h) ops h.

(** ** tsp.py *)

Definition tsp_view (h : heap) (self : loc) : option Tsp.Solution :=
  match read h self with
  | Some (OTspSolution r) =>
      if distinct [self; t_path r; t_used r; t_unused r]
      then
        match read h (t_problem r), read h (t_path r),
              read h (t_used r), read h (t_unused r) with
        | Some (OTspProblem p), Some (OList pa), Some (OSet us), Some (OSet un) =>
            Some (Tsp.mkSolution p (t_start r) pa us un (t_dist r))
        | _, _, _, _ => None
        end
      else None
  | _ => None
  end.

Definition tsp_store (h : heap) (self : loc) (s : Tsp.Solution) : heap :=
  match read h self with
  | Some (OTspSolution r) =>
      let h := write h (t_path r) (OList (Tsp.path s)) in
      let h := write h (t_used r) (OSet (Tsp.used s)) in
      let h := write h (t_unused r) (OSet (Tsp.unused s)) in
      write h self
            (OTspSolution
               (mkTspObject (t_problem r) (Tsp.start s) (t_path r) (t_used r)
                            (t_unused r) (Tsp.dist s)))
  | _ => h
  end.

Definition tsp_call {A : Type} (m : M Tsp.Solution A) (self : loc) : M heap A :=
  fun h =>
    match tsp_view h self with
    | Some s => let (s', r) := m s in (tsp_store h self s', r)
    | None => (h, Raise TypeError)
    end.

(** [Problem.empty_solution] *)
Definition tsp_empty_solution (problem : loc) : M heap loc :=
  fun h =>
    match read h problem with
    | Some (OTspProblem p) =>
        let s := Tsp.empty_solution p in
        let (h, lp) := alloc (OList (Tsp.path s)) h in
        let (h, lu) := alloc (OSet (Tsp.used s)) h in
        let (h, ln) := alloc (OSet (Tsp.unused s)) h in
        let (h, l) := alloc (OTspSolution
                               (mkTspObject problem (Tsp.start s) lp lu ln (Tsp.dist s))) h in
        (h, Ok l)
    | _ => (h, Raise TypeError)
    end.

(** [Solution.copy] *)
Definition tsp_copy (self : loc) : M heap loc :=
  fun h =>
    match read h self with
    | Some (OTspSolution r) =>
        match read h (t_path r), read h (t_used r), read h (t_unused r) with
        | Some (OList pa), Some (OSet us), Some (OSet un) =>
            let (h, lp) := alloc (OList pa) h in
            let (h, lu) := alloc (OSet us) h in
            let (h, ln) := alloc (OSet un) h in
            let (h, l) := alloc (OTspSolution
                                   (mkTspObject (t_problem r) (t_start r) lp lu ln
                                                (t_dist r))) h in
            (h, Ok l)
        | _, _, _ => (h, Raise TypeError)
        end
    | _ => (h, Raise TypeError)
    end.

Inductive tsp_op : Type :=
| TspAdd (c : Tsp.Component)
| TspStep (m : Tsp.LocalMove).

Definition tsp_apply (self : loc) (o : tsp_op) (h : heap) : heap :=
  match o with
  | TspAdd c => fst (tsp_call (Tsp.add c) self h)
  | TspStep m => fst (tsp_call (Tsp.step m) self h)
  end.

Definition tsp_run (self : loc) (ops : list tsp_op) (h : heap) : heap :=
  fold_left (fun h o => tsp_apply self o h) ops h.

(** ** Frames *)

(** [h] is an initial segment of [h']: every object of [h] is in [h'],
    at the same place and with the same contents. *)
Definition extends (h h' : heap) : Prop := exists ext, h' = h ++ ext.

(** [self] is a [Solution] object allocated after [h0], on collections
    allocated after [h0], for the problem at [p]. *)
Definition base_fresh (h0 h : heap) (self p : loc) : Prop :=
  extends h0 h
  /\ exists r, read h self = Some (OBaseSolution r)
               /\ b_problem r = p
               /\ (List.length h0 <= self)%nat
               /\ (List.length h0 <= b_containers r)%nat
               /\ (List.length h0 <= b_directions r)%nat
               /\ (List.length h0 <= b_picked r)%nat
               /\ (List.length h0 <= b_not_picked r)%nat.

Definition tsp_fresh (h0 h : heap) (self p : loc) : Prop :=
  extends h0 h
  /\ exists r, read h self = Some (OTspSolution r)
               /\ t_problem r = p
               /\ (List.length h0 <= self)%nat
               /\ (List.length h0 <= t_path r)%nat
               /\ (List.length h0 <= t_used r)%nat
               /\ (List.length h0 <= t_unused r)%nat.

End Store.

(* ================================================================== *)
(** * Well-formed instances, reachable states, recomputation *)
(* ================================================================== *)

Definition in_range (lo hi x : Z) : bool := (lo <=? x) && (x <? hi).

(** No element occurs twice (a list that stands for a set). *)
Fixpoint nodupb (l : list Z) : bool :=
  match l with
  | [] => true
  | x :: l' => negb (mem x l') && nodupb l'
  end.

(** A table of [r] rows of [c] numbers, and [k] such tables. *)
Definition shape2 {A : Type} (r c : Z) (t : list (list A)) : bool :=
  (len t =? r) && forallb (fun row => len row =? c) t.

Definition shape3 {A : Type} (k r c : Z) (t : list (list (list A))) : bool :=
  (len t =? k) && forallb (shape2 r c) t.

Module BaseSpec.
Import Base.

(** The arrays have the shapes [Problem.from_textio] gives them:
    [2 x n], [2 x n] and [4 x n x n]. *)
Definition wf_problem (p : Problem) : bool :=
  (0 <=? n p)
  && shape2 2 (n p) (depot_to_container p)
  && shape2 2 (n p) (container_to_plant p)
  && shape3 4 (n p) (n p) (container_to_container p).

Definition is_bit (d : Z) : bool := (d =? 0) || (d =? 1).

(** What every state built by [empty_solution], [add] on a candidate
    of [add_moves] and [step] on a move of [local_moves] satisfies. *)
Definition wf_solution (s : Solution) : bool :=
  wf_problem (problem s)
  && Nat.eqb (List.length (directions s)) (List.length (containers s))
  && forallb (in_range 0 (n (problem s))) (containers s)
  && forallb is_bit (directions s)
  && forallb (in_range 0 (n (problem s))) (not_picked s)
  && nodupb (not_picked s)
  && forallb (in_range 0 (n (problem s))) (picked s)
  && forallb (fun v => negb (mem v (not_picked s))) (picked s)
  && (len (containers s) + len (not_picked s) =? n (problem s)).

Inductive reachable : Solution -> Prop :=
| reach_empty (p : Problem) :
    wf_problem p = true -> reachable (empty_solution p)
| reach_add (s s' : Solution) (c : Component) :
    reachable s -> In c (add_moves s) -> add c s = (s', Ok tt) -> reachable s'
| reach_step (s s' : Solution) (m : LocalMove) :
    reachable s -> In m (local_moves s) -> step m s = (s', Ok tt) -> reachable s'.

(** The immediate transition cost of the candidate (v, d): the entry
    cost from the depot when the sequence is empty, the transition cost
    from the last element otherwise (the cost [add] charges). *)
Definition immediate_cost (s : Solution) (v d : Z) : result Z :=
  if len (containers s) =? 0 then
    lookup2 (depot_to_container (problem s)) (Some d) (Some v)
  else
    let* lc := getitem (containers s) (-1) in
    let* ld := getitem (directions s) (-1) in
    connection_cost (problem s) (mkComponent (Some lc) (Some ld))
                    (mkComponent (Some v) (Some d)).



(** The candidate for container [k] and orientation [d]. *)
Definition candidate_of (kd : Z * Z) : Component :=
  mkComponent (Some (fst kd)) (Some (snd kd)).


(** [add] called on each component of a list in turn, stopping at the
    first exception. *)
Fixpoint add_all (cs : list Component) : M Solution unit :=
  match cs with
  | [] => ret tt
  | c :: cs' => add c ;; add_all cs'
  end.

(** The accumulated cost as the specification defines it: the sum of
    the transition costs between consecutive elements of the sequence,
    the entry cost from the depot first. *)
Definition recomputed_cost (s : Solution) : result Z :=
  let stops := map (fun cd => mkComponent (Some (fst cd)) (Some (snd cd)))
                   (combine (containers s) (directions s)) in
  let* costs := rmap (fun t => connection_cost (problem s) (fst t) (snd t))
                     (pairwise (mkComponent (Some (-1)) None :: stops)) in
  Ok (fold_left Z.add costs 0).

(** Three containers on a line at 1, 2 and 3, the depot at 0 and the
    plant at 4; the orientation does not change a cost. *)
Definition line3 : Problem :=
  let m := [[0; 1; 2]; [1; 0; 1]; [2; 1; 0]] in
  mkProblem 3 [[1; 2; 3]; [1; 2; 3]] [[3; 2; 1]; [3; 2; 1]] [m; m; m; m].

(** The complete solution 0, 1, 2 built from the empty one. *)
Definition line3_tour : Solution :=
  fst (add_all [mkComponent (Some 0) (Some 0); mkComponent (Some 1) (Some 0);
                mkComponent (Some 2) (Some 0)]
               (empty_solution line3)).

(** Two containers; going from container 1 to container 0 costs 100,
    every other transition 1. *)
Definition oneway2 : Problem :=
  let m := [[0; 1]; [100; 0]] in
  mkProblem 2 [[1; 1]; [1; 1]] [[1; 1]; [1; 1]] [m; m; m; m].

(** Two containers standing at the depot: every cost is 0. *)
Definition zero2 : Problem :=
  let z := [[0; 0]; [0; 0]] in
  mkProblem 2 z z [z; z; z; z].
End BaseSpec.

Module TspSpec.
Import Tsp.

Fixpoint add_all (cs : list Component) : M Solution unit :=
  match cs with
  | [] => ret tt
  | c :: cs' => add c ;; add_all cs'
  end.

(** The unit square (0,0), (0,1), (1,1), (1,0). *)
Definition square : Problem :=
  new_problem [mkPoint 0 0; mkPoint 0 1; mkPoint 1 1; mkPoint 1 0].

(** [empty_solution()], then [add] of (0,1), (1,2), (2,3), (3,0). *)
Definition square_tour : Solution :=
  fst (add_all [mkComponent 0 1; mkComponent 1 2; mkComponent 2 3; mkComponent 3 0]
               (empty_solution square)).

(** The square root of 2 as binary64 rounds it. *)
Definition sqrt2 : float := PrimFloat.sqrt 2.

(** The distance table is [nnodes x nnodes] and the path holds point
    numbers. *)
Definition wf_solution (s : Solution) : bool :=
  shape2 (nnodes (problem s)) (nnodes (problem s)) (pdist (problem s))
  && forallb (in_range 0 (nnodes (problem s))) (path s).

(** No visited point is in the unvisited set. *)
Definition partitioned (s : Solution) : bool :=
  forallb (fun x => negb (mem x (unused s))) (used s).
End TspSpec.

Module StoreSpec.
Import Store.

(** The instance [line3] and the complete solution 0, 1, 2 built on it:
    the problem is object 0, the solution object 5. *)
Definition base_example : heap :=
  let h := fst (base_empty_solution 0%nat [OBaseProblem BaseSpec.line3]) in
  base_run 5%nat [BaseAdd (Base.mkComponent (Some 0) (Some 0));
                  BaseAdd (Base.mkComponent (Some 1) (Some 0));
                  BaseAdd (Base.mkComponent (Some 2) (Some 0))] h.

(** The unit square and the partial tour 0, 1 built on it: the problem
    is object 0, the solution object 4. *)
Definition tsp_example : heap :=
  let h := fst (tsp_empty_solution 0%nat [OTspProblem TspSpec.square]) in
  tsp_run 4%nat [TspAdd (Tsp.mkComponent 0 1)] h.
End StoreSpec.

(* ================================================================== *)
(** * Invariants of the reachable states *)
(* ================================================================== *)

Module BaseInv.
Import Base.

(** The containers placed and the unvisited ones are, together, the
    containers 0 .. n-1, each once. *)
Definition covers (s : Solution) : Prop :=
  Permutation (containers s ++ not_picked s) (range 0 (n (problem s))).

(** [picked] holds the containers placed. *)
Definition picked_placed (s : Solution) : Prop :=
  forall v, In v (picked s) <-> In v (containers s).
End BaseInv.


(** ** States of the closed-tour variant *)
Module TspInv.
Import Tsp.

(** The states a construction and a local search go through: the empty
    solution of a problem made by [Problem.__init__] with a start among
    its points, then [add] on components yielded by [add_moves] and
    [step] on moves yielded by [local_moves], each returning normally. *)
Inductive reachable : Solution -> Prop :=
| reach_empty (coords : list Point) (start : Z) :
    0 <= start < len coords ->
    reachable (empty_solution_with_start (new_problem coords) start)
| reach_add (s s' : Solution) (cs : list Component) (c : Component) :
    reachable s -> add_moves s = Ok cs -> In c cs ->
    add c s = (s', Ok tt) -> reachable s'
| reach_step (s s' : Solution) (m : LocalMove) :
    reachable s -> In m (local_moves s) -> step m s = (s', Ok tt) ->
    reachable s'.

(** The path visits no point twice and, with the unvisited set, makes
    up the points of the problem. *)
Definition partial_tour (s : Solution) : Prop :=
  len (path s) <= nnodes (problem s)
  /\ Permutation (path s ++ unused s) (range 0 (nnodes (problem s))).

(** The path visits every point once and then returns to the start. *)
Definition closed_tour (s : Solution) : Prop :=
  exists body,
    path s = body ++ [start s]
    /\ Permutation body (range 0 (nnodes (problem s)))
    /\ unused s = [].

(** What every reachable state satisfies. *)
Definition tour_inv (s : Solution) : Prop :=
  shape2 (nnodes (problem s)) (nnodes (problem s)) (pdist (problem s)) = true
  /\ 0 <= start s < nnodes (problem s)
  /\ hd_error (path s) = Some (start s)
  /\ (forall x, In x (used s) <-> In x (path s))
  /\ (partial_tour s \/ closed_tour s).

(** [self.problem.dist[c.u][c.v]] *)
Definition length_of (s : Solution) (c : Component) : result float :=
  dist_at (problem s) (u c) (v c).

(** Five points on a line, and the path 0, 1, 2, 3 on them. *)
Definition line5 : Problem :=
  new_problem [mkPoint 0 0; mkPoint 1 0; mkPoint 2 0; mkPoint 3 0; mkPoint 4 0].

Definition line5_path : Solution :=
  fst (TspSpec.add_all [mkComponent 0 1; mkComponent 1 2; mkComponent 2 3]
                       (empty_solution line5)).
End TspInv.

(** ** The layout of an instance file of the orientation variant *)
Module TextioSpec.
Import Base.

(** The integers of line [k] after the first line, counted from 0. *)
Definition line_at (lines : list (list Z)) (k : Z) : list Z :=
  nth (Z.to_nat k) lines [].

(** The [n] lines that start at line [first]. *)
Definition block (n : Z) (lines : list (list Z)) (first : Z) : list (list Z) :=
  map (fun a => line_at lines (first + a)) (range 0 n).

(** The instance that the lines describe: two lines of entry costs, two
    lines of exit costs, then four blocks of [n] lines, of which the third
    is table 3 and the fourth is table 2. *)
Definition laid_out (n : Z) (lines : list (list Z)) : Problem :=
  mkProblem n
    [line_at lines 0; line_at lines 1]
    [line_at lines 2; line_at lines 3]
    [block n lines 4; block n lines (4 + n);
     block n lines (4 + 3 * n); block n lines (4 + 2 * n)].

(** The arrays once the first [m] lines are stored: the later rows still
    hold their initial cells. *)
Definition row_upto (n : Z) (lines : list (list Z)) (m k : Z) : list Z :=
  if k <? m then line_at lines k else repeat 0 (Z.to_nat n).

Definition block_upto (n : Z) (lines : list (list Z)) (m first : Z)
  : list (list Z) :=
  map (fun a => row_upto n lines m (first + a)) (range 0 n).

Definition filled (n : Z) (lines : list (list Z)) (m : Z) : Problem :=
  mkProblem n
    [row_upto n lines m 0; row_upto n lines m 1]
    [row_upto n lines m 2; row_upto n lines m 3]
    [block_upto n lines m 4; block_upto n lines m (4 + n);
     block_upto n lines m (4 + 3 * n); block_upto n lines m (4 + 2 * n)].

(** An instance file for two containers. *)
Definition two_lines : list (list Z) :=
  [[1; 2]; [3; 4]; [5; 6]; [7; 8];
   [0; 10]; [11; 0]; [0; 20]; [21; 0]; [0; 30]; [31; 0]; [0; 40]; [41; 0]].
End TextioSpec.

(** ** The route of the orientation variant *)
Module BaseRoute.
Import Base.

(** The depot and the plant as [objective_incr_local] writes them: the
    nodes [-1] and [n], without orientation. *)
Definition depot_stop : Component := mkComponent (Some (-1)) None.
Definition plant_stop (p : Problem) : Component := mkComponent (Some (n p)) None.

Definition stop_of (cd : Z * Z) : Component :=
  mkComponent (Some (fst cd)) (Some (snd cd)).

(** The depot, the placed containers with their orientations, the
    plant. *)
Definition route (s : Solution) : list Component :=
  depot_stop :: map stop_of (combine (containers s) (directions s))
             ++ [plant_stop (problem s)].

(** The cost of the whole route, recomputed from the sequence with
    [connection_cost]: entry, transitions and exit. *)
Definition route_cost (s : Solution) : result Z :=
  let* costs := rmap (fun t => connection_cost (problem s) (fst t) (snd t))
                     (pairwise (route s)) in
  Ok (fold_left Z.add costs 0).

(** [connection_cost] as a number, 0 where it raises. *)
Definition leg (p : Problem) (x y : Component) : Z :=
  match connection_cost p x y with
  | Ok v => v
  | Raise _ => 0
  end.

(** The sum of the legs between neighbours. *)
Definition legs (p : Problem) (l : list Component) : Z :=
  fold_right Z.add 0 (map (fun t => leg p (fst t) (snd t)) (pairwise l)).

(** A stop of a well-formed state. *)
Definition placed_stop (p : Problem) (x : Component) : Prop :=
  exists c d, x = stop_of (c, d) /\ 0 <= c < n p /\ BaseSpec.is_bit d = true.

(** Every cost of the instance is at most [B] in absolute value. *)
Definition costs_within (p : Problem) (B : Z) : Prop :=
  Forall (Forall (fun e => Z.abs e <= B)) (depot_to_container p)
  /\ Forall (Forall (fun e => Z.abs e <= B)) (container_to_plant p)
  /\ Forall (Forall (Forall (fun e => Z.abs e <= B))) (container_to_container p).

(** The costs are small enough for the sums of the program to be exact
    in binary64: the [n + 1] legs of a route, the eight legs of a delta
    and the difference of two route costs stay within [2 ^ 53]. *)
Definition exact_costs (p : Problem) : Prop :=
  exists B, 0 <= B /\ costs_within p B /\ (2 * n p + 8) * B <= 2 ^ 53.

(** The move with the two orientations exchanged. *)
Definition crossed (m : LocalMove) : LocalMove :=
  mkLocalMove (i m) (j m) (j_dir m) (i_dir m).

(** Four containers on a line, costs by distance, orientation 1 one
    dearer on arrival. *)
Definition line4 : Problem :=
  let m0 := [[0; 1; 2; 3]; [1; 0; 1; 2]; [2; 1; 0; 1]; [3; 2; 1; 0]] in
  let m1 := [[0; 2; 3; 4]; [2; 0; 2; 3]; [3; 2; 0; 2]; [4; 3; 2; 0]] in
  mkProblem 4 [[1; 2; 3; 4]; [2; 3; 4; 5]] [[4; 3; 2; 1]; [4; 3; 2; 1]]
            [m0; m1; m0; m1].

Definition line4_tour : Solution :=
  fst (BaseSpec.add_all
         [mkComponent (Some 0) (Some 0); mkComponent (Some 1) (Some 0);
          mkComponent (Some 2) (Some 1); mkComponent (Some 3) (Some 0)]
         (empty_solution line4)).
End BaseRoute.
(* ================================================================== *)
(** * Lemmas on the runtime, the instances and the two classes *)
(* ================================================================== *)

Section Lookups.
Context {A : Type}.

Lemma len_nonneg (l : list A) : 0 <= len l.
Proof. unfold len. lia. Qed.

Lemma len_app (l1 l2 : list A) : len (l1 ++ l2) = len l1 + len l2.
Proof. unfold len. rewrite length_app. lia. Qed.

Lemma norm_index_inside (n i : Z) :
  0 <= i < n -> norm_index n i = Some (Z.to_nat i).
Proof.
  intros H. unfold norm_index.
  replace (0 <=? i) with true by (symmetry; apply Z.leb_le; lia).
  replace (i <? n) with true by (symmetry; apply Z.ltb_lt; lia).
  reflexivity.
Qed.

Lemma norm_index_last (n : Z) :
  0 < n -> norm_index n (-1) = Some (Z.to_nat (n - 1)).
Proof.
  intros H. unfold norm_index.
  destruct (Z.leb_spec 0 (-1)); [ lia | ].
  destruct (Z.leb_spec (- n) (-1)); [ | lia ].
  destruct (Z.ltb_spec (-1) 0); [ | lia ].
  cbv beta iota delta [andb]. f_equal. f_equal. lia.
Qed.

Lemma norm_index_bound (n i : Z) (k : nat) :
  norm_index n i = Some k -> (Z.of_nat k < n)%Z.
Proof.
  unfold norm_index.
  destruct ((0 <=? i) && (i <? n)) eqn:E1.
  - apply andb_prop in E1. destruct E1 as [H1 H2].
    apply Z.leb_le in H1. apply Z.ltb_lt in H2.
    intros [= <-]. lia.
  - destruct ((- n <=? i) && (i <? 0)) eqn:E2; [ | discriminate ].
    apply andb_prop in E2. destruct E2 as [H1 H2].
    apply Z.leb_le in H1. apply Z.ltb_lt in H2.
    intros [= <-]. lia.
Qed.

Lemma getitem_inside (l : list A) (i : Z) :
  0 <= i < len l -> exists x, getitem l i = Ok x /\ nth_error l (Z.to_nat i) = Some x.
Proof.
  intros H. unfold getitem. rewrite norm_index_inside by assumption.
  destruct (nth_error l (Z.to_nat i)) as [x | ] eqn:E.
  - exists x. split; reflexivity.
  - apply nth_error_None in E. unfold len in H. lia.
Qed.

Lemma getitem_In (l : list A) (i : Z) (x : A) :
  getitem l i = Ok x -> In x l.
Proof.
  unfold getitem. destruct (norm_index (len l) i); [ | discriminate ].
  destruct (nth_error l n) eqn:E; [ | discriminate ].
  intros [= <-]. eapply nth_error_In; eassumption.
Qed.

Lemma getitem_last (l : list A) :
  l <> [] -> exists x, getitem l (-1) = Ok x /\ In x l.
Proof.
  intros H. unfold getitem.
  assert (0 < len l) by (destruct l; [ congruence | unfold len; cbn; lia ]).
  rewrite norm_index_last by assumption.
  destruct (nth_error l (Z.to_nat (len l - 1))) as [x | ] eqn:E.
  - exists x. split; [ reflexivity | eapply nth_error_In; eassumption ].
  - apply nth_error_None in E. unfold len in *. lia.
Qed.

Lemma update_length (l : list A) (k : nat) (x : A) :
  List.length (update l k x) = List.length l.
Proof.
  revert k. induction l as [ | y l IH ]; intros [ | k ]; cbn; auto.
Qed.

Lemma In_update (l : list A) (k : nat) (x y : A) :
  In y (update l k x) -> y = x \/ In y l.
Proof.
  revert k. induction l as [ | z l IH ]; intros [ | k ]; cbn; try tauto.
  - intros [ <- | H ]; auto.
  - intros [ <- | H ]; auto. apply IH in H. tauto.
Qed.

Lemma setitem_length (l l' : list A) (i : Z) (x : A) :
  setitem l i x = Ok l' -> List.length l' = List.length l.
Proof.
  unfold setitem. destruct (norm_index (len l) i); [ | discriminate ].
  intros [= <-]. apply update_length.
Qed.

Lemma setitem_In (l l' : list A) (i : Z) (x y : A) :
  setitem l i x = Ok l' -> In y l' -> y = x \/ In y l.
Proof.
  unfold setitem. destruct (norm_index (len l) i); [ | discriminate ].
  intros [= <-]. apply In_update.
Qed.
End Lookups.

Lemma in_range_spec (lo hi x : Z) : in_range lo hi x = true <-> lo <= x < hi.
Proof.
  unfold in_range. rewrite andb_true_iff, Z.leb_le, Z.ltb_lt. tauto.
Qed.

Lemma shape2_spec {A : Type} (r c : Z) (t : list (list A)) :
  shape2 r c t = true ->
  len t = r /\ forall row, In row t -> len row = c.
Proof.
  unfold shape2. rewrite andb_true_iff, Z.eqb_eq, forallb_forall.
  intros [H1 H2]. split; [ assumption | ].
  intros row Hin. apply Z.eqb_eq. auto.
Qed.

Lemma shape3_spec {A : Type} (k r c : Z) (t : list (list (list A))) :
  shape3 k r c t = true ->
  len t = k /\ forall plane, In plane t -> shape2 r c plane = true.
Proof.
  unfold shape3. rewrite andb_true_iff, Z.eqb_eq, forallb_forall. tauto.
Qed.

Lemma lookup2_ok (r c : Z) (t : list (list Z)) (a b : Z) :
  shape2 r c t = true -> 0 <= a < r -> 0 <= b < c ->
  exists x, lookup2 t (Some a) (Some b) = Ok x.
Proof.
  intros Hs Ha Hb. apply shape2_spec in Hs. destruct Hs as [Hr Hc].
  unfold lookup2.
  destruct (getitem_inside t a) as (row & Hrow & _); [ lia | ].
  rewrite Hrow. cbn.
  destruct (getitem_inside row b) as (x & Hx & _).
  { rewrite (Hc row); [ lia | eapply getitem_In; eassumption ]. }
  exists x. assumption.
Qed.

Lemma lookup3_ok (k r c : Z) (t : list (list (list Z))) (a b d : Z) :
  shape3 k r c t = true -> 0 <= a < k -> 0 <= b < r -> 0 <= d < c ->
  exists x, lookup3 t (Some a) (Some b) (Some d) = Ok x.
Proof.
  intros Hs Ha Hb Hd. apply shape3_spec in Hs. destruct Hs as [Hk Hp].
  unfold lookup3.
  destruct (getitem_inside t a) as (plane & Hplane & _); [ lia | ].
  rewrite Hplane. cbn.
  assert (Hs2 : shape2 r c plane = true)
    by (apply Hp; eapply getitem_In; eassumption).
  destruct (lookup2_ok r c plane b d Hs2 Hb Hd) as (x & Hx).
  exists x. exact Hx.
Qed.

Lemma is_bit_spec (d : Z) : BaseSpec.is_bit d = true <-> d = 0 \/ d = 1.
Proof.
  unfold BaseSpec.is_bit. rewrite orb_true_iff, !Z.eqb_eq. tauto.
Qed.

Lemma dir_index_bits (a b : Z) :
  BaseSpec.is_bit a = true -> BaseSpec.is_bit b = true ->
  dir_index (Some a) (Some b) = Ok (2 * a + b).
Proof.
  rewrite !is_bit_spec. intros [-> | ->] [-> | ->]; reflexivity.
Qed.

Lemma mem_spec (x : Z) (s : list Z) : mem x s = true <-> In x s.
Proof.
  unfold mem. rewrite existsb_exists. split.
  - intros (y & Hin & Heq). apply Z.eqb_eq in Heq. now subst.
  - intros Hin. exists x. split; [ assumption | apply Z.eqb_refl ].
Qed.

Lemma nodupb_spec (l : list Z) : nodupb l = true <-> NoDup l.
Proof.
  induction l as [ | x l IH ]; cbn.
  - split; [ constructor | reflexivity ].
  - rewrite andb_true_iff, negb_true_iff, IH. split.
    + intros [Hx Hl]. constructor; [ | assumption ].
      intros Hin. apply mem_spec in Hin. congruence.
    + intros H. inversion H as [ | ? ? Hx Hl ]; subst. split; [ | assumption ].
      destruct (mem x l) eqn:E; [ | reflexivity ].
      apply mem_spec in E. contradiction.
Qed.

Section BaseLookups.
Import Base BaseSpec.

Lemma wf_problem_spec (p : Problem) :
  wf_problem p = true ->
  0 <= n p
  /\ shape2 2 (n p) (depot_to_container p) = true
  /\ shape2 2 (n p) (container_to_plant p) = true
  /\ shape3 4 (n p) (n p) (container_to_container p) = true.
Proof.
  unfold wf_problem. rewrite !andb_true_iff, Z.leb_le. tauto.
Qed.

Lemma connection_cost_ok (p : Problem) (lc ld v d : Z) :
  wf_problem p = true ->
  0 <= lc < n p -> is_bit ld = true -> 0 <= v < n p -> is_bit d = true ->
  exists cost,
    connection_cost p (mkComponent (Some lc) (Some ld)) (mkComponent (Some v) (Some d))
    = Ok cost.
Proof.
  intros Hp Hlc Hld Hv Hd.
  apply wf_problem_spec in Hp. destruct Hp as (Hn & _ & _ & H3).
  unfold connection_cost. cbn [node direction].
  destruct (Z.eqb_spec lc (-1)); [ lia | ].
  destruct (Z.eqb_spec v (n p)); [ lia | ].
  rewrite dir_index_bits by assumption. cbn [rbind].
  apply is_bit_spec in Hld, Hd.
  eapply lookup3_ok; [ eassumption | lia | lia | lia ].
Qed.

Lemma entry_cost_ok (p : Problem) (v d : Z) :
  wf_problem p = true -> 0 <= v < n p -> is_bit d = true ->
  exists cost, lookup2 (depot_to_container p) (Some d) (Some v) = Ok cost.
Proof.
  intros Hp Hv Hd.
  apply wf_problem_spec in Hp. destruct Hp as (Hn & H1 & _ & _).
  apply is_bit_spec in Hd.
  eapply lookup2_ok; [ eassumption | lia | lia ].
Qed.

Lemma wf_solution_spec (s : Solution) :
  wf_solution s = true <->
  wf_problem (problem s) = true
  /\ List.length (directions s) = List.length (containers s)
  /\ (forall c, In c (containers s) -> 0 <= c < n (problem s))
  /\ (forall d, In d (directions s) -> is_bit d = true)
  /\ (forall v, In v (not_picked s) -> 0 <= v < n (problem s))
  /\ NoDup (not_picked s)
  /\ (forall v, In v (picked s) -> 0 <= v < n (problem s))
  /\ (forall v, In v (picked s) -> mem v (not_picked s) = false)
  /\ len (containers s) + len (not_picked s) = n (problem s).
Proof.
  unfold wf_solution.
  rewrite !andb_true_iff, Nat.eqb_eq, Z.eqb_eq, !forallb_forall, nodupb_spec.
  setoid_rewrite in_range_spec. setoid_rewrite negb_true_iff.
  tauto.
Qed.
End BaseLookups.

Lemma set_add_member (x : Z) (s : list Z) : mem x s = true -> set_add x s = s.
Proof. unfold set_add. now intros ->. Qed.

Lemma set_remove_absent (x : Z) (s : list Z) :
  mem x s = false -> set_remove x s = Raise KeyError.
Proof. unfold set_remove. now intros ->. Qed.

Section BaseAdd.
Import Base BaseSpec.

(** The cost [add] charges for a candidate with proper fields on a
    well-formed state is defined. *)
Lemma add_cost_ok (s : Solution) (v d : Z) :
  wf_solution s = true -> 0 <= v < n (problem s) -> is_bit d = true ->
  exists cost,
    (if len (containers s) =? 0 then
       lookup2 (depot_to_container (problem s)) (Some d) (Some v)
     else
       let* lc := getitem (containers s) (-1) in
       let* ld := getitem (directions s) (-1) in
       connection_cost (problem s) (mkComponent (Some lc) (Some ld))
                       (mkComponent (Some v) (Some d))) = Ok cost.
Proof.
  intros Hwf Hv Hd.
  apply wf_solution_spec in Hwf.
  destruct Hwf as (Hp & Hlen & Hcs & Hds & _).
  destruct (Z.eqb_spec (len (containers s)) 0) as [E | E].
  - apply entry_cost_ok; assumption.
  - assert (Hne : containers s <> []) by (intros H0; rewrite H0 in E; now apply E).
    assert (Hne' : directions s <> [])
      by (intros H0; rewrite H0 in Hlen; destruct (containers s); [ congruence | discriminate ]).
    destruct (getitem_last (containers s) Hne) as (lc & -> & Hlc).
    destruct (getitem_last (directions s) Hne') as (ld & -> & Hld).
    cbn [rbind].
    apply connection_cost_ok; auto.
Qed.

Lemma base_add_picked_unit (s : Solution) (v d : Z) :
  wf_solution s = true -> mem v (picked s) = true -> is_bit d = true ->
  exists cost,
    add (mkComponent (Some v) (Some d)) s
    = (mkSolution (problem s) (containers s ++ [v]) (directions s ++ [d])
                  (picked s) (not_picked s) (obj_value s + cost),
       Raise KeyError).
Proof.
  intros Hwf Hv Hd.
  pose proof (proj1 (wf_solution_spec s) Hwf) as (_ & _ & _ & _ & _ & _ & Hrange & Hdisj & _).
  apply mem_spec in Hv.
  destruct (add_cost_ok s v d Hwf (Hrange v Hv) Hd) as (cost & Hcost).
  exists cost.
  unfold add, bind, get, lift, modify. cbn [node direction].
  rewrite Hcost. cbn [as_int].
  unfold set_picked, set_directions, set_containers, set_obj_value.
  cbn [problem containers directions picked not_picked obj_value].
  rewrite (set_remove_absent v (not_picked s)) by (apply Hdisj; assumption).
  rewrite set_add_member by (apply mem_spec; assumption).
  reflexivity.
Qed.

(** The same, with the cost that is added named: it is the immediate
    transition cost of the component. *)
Lemma base_add_picked_unit_cost (s : Solution) (v d : Z) :
  wf_solution s = true -> mem v (picked s) = true -> is_bit d = true ->
  exists cost,
    immediate_cost s v d = Ok cost
    /\ add (mkComponent (Some v) (Some d)) s
       = (mkSolution (problem s) (containers s ++ [v]) (directions s ++ [d])
                     (picked s) (not_picked s) (obj_value s + cost),
          Raise KeyError).
Proof.
  intros Hwf Hv Hd.
  pose proof (proj1 (wf_solution_spec s) Hwf) as (_ & _ & _ & _ & _ & _ & Hrange & Hdisj & _).
  apply mem_spec in Hv.
  destruct (add_cost_ok s v d Hwf (Hrange v Hv) Hd) as (cost & Hcost).
  exists cost. split; [ exact Hcost | ].
  unfold add, bind, get, lift, modify. cbn [node direction].
  rewrite Hcost. cbn [as_int].
  unfold set_picked, set_directions, set_containers, set_obj_value.
  cbn [problem containers directions picked not_picked obj_value].
  rewrite (set_remove_absent v (not_picked s)) by (apply Hdisj; assumption).
  rewrite set_add_member by (apply mem_spec; assumption).
  reflexivity.
Qed.
End BaseAdd.

Section TspAdd.
Import Tsp.

Lemma tsp_add_path (c : Component) (s : Solution) :
  path (fst (add c s)) = path s ++ [v c].
Proof.
  unfold add, bind, get, lift, modify, ret. cbn.
  destruct (negb (v c =? start s)).
  - destruct (set_remove (v c) (unused s)); cbn; [ | reflexivity ].
    destruct (dist_at (problem s) (u c) (v c)); reflexivity.
  - cbn. destruct (dist_at (problem s) (u c) (v c)); reflexivity.
Qed.

Lemma tsp_add_used_unit (c : Component) (s : Solution) :
  v c <> start s -> mem (v c) (unused s) = false ->
  add c s = (set_path (path s ++ [v c]) s, Raise KeyError).
Proof.
  intros Hne Hun.
  unfold add, bind, get, lift, modify, ret. cbn.
  destruct (Z.eqb_spec (v c) (start s)); [ contradiction | ].
  cbn. rewrite set_remove_absent by assumption. reflexivity.
Qed.

Lemma tsp_add_start_unit (c : Component) (s : Solution) (d : float) :
  v c = start s -> dist_at (problem s) (u c) (v c) = Ok d ->
  add c s
  = (mkSolution (problem s) (start s) (path s ++ [v c])
                (set_add (v c) (used s)) (unused s) (PrimFloat.add (dist s) d),
     Ok tt).
Proof.
  intros He Hd.
  unfold add, bind, get, lift, modify, ret. cbn.
  destruct (Z.eqb_spec (v c) (start s)); [ | contradiction ].
  cbn. rewrite Hd. reflexivity.
Qed.
End TspAdd.

Lemma In_range (a b x : Z) : In x (range a b) <-> a <= x < b.
Proof.
  unfold range. rewrite in_map_iff. split.
  - intros (k & <- & Hk). apply in_seq in Hk. lia.
  - intros H. exists (Z.to_nat (x - a)). split; [ lia | ].
    apply in_seq. lia.
Qed.

Lemma len_range (a b : Z) : len (range a b) = Z.max 0 (b - a).
Proof.
  unfold len, range. rewrite length_map, length_seq. lia.
Qed.

Lemma NoDup_range (a b : Z) : NoDup (range a b).
Proof.
  unfold range. apply Finite.Injective_map_NoDup; [ | apply seq_NoDup ].
  intros k1 k2 H. lia.
Qed.

Lemma In_set_discard (v x : Z) (l : list Z) :
  In x (set_discard v l) <-> In x l /\ x <> v.
Proof.
  unfold set_discard. rewrite filter_In, negb_true_iff, Z.eqb_neq.
  intuition congruence.
Qed.

Lemma NoDup_set_discard (v : Z) (l : list Z) : NoDup l -> NoDup (set_discard v l).
Proof. apply NoDup_filter. Qed.

Lemma length_set_discard (v : Z) (l : list Z) :
  NoDup l -> In v l -> S (List.length (set_discard v l)) = List.length l.
Proof.
  induction l as [ | y l IH ]; intros Hnd Hin; [ contradiction | ].
  inversion Hnd as [ | ? ? Hy Hl ]; subst.
  cbn. destruct (Z.eqb_spec v y) as [ -> | Hne ]; cbn.
  - f_equal. clear IH Hnd Hin Hl.
    induction l as [ | z l IH ]; [ reflexivity | ].
    cbn. destruct (Z.eqb_spec y z) as [ -> | Hz ]; cbn.
    + exfalso. apply Hy. now left.
    + f_equal. apply IH. intros H. apply Hy. now right.
  - f_equal. apply IH; [ assumption | ].
    destruct Hin as [ -> | Hin ]; [ congruence | assumption ].
Qed.

Lemma set_remove_member (x : Z) (s : list Z) :
  mem x s = true -> set_remove x s = Ok (set_discard x s).
Proof. unfold set_remove. now intros ->. Qed.

Lemma In_set_add (v x : Z) (l : list Z) : In x (set_add v l) <-> x = v \/ In x l.
Proof.
  unfold set_add. destruct (mem v l) eqn:E.
  - apply mem_spec in E. intuition congruence.
  - rewrite in_app_iff. cbn. intuition congruence.
Qed.

Section BaseReachable.
Import Base BaseSpec.

Lemma In_add_moves (s : Solution) (c : Component) :
  In c (add_moves s) <->
  exists v d, c = mkComponent (Some v) (Some d)
              /\ In v (not_picked s) /\ is_bit d = true.
Proof.
  unfold add_moves. rewrite in_flat_map. split.
  - intros (v & Hv & Hc). apply in_map_iff in Hc. destruct Hc as (d & <- & Hd).
    exists v, d. split; [ reflexivity | ]. split; [ assumption | ].
    apply In_range in Hd. apply is_bit_spec. lia.
  - intros (v & d & -> & Hv & Hd). exists v. split; [ assumption | ].
    apply in_map_iff. exists d. split; [ reflexivity | ].
    apply In_range. apply is_bit_spec in Hd. lia.
Qed.

Lemma move_of_bits (a b k : Z) :
  i (move_of a b k) = a /\ j (move_of a b k) = b
  /\ is_bit (i_dir (move_of a b k)) = true /\ is_bit (j_dir (move_of a b k)) = true.
Proof.
  unfold move_of.
  destruct (k =? 0); [ now cbn | ].
  destruct (k =? 1); [ now cbn | ].
  destruct (k =? 2); now cbn.
Qed.

Lemma In_local_moves (s : Solution) (m : LocalMove) :
  In m (local_moves s) ->
  0 <= i m /\ i m <= j m /\ j m < n (problem s)
  /\ is_bit (i_dir m) = true /\ is_bit (j_dir m) = true.
Proof.
  unfold local_moves. rewrite in_flat_map. intros (a & Ha & H).
  apply in_flat_map in H. destruct H as (b & Hb & H).
  apply in_map_iff in H. destruct H as (k & <- & _).
  apply In_range in Ha, Hb.
  destruct (move_of_bits a b k) as (-> & -> & Hi & Hj).
  repeat split; try assumption; lia.
Qed.

(** [add] of a candidate of [add_moves] returns normally. *)
Lemma base_add_candidate (s : Solution) (v d : Z) :
  wf_solution s = true -> In v (not_picked s) -> is_bit d = true ->
  exists cost,
    add (mkComponent (Some v) (Some d)) s
    = (mkSolution (problem s) (containers s ++ [v]) (directions s ++ [d])
                  (set_add v (picked s)) (set_discard v (not_picked s))
                  (obj_value s + cost),
       Ok tt).
Proof.
  intros Hwf Hv Hd.
  pose proof (proj1 (wf_solution_spec s) Hwf) as (_ & _ & _ & _ & Hrange & _).
  destruct (add_cost_ok s v d Hwf (Hrange v Hv) Hd) as (cost & Hcost).
  exists cost.
  unfold add, bind, get, lift, modify. cbn [node direction].
  rewrite Hcost. cbn [as_int].
  unfold set_picked, set_directions, set_containers, set_obj_value.
  cbn [problem containers directions picked not_picked obj_value].
  rewrite set_remove_member by (apply mem_spec; assumption).
  reflexivity.
Qed.

Lemma wf_after_add (s : Solution) (v d cost : Z) :
  wf_solution s = true -> In v (not_picked s) -> is_bit d = true ->
  wf_solution (mkSolution (problem s) (containers s ++ [v]) (directions s ++ [d])
                          (set_add v (picked s)) (set_discard v (not_picked s))
                          (obj_value s + cost)) = true.
Proof.
  intros Hwf Hv Hd.
  apply wf_solution_spec in Hwf.
  destruct Hwf as (Hp & Hlen & Hcs & Hds & Hnp & Hnd & Hpk & Hdisj & Hsum).
  apply wf_solution_spec. cbn [problem containers directions picked not_picked].
  split; [ assumption | ].
  split; [ rewrite !length_app; cbn; lia | ].
  split.
  { intros c Hc. apply in_app_iff in Hc. destruct Hc as [Hc | [ <- | [] ]]; auto. }
  split.
  { intros x Hx. apply in_app_iff in Hx. destruct Hx as [Hx | [ <- | [] ]]; auto. }
  split.
  { intros x Hx. apply In_set_discard in Hx. apply Hnp. tauto. }
  split; [ now apply NoDup_set_discard | ].
  split.
  { intros x Hx. apply In_set_add in Hx. destruct Hx as [ -> | Hx ]; auto. }
  split.
  { intros x Hx. destruct (mem x (set_discard v (not_picked s))) eqn:E; [ | reflexivity ].
    apply mem_spec in E. apply In_set_discard in E. destruct E as [E Hne].
    apply In_set_add in Hx. destruct Hx as [ -> | Hx ]; [ congruence | ].
    apply Hdisj in Hx. apply mem_spec in E. congruence. }
  rewrite len_app. unfold len in *. cbn [List.length].
  pose proof (length_set_discard v (not_picked s) Hnd Hv). lia.
Qed.

Lemma base_step_ok_inv (m : LocalMove) (s s' : Solution) :
  step m s = (s', Ok tt) ->
  exists tmp cj cs1 cs2 ds1 ds2,
    getitem (containers s) (i m) = Ok tmp
    /\ getitem (containers s) (j m) = Ok cj
    /\ setitem (containers s) (i m) cj = Ok cs1
    /\ setitem cs1 (j m) tmp = Ok cs2
    /\ setitem (directions s) (i m) (i_dir m) = Ok ds1
    /\ setitem ds1 (j m) (j_dir m) = Ok ds2
    /\ s' = mkSolution (problem s) cs2 ds2 (picked s) (not_picked s) (obj_value s).
Proof.
  unfold step, bind, get, lift, modify.
  destruct (getitem (containers s) (i m)) as [tmp | ] eqn:G1; [ | discriminate ].
  destruct (getitem (containers s) (j m)) as [cj | ] eqn:G2; [ | discriminate ].
  destruct (setitem (containers s) (i m) cj) as [cs1 | ] eqn:E1; [ | discriminate ].
  cbn.
  destruct (setitem cs1 (j m) tmp) as [cs2 | ] eqn:E2; [ | discriminate ].
  cbn.
  destruct (setitem (directions s) (i m) (i_dir m)) as [ds1 | ] eqn:E3; [ | discriminate ].
  cbn.
  destruct (setitem ds1 (j m) (j_dir m)) as [ds2 | ] eqn:E4; [ | discriminate ].
  cbn. intros [= <-].
  exists tmp, cj, cs1, cs2, ds1, ds2. repeat split; auto.
Qed.

Lemma wf_after_step (m : LocalMove) (s s' : Solution) :
  wf_solution s = true -> is_bit (i_dir m) = true -> is_bit (j_dir m) = true ->
  step m s = (s', Ok tt) -> wf_solution s' = true.
Proof.
  intros Hwf Hi Hj Hstep.
  apply base_step_ok_inv in Hstep.
  destruct Hstep as (tmp & cj & cs1 & cs2 & ds1 & ds2 & G1 & G2 & S1 & S2 & S3 & S4 & ->).
  apply wf_solution_spec in Hwf.
  destruct Hwf as (Hp & Hlen & Hcs & Hds & Hnp & Hnd & Hpk & Hdisj & Hsum).
  apply wf_solution_spec. cbn [problem containers directions picked not_picked].
  pose proof (setitem_length _ _ _ _ S1). pose proof (setitem_length _ _ _ _ S2).
  pose proof (setitem_length _ _ _ _ S3). pose proof (setitem_length _ _ _ _ S4).
  split; [ assumption | ].
  split; [ congruence | ].
  split.
  { intros c Hc. apply (setitem_In _ _ _ _ _ S2) in Hc.
    destruct Hc as [ -> | Hc ]; [ apply Hcs; eapply getitem_In; eassumption | ].
    apply (setitem_In _ _ _ _ _ S1) in Hc.
    destruct Hc as [ -> | Hc ]; [ apply Hcs; eapply getitem_In; eassumption | auto ]. }
  split.
  { intros d Hdin. apply (setitem_In _ _ _ _ _ S4) in Hdin.
    destruct Hdin as [ -> | Hdin ]; [ assumption | ].
    apply (setitem_In _ _ _ _ _ S3) in Hdin.
    destruct Hdin as [ -> | Hdin ]; [ assumption | auto ]. }
  split; [ assumption | ].
  split; [ assumption | ].
  split; [ assumption | ].
  split; [ assumption | ].
  unfold len in *. lia.
Qed.

Lemma wf_empty_solution (p : Problem) :
  wf_problem p = true -> wf_solution (empty_solution p) = true.
Proof.
  intros Hp. apply wf_solution_spec. cbn.
  pose proof (proj1 (wf_problem_spec p Hp)) as Hn.
  split; [ assumption | ].
  split; [ reflexivity | ].
  split; [ contradiction | ].
  split; [ contradiction | ].
  split; [ intros v Hv; now apply In_range in Hv | ].
  split; [ apply NoDup_range | ].
  split; [ contradiction | ].
  split; [ contradiction | ].
  rewrite len_range. unfold len. cbn. lia.
Qed.

End BaseReachable.

Lemma rmap_ok {A B : Type} (f : A -> result B) (l : list A) :
  (forall x, In x l -> exists y, f x = Ok y) ->
  exists ys, rmap f l = Ok ys /\ List.length ys = List.length l.
Proof.
  induction l as [ | x l IH ]; intros H.
  - exists []. split; reflexivity.
  - destruct (H x (or_introl eq_refl)) as (y & Hy).
    destruct IH as (ys & Hys & Hlen); [ intros z Hz; apply H; now right | ].
    exists (y :: ys). cbn. rewrite Hy. cbn. rewrite Hys. cbn.
    split; [ reflexivity | now rewrite Hlen ].
Qed.

Lemma rfold_ok {A B : Type} (f : A -> B -> result A) (l : list B) :
  (forall a x, In x l -> exists a', f a x = Ok a') ->
  forall a, exists a', rfold f l a = Ok a'.
Proof.
  induction l as [ | x l IH ]; intros H a.
  - exists a. reflexivity.
  - destruct (H a x (or_introl eq_refl)) as (a1 & Ha1).
    cbn. rewrite Ha1. cbn. apply IH. intros a2 z Hz. apply H. now right.
Qed.

Lemma py_min_ok (l : list Z) : l <> [] -> exists m, py_min l = Ok m.
Proof.
  destruct l as [ | x l ]; [ congruence | ]. intros _. cbn. eauto.
Qed.

Section BaseLowerBound.
Import Base BaseSpec.

Lemma incoming_options_ok (p : Problem) (conts : list Z) (dest : Z) :
  wf_problem p = true ->
  (forall v, In v conts -> 0 <= v < n p) -> 0 <= dest < n p ->
  exists options, incoming_options p conts dest = Ok options.
Proof.
  intros Hp Hconts Hdest.
  pose proof (wf_problem_spec p Hp) as (_ & _ & _ & H3).
  unfold incoming_options.
  edestruct (@rmap_ok (Z * Z) Z) as (ys & Hys & _); [ | eexists; exact Hys ].
  intros [dep dir] Hin. apply filter_In in Hin. destruct Hin as [Hin _].
  apply in_prod_iff in Hin. destruct Hin as [Hdep Hdir].
  apply In_range in Hdir. cbn [fst snd].
  eapply lookup3_ok; [ eassumption | lia | auto | assumption ].
Qed.

(** The relaxation is defined on every non-empty set of containers of a
    well-formed instance. *)
Lemma get_minimal_connections_ok (p : Problem) (conts : list Z) :
  wf_problem p = true ->
  (forall v, In v conts -> 0 <= v < n p) -> conts <> [] ->
  exists rest, get_minimal_connections p conts = Ok rest.
Proof.
  intros Hp Hconts Hne.
  pose proof (wf_problem_spec p Hp) as (_ & _ & H2 & _).
  unfold get_minimal_connections.
  edestruct (@rfold_ok Z Z) as (acc & ->).
  { intros a dest Hin.
    destruct (incoming_options_ok p conts dest Hp Hconts (Hconts dest Hin))
      as (options & ->).
    cbn [rbind].
    destruct (Z.ltb_spec 0 (len options)) as [Hpos | _]; [ | eauto ].
    destruct (py_min_ok options) as (m & ->); [ | cbn; eauto ].
    intros ->. unfold len in Hpos. cbn in Hpos. lia. }
  cbn [rbind].
  edestruct (@rmap_ok (Z * Z) Z) as (ys & -> & Hlen).
  { intros [dep dir] Hin. apply in_prod_iff in Hin. destruct Hin as [Hdep Hdir].
    apply In_range in Hdir. cbn [fst snd].
    eapply lookup2_ok; [ eassumption | lia | auto ]. }
  cbn [rbind].
  destruct (py_min_ok ys) as (m & ->); [ | cbn; eauto ].
  intros ->. rewrite length_prod in Hlen.
  destruct conts; [ congruence | ]. cbn in Hlen. discriminate.
Qed.

Lemma base_lower_bound_partial (s : Solution) :
  wf_solution s = true -> len (containers s) < n (problem s) ->
  exists rest,
    get_minimal_connections (problem s) (not_picked s) = Ok rest
    /\ lower_bound s = Ok (Some (obj_value s + rest)).
Proof.
  intros Hwf Hlt.
  pose proof (proj1 (wf_solution_spec s) Hwf) as (Hp & _ & _ & _ & Hnp & _ & _ & _ & Hsum).
  assert (Hne : not_picked s <> []).
  { intros E. rewrite E in Hsum. unfold len in Hsum at 2. cbn in Hsum. lia. }
  destruct (get_minimal_connections_ok (problem s) (not_picked s) Hp Hnp Hne)
    as (rest & Hrest).
  exists rest. split; [ assumption | ].
  unfold lower_bound.
  destruct (Z.eqb_spec (len (not_picked s)) 0) as [E | _]; [ lia | ].
  rewrite Hrest. reflexivity.
Qed.

Lemma base_lower_bound_complete (s : Solution) :
  wf_solution s = true -> len (containers s) = n (problem s) ->
  lower_bound s = Ok None.
Proof.
  intros Hwf Heq.
  pose proof (proj1 (wf_solution_spec s) Hwf) as (_ & _ & _ & _ & _ & _ & _ & _ & Hsum).
  unfold lower_bound.
  destruct (Z.eqb_spec (len (not_picked s)) 0) as [_ | E]; [ reflexivity | lia ].
Qed.
End BaseLowerBound.

Lemma hd_error_app {A : Type} (l l' : list A) :
  l <> [] -> hd_error (l ++ l') = hd_error l.
Proof. destruct l; [ congruence | reflexivity ]. Qed.

Lemma hd_error_reverse_slice {A : Type} (l : list A) (i j : Z) :
  1 <= i -> hd_error (reverse_slice l i j) = hd_error l.
Proof.
  intros Hi. destruct l as [ | x l ].
  - unfold reverse_slice. rewrite !firstn_nil, !skipn_nil, firstn_nil. reflexivity.
  - unfold reverse_slice.
    assert (Hlo : exists k, slice_bound (len (x :: l)) i = S k).
    { unfold slice_bound. destruct (Z.ltb_spec i 0); [ lia | ].
      exists (Nat.pred (Z.to_nat (Z.min i (len (x :: l))))).
      unfold len. cbn [List.length]. lia. }
    destruct Hlo as (k & ->). reflexivity.
Qed.

Section TspFirst.
Import Tsp.

Ltac run_binds :=
  repeat (cbn [fst snd path set_dist set_path];
          match goal with
          | |- context [match ?r with Ok _ => _ | Raise _ => _ end] => destruct r
          | |- context [if ?b then _ else _] => destruct b
          end).

(** [step] leaves the path as it was (when it raises before the slice
    assignment) or with the slice reversed. *)
Lemma tsp_step_path (m : LocalMove) (s : Solution) :
  path (fst (step m s)) = path s
  \/ path (fst (step m s)) = reverse_slice (path s) (i m) (j m).
Proof.
  unfold step, bind, get, lift, modify, ret, py_assert.
  run_binds; auto.
Qed.

Lemma In_tsp_local_moves (s : Solution) (m : LocalMove) :
  In m (local_moves s) <-> 1 <= i m /\ i m + 2 <= j m /\ j m < len (path s).
Proof.
  unfold local_moves. rewrite in_flat_map. split.
  - intros (a & Ha & H). apply in_map_iff in H. destruct H as (b & <- & Hb).
    apply In_range in Ha, Hb. cbn. lia.
  - intros (H1 & H2 & H3). exists (i m). split; [ apply In_range; lia | ].
    apply in_map_iff. exists (j m). split; [ now destruct m | apply In_range; lia ].
Qed.

Lemma In_tsp_random_local_moves_wor (rng : Type)
  (sample2 : Z -> Z -> rng -> list (Z * Z) * rng) (s : Solution) (g : rng)
  (m : LocalMove) :
  In m (fst (random_local_moves_wor rng sample2 s g)) <->
  In (i m, j m) (fst (sample2 (len (path s)) (len (path s)) g))
  /\ 1 <= i m /\ i m + 2 <= j m.
Proof.
  unfold random_local_moves_wor.
  destruct (sample2 (len (path s)) (len (path s)) g) as [pairs g']. cbn [fst].
  rewrite in_map_iff. split.
  - intros ([a b] & <- & H). apply filter_In in H. cbn in *.
    rewrite andb_true_iff, !Z.leb_le in H. tauto.
  - intros (H & H1 & H2). exists (i m, j m). split; [ now destruct m | ].
    apply filter_In. cbn. rewrite andb_true_iff, !Z.leb_le. tauto.
Qed.

Lemma tsp_step_first (m : LocalMove) (s : Solution) :
  1 <= i m -> hd_error (path (fst (step m s))) = hd_error (path s).
Proof.
  intros Hi. destruct (tsp_step_path m s) as [-> | ->];
    [ reflexivity | now apply hd_error_reverse_slice ].
Qed.
End TspFirst.

Section BaseFirst.
Import Base.

Lemma base_add_containers (c : Component) (s : Solution) :
  exists l, containers (fst (add c s)) = containers s ++ l.
Proof.
  unfold add, bind, get, lift, modify.
  match goal with |- context [match ?r with Ok _ => _ | Raise _ => _ end] => destruct r end;
    [ | exists []; cbn; now rewrite app_nil_r ].
  cbn. destruct (as_int (node c)); [ | exists []; cbn; now rewrite app_nil_r ].
  cbn. destruct (as_int (direction c)); [ | eexists; reflexivity ].
  cbn. destruct (set_remove a0 (not_picked s)); eexists; reflexivity.
Qed.
End BaseFirst.

Section Enumerations.
Context {A B : Type}.

Lemma NoDup_flat_map (f : A -> list B) (l : list A) :
  NoDup l ->
  (forall a, In a l -> NoDup (f a)) ->
  (forall a a' b, In a l -> In a' l -> In b (f a) -> In b (f a') -> a = a') ->
  NoDup (flat_map f l).
Proof.
  induction l as [ | a l IH ]; intros Hnd Hf Hsep; cbn.
  - constructor.
  - inversion Hnd as [ | ? ? Ha Hl ]; subst.
    apply NoDup_app.
    + apply Hf. now left.
    + apply IH; [ assumption | intros; apply Hf; now right | ].
      intros a1 a2 b H1 H2. apply Hsep; now right.
    + intros b Hb Hb'. apply in_flat_map in Hb'. destruct Hb' as (a' & Ha' & Hb').
      assert (a = a') by (apply (Hsep a a' b); auto; [ now left | now right ]).
      subst. contradiction.
Qed.

Lemma Permutation_filter (p : A -> bool) (l l' : list A) :
  Permutation l l' -> Permutation (filter p l) (filter p l').
Proof.
  induction 1 as [ | x l l' _ IH | x y l | l l' l'' _ IH1 _ IH2 ]; cbn.
  - constructor.
  - destruct (p x); [ now constructor | assumption ].
  - destruct (p x), (p y); try reflexivity. apply perm_swap.
  - now transitivity (filter p l').
Qed.

End Enumerations.

Lemma NoDup_list_prod {A B : Type} (l : list A) (l' : list B) :
  NoDup l -> NoDup l' -> NoDup (list_prod l l').
Proof.
  intros Hl Hl'. rewrite list_prod_as_flat_map.
  apply NoDup_flat_map.
  - assumption.
  - intros a _. apply Finite.Injective_map_NoDup; [ | assumption ].
    intros b1 b2 [=]. assumption.
  - intros a a' [x y] _ _ H1 H2.
    apply in_map_iff in H1, H2.
    destruct H1 as (? & [= <- _] & _). destruct H2 as (? & [= <- _] & _).
    reflexivity.
Qed.

Section BaseEnumeration.
Import Base.

Lemma NoDup_base_local_moves (s : Solution) : NoDup (local_moves s).
Proof.
  unfold local_moves.
  apply NoDup_flat_map.
  - apply NoDup_range.
  - intros a _. apply NoDup_flat_map.
    + apply NoDup_range.
    + intros b _. change (range 0 4) with [0; 1; 2; 3]. cbn.
      repeat constructor; cbn; intuition discriminate.
    + intros b b' m _ _ H1 H2.
      apply in_map_iff in H1, H2.
      destruct H1 as (k & <- & _). destruct H2 as (k' & E & _).
      apply (f_equal j) in E.
      destruct (move_of_bits a b k) as (_ & Hj & _).
      destruct (move_of_bits a b' k') as (_ & Hj' & _). congruence.
  - intros a a' m _ _ H1 H2.
    apply in_flat_map in H1, H2.
    destruct H1 as (b & _ & H1). destruct H2 as (b' & _ & H2).
    apply in_map_iff in H1, H2.
    destruct H1 as (k & <- & _). destruct H2 as (k' & E & _).
    apply (f_equal i) in E.
    destruct (move_of_bits a b k) as (Hi & _).
    destruct (move_of_bits a' b' k') as (Hi' & _). congruence.
Qed.

Section Shuffled.
Variable rng : Type.
Variable shuffle : list Z -> rng -> list Z * rng.
Hypothesis shuffle_permutes : forall l g, Permutation (fst (shuffle l g)) l.

Lemma for_each_flat_map {X Y : Type} (l : list X)
  (body : X -> rng -> list Y * rng) (f : X -> list Y) :
  (forall a g, Permutation (fst (body a g)) (f a)) ->
  forall g, Permutation (fst (for_each rng l body g)) (flat_map f l).
Proof.
  intros Hbody. induction l as [ | a l IH ]; intros g; cbn.
  - constructor.
  - specialize (Hbody a g). destruct (body a g) as [ys g1]. cbn [fst] in Hbody.
    specialize (IH g1). destruct (for_each rng l body g1) as [zs g2]. cbn [fst] in *.
    now apply Permutation_app.
Qed.

Lemma base_random_local_moves_wor_perm (s : Solution) (g : rng) :
  Permutation (fst (random_local_moves_wor rng shuffle s g)) (local_moves s).
Proof.
  unfold random_local_moves_wor, local_moves.
  pose proof (shuffle_permutes (range 0 (n (problem s))) g) as H1.
  destruct (shuffle (range 0 (n (problem s))) g) as [range_1 g1]. cbn [fst] in H1.
  rewrite <- H1.
  apply for_each_flat_map. intros idx_1 g2.
  pose proof (shuffle_permutes (range idx_1 (n (problem s))) g2) as H2.
  destruct (shuffle (range idx_1 (n (problem s))) g2) as [range_2 g3]. cbn [fst] in H2.
  rewrite <- H2.
  apply for_each_flat_map. intros idx_2 g4.
  pose proof (shuffle_permutes (range 0 4) g4) as H3.
  destruct (shuffle (range 0 4) g4) as [range_dir g5]. cbn [fst] in *.
  now apply Permutation_map.
Qed.
End Shuffled.
End BaseEnumeration.

Section TspEnumeration.
Import Tsp.

Lemma NoDup_tsp_local_moves (s : Solution) : NoDup (local_moves s).
Proof.
  unfold local_moves. apply NoDup_flat_map.
  - apply NoDup_range.
  - intros a _. apply Finite.Injective_map_NoDup; [ | apply NoDup_range ].
    intros b1 b2 [=]. assumption.
  - intros a a' m _ _ H1 H2. apply in_map_iff in H1, H2.
    destruct H1 as (b & <- & _). destruct H2 as (b' & [= <- _] & _). reflexivity.
Qed.

Section Sampled.
Variable rng : Type.
Variable sample2 : Z -> Z -> rng -> list (Z * Z) * rng.
Hypothesis sample2_permutes :
  forall n m g, Permutation (fst (sample2 n m g)) (list_prod (range 0 n) (range 0 m)).

Lemma NoDup_tsp_random_local_moves_wor (s : Solution) (g : rng) :
  NoDup (fst (random_local_moves_wor rng sample2 s g)).
Proof.
  unfold random_local_moves_wor.
  pose proof (sample2_permutes (len (path s)) (len (path s)) g) as H.
  destruct (sample2 (len (path s)) (len (path s)) g) as [pairs g']. cbn [fst] in *.
  apply Finite.Injective_map_NoDup.
  - intros [a b] [a' b'] [=]. cbn in *. congruence.
  - apply NoDup_filter. apply (Permutation_NoDup (Permutation_sym H)).
    apply NoDup_list_prod; apply NoDup_range.
Qed.

Lemma tsp_random_local_moves_wor_perm (s : Solution) (g : rng) :
  Permutation (fst (random_local_moves_wor rng sample2 s g)) (local_moves s).
Proof.
  apply NoDup_Permutation.
  - apply NoDup_tsp_random_local_moves_wor.
  - apply NoDup_tsp_local_moves.
  - intros m. rewrite In_tsp_random_local_moves_wor, In_tsp_local_moves.
    pose proof (sample2_permutes (len (path s)) (len (path s)) g) as H.
    split.
    + intros (Hin & H1 & H2). apply (Permutation_in _ H) in Hin.
      apply in_prod_iff in Hin. rewrite !In_range in Hin. lia.
    + intros (H1 & H2 & H3). split; [ | lia ].
      apply (Permutation_in _ (Permutation_sym H)).
      apply in_prod_iff. rewrite !In_range. lia.
Qed.
End Sampled.
End TspEnumeration.

Section StoreFacts.
Import Store.

Lemma update_app_r {A : Type} (l ext : list A) (k : nat) (x : A) :
  (List.length l <= k)%nat ->
  update (l ++ ext) k x = l ++ update ext (k - List.length l) x.
Proof.
  revert k. induction l as [ | y l IH ]; intros k Hk; cbn.
  - now rewrite Nat.sub_0_r.
  - destruct k as [ | k ]; [ cbn in Hk; lia | ].
    cbn. f_equal. apply IH. cbn in Hk. lia.
Qed.

Lemma nth_error_update_same {A : Type} (l : list A) (k : nat) (x : A) :
  (k < List.length l)%nat -> nth_error (update l k x) k = Some x.
Proof.
  revert k. induction l as [ | y l IH ]; intros [ | k ] Hk; cbn in *; try lia.
  - reflexivity.
  - apply IH. lia.
Qed.

Lemma distinct_spec (ls : list loc) : distinct ls = true <-> NoDup ls.
Proof.
  induction ls as [ | l ls IH ]; cbn.
  - split; [ constructor | reflexivity ].
  - rewrite andb_true_iff, negb_true_iff, IH. split.
    + intros [Hl Hls]. constructor; [ | assumption ].
      intros Hin. assert (existsb (Nat.eqb l) ls = true); [ | congruence ].
      apply existsb_exists. exists l. split; [ assumption | apply Nat.eqb_refl ].
    + intros H. inversion H as [ | ? ? Hl Hls ]; subst. split; [ | assumption ].
      destruct (existsb (Nat.eqb l) ls) eqn:E; [ | reflexivity ].
      apply existsb_exists in E. destruct E as (x & Hx & E).
      apply Nat.eqb_eq in E. subst. contradiction.
Qed.

Lemma extends_firstn (h h' : heap) :
  extends h h' -> firstn (List.length h) h' = h.
Proof.
  intros (ext & ->). rewrite firstn_app, Nat.sub_diag, firstn_all. cbn.
  apply app_nil_r.
Qed.

Lemma extends_read (h h' : heap) (l : loc) (o : object) :
  extends h h' -> read h l = Some o -> read h' l = Some o.
Proof.
  intros (ext & ->) H. unfold read in *.
  rewrite nth_error_app1; [ assumption | ].
  apply nth_error_Some. congruence.
Qed.

Lemma extends_write (h h' : heap) (l : loc) (o : object) :
  extends h h' -> (List.length h <= l)%nat -> extends h (write h' l o).
Proof.
  intros (ext & ->) Hl. unfold write. rewrite update_app_r by assumption.
  eexists. reflexivity.
Qed.

Lemma read_write_same (h : heap) (l : loc) (o o' : object) :
  read h l = Some o' -> read (write h l o) l = Some o.
Proof.
  intros H. apply nth_error_update_same. apply nth_error_Some.
  unfold read in H. congruence.
Qed.

Lemma read_write_some (h : heap) (l k : loc) (o o' : object) :
  read h l = Some o' -> exists o'', read (write h k o) l = Some o''.
Proof.
  intros H. unfold read, write.
  destruct (nth_error (update h k o) l) eqn:E; [ eauto | ].
  apply nth_error_None in E. rewrite update_length in E.
  assert (nth_error h l <> None) by (unfold read in H; congruence).
  apply nth_error_Some in H0. lia.
Qed.

(** ** base.py *)

(** The view of a [Solution] depends only on the objects it reaches. *)
Lemma base_view_extends (h h' : heap) (self : loc) (s : Base.Solution) :
  extends h h' -> base_view h self = Some s -> base_view h' self = Some s.
Proof.
  intros Hext. unfold base_view.
  destruct (read h self) as [ [ | | | | r | ] | ] eqn:E; try discriminate.
  rewrite (extends_read h h' self _ Hext E).
  destruct (distinct _); [ | discriminate ].
  destruct (read h (b_problem r)) as [ [ | | p | | | ] | ] eqn:E0; try discriminate.
  destruct (read h (b_containers r)) as [ [ cs | | | | | ] | ] eqn:E1; try discriminate.
  destruct (read h (b_directions r)) as [ [ ds | | | | | ] | ] eqn:E2; try discriminate.
  destruct (read h (b_picked r)) as [ [ | pk | | | | ] | ] eqn:E3; try discriminate.
  destruct (read h (b_not_picked r)) as [ [ | np | | | | ] | ] eqn:E4; try discriminate.
  rewrite (extends_read h h' _ _ Hext E0), (extends_read h h' _ _ Hext E1),
    (extends_read h h' _ _ Hext E2), (extends_read h h' _ _ Hext E3),
    (extends_read h h' _ _ Hext E4).
  auto.
Qed.

Lemma base_store_fresh (h0 h : heap) (self p : loc) (s : Base.Solution) :
  base_fresh h0 h self p -> base_fresh h0 (base_store h self s) self p.
Proof.
  intros (Hext & r & Hr & Hp & H0 & H1 & H2 & H3 & H4).
  unfold base_store. rewrite Hr.
  split.
  - repeat apply extends_write; assumption.
  - eexists. split.
    + destruct (read_write_some h self (b_containers r) (OList (Base.containers s)) _ Hr) as (o1 & R1).
      destruct (read_write_some _ self (b_directions r) (OList (Base.directions s)) _ R1) as (o2 & R2).
      destruct (read_write_some _ self (b_picked r) (OSet (Base.picked s)) _ R2) as (o3 & R3).
      destruct (read_write_some _ self (b_not_picked r) (OSet (Base.not_picked s)) _ R3) as (o4 & R4).
      eapply read_write_same. exact R4.
    + cbn. repeat split; assumption.
Qed.

Lemma base_call_fresh {A : Type} (m : M Base.Solution A) (h0 h : heap) (self p : loc) :
  base_fresh h0 h self p -> base_fresh h0 (fst (base_call m self h)) self p.
Proof.
  intros H. unfold base_call.
  destruct (base_view h self) as [s | ]; [ | assumption ].
  destruct (m s) as [s' r]. cbn [fst]. now apply base_store_fresh.
Qed.

Lemma base_run_fresh (ops : list base_op) (h0 h : heap) (self p : loc) :
  base_fresh h0 h self p -> base_fresh h0 (base_run self ops h) self p.
Proof.
  unfold base_run. revert h.
  induction ops as [ | o ops IH ]; intros h H; cbn; [ assumption | ].
  apply IH. destruct o; cbn; now apply base_call_fresh.
Qed.

Lemma base_copy_fresh (h : heap) (self : loc) (s : Base.Solution) :
  base_view h self = Some s ->
  exists h1 c r,
    base_copy self h = (h1, Ok c)
    /\ read h self = Some (OBaseSolution r)
    /\ base_fresh h h1 c (b_problem r)
    /\ base_view h1 c = Some s.
Proof.
  unfold base_view, base_copy.
  destruct (read h self) as [ [ | | | | r | ] | ] eqn:E; try discriminate.
  destruct (distinct _); [ | discriminate ].
  destruct (read h (b_problem r)) as [ [ | | p | | | ] | ] eqn:E0; try discriminate.
  destruct (read h (b_containers r)) as [ [ cs | | | | | ] | ] eqn:E1; try discriminate.
  destruct (read h (b_directions r)) as [ [ ds | | | | | ] | ] eqn:E2; try discriminate.
  destruct (read h (b_picked r)) as [ [ | pk | | | | ] | ] eqn:E3; try discriminate.
  destruct (read h (b_not_picked r)) as [ [ | np | | | | ] | ] eqn:E4; try discriminate.
  intros [= <-]. unfold alloc. cbn [fst snd].
  rewrite !length_app. cbn [List.length].
  set (n0 := List.length h).
  set (obj := OBaseSolution _).
  assert (Eh : ((((h ++ [OList cs]) ++ [OList ds]) ++ [OSet pk]) ++ [OSet np]) ++ [obj]
               = h ++ [OList cs; OList ds; OSet pk; OSet np; obj])
    by (now rewrite <- !app_assoc).
  rewrite Eh.
  set (h1 := h ++ [OList cs; OList ds; OSet pk; OSet np; obj]).
  assert (Hread : forall l k o,
             l = (n0 + k)%nat ->
             nth_error [OList cs; OList ds; OSet pk; OSet np; obj] k = Some o ->
             read h1 l = Some o).
  { intros l k o -> Hk. unfold read, h1. rewrite nth_error_app2 by (unfold n0; lia).
    replace (n0 + k - List.length h)%nat with k by (unfold n0; lia). assumption. }
  assert (Hext : extends h h1) by (eexists; reflexivity).
  assert (R0 : read h1 n0 = Some (OList cs)) by (apply (Hread _ 0%nat); [ lia | reflexivity ]).
  assert (R1 : read h1 (n0 + 1)%nat = Some (OList ds))
    by (apply (Hread _ 1%nat); [ lia | reflexivity ]).
  assert (R2 : read h1 (n0 + 1 + 1)%nat = Some (OSet pk))
    by (apply (Hread _ 2%nat); [ lia | reflexivity ]).
  assert (R3 : read h1 (n0 + 1 + 1 + 1)%nat = Some (OSet np))
    by (apply (Hread _ 3%nat); [ lia | reflexivity ]).
  assert (R4 : read h1 (n0 + 1 + 1 + 1 + 1)%nat = Some obj)
    by (apply (Hread _ 4%nat); [ lia | reflexivity ]).
  do 3 eexists. split; [ reflexivity | ].
  split; [ reflexivity | ].
  split.
  - split; [ assumption | ].
    eexists. split; [ exact R4 | ].
    subst obj. cbn. fold n0. repeat split; lia.
  - unfold base_view. rewrite R4. subst obj.
    cbn [b_problem b_containers b_directions b_picked b_not_picked b_obj_value].
    replace (distinct _) with true.
    2:{ symmetry. apply distinct_spec.
        repeat constructor; cbn; lia. }
    rewrite (extends_read h _ _ _ Hext E0), R0, R1, R2, R3.
    reflexivity.
Qed.
End StoreFacts.

Section TspStoreFacts.
Import Store.

(** ** tsp.py *)

Lemma tsp_view_extends (h h' : heap) (self : loc) (s : Tsp.Solution) :
  extends h h' -> tsp_view h self = Some s -> tsp_view h' self = Some s.
Proof.
  intros Hext. unfold tsp_view.
  destruct (read h self) as [ [ | | | | | r ] | ] eqn:E; try discriminate.
  rewrite (extends_read h h' self _ Hext E).
  destruct (distinct _); [ | discriminate ].
  destruct (read h (t_problem r)) as [ [ | | | p | | ] | ] eqn:E0; try discriminate.
  destruct (read h (t_path r)) as [ [ pa | | | | | ] | ] eqn:E1; try discriminate.
  destruct (read h (t_used r)) as [ [ | us | | | | ] | ] eqn:E2; try discriminate.
  destruct (read h (t_unused r)) as [ [ | un | | | | ] | ] eqn:E3; try discriminate.
  rewrite (extends_read h h' _ _ Hext E0), (extends_read h h' _ _ Hext E1),
    (extends_read h h' _ _ Hext E2), (extends_read h h' _ _ Hext E3).
  auto.
Qed.

Lemma tsp_store_fresh (h0 h : heap) (self p : loc) (s : Tsp.Solution) :
  tsp_fresh h0 h self p -> tsp_fresh h0 (tsp_store h self s) self p.
Proof.
  intros (Hext & r & Hr & Hp & H0 & H1 & H2 & H3).
  unfold tsp_store. rewrite Hr.
  split.
  - repeat apply extends_write; assumption.
  - eexists. split.
    + destruct (read_write_some h self (t_path r) (OList (Tsp.path s)) _ Hr) as (o1 & R1).
      destruct (read_write_some _ self (t_used r) (OSet (Tsp.used s)) _ R1) as (o2 & R2).
      destruct (read_write_some _ self (t_unused r) (OSet (Tsp.unused s)) _ R2) as (o3 & R3).
      eapply read_write_same. exact R3.
    + cbn. repeat split; assumption.
Qed.

Lemma tsp_call_fresh {A : Type} (m : M Tsp.Solution A) (h0 h : heap) (self p : loc) :
  tsp_fresh h0 h self p -> tsp_fresh h0 (fst (tsp_call m self h)) self p.
Proof.
  intros H. unfold tsp_call.
  destruct (tsp_view h self) as [s | ]; [ | assumption ].
  destruct (m s) as [s' r]. cbn [fst]. now apply tsp_store_fresh.
Qed.

Lemma tsp_run_fresh (ops : list tsp_op) (h0 h : heap) (self p : loc) :
  tsp_fresh h0 h self p -> tsp_fresh h0 (tsp_run self ops h) self p.
Proof.
  unfold tsp_run. revert h.
  induction ops as [ | o ops IH ]; intros h H; cbn; [ assumption | ].
  apply IH. destruct o; cbn; now apply tsp_call_fresh.
Qed.

Lemma tsp_copy_fresh (h : heap) (self : loc) (s : Tsp.Solution) :
  tsp_view h self = Some s ->
  exists h1 c r,
    tsp_copy self h = (h1, Ok c)
    /\ read h self = Some (OTspSolution r)
    /\ tsp_fresh h h1 c (t_problem r)
    /\ tsp_view h1 c = Some s.
Proof.
  unfold tsp_view, tsp_copy.
  destruct (read h self) as [ [ | | | | | r ] | ] eqn:E; try discriminate.
  destruct (distinct _); [ | discriminate ].
  destruct (read h (t_problem r)) as [ [ | | | p | | ] | ] eqn:E0; try discriminate.
  destruct (read h (t_path r)) as [ [ pa | | | | | ] | ] eqn:E1; try discriminate.
  destruct (read h (t_used r)) as [ [ | us | | | | ] | ] eqn:E2; try discriminate.
  destruct (read h (t_unused r)) as [ [ | un | | | | ] | ] eqn:E3; try discriminate.
  intros [= <-]. unfold alloc. cbn [fst snd].
  rewrite !length_app. cbn [List.length].
  set (n0 := List.length h).
  set (obj := OTspSolution _).
  assert (Eh : (((h ++ [OList pa]) ++ [OSet us]) ++ [OSet un]) ++ [obj]
               = h ++ [OList pa; OSet us; OSet un; obj])
    by (now rewrite <- !app_assoc).
  rewrite Eh.
  set (h1 := h ++ [OList pa; OSet us; OSet un; obj]).
  assert (Hread : forall l k o,
             l = (n0 + k)%nat ->
             nth_error [OList pa; OSet us; OSet un; obj] k = Some o ->
             read h1 l = Some o).
  { intros l k o -> Hk. unfold read, h1. rewrite nth_error_app2 by (unfold n0; lia).
    replace (n0 + k - List.length h)%nat with k by (unfold n0; lia). assumption. }
  assert (Hext : extends h h1) by (eexists; reflexivity).
  assert (R0 : read h1 n0 = Some (OList pa)) by (apply (Hread _ 0%nat); [ lia | reflexivity ]).
  assert (R1 : read h1 (n0 + 1)%nat = Some (OSet us))
    by (apply (Hread _ 1%nat); [ lia | reflexivity ]).
  assert (R2 : read h1 (n0 + 1 + 1)%nat = Some (OSet un))
    by (apply (Hread _ 2%nat); [ lia | reflexivity ]).
  assert (R3 : read h1 (n0 + 1 + 1 + 1)%nat = Some obj)
    by (apply (Hread _ 3%nat); [ lia | reflexivity ]).
  do 3 eexists. split; [ reflexivity | ].
  split; [ reflexivity | ].
  split.
  - split; [ assumption | ].
    eexists. split; [ exact R3 | ].
    subst obj. cbn. fold n0. repeat split; lia.
  - unfold tsp_view. rewrite R3. subst obj.
    cbn [t_problem t_path t_used t_unused t_start t_dist].
    replace (distinct _) with true.
    2:{ symmetry. apply distinct_spec.
        repeat constructor; cbn; lia. }
    rewrite (extends_read h _ _ _ Hext E0), R0, R1, R2.
    reflexivity.
Qed.
End TspStoreFacts.

Section ReverseSlice.
Context {A : Type}.

Lemma nth_error_reversed (l : list A) (lo hi k : nat) :
  (lo <= hi <= List.length l)%nat ->
  nth_error (firstn lo l ++ rev (firstn (hi - lo) (skipn lo l)) ++ skipn hi l) k
  = nth_error l (if (k <? lo)%nat then k
                 else if (k <? hi)%nat then lo + hi - 1 - k else k)%nat.
Proof.
  intros H.
  assert (L1 : List.length (firstn lo l) = lo) by (rewrite length_firstn; lia).
  assert (L2 : List.length (firstn (hi - lo) (skipn lo l)) = (hi - lo)%nat)
    by (rewrite length_firstn, length_skipn; lia).
  rewrite nth_error_app, L1.
  destruct (Nat.ltb_spec k lo) as [Hk | Hk].
  - rewrite nth_error_firstn.
    destruct (Nat.ltb_spec k lo); [ reflexivity | lia ].
  - rewrite nth_error_app, length_rev, L2.
    destruct (Nat.ltb_spec (k - lo) (hi - lo)) as [Hk2 | Hk2].
    + destruct (Nat.ltb_spec k hi); [ | lia ].
      rewrite nth_error_rev, L2.
      destruct (Nat.ltb_spec (k - lo) (hi - lo)); [ | lia ].
      rewrite nth_error_firstn.
      destruct (Nat.ltb_spec (hi - lo - S (k - lo)) (hi - lo)); [ | lia ].
      rewrite nth_error_skipn. f_equal. lia.
    + destruct (Nat.ltb_spec k hi); [ lia | ].
      rewrite nth_error_skipn. f_equal. lia.
Qed.

Lemma length_reverse_slice (l : list A) (i j : Z) :
  List.length (reverse_slice l i j) = List.length l.
Proof.
  unfold reverse_slice.
  set (lo := slice_bound (len l) i).
  set (hi := Nat.max lo (slice_bound (len l) j)).
  assert (Hlo : (lo <= List.length l)%nat)
    by (unfold lo, slice_bound, len; destruct (Z.ltb_spec i 0); lia).
  assert (Hhi : (hi <= List.length l)%nat)
    by (unfold hi, slice_bound, len; destruct (Z.ltb_spec j 0); lia).
  rewrite !length_app, length_rev, !length_firstn, !length_skipn. lia.
Qed.

Lemma getitem_nth (l : list A) (k : Z) :
  0 <= k < len l ->
  getitem l k = match nth_error l (Z.to_nat k) with
                | Some x => Ok x
                | None => Raise IndexError
                end.
Proof.
  intros H. unfold getitem. now rewrite norm_index_inside.
Qed.

Lemma getitem_reverse_slice (l : list A) (i j k : Z) :
  0 <= i -> i <= j -> j <= len l -> 0 <= k < len l ->
  getitem (reverse_slice l i j) k
  = getitem l (if k <? i then k else if k <? j then i + j - 1 - k else k).
Proof.
  intros Hi Hij Hj Hk.
  assert (Hlen : len (reverse_slice l i j) = len l)
    by (unfold len; now rewrite length_reverse_slice).
  rewrite getitem_nth by lia.
  rewrite getitem_nth
    by (destruct (Z.ltb_spec k i); [ lia | destruct (Z.ltb_spec k j); lia ]).
  unfold reverse_slice.
  assert (Elo : slice_bound (len l) i = Z.to_nat i)
    by (unfold slice_bound; destruct (Z.ltb_spec i 0); lia).
  assert (Ehi : Nat.max (Z.to_nat i) (slice_bound (len l) j) = Z.to_nat j)
    by (unfold slice_bound; destruct (Z.ltb_spec j 0); lia).
  rewrite Elo, Ehi.
  rewrite nth_error_reversed by (unfold len in *; lia).
  replace (if (Z.to_nat k <? Z.to_nat i)%nat then Z.to_nat k
           else if (Z.to_nat k <? Z.to_nat j)%nat
                then (Z.to_nat i + Z.to_nat j - 1 - Z.to_nat k)%nat
                else Z.to_nat k)
    with (Z.to_nat (if k <? i then k else if k <? j then i + j - 1 - k else k)).
  - reflexivity.
  - destruct (Z.ltb_spec k i), (Nat.ltb_spec (Z.to_nat k) (Z.to_nat i)); try lia.
    destruct (Z.ltb_spec k j), (Nat.ltb_spec (Z.to_nat k) (Z.to_nat j)); lia.
Qed.
End ReverseSlice.

Lemma In_pairwise {A : Type} (l : list A) (a b : A) :
  In (a, b) (pairwise l) -> In a l /\ In b l.
Proof.
  induction l as [ | x [ | y l ] IH ]; cbn; try contradiction.
  intros [ [= <- <-] | H ].
  - auto.
  - apply IH in H. cbn in H. tauto.
Qed.

Lemma In_firstn_list {A : Type} (n : nat) (l : list A) (x : A) :
  In x (firstn n l) -> In x l.
Proof.
  intros H. rewrite <- (firstn_skipn n l). apply in_or_app. now left.
Qed.

Lemma In_skipn_list {A : Type} (n : nat) (l : list A) (x : A) :
  In x (skipn n l) -> In x l.
Proof.
  intros H. rewrite <- (firstn_skipn n l). apply in_or_app. now right.
Qed.

Lemma In_reverse_slice {A : Type} (l : list A) (i j : Z) (x : A) :
  In x (reverse_slice l i j) -> In x l.
Proof.
  unfold reverse_slice. rewrite !in_app_iff, <- in_rev.
  intros [H | [H | H]].
  - eapply In_firstn_list; eassumption.
  - eapply In_skipn_list. eapply In_firstn_list. eassumption.
  - eapply In_skipn_list; eassumption.
Qed.

Section TspDelta.
Import Tsp TspSpec.

Lemma tsp_wf_solution_spec (s : Solution) :
  wf_solution s = true <->
  shape2 (nnodes (problem s)) (nnodes (problem s)) (pdist (problem s)) = true
  /\ forall x, In x (path s) -> 0 <= x < nnodes (problem s).
Proof.
  unfold wf_solution. rewrite andb_true_iff, forallb_forall.
  setoid_rewrite in_range_spec. tauto.
Qed.

Lemma dist_at_ok (p : Problem) (a b : Z) :
  shape2 (nnodes p) (nnodes p) (pdist p) = true ->
  0 <= a < nnodes p -> 0 <= b < nnodes p ->
  exists d, dist_at p a b = Ok d.
Proof.
  intros Hs Ha Hb. apply shape2_spec in Hs. destruct Hs as [Hr Hc].
  unfold dist_at.
  destruct (getitem_inside (pdist p) a) as (row & Hrow & _); [ lia | ].
  rewrite Hrow. cbn.
  destruct (getitem_inside row b) as (x & Hx & _).
  { rewrite (Hc row); [ lia | eapply getitem_In; eassumption ]. }
  exists x. assumption.
Qed.

(** [edge] in terms of the two path lookups and [dist_at]. *)
Lemma edge_dist_at (s : Solution) (a b pa pb : Z) :
  getitem (path s) a = Ok pa -> getitem (path s) b = Ok pb ->
  (exists d, dist_at (problem s) pa pb = Ok d) ->
  edge s a b = dist_at (problem s) pa pb.
Proof.
  intros Ha Hb (d & Hd). unfold edge, dist_at in *. rewrite Ha. cbn.
  destruct (getitem (pdist (problem s)) pa); [ | discriminate ].
  cbn. rewrite Hb. reflexivity.
Qed.

Lemma edge_ok (s : Solution) (a b : Z) :
  wf_solution s = true -> 0 <= a < len (path s) -> 0 <= b < len (path s) ->
  exists pa pb d,
    getitem (path s) a = Ok pa /\ getitem (path s) b = Ok pb
    /\ dist_at (problem s) pa pb = Ok d /\ edge s a b = Ok d.
Proof.
  intros Hwf Ha Hb. apply tsp_wf_solution_spec in Hwf. destruct Hwf as [Hs Hp].
  destruct (getitem_inside (path s) a Ha) as (pa & Hpa & _).
  destruct (getitem_inside (path s) b Hb) as (pb & Hpb & _).
  destruct (dist_at_ok (problem s) pa pb Hs) as (d & Hd).
  { apply Hp. eapply getitem_In; eassumption. }
  { apply Hp. eapply getitem_In; eassumption. }
  exists pa, pb, d. repeat split; try assumption.
  rewrite (edge_dist_at s a b pa pb); eauto.
Qed.

(** An edge of the path with the slice [i:j] reversed, read in the path
    as it was. *)
Lemma edge_reversed (s s' : Solution) (i j a b : Z) :
  problem s' = problem s -> path s' = reverse_slice (path s) i j ->
  0 <= i -> i <= j -> j <= len (path s) ->
  0 <= a < len (path s) -> 0 <= b < len (path s) ->
  edge s' a b
  = edge s (if a <? i then a else if a <? j then i + j - 1 - a else a)
           (if b <? i then b else if b <? j then i + j - 1 - b else b).
Proof.
  intros Hp Hpath Hi Hij Hj Ha Hb. unfold edge. rewrite Hp, Hpath.
  rewrite !getitem_reverse_slice by assumption. reflexivity.
Qed.

Lemma recomputed_dist_ok (s : Solution) :
  wf_solution s = true -> exists total, recomputed_dist s = Ok total.
Proof.
  intros Hwf. apply tsp_wf_solution_spec in Hwf. destruct Hwf as [Hs Hp].
  unfold recomputed_dist.
  edestruct (@rmap_ok (Z * Z) float) as (terms & -> & _); [ | cbn; eauto ].
  intros [a b] Hin. apply In_pairwise in Hin. cbn [fst snd].
  apply dist_at_ok; [ assumption | apply Hp; tauto | apply Hp; tauto ].
Qed.

(** What [step] leaves on a move of [local_moves]: the slice reversed and
    the four boundary distances taken off and put on [dist], in that
    order; the checks at the end either pass or raise [AssertionError]. *)
Lemma tsp_step_state (s : Solution) (m : LocalMove) :
  wf_solution s = true -> In m (local_moves s) ->
  exists e1 e2 e3 e4,
    edge s (i m - 1) (i m) = Ok e1
    /\ edge s (j m - 1) (j m) = Ok e2
    /\ edge s (i m - 1) (j m - 1) = Ok e3
    /\ edge s (i m) (j m) = Ok e4
    /\ fst (step m s)
       = mkSolution (problem s) (start s) (reverse_slice (path s) (i m) (j m))
                    (used s) (unused s)
                    (dist s - e1 - e2 + e3 + e4)%float
    /\ (snd (step m s) = Ok tt \/ snd (step m s) = Raise AssertionError).
Proof.
  intros Hwf Hm. apply In_tsp_local_moves in Hm. destruct Hm as (Hi & Hij & Hj).
  destruct (edge_ok s (i m - 1) (i m) Hwf) as (? & ? & e1 & _ & _ & _ & E1); try lia.
  destruct (edge_ok s (j m - 1) (j m) Hwf) as (? & ? & e2 & _ & _ & _ & E2); try lia.
  destruct (edge_ok s (i m - 1) (j m - 1) Hwf) as (? & ? & e3 & _ & _ & _ & E3); try lia.
  destruct (edge_ok s (i m) (j m) Hwf) as (? & ? & e4 & _ & _ & _ & E4); try lia.
  exists e1, e2, e3, e4. do 4 (split; [ assumption | ]).
  set (s3 := set_path (reverse_slice (path s) (i m) (j m))
                      (set_dist (dist s - e1 - e2)%float s)).
  assert (E3' : edge s3 (i m - 1) (i m) = Ok e3).
  { rewrite (edge_reversed s s3 (i m) (j m)); try reflexivity; try lia.
    destruct (Z.ltb_spec (i m - 1) (i m)); [ | lia ].
    destruct (Z.ltb_spec (i m) (i m)); [ lia | ].
    destruct (Z.ltb_spec (i m) (j m)); [ | lia ].
    replace (i m + j m - 1 - i m) with (j m - 1) by lia. assumption. }
  set (s4 := set_dist (dist s3 + e3)%float s3).
  assert (E4' : edge s4 (j m - 1) (j m) = Ok e4).
  { rewrite (edge_reversed s s4 (i m) (j m)); try reflexivity; try lia.
    destruct (Z.ltb_spec (j m - 1) (i m)); [ lia | ].
    destruct (Z.ltb_spec (j m - 1) (j m)); [ | lia ].
    destruct (Z.ltb_spec (j m) (i m)); [ lia | ].
    destruct (Z.ltb_spec (j m) (j m)); [ lia | ].
    replace (i m + j m - 1 - (j m - 1)) with (i m) by lia. assumption. }
  set (s5 := set_dist (dist s4 + e4)%float s4).
  assert (Hwf5 : wf_solution s5 = true).
  { apply tsp_wf_solution_spec. apply tsp_wf_solution_spec in Hwf.
    destruct Hwf as [Hs Hp]. split; [ exact Hs | ].
    intros x Hx. apply Hp. eapply In_reverse_slice. exact Hx. }
  destruct (recomputed_dist_ok s5 Hwf5) as (total & Htotal).
  assert (Hlen5 : len (path s5) = len (path s)).
  { unfold len. cbn. now rewrite length_reverse_slice. }
  destruct (getitem_inside (path s5) 0) as (first & Hfirst & _); [ lia | ].
  destruct (getitem_last (path s5)) as (last & Hlast & _).
  { intros E. rewrite E in Hlen5. unfold len in Hlen5 at 1. cbn in Hlen5. lia. }
  assert (Estep : step m s
                  = (s5, if isclose total (dist s5)
                         then if first =? start s5
                              then if last =? start s5 then Ok tt
                                   else Raise AssertionError
                              else Raise AssertionError
                         else Raise AssertionError)).
  { unfold step, bind, get, lift, modify, ret, py_assert.
    rewrite E1. cbn [fst snd].
    change (edge (set_dist (dist s - e1)%float s) (j m - 1) (j m))
      with (edge s (j m - 1) (j m)).
    rewrite E2. cbn [fst snd].
    change (set_path _ (set_dist _ (set_dist _ s))) with s3.
    rewrite E3'. change (set_dist _ s3) with s4.
    rewrite E4'. change (set_dist _ s4) with s5.
    rewrite Htotal.
    destruct (isclose total (dist s5)); [ | reflexivity ].
    rewrite Hfirst.
    destruct (first =? start s5); [ | reflexivity ].
    rewrite Hlast.
    destruct (last =? start s5); reflexivity. }
  rewrite Estep. cbn [fst snd]. split; [ reflexivity | ].
  destruct (isclose total (dist s5)); [ | now right ].
  destruct (first =? start s5); [ | now right ].
  destruct (last =? start s5); [ now left | now right ].
Qed.

End TspDelta.

Section Snoc.
Context {A : Type}.

Lemma getitem_snoc (l : list A) (x : A) : getitem (l ++ [x]) (-1) = Ok x.
Proof.
  unfold getitem. rewrite norm_index_last by (rewrite len_app; unfold len; cbn; lia).
  rewrite len_app. unfold len. cbn [List.length].
  replace (Z.to_nat (Z.of_nat (List.length l) + Z.of_nat 1 - 1)) with (List.length l) by lia.
  rewrite nth_error_app2 by lia. rewrite Nat.sub_diag. reflexivity.
Qed.

Lemma getitem_last_snoc (l : list A) (x : A) :
  getitem l (-1) = Ok x -> exists l', l = l' ++ [x].
Proof.
  intros H. destruct l as [ | a l ].
  - discriminate H.
  - destruct (exists_last (l := a :: l)) as (l' & y & E); [ discriminate | ].
    rewrite E in H. rewrite getitem_snoc in H. injection H as ->.
    exists l'. assumption.
Qed.

Lemma pairwise_snoc (l : list A) (x y : A) :
  pairwise ((l ++ [x]) ++ [y]) = pairwise (l ++ [x]) ++ [(x, y)].
Proof.
  induction l as [ | a l IH ]; [ reflexivity | ].
  destruct l as [ | b l ]; [ reflexivity | ].
  cbn [app pairwise] in *. now rewrite IH.
Qed.
End Snoc.

Lemma rmap_snoc {A B : Type} (f : A -> result B) (l : list A) (x : A)
  (ys : list B) (y : B) :
  rmap f l = Ok ys -> f x = Ok y -> rmap f (l ++ [x]) = Ok (ys ++ [y]).
Proof.
  revert ys. induction l as [ | a l IH ]; intros ys Hl Hx; cbn in *.
  - injection Hl as <-. rewrite Hx. reflexivity.
  - destruct (f a) as [b | ]; [ | discriminate ]. cbn in *.
    destruct (rmap f l) as [zs | ]; [ | discriminate ]. cbn in *.
    injection Hl as <-. rewrite (IH zs eq_refl Hx). reflexivity.
Qed.

Lemma combine_snoc {A B : Type} (l : list A) (l' : list B) (x : A) (y : B) :
  List.length l = List.length l' ->
  combine (l ++ [x]) (l' ++ [y]) = combine l l' ++ [(x, y)].
Proof.
  revert l'. induction l as [ | a l IH ]; intros [ | b l' ] H; try discriminate.
  - reflexivity.
  - cbn. f_equal. apply IH. now injection H.
Qed.

Section TspAccumulated.
Import Tsp TspSpec.

Lemma tsp_add_ok_inv (c : Component) (s : Solution) :
  snd (add c s) = Ok tt ->
  exists d rest,
    dist_at (problem s) (u c) (v c) = Ok d
    /\ fst (add c s)
       = mkSolution (problem s) (start s) (path s ++ [v c])
                    (set_add (v c) (used s)) rest (PrimFloat.add (dist s) d).
Proof.
  unfold add, bind, get, lift, modify, ret. cbn.
  destruct (negb (v c =? start s)).
  - destruct (set_remove (v c) (unused s)) as [rest | ]; cbn; [ | discriminate ].
    destruct (dist_at (problem s) (u c) (v c)) as [d | ] eqn:E; cbn; [ | discriminate ].
    intros _. exists d, rest. split; reflexivity.
  - cbn. destruct (dist_at (problem s) (u c) (v c)) as [d | ] eqn:E; cbn; [ | discriminate ].
    intros _. exists d, (unused s). split; reflexivity.
Qed.


End TspAccumulated.

Section BaseAccumulated.
Import Base BaseSpec.

(** [add] of a candidate, with the cost it charges. *)
Lemma base_add_candidate_cost (s : Solution) (v d : Z) :
  wf_solution s = true -> In v (not_picked s) -> is_bit d = true ->
  exists cost,
    (if len (containers s) =? 0 then
       lookup2 (depot_to_container (problem s)) (Some d) (Some v)
     else
       let* lc := getitem (containers s) (-1) in
       let* ld := getitem (directions s) (-1) in
       connection_cost (problem s) (mkComponent (Some lc) (Some ld))
                       (mkComponent (Some v) (Some d))) = Ok cost
    /\ add (mkComponent (Some v) (Some d)) s
       = (mkSolution (problem s) (containers s ++ [v]) (directions s ++ [d])
                     (set_add v (picked s)) (set_discard v (not_picked s))
                     (obj_value s + cost),
          Ok tt).
Proof.
  intros Hwf Hv Hd.
  pose proof (proj1 (wf_solution_spec s) Hwf) as (_ & _ & _ & _ & Hrange & _).
  destruct (add_cost_ok s v d Hwf (Hrange v Hv) Hd) as (cost & Hcost).
  exists cost. split; [ exact Hcost | ].
  unfold add, bind, get, lift, modify. cbn [node direction].
  rewrite Hcost. cbn [as_int].
  unfold set_picked, set_directions, set_containers, set_obj_value.
  cbn [problem containers directions picked not_picked obj_value].
  rewrite set_remove_member by (apply mem_spec; assumption).
  reflexivity.
Qed.

End BaseAccumulated.

Lemma line3_tour_reachable : BaseSpec.reachable BaseSpec.line3_tour.
Proof.
  pose (c0 := Base.mkComponent (Some 0) (Some 0)).
  pose (c1 := Base.mkComponent (Some 1) (Some 0)).
  pose (c2 := Base.mkComponent (Some 2) (Some 0)).
  pose (s0 := Base.empty_solution BaseSpec.line3).
  apply BaseSpec.reach_add
    with (s := fst (BaseSpec.add_all [c0; c1] s0)) (c := c2);
    [ | vm_compute; auto | vm_compute; reflexivity ].
  apply BaseSpec.reach_add
    with (s := fst (BaseSpec.add_all [c0] s0)) (c := c1);
    [ | vm_compute; auto | vm_compute; reflexivity ].
  apply BaseSpec.reach_add with (s := s0) (c := c0);
    [ | vm_compute; auto | vm_compute; reflexivity ].
  apply BaseSpec.reach_empty. reflexivity.
Qed.

Lemma rfold_pure {A B : Type} (f : A -> B -> result A) (g : A -> B -> A) (l : list B) :
  (forall a x, In x l -> f a x = Ok (g a x)) ->
  forall a, rfold f l a = Ok (fold_left g l a).
Proof.
  induction l as [ | x l IH ]; intros H a; cbn.
  - reflexivity.
  - rewrite (H a x (or_introl eq_refl)). cbn. apply IH.
    intros a' y Hy. apply H. now right.
Qed.

Lemma fold_left_flat_map {A B C : Type} (g : A -> C -> A) (f : B -> list C)
  (l : list B) (a : A) :
  fold_left g (flat_map f l) a = fold_left (fun a x => fold_left g (f x) a) l a.
Proof.
  revert a. induction l as [ | x l IH ]; intros a; cbn.
  - reflexivity.
  - rewrite fold_left_app. apply IH.
Qed.

Section Scan.
Import BaseSpec.

End Scan.

Section BaseGreedy.
Import Base BaseSpec.



End BaseGreedy.

Section BaseGreedyPairs.
Import Base BaseSpec.



End BaseGreedyPairs.

(* ================================================================== *)
(** * The delta routine against [step] (C1) *)
(* ================================================================== *)

(** C1 (orientation variant, at a failing input).  On the complete
    solution 0, 1, 2 of the instance [line3], the move that swaps
    positions 0 and 2 is reported by [objective_incr_local] as an increment
    of 4 (the true change of the route: 4 becomes 8), while [step] leaves
    [obj_value] at 3, so that [objective] goes from 4 to 6 only. *)
Theorem base_objective_incr_local_differs_from_step :
  let m := Base.mkLocalMove 0 2 0 0 in
  let s := BaseSpec.line3_tour in
  BaseSpec.reachable s
  /\ In m (Base.local_moves s)
  /\ Base.objective s = Ok (Some 4)
  /\ Base.objective_incr_local s m = Ok 4
  /\ Base.step m s
     = (Base.mkSolution BaseSpec.line3 [2; 1; 0] [0; 0; 0] [0; 1; 2] [] 3, Ok tt)
  /\ Base.objective (fst (Base.step m s)) = Ok (Some 6).
Proof.
  cbv zeta.
  split; [ exact line3_tour_reachable | ].
  split.
  { vm_compute. auto 20. }
  repeat split; vm_compute; reflexivity.
Qed.

(* ================================================================== *)
(** * The accumulated cost after a mutation (C2) *)
(* ================================================================== *)

(** C2 (orientation variant, at a failing input).  After [step] has
    swapped positions 0 and 2 of the complete solution 0, 1, 2 of [line3],
    the stored [obj_value] is still 3, while the transitions of the new
    sequence 2, 1, 0 add up to 5; before the move both were 3. *)
Theorem base_step_breaks_accumulated_cost :
  let m := Base.mkLocalMove 0 2 0 0 in
  let s := BaseSpec.line3_tour in
  BaseSpec.recomputed_cost s = Ok (Base.obj_value s)
  /\ snd (Base.step m s) = Ok tt
  /\ Base.containers (fst (Base.step m s)) = [2; 1; 0]
  /\ Base.obj_value (fst (Base.step m s)) = 3
  /\ BaseSpec.recomputed_cost (fst (Base.step m s)) = Ok 5.
Proof.
  cbv zeta. repeat split; vm_compute; reflexivity.
Qed.

(* ================================================================== *)
(** * The lower bound against the completions (C3) *)
(* ================================================================== *)

(** C3 (at a failing input).  On the empty solution of [oneway2],
    [lower_bound] is 102: the relaxation charges container 0 with its
    cheapest arrival from another unvisited container (100), although a
    completion may reach it from the depot.  Adding (0,0) and then (1,0),
    both candidates of [add_moves], gives a feasible complete solution of
    objective 3. *)
Theorem base_lower_bound_exceeds_completion :
  let s := Base.empty_solution BaseSpec.oneway2 in
  let c0 := Base.mkComponent (Some 0) (Some 0) in
  let c1 := Base.mkComponent (Some 1) (Some 0) in
  BaseSpec.wf_problem BaseSpec.oneway2 = true
  /\ Base.lower_bound s = Ok (Some 102)
  /\ In c0 (Base.add_moves s)
  /\ In c1 (Base.add_moves (fst (Base.add c0 s)))
  /\ snd (BaseSpec.add_all [c0; c1] s) = Ok tt
  /\ Base.is_feasible (fst (BaseSpec.add_all [c0; c1] s)) = true
  /\ Base.objective (fst (BaseSpec.add_all [c0; c1] s)) = Ok (Some 3).
Proof.
  cbv zeta.
  split; [ reflexivity | ].
  split; [ vm_compute; reflexivity | ].
  split; [ vm_compute; auto | ].
  split; [ vm_compute; auto | ].
  repeat split; vm_compute; reflexivity.
Qed.

(* ================================================================== *)
(** * When the lower bound is defined (C4) *)
(* ================================================================== *)

(** C4, the claim as stated fails for the closed-tour variant: the tour
    0, 1, 2, 3, 0 of the unit square is complete, and [lower_bound] is not
    [None] on it. *)
Lemma tsp_lower_bound_of_complete_tour :
  ~ (Tsp.is_feasible TspSpec.square_tour = true ->
     Tsp.lower_bound TspSpec.square_tour = None).
Proof.
  intros H. specialize (H eq_refl). discriminate H.
Qed.

(** C4, amended.  Orientation variant: on a well-formed state (every
    reachable state is one) [lower_bound] returns
    [obj_value] plus the value of [get_minimal_connections] on the
    unvisited set when fewer than [n] containers are placed, and [None]
    when all [n] are.  Closed-tour variant: [lower_bound] returns the
    accumulated [dist] in every state, complete or not. *)
Theorem lower_bound_defined :
  (forall s : Base.Solution,
      BaseSpec.wf_solution s = true ->
      (len (Base.containers s) < Base.n (Base.problem s) ->
       exists rest,
         Base.get_minimal_connections (Base.problem s) (Base.not_picked s) = Ok rest
         /\ Base.lower_bound s = Ok (Some (Base.obj_value s + rest)))
      /\ (len (Base.containers s) = Base.n (Base.problem s) ->
          Base.lower_bound s = Ok None))
  /\ (forall s : Tsp.Solution, Tsp.lower_bound s = Some (Tsp.dist s)).
Proof.
  split.
  - intros s Hwf. split.
    + now apply base_lower_bound_partial.
    + now apply base_lower_bound_complete.
  - reflexivity.
Qed.

Lemma lower_bound_defined_witness :
  (exists rest,
      Base.lower_bound (Base.empty_solution BaseSpec.line3) = Ok (Some (0 + rest)))
  /\ Base.lower_bound BaseSpec.line3_tour = Ok None.
Proof.
  split.
  - destruct (proj1 lower_bound_defined (Base.empty_solution BaseSpec.line3))
      as [Hpartial _]; [ reflexivity | ].
    destruct Hpartial as (rest & _ & H); [ vm_compute; reflexivity | ].
    exists rest. exact H.
  - destruct (proj1 lower_bound_defined BaseSpec.line3_tour) as [_ Hcomplete];
      [ reflexivity | ].
    apply Hcomplete. reflexivity.
Defined.

(* ================================================================== *)
(** * The unit square (C5) *)
(* ================================================================== *)

Lemma float_result_neq (a b : result float) (observe : float -> bool) :
  match a with Ok r => observe r | Raise _ => true end
  <> match b with Ok r => observe r | Raise _ => true end ->
  a <> b.
Proof.
  intros Hobs Heq. apply Hobs. rewrite Heq. reflexivity.
Qed.

(** C5, the claim as stated fails: on the tour 0, 1, 2, 3, 0 of the unit
    square the increment reported for [LocalMove(1, 3)] is not 0. *)
Lemma square_delta_is_not_zero :
  ~ (Tsp.objective TspSpec.square_tour = Some 4%float
     /\ Tsp.is_feasible TspSpec.square_tour = true
     /\ Tsp.objective_incr_local TspSpec.square_tour (Tsp.mkLocalMove 1 3)
        = Ok 0%float).
Proof.
  intros (_ & _ & H). revert H.
  apply float_result_neq with (observe := fun r => PrimFloat.eqb r 0%float).
  vm_compute. discriminate.
Qed.

(** C5, amended.  The tour built by adding (0,1), (1,2), (2,3), (3,0) to
    the empty solution of the unit square has objective 4.0 and is
    feasible; on it [objective_incr_local(LocalMove(1, 3))] returns
    ((((4 - 1) - 1) + sqrt 2) + sqrt 2) - 4, between 0.828125 and
    0.83203125: reversing
    positions [1, 3) gives the tour 0, 2, 1, 3, 0, which replaces two sides
    of the square by its two diagonals, and [step] reaches exactly that
    objective. *)
Theorem square_scenario :
  let s := TspSpec.square_tour in
  let m := Tsp.mkLocalMove 1 3 in
  let r2 := TspSpec.sqrt2 in
  let after := (4 - 1 - 1 + r2 + r2)%float in
  Tsp.path s = [0; 1; 2; 3; 0]
  /\ Tsp.objective s = Some 4%float
  /\ Tsp.is_feasible s = true
  /\ Tsp.objective_incr_local s m = Ok (after - 4)%float
  /\ PrimFloat.ltb 0.828125 (after - 4) = true
  /\ PrimFloat.ltb (after - 4) 0.83203125 = true
  /\ snd (Tsp.step m s) = Ok tt
  /\ Tsp.path (fst (Tsp.step m s)) = [0; 2; 1; 3; 0]
  /\ Tsp.objective (fst (Tsp.step m s)) = Some after.
Proof.
  cbv zeta. repeat split; vm_compute; reflexivity.
Qed.

(* ================================================================== *)
(** * Randomised enumeration without replacement (C6) *)
(* ================================================================== *)

(** C6.  Whatever orders [random.shuffle] produces, and whatever order
    [sample2(n, m)] yields the pairs of [range(n) x range(m)] in, the moves
    yielded by [random_local_moves_wor] are a permutation of those yielded
    by [local_moves], and no move is yielded twice; in both variants and in
    every state. *)
Theorem random_local_moves_wor_enumerates
  (rng : Type)
  (shuffle : list Z -> rng -> list Z * rng)
  (sample2 : Z -> Z -> rng -> list (Z * Z) * rng)
  (shuffle_permutes : forall l g, Permutation (fst (shuffle l g)) l)
  (sample2_permutes :
     forall n m g,
       Permutation (fst (sample2 n m g)) (list_prod (range 0 n) (range 0 m))) :
  (forall (s : Base.Solution) (g : rng),
      Permutation (fst (Base.random_local_moves_wor rng shuffle s g))
                  (Base.local_moves s)
      /\ NoDup (fst (Base.random_local_moves_wor rng shuffle s g)))
  /\ (forall (s : Tsp.Solution) (g : rng),
         Permutation (fst (Tsp.random_local_moves_wor rng sample2 s g))
                     (Tsp.local_moves s)
         /\ NoDup (fst (Tsp.random_local_moves_wor rng sample2 s g))).
Proof.
  split; intros s g.
  - pose proof (base_random_local_moves_wor_perm rng shuffle shuffle_permutes s g) as H.
    split; [ assumption | ].
    apply (Permutation_NoDup (Permutation_sym H)). apply NoDup_base_local_moves.
  - split.
    + now apply tsp_random_local_moves_wor_perm.
    + now apply NoDup_tsp_random_local_moves_wor.
Qed.

Lemma random_local_moves_wor_enumerates_witness :
  let shuffle := fun (l : list Z) (g : unit) => (rev l, g) in
  let sample2 := fun (n m : Z) (g : unit) =>
                   (rev (list_prod (range 0 n) (range 0 m)), g) in
  Permutation (fst (Base.random_local_moves_wor unit shuffle BaseSpec.line3_tour tt))
              (Base.local_moves BaseSpec.line3_tour)
  /\ Permutation (fst (Tsp.random_local_moves_wor unit sample2 TspSpec.square_tour tt))
                 (Tsp.local_moves TspSpec.square_tour).
Proof.
  intros shuffle sample2.
  assert (Hs : forall l g, Permutation (fst (shuffle l g)) l)
    by (intros l g; symmetry; apply Permutation_rev).
  assert (Hp : forall n m g,
             Permutation (fst (sample2 n m g)) (list_prod (range 0 n) (range 0 m)))
    by (intros n m g; symmetry; apply Permutation_rev).
  destruct (random_local_moves_wor_enumerates unit shuffle sample2 Hs Hp) as [Hb Ht].
  split.
  - exact (proj1 (Hb BaseSpec.line3_tour tt)).
  - exact (proj1 (Ht TspSpec.square_tour tt)).
Defined.

(* ================================================================== *)
(** * Adding a unit that is already visited (C7) *)
(* ================================================================== *)

(** C7, the claim as stated fails.  Orientation variant: on the complete
    solution 0, 1, 2 of [line3], [add(Component(0, 0))] raises [KeyError]
    but leaves the sequence 0, 1, 2, 0 behind.  Closed-tour variant: on the
    partial tour 0, 1 of the unit square, [add(Component(1, 0))] adds the
    start point, which is visited, and returns normally. *)
Lemma add_of_visited_unit_mutates :
  (mem 0 (Base.picked BaseSpec.line3_tour) = true
   /\ snd (Base.add (Base.mkComponent (Some 0) (Some 0)) BaseSpec.line3_tour)
      = Raise KeyError
   /\ Base.containers
        (fst (Base.add (Base.mkComponent (Some 0) (Some 0)) BaseSpec.line3_tour))
      = [0; 1; 2; 0])
  /\ (let s := fst (Tsp.add (Tsp.mkComponent 0 1) (Tsp.empty_solution TspSpec.square)) in
      mem 0 (Tsp.used s) = true
      /\ snd (Tsp.add (Tsp.mkComponent 1 0) s) = Ok tt
      /\ Tsp.path (fst (Tsp.add (Tsp.mkComponent 1 0) s)) = [0; 1; 0]).
Proof.
  cbv zeta. repeat split; vm_compute; reflexivity.
Qed.

(** C7, amended.  Orientation variant: on a well-formed state, [add] of
    a component with orientation 0 or 1 whose container is already picked
    raises [KeyError], after the container and the orientation have been
    appended and the transition cost (the entry cost from the depot when
    the sequence is empty, the cost from the last element otherwise) has
    been added to [obj_value]; the two sets are as before.  Closed-tour
    variant: [add] of a component whose target is visited and is not the
    start raises [KeyError] after the target has been appended to the path
    (sets and [dist] are as before); when the target is the start, [add]
    appends it, adds the distance and returns normally. *)
Theorem add_of_visited_unit :
  (forall (s : Base.Solution) (v d : Z),
      BaseSpec.wf_solution s = true ->
      mem v (Base.picked s) = true ->
      BaseSpec.is_bit d = true ->
      exists cost,
        BaseSpec.immediate_cost s v d = Ok cost
        /\ Base.add (Base.mkComponent (Some v) (Some d)) s
           = (Base.mkSolution (Base.problem s) (Base.containers s ++ [v])
                              (Base.directions s ++ [d]) (Base.picked s)
                              (Base.not_picked s) (Base.obj_value s + cost),
              Raise KeyError))
  /\ (forall (s : Tsp.Solution) (c : Tsp.Component),
         TspSpec.partitioned s = true ->
         mem (Tsp.v c) (Tsp.used s) = true ->
         Tsp.v c <> Tsp.start s ->
         Tsp.add c s = (Tsp.set_path (Tsp.path s ++ [Tsp.v c]) s, Raise KeyError))
  /\ (forall (s : Tsp.Solution) (c : Tsp.Component) (d : float),
         Tsp.v c = Tsp.start s ->
         Tsp.dist_at (Tsp.problem s) (Tsp.u c) (Tsp.v c) = Ok d ->
         Tsp.add c s
         = (Tsp.mkSolution (Tsp.problem s) (Tsp.start s) (Tsp.path s ++ [Tsp.v c])
                           (set_add (Tsp.v c) (Tsp.used s)) (Tsp.unused s)
                           (PrimFloat.add (Tsp.dist s) d),
            Ok tt)).
Proof.
  split; [ | split ].
  - intros s v d. apply base_add_picked_unit_cost.
  - intros s c Hpart Hused Hne. apply tsp_add_used_unit; [ assumption | ].
    unfold TspSpec.partitioned in Hpart. rewrite forallb_forall in Hpart.
    apply negb_true_iff. apply Hpart. now apply mem_spec.
  - intros s c d. apply tsp_add_start_unit.
Qed.

Lemma add_of_visited_unit_witness :
  Base.add (Base.mkComponent (Some 0) (Some 0)) BaseSpec.line3_tour
  = (Base.mkSolution BaseSpec.line3 [0; 1; 2; 0] [0; 0; 0; 0] [0; 1; 2] []
                     (3 + 2),
     Raise KeyError)
  /\ (let s := fst (TspSpec.add_all [Tsp.mkComponent 0 1; Tsp.mkComponent 1 2]
                                    (Tsp.empty_solution TspSpec.square)) in
      Tsp.add (Tsp.mkComponent 2 1) s
      = (Tsp.set_path [0; 1; 2; 1] s, Raise KeyError)).
Proof.
  destruct add_of_visited_unit as (Hbase & Htsp & _).
  split.
  - destruct (Hbase BaseSpec.line3_tour 0 0 eq_refl eq_refl eq_refl)
      as (cost & Hcost & Hadd).
    vm_compute in Hcost. injection Hcost as <-. exact Hadd.
  - cbv zeta.
    apply (Htsp (fst (TspSpec.add_all [Tsp.mkComponent 0 1; Tsp.mkComponent 1 2]
                                      (Tsp.empty_solution TspSpec.square)))
                (Tsp.mkComponent 2 1)).
    + vm_compute. reflexivity.
    + vm_compute. reflexivity.
    + vm_compute. discriminate.
Defined.

(* ================================================================== *)
(** * The first element of the sequence (C8) *)
(* ================================================================== *)

(** C8, the claim as stated fails for the orientation variant:
    [local_moves] yields [LocalMove(0, 2, 0, 0)] on the complete solution
    0, 1, 2 of [line3], and [step] on it puts container 2 first. *)
Lemma base_step_replaces_first_element :
  In (Base.mkLocalMove 0 2 0 0) (Base.local_moves BaseSpec.line3_tour)
  /\ hd_error (Base.containers BaseSpec.line3_tour) = Some 0
  /\ snd (Base.step (Base.mkLocalMove 0 2 0 0) BaseSpec.line3_tour) = Ok tt
  /\ hd_error (Base.containers
                 (fst (Base.step (Base.mkLocalMove 0 2 0 0) BaseSpec.line3_tour)))
     = Some 2.
Proof.
  split; [ vm_compute; auto 20 | ].
  repeat split; vm_compute; reflexivity.
Qed.

(** C8, amended.  Closed-tour variant: once the path is non-empty its
    first element is the same after [add] of any component and after [step]
    on any move yielded by [local_moves] or by [random_local_moves_wor]
    (whatever [sample2] yields), whether the call returns or raises.
    Orientation variant: [add] never changes the first element of a
    non-empty sequence; [step] may (the sequence holds no depot, and
    [local_moves] yields moves on position 0). *)
Theorem first_element_kept :
  (forall s : Tsp.Solution,
      Tsp.path s <> [] ->
      (forall c, hd_error (Tsp.path (fst (Tsp.add c s))) = hd_error (Tsp.path s))
      /\ (forall m, In m (Tsp.local_moves s) ->
                    hd_error (Tsp.path (fst (Tsp.step m s))) = hd_error (Tsp.path s))
      /\ (forall (rng : Type) (sample2 : Z -> Z -> rng -> list (Z * Z) * rng)
                 (g : rng) (m : Tsp.LocalMove),
             In m (fst (Tsp.random_local_moves_wor rng sample2 s g)) ->
             hd_error (Tsp.path (fst (Tsp.step m s))) = hd_error (Tsp.path s)))
  /\ (forall (s : Base.Solution) (c : Base.Component),
         Base.containers s <> [] ->
         hd_error (Base.containers (fst (Base.add c s)))
         = hd_error (Base.containers s)).
Proof.
  split.
  - intros s Hne. split; [ | split ].
    + intros c. rewrite tsp_add_path. now apply hd_error_app.
    + intros m Hm. apply In_tsp_local_moves in Hm. apply tsp_step_first. lia.
    + intros rng sample2 g m Hm. apply In_tsp_random_local_moves_wor in Hm.
      apply tsp_step_first. lia.
  - intros s c Hne. destruct (base_add_containers c s) as (l & ->).
    now apply hd_error_app.
Qed.

Lemma first_element_kept_witness :
  hd_error (Tsp.path (fst (Tsp.step (Tsp.mkLocalMove 1 3) TspSpec.square_tour)))
  = hd_error (Tsp.path TspSpec.square_tour)
  /\ hd_error (Base.containers
                 (fst (Base.add (Base.mkComponent (Some 1) (Some 0))
                                BaseSpec.line3_tour)))
     = hd_error (Base.containers BaseSpec.line3_tour).
Proof.
  destruct first_element_kept as [Htsp Hbase].
  split.
  - destruct (Htsp TspSpec.square_tour) as (_ & Hstep & _);
      [ vm_compute; discriminate | ].
    apply Hstep. vm_compute. auto.
  - apply Hbase. vm_compute. discriminate.
Defined.

(* ================================================================== *)
(** * The greedy candidate (C9) *)
(* ================================================================== *)

(** C9 (orientation variant, at a failing input).  On the empty solution
    of [zero2] both containers are unvisited and every candidate costs 0;
    the running best starts at [max(candidates[0] + candidates[1]) = 0],
    no candidate is strictly below it, and the method returns
    [Component(None, None)], which is none of the four candidates. *)
Theorem base_heuristic_add_move_returns_no_candidate :
  let s := Base.empty_solution BaseSpec.zero2 in
  BaseSpec.wf_problem BaseSpec.zero2 = true
  /\ Base.not_picked s = [0; 1]
  /\ Base.add_moves s
     = [Base.mkComponent (Some 0) (Some 0); Base.mkComponent (Some 0) (Some 1);
        Base.mkComponent (Some 1) (Some 0); Base.mkComponent (Some 1) (Some 1)]
  /\ Base.heuristic_add_move s = Ok (Some (Base.mkComponent None None)).
Proof.
  cbv zeta. repeat split; vm_compute; reflexivity.
Qed.

(* ================================================================== *)
(** * Independence of a copy (C10) *)
(* ================================================================== *)

Section CopyFrames.
Import Store.

(** The store distinguishes a copy from an alias: a second [Solution]
    object built on the same collections shows its moves in the first. *)
Example base_alias_is_not_independent :
  let m := Base.mkLocalMove 0 2 1 1 in
  let h := StoreSpec.base_example in
  option_map Base.containers (base_view h 5%nat) = Some [0; 1; 2]
  /\ option_map Base.containers
       (base_view (fst ((c <- base_alias 5%nat ;; base_call (Base.step m) c) h)) 5%nat)
     = Some [2; 1; 0]
  /\ option_map Base.containers
       (base_view (fst ((c <- base_copy 5%nat ;; base_call (Base.step m) c) h)) 5%nat)
     = Some [0; 1; 2].
Proof.
  cbv zeta. repeat split; vm_compute; reflexivity.
Qed.

Lemma base_copy_independent (h : heap) (self : loc) (s : Base.Solution)
  (ops : list base_op) :
  base_view h self = Some s ->
  exists h1 c,
    base_copy self h = (h1, Ok c)
    /\ c <> self
    /\ base_view h1 c = Some s
    /\ firstn (List.length h) (base_run c ops h1) = h
    /\ base_view (base_run c ops h1) self = Some s
    /\ exists r r',
        read (base_run c ops h1) self = Some (OBaseSolution r)
        /\ read (base_run c ops h1) c = Some (OBaseSolution r')
        /\ b_problem r' = b_problem r.
Proof.
  intros Hview.
  destruct (base_copy_fresh h self s Hview) as (h1 & c & r & Hcopy & Hself & Hfresh & Hc).
  exists h1, c. split; [ assumption | ].
  pose proof (base_run_fresh ops h h1 c (b_problem r) Hfresh)
    as (Hext & r' & Hr' & Hp & Hge & _).
  split.
  { intros ->. assert (read h self <> None) by congruence.
    apply nth_error_Some in H. lia. }
  split; [ assumption | ].
  split; [ now apply extends_firstn | ].
  split; [ now apply (base_view_extends h) | ].
  exists r, r'. split; [ now apply (extends_read h) | ]. split; assumption.
Qed.

Lemma tsp_copy_independent (h : heap) (self : loc) (s : Tsp.Solution)
  (ops : list tsp_op) :
  tsp_view h self = Some s ->
  exists h1 c,
    tsp_copy self h = (h1, Ok c)
    /\ c <> self
    /\ tsp_view h1 c = Some s
    /\ firstn (List.length h) (tsp_run c ops h1) = h
    /\ tsp_view (tsp_run c ops h1) self = Some s
    /\ exists r r',
        read (tsp_run c ops h1) self = Some (OTspSolution r)
        /\ read (tsp_run c ops h1) c = Some (OTspSolution r')
        /\ t_problem r' = t_problem r.
Proof.
  intros Hview.
  destruct (tsp_copy_fresh h self s Hview) as (h1 & c & r & Hcopy & Hself & Hfresh & Hc).
  exists h1, c. split; [ assumption | ].
  pose proof (tsp_run_fresh ops h h1 c (t_problem r) Hfresh)
    as (Hext & r' & Hr' & Hp & Hge & _).
  split.
  { intros ->. assert (read h self <> None) by congruence.
    apply nth_error_Some in H. lia. }
  split; [ assumption | ].
  split; [ now apply extends_firstn | ].
  split; [ now apply (tsp_view_extends h) | ].
  exists r, r'. split; [ now apply (extends_read h) | ]. split; assumption.
Qed.
End CopyFrames.

(** C10.  In a store [h] where [self] denotes the solution [s], [copy]
    returns a new object [c] that denotes [s] too; after any sequence of
    [add] and [step] calls on [c], whatever they return or raise, every
    object that was in [h] is as it was, so [self] still denotes [s]
    (sequence, orientations, both sets and accumulated cost), and [c] and
    [self] still refer to the same problem object.  Both variants. *)
Theorem copy_is_independent :
  (forall (h : Store.heap) (self : Store.loc) (s : Base.Solution)
          (ops : list Store.base_op),
      Store.base_view h self = Some s ->
      exists h1 c,
        Store.base_copy self h = (h1, Ok c)
        /\ c <> self
        /\ Store.base_view h1 c = Some s
        /\ firstn (List.length h) (Store.base_run c ops h1) = h
        /\ Store.base_view (Store.base_run c ops h1) self = Some s
        /\ exists r r',
            Store.read (Store.base_run c ops h1) self = Some (Store.OBaseSolution r)
            /\ Store.read (Store.base_run c ops h1) c = Some (Store.OBaseSolution r')
            /\ Store.b_problem r' = Store.b_problem r)
  /\ (forall (h : Store.heap) (self : Store.loc) (s : Tsp.Solution)
             (ops : list Store.tsp_op),
         Store.tsp_view h self = Some s ->
         exists h1 c,
           Store.tsp_copy self h = (h1, Ok c)
           /\ c <> self
           /\ Store.tsp_view h1 c = Some s
           /\ firstn (List.length h) (Store.tsp_run c ops h1) = h
           /\ Store.tsp_view (Store.tsp_run c ops h1) self = Some s
           /\ exists r r',
               Store.read (Store.tsp_run c ops h1) self = Some (Store.OTspSolution r)
               /\ Store.read (Store.tsp_run c ops h1) c = Some (Store.OTspSolution r')
               /\ Store.t_problem r' = Store.t_problem r).
Proof.
  split.
  - apply base_copy_independent.
  - apply tsp_copy_independent.
Qed.

Lemma copy_is_independent_witness :
  (exists h1 c,
      Store.base_copy 5%nat StoreSpec.base_example = (h1, Ok c)
      /\ Store.base_view
           (Store.base_run c [Store.BaseStep (Base.mkLocalMove 0 2 1 1);
                              Store.BaseAdd (Base.mkComponent (Some 1) (Some 0))] h1)
           5%nat
         = Some BaseSpec.line3_tour)
  /\ (exists h1 c,
         Store.tsp_copy 4%nat StoreSpec.tsp_example = (h1, Ok c)
         /\ Store.tsp_view
              (Store.tsp_run c [Store.TspAdd (Tsp.mkComponent 1 2);
                                Store.TspStep (Tsp.mkLocalMove 1 3)] h1)
              4%nat
            = Some (fst (Tsp.add (Tsp.mkComponent 0 1)
                                 (Tsp.empty_solution TspSpec.square)))).
Proof.
  destruct copy_is_independent as [Hbase Htsp].
  split.
  - destruct (Hbase StoreSpec.base_example 5%nat BaseSpec.line3_tour
                    [Store.BaseStep (Base.mkLocalMove 0 2 1 1);
                     Store.BaseAdd (Base.mkComponent (Some 1) (Some 0))])
      as (h1 & c & Hcopy & _ & _ & _ & Hview & _); [ vm_compute; reflexivity | ].
    exists h1, c. split; assumption.
  - destruct (Htsp StoreSpec.tsp_example 4%nat
                   (fst (Tsp.add (Tsp.mkComponent 0 1)
                                 (Tsp.empty_solution TspSpec.square)))
                   [Store.TspAdd (Tsp.mkComponent 1 2);
                    Store.TspStep (Tsp.mkLocalMove 1 3)])
      as (h1 & c & Hcopy & _ & _ & _ & Hview & _); [ vm_compute; reflexivity | ].
    exists h1, c. split; assumption.
Defined.

(* ================================================================== *)
(** * Further properties of the two classes *)
(* ================================================================== *)

Section BaseFurther.
Import Base BaseSpec.

(** X1.  [Base.step] swaps two containers and sets two orientations; it
    never writes [obj_value], whatever the move and whether it returns or
    raises. *)
Lemma base_step_keeps_obj_value (m : LocalMove) (s : Solution) :
  obj_value (fst (step m s)) = obj_value s.
Proof.
  unfold step, bind, get, lift, modify.
  destruct (getitem (containers s) (i m)); [ | reflexivity ].
  destruct (getitem (containers s) (j m)); [ | reflexivity ].
  destruct (setitem (containers s) (i m) a0); [ | reflexivity ].
  cbn.
  destruct (setitem a1 (j m) a); [ | reflexivity ].
  cbn.
  destruct (setitem (directions s) (i m) (i_dir m)); [ | reflexivity ].
  cbn.
  destruct (setitem a3 (j m) (j_dir m)); reflexivity.
Qed.

(** X2.  Every state reachable from [empty_solution] of a well-formed
    instance by [add] on candidates of [add_moves] and [step] on moves of
    [local_moves] is well formed: orientations are 0 or 1, the containers
    placed and the unvisited ones are in [0, n), the unvisited set is
    disjoint from the visited one and holds [n - len(containers)]
    containers. *)
Lemma reachable_wf (s : Solution) : reachable s -> wf_solution s = true.
Proof.
  induction 1 as [ p Hp | s s' c _ IH Hc Hadd | s s' m _ IH Hm Hstep ].
  - now apply wf_empty_solution.
  - apply In_add_moves in Hc. destruct Hc as (v & d & -> & Hv & Hd).
    destruct (base_add_candidate s v d IH Hv Hd) as (cost & E).
    rewrite E in Hadd. injection Hadd as <-.
    now apply wf_after_add.
  - apply In_local_moves in Hm. destruct Hm as (_ & _ & _ & Hi & Hj).
    eapply wf_after_step; eassumption.
Qed.

Lemma reachable_wf_witness : wf_solution line3_tour = true.
Proof.
  apply reachable_wf. exact line3_tour_reachable.
Defined.

(** X3.  On a well-formed state, [add] of a candidate of [add_moves]
    returns normally and keeps [obj_value] equal to the sum of the
    transition costs along the sequence (entry cost first). *)
Lemma base_add_keeps_obj_value (s : Solution) (v d : Z) :
  wf_solution s = true -> In v (not_picked s) -> is_bit d = true ->
  recomputed_cost s = Ok (obj_value s) ->
  snd (add (mkComponent (Some v) (Some d)) s) = Ok tt
  /\ recomputed_cost (fst (add (mkComponent (Some v) (Some d)) s))
     = Ok (obj_value (fst (add (mkComponent (Some v) (Some d)) s))).
Proof.
  intros Hwf Hv Hd Hrec.
  destruct (base_add_candidate_cost s v d Hwf Hv Hd) as (cost & Hcost & ->).
  cbn [fst snd]. split; [ reflexivity | ].
  pose proof (proj1 (wf_solution_spec s) Hwf) as (_ & Hlen & _).
  unfold recomputed_cost in *.
  cbn [problem containers directions obj_value].
  rewrite combine_snoc by (symmetry; assumption).
  rewrite map_app. cbn [map fst snd].
  set (f := fun t : Component * Component => connection_cost (problem s) (fst t) (snd t)) in *.
  set (new := mkComponent (Some v) (Some d)).
  set (depot := mkComponent (Some (-1)) None) in *.
  destruct (Z.eqb_spec (len (containers s)) 0) as [E | E].
  - assert (Ec : containers s = [])
      by (destruct (containers s); [ reflexivity | unfold len in E; cbn in E; lia ]).
    rewrite Ec in *. cbn [combine map app pairwise rmap] in *.
    change (f (depot, new)) with (lookup2 (depot_to_container (problem s)) (Some d) (Some v)).
    rewrite Hcost. cbn. cbn in Hrec. injection Hrec as <-. f_equal; lia.
  - destruct (getitem (containers s) (-1)) as [lc | ] eqn:Elc; [ | discriminate ].
    destruct (getitem (directions s) (-1)) as [ld | ] eqn:Eld; [ | discriminate ].
    cbn [rbind] in Hcost.
    destruct (getitem_last_snoc _ _ Elc) as (cs' & Ecs).
    destruct (getitem_last_snoc _ _ Eld) as (ds' & Eds).
    rewrite Ecs, Eds in *.
    assert (Hlen' : List.length cs' = List.length ds')
      by (rewrite !length_app in Hlen; cbn in Hlen; lia).
    rewrite combine_snoc in * by assumption.
    rewrite map_app in *. cbn [map fst snd] in *.
    change (depot :: (?a ++ [?b]) ++ [?c]) with (((depot :: a) ++ [b]) ++ [c]).
    rewrite pairwise_snoc.
    change ((depot :: ?a) ++ [?b]) with (depot :: a ++ [b]).
    destruct (rmap f (pairwise (depot :: _ ++ [_]))) as [costs | ] eqn:Ecosts;
      [ | discriminate ].
    cbn [rbind] in Hrec. injection Hrec as Hrec.
    rewrite (rmap_snoc f _ (mkComponent (Some lc) (Some ld), new) costs cost Ecosts Hcost). cbn [rbind].
    rewrite fold_left_app. cbn [fold_left]. now rewrite Hrec.
Qed.

Lemma base_add_keeps_obj_value_witness :
  snd (add (mkComponent (Some 1) (Some 0)) (empty_solution line3)) = Ok tt
  /\ recomputed_cost (fst (add (mkComponent (Some 1) (Some 0)) (empty_solution line3)))
     = Ok (obj_value (fst (add (mkComponent (Some 1) (Some 0)) (empty_solution line3)))).
Proof.
  apply base_add_keeps_obj_value.
  - reflexivity.
  - vm_compute. auto.
  - reflexivity.
  - reflexivity.
Defined.

End BaseFurther.

Section TspFurther.
Import Tsp TspSpec.

(** X4.  Closed-tour variant, on a move of [local_moves] and a state
    whose path indexes the distance table: [objective_incr_local] returns
    what [step] makes of [dist] minus [dist] (the same four float
    operations in the same order), so on a complete tour it is exactly
    [objective] after the move minus [objective] before; [step] itself
    returns normally or stops at one of its checks. *)
Lemma tsp_objective_incr_local_exact (s : Solution) (m : LocalMove) :
  wf_solution s = true -> In m (local_moves s) ->
  objective_incr_local s m
  = Ok (PrimFloat.sub (dist (fst (step m s))) (dist s))
  /\ (snd (step m s) = Ok tt \/ snd (step m s) = Raise AssertionError)
  /\ (is_feasible s = true ->
      objective s = Some (dist s)
      /\ objective (fst (step m s)) = Some (dist (fst (step m s)))).
Proof.
  intros Hwf Hm.
  destruct (tsp_step_state s m Hwf Hm)
    as (e1 & e2 & e3 & e4 & E1 & E2 & E3 & E4 & Hstate & Hout).
  split; [ | split; [ assumption | ] ].
  - unfold objective_incr_local. rewrite E1. cbn [rbind]. rewrite E2. cbn [rbind].
    rewrite E3. cbn [rbind]. rewrite E4. cbn [rbind]. rewrite Hstate. reflexivity.
  - unfold is_feasible, objective. intros Hf. rewrite Hf.
    split; [ reflexivity | ].
    rewrite Hstate. cbn [path problem dist].
    replace (len (reverse_slice (path s) (i m) (j m))) with (len (path s))
      by (unfold len; now rewrite length_reverse_slice).
    rewrite Hf. reflexivity.
Qed.

Lemma tsp_objective_incr_local_exact_witness :
  objective_incr_local square_tour (mkLocalMove 1 3)
  = Ok (PrimFloat.sub (dist (fst (step (mkLocalMove 1 3) square_tour)))
                      (dist square_tour)).
Proof.
  apply (tsp_objective_incr_local_exact square_tour (mkLocalMove 1 3)).
  - vm_compute. reflexivity.
  - vm_compute. auto.
Defined.

(** X5.  Closed-tour variant: [add] of a component that leaves from the
    last point of the path, when it returns normally, keeps [dist] equal,
    bit for bit, to the sum of the distances between consecutive points as
    [step] recomputes it. *)
Lemma tsp_add_keeps_dist (c : Component) (s : Solution) :
  getitem (path s) (-1) = Ok (u c) ->
  recomputed_dist s = Ok (dist s) ->
  snd (add c s) = Ok tt ->
  recomputed_dist (fst (add c s)) = Ok (dist (fst (add c s))).
Proof.
  intros Hlast Hrec Hok.
  destruct (tsp_add_ok_inv c s Hok) as (d & rest & Hd & ->).
  destruct (getitem_last_snoc (path s) (u c) Hlast) as (l' & El).
  unfold recomputed_dist in *. cbn [path problem dist].
  rewrite El in *. rewrite pairwise_snoc.
  destruct (rmap _ (pairwise (l' ++ [u c]))) as [terms | ] eqn:Et; [ | discriminate ].
  cbn [rbind] in Hrec. injection Hrec as Hrec.
  rewrite (rmap_snoc _ _ (u c, v c) terms d Et Hd). cbn [rbind].
  rewrite fold_left_app. cbn [fold_left]. now rewrite Hrec.
Qed.

Lemma tsp_add_keeps_dist_witness :
  recomputed_dist (fst (add (mkComponent 0 1) (empty_solution square)))
  = Ok (dist (fst (add (mkComponent 0 1) (empty_solution square)))).
Proof.
  apply tsp_add_keeps_dist; vm_compute; reflexivity.
Defined.

(** X6.  Closed-tour variant, what [step] leaves when it returns
    normally, on a state whose path indexes the distance table and a move
    yielded by [local_moves]: the path with the positions [i .. j - 1]
    reversed; [dist] less the two edges that enter position [i] and
    position [j], plus the edge from [path[i-1]] to [path[j-1]] and the
    edge from [path[i]] to [path[j]], in this order; problem, start and the
    two sets as they were.  The checks have passed: the sum of the
    distances along the new path is within [math.isclose] of the new
    [dist], and the new path starts and ends at the start. *)
Lemma tsp_step_ok_checked (m : LocalMove) (s s' : Solution) :
  wf_solution s = true -> In m (local_moves s) ->
  step m s = (s', Ok tt) ->
  exists e1 e2 e3 e4 total,
    edge s (i m - 1) (i m) = Ok e1
    /\ edge s (j m - 1) (j m) = Ok e2
    /\ edge s (i m - 1) (j m - 1) = Ok e3
    /\ edge s (i m) (j m) = Ok e4
    /\ s' = mkSolution (problem s) (start s)
                       (reverse_slice (path s) (i m) (j m))
                       (used s) (unused s)
                       (dist s - e1 - e2 + e3 + e4)%float
    /\ recomputed_dist s' = Ok total
    /\ isclose total (dist s') = true
    /\ getitem (path s') 0 = Ok (start s)
    /\ getitem (path s') (-1) = Ok (start s).
Proof.
  intros Hwf Hm Hstep.
  destruct (tsp_step_state s m Hwf Hm)
    as (e1 & e2 & e3 & e4 & E1 & E2 & E3 & E4 & Hstate & _).
  rewrite Hstep in Hstate. cbn [fst] in Hstate.
  assert (Hchecks : exists total,
             recomputed_dist s' = Ok total
             /\ isclose total (dist s') = true
             /\ getitem (path s') 0 = Ok (start s')
             /\ getitem (path s') (-1) = Ok (start s')).
  { clear - Hstep. revert Hstep.
    unfold step, bind, get, lift, modify, ret, py_assert.
    destruct (edge s (i m - 1) (i m)) as [d1 | ]; [ | discriminate ].
    cbn [fst snd].
    match goal with |- context [edge ?t (j m - 1) (j m)] =>
      destruct (edge t (j m - 1) (j m)) as [d2 | ]; [ | discriminate ] end.
    cbn [fst snd].
    match goal with |- context [edge ?t (i m - 1) (i m)] =>
      destruct (edge t (i m - 1) (i m)) as [d3 | ]; [ | discriminate ] end.
    match goal with |- context [edge ?t (j m - 1) (j m)] =>
      destruct (edge t (j m - 1) (j m)) as [d4 | ]; [ | discriminate ] end.
    match goal with |- context [recomputed_dist ?t] => set (s5 := t) end.
    destruct (recomputed_dist s5) as [total | ] eqn:Et; [ | discriminate ].
    destruct (isclose total (dist s5)) eqn:Ec; [ | discriminate ].
    destruct (getitem (path s5) 0) as [first | ] eqn:Ef; [ | discriminate ].
    destruct (Z.eqb_spec first (start s5)) as [-> | ]; [ | discriminate ].
    destruct (getitem (path s5) (-1)) as [last | ] eqn:El; [ | discriminate ].
    destruct (Z.eqb_spec last (start s5)) as [-> | ]; [ | discriminate ].
    intros [= <-]. exists total. repeat split; assumption. }
  destruct Hchecks as (total & Ht & Hc & Hf & Hl).
  exists e1, e2, e3, e4, total.
  assert (Hs : start s' = start s) by (rewrite Hstate; reflexivity).
  rewrite Hs in Hf, Hl. repeat split; assumption.
Qed.

Lemma tsp_step_ok_checked_witness :
  exists e1 e2 e3 e4 total,
    edge square_tour 0 1 = Ok e1
    /\ edge square_tour 2 3 = Ok e2
    /\ edge square_tour 0 2 = Ok e3
    /\ edge square_tour 1 3 = Ok e4
    /\ fst (step (mkLocalMove 1 3) square_tour)
       = mkSolution square 0 [0; 2; 1; 3; 0] (used square_tour)
                    (unused square_tour)
                    (dist square_tour - e1 - e2 + e3 + e4)%float
    /\ recomputed_dist (fst (step (mkLocalMove 1 3) square_tour)) = Ok total
    /\ isclose total (dist (fst (step (mkLocalMove 1 3) square_tour))) = true.
Proof.
  destruct (tsp_step_ok_checked (mkLocalMove 1 3) square_tour
              (fst (step (mkLocalMove 1 3) square_tour)))
    as (e1 & e2 & e3 & e4 & total & E1 & E2 & E3 & E4 & Hs & Ht & Hc & _).
  - vm_compute. reflexivity.
  - vm_compute. auto.
  - vm_compute. reflexivity.
  - exists e1, e2, e3, e4, total. repeat split; assumption.
Defined.
End TspFurther.
(* ================================================================== *)
(** * The remaining methods *)
(* ================================================================== *)

Section Swaps.

Lemma nth_error_update_other {A : Type} (l : list A) (p q : nat) (x : A) :
  p <> q -> nth_error (update l p x) q = nth_error l q.
Proof.
  revert p q. induction l as [ | y l IH ]; intros [ | p ] [ | q ] H; cbn; try reflexivity.
  - congruence.
  - apply IH. congruence.
Qed.

Lemma count_occ_update (l : list Z) (p : nat) (old y x : Z) :
  nth_error l p = Some old ->
  (count_occ Z.eq_dec (update l p y) x + (if Z.eq_dec old x then 1 else 0)
   = count_occ Z.eq_dec l x + (if Z.eq_dec y x then 1 else 0))%nat.
Proof.
  revert p. induction l as [ | z l IH ]; intros [ | p ] H; cbn in *; try discriminate.
  - injection H as ->. destruct (Z.eq_dec old x), (Z.eq_dec y x); lia.
  - specialize (IH p H). destruct (Z.eq_dec z x); lia.
Qed.

(** The two assignments of a swap leave a permutation. *)
Lemma swap_permutation (l l1 l2 : list Z) (i j a b : Z) :
  getitem l i = Ok a -> getitem l j = Ok b ->
  setitem l i b = Ok l1 -> setitem l1 j a = Ok l2 ->
  Permutation l2 l.
Proof.
  unfold getitem, setitem. intros Ga Gb S1 S2.
  destruct (norm_index (len l) i) as [p | ] eqn:Ep; [ | discriminate ].
  destruct (norm_index (len l) j) as [q | ] eqn:Eq; [ | discriminate ].
  destruct (nth_error l p) as [a' | ] eqn:Na; [ | discriminate ].
  destruct (nth_error l q) as [b' | ] eqn:Nb; [ | discriminate ].
  injection Ga as ->. injection Gb as ->. injection S1 as <-.
  assert (Hlen : len (update l p b) = len l) by (unfold len; now rewrite update_length).
  rewrite Hlen, Eq in S2. injection S2 as <-.
  assert (Hq : nth_error (update l p b) q = Some b).
  { destruct (Nat.eq_dec p q) as [ <- | Hne ].
    - apply nth_error_update_same. apply nth_error_Some. congruence.
    - now rewrite nth_error_update_other. }
  apply (Permutation_count_occ Z.eq_dec). intros x.
  pose proof (count_occ_update l p a b x Na).
  pose proof (count_occ_update (update l p b) q b a x Hq).
  lia.
Qed.

Lemma reverse_slice_permutation {A : Type} (l : list A) (i j : Z) :
  Permutation (reverse_slice l i j) l.
Proof.
  unfold reverse_slice.
  set (lo := slice_bound (len l) i).
  set (hi := Nat.max lo (slice_bound (len l) j)).
  set (mid := firstn (hi - lo) (skipn lo l)).
  assert (E : firstn lo l ++ mid ++ skipn hi l = l).
  { unfold mid. replace (skipn hi l) with (skipn (hi - lo) (skipn lo l)).
    - now rewrite !firstn_skipn.
    - rewrite skipn_skipn. f_equal. lia. }
  transitivity (firstn lo l ++ mid ++ skipn hi l).
  - apply Permutation_app_head. apply Permutation_app_tail.
    symmetry. apply Permutation_rev.
  - now rewrite E.
Qed.
End Swaps.

Section BaseStepFrame.
Import Base.

(** What [step] can change: whatever it returns or raises, the
    containers are permuted, the orientations keep their number, and the
    rest is as it was. *)
Lemma base_step_frame (m : LocalMove) (s : Solution) :
  Permutation (containers (fst (step m s))) (containers s)
  /\ List.length (directions (fst (step m s))) = List.length (directions s)
  /\ problem (fst (step m s)) = problem s
  /\ picked (fst (step m s)) = picked s
  /\ not_picked (fst (step m s)) = not_picked s.
Proof.
  unfold step, bind, get, lift, modify.
  destruct (getitem (containers s) (i m)) as [tmp | ] eqn:G1; [ | now cbn ].
  destruct (getitem (containers s) (j m)) as [cj | ] eqn:G2; [ | now cbn ].
  destruct (setitem (containers s) (i m) cj) as [cs1 | ] eqn:E1; [ | now cbn ].
  cbn.
  destruct (setitem cs1 (j m) tmp) as [cs2 | ] eqn:E2.
  2:{ exfalso. unfold setitem in E1, E2. unfold getitem in G2.
      destruct (norm_index (len (containers s)) (i m)) as [p | ]; [ | discriminate ].
      injection E1 as <-.
      assert (Hl : len (update (containers s) p cj) = len (containers s))
        by (unfold len; now rewrite update_length).
      rewrite Hl in E2.
      destruct (norm_index (len (containers s)) (j m)); discriminate. }
  cbn.
  pose proof (swap_permutation _ _ _ _ _ _ _ G1 G2 E1 E2) as Hperm.
  destruct (setitem (directions s) (i m) (i_dir m)) as [ds1 | ] eqn:E3; [ | now cbn ].
  cbn.
  destruct (setitem ds1 (j m) (j_dir m)) as [ds2 | ] eqn:E4; cbn.
  - repeat split; try assumption.
    rewrite (setitem_length _ _ _ _ E4). apply (setitem_length _ _ _ _ E3).
  - repeat split; try assumption. apply (setitem_length _ _ _ _ E3).
Qed.
End BaseStepFrame.

Lemma set_discard_absent (v : Z) (l : list Z) : ~ In v l -> set_discard v l = l.
Proof.
  induction l as [ | y l IH ]; intros H; cbn; [ reflexivity | ].
  destruct (Z.eqb_spec v y) as [ -> | _ ]; cbn.
  - exfalso. apply H. now left.
  - f_equal. apply IH. intros Hin. apply H. now right.
Qed.

Lemma discard_permutation (v : Z) (l : list Z) :
  NoDup l -> In v l -> Permutation (v :: set_discard v l) l.
Proof.
  induction l as [ | y l IH ]; intros Hnd Hin; [ contradiction | ].
  inversion Hnd as [ | ? ? Hy Hl ]; subst.
  unfold set_discard. cbn [filter].
  destruct (Z.eqb_spec v y) as [ -> | Hne ]; cbn [negb].
  - fold (set_discard y l). now rewrite set_discard_absent.
  - fold (set_discard v l).
    destruct Hin as [ -> | Hin ]; [ congruence | ].
    rewrite perm_swap. constructor. now apply IH.
Qed.

Section BaseComplete.
Import Base BaseSpec BaseInv.

Lemma reachable_is_wf (s : Solution) : reachable s -> wf_solution s = true.
Proof.
  induction 1 as [ p Hp | s s' c _ IH Hc Hadd | s s' m _ IH Hm Hstep ].
  - now apply wf_empty_solution.
  - apply In_add_moves in Hc. destruct Hc as (v & d & -> & Hv & Hd).
    destruct (base_add_candidate s v d IH Hv Hd) as (cost & E).
    rewrite E in Hadd. injection Hadd as <-.
    now apply wf_after_add.
  - apply In_local_moves in Hm. destruct Hm as (_ & _ & _ & Hi & Hj).
    eapply wf_after_step; eassumption.
Qed.

Lemma reachable_covers (s : Solution) : reachable s -> covers s /\ picked_placed s.
Proof.
  induction 1 as [ p Hp | s s' c Hr [IHc IHp] Hc Hadd | s s' m Hr [IHc IHp] Hm Hstep ].
  - split; [ unfold covers; cbn; reflexivity | intros v; cbn; tauto ].
  - pose proof (reachable_is_wf s Hr) as Hwf.
    pose proof (proj1 (wf_solution_spec s) Hwf) as (_ & _ & _ & _ & _ & Hnd & _).
    apply In_add_moves in Hc. destruct Hc as (v & d & -> & Hv & Hd).
    destruct (base_add_candidate s v d Hwf Hv Hd) as (cost & E).
    rewrite E in Hadd. injection Hadd as <-.
    unfold covers, picked_placed in *. cbn [containers not_picked picked problem].
    split.
    + rewrite <- IHc, <- app_assoc. apply Permutation_app_head. cbn.
      now apply discard_permutation.
    + intros x. rewrite In_set_add, in_app_iff, IHp. cbn. intuition congruence.
  - pose proof (base_step_frame m s) as (Hperm & _ & Hp & Hpk & Hnp).
    rewrite Hstep in *. cbn [fst] in *.
    unfold covers, picked_placed in *. rewrite Hp, Hpk, Hnp. split.
    + rewrite <- IHc. now apply Permutation_app_tail.
    + intros x. rewrite IHp. split; apply Permutation_in;
        [ now symmetry | assumption ].
Qed.

End BaseComplete.

Section TspStepFrame.
Import Tsp.

Ltac run_step_binds :=
  repeat (cbn [fst snd path used unused start problem set_dist set_path];
          match goal with
          | |- context [match ?r with Ok _ => _ | Raise _ => _ end] => destruct r
          | |- context [if ?b then _ else _] => destruct b
          end).

Lemma tsp_step_frame (m : LocalMove) (s : Solution) :
  problem (fst (step m s)) = problem s
  /\ start (fst (step m s)) = start s
  /\ used (fst (step m s)) = used s
  /\ unused (fst (step m s)) = unused s.
Proof.
  unfold step, bind, get, lift, modify, ret, py_assert.
  run_step_binds; repeat split; reflexivity.
Qed.
End TspStepFrame.

(** X8.  [step] neither loses nor repeats a stop.  In both variants,
    whatever the move and whether [step] returns or raises, the sequence
    afterwards is a permutation of the sequence before, and the problem and
    the visited and unvisited sets are as they were; the orientation
    variant keeps the number of orientations, the closed-tour variant
    keeps the start. *)
Theorem step_permutes_the_sequence :
  (forall (m : Base.LocalMove) (s : Base.Solution),
      Permutation (Base.containers (fst (Base.step m s))) (Base.containers s)
      /\ List.length (Base.directions (fst (Base.step m s)))
         = List.length (Base.directions s)
      /\ Base.problem (fst (Base.step m s)) = Base.problem s
      /\ Base.picked (fst (Base.step m s)) = Base.picked s
      /\ Base.not_picked (fst (Base.step m s)) = Base.not_picked s)
  /\ (forall (m : Tsp.LocalMove) (s : Tsp.Solution),
         Permutation (Tsp.path (fst (Tsp.step m s))) (Tsp.path s)
         /\ Tsp.problem (fst (Tsp.step m s)) = Tsp.problem s
         /\ Tsp.start (fst (Tsp.step m s)) = Tsp.start s
         /\ Tsp.used (fst (Tsp.step m s)) = Tsp.used s
         /\ Tsp.unused (fst (Tsp.step m s)) = Tsp.unused s).
Proof.
  split.
  - apply base_step_frame.
  - intros m s. split; [ | apply tsp_step_frame ].
    destruct (tsp_step_path m s) as [-> | ->];
      [ reflexivity | apply reverse_slice_permutation ].
Qed.

Section BaseCompleteness.
Import Base BaseSpec BaseInv.

(** X9.  Orientation variant, on every reachable state: no container
    is placed twice; [is_feasible] holds exactly when all [n] containers
    are placed, which is exactly when [not_picked] is empty; while a
    container is unvisited [objective] is [None] and [lower_bound] is
    [obj_value] plus [get_minimal_connections] of the unvisited set; once
    none is, [lower_bound] is [None] and [objective] is [obj_value] plus
    the exit cost [container_to_plant[directions[-1]][containers[-1]]],
    except on the instance without containers, where [objective] raises
    [IndexError]. *)
Theorem base_complete_iff (s : Solution) :
  reachable s ->
  NoDup (containers s)
  /\ (is_feasible s = true <-> len (containers s) = n (problem s))
  /\ (len (containers s) = n (problem s) <-> not_picked s = [])
  /\ (not_picked s <> [] ->
      objective s = Ok None
      /\ exists rest,
           get_minimal_connections (problem s) (not_picked s) = Ok rest
           /\ lower_bound s = Ok (Some (obj_value s + rest)))
  /\ (not_picked s = [] ->
      lower_bound s = Ok None
      /\ (0 < n (problem s) ->
          exists c d exit,
            getitem (containers s) (-1) = Ok c
            /\ getitem (directions s) (-1) = Ok d
            /\ lookup2 (container_to_plant (problem s)) (Some d) (Some c) = Ok exit
            /\ objective s = Ok (Some (obj_value s + exit)))
      /\ (n (problem s) = 0 -> objective s = Raise IndexError)).
Proof.
  intros Hr.
  pose proof (reachable_is_wf s Hr) as Hwf.
  pose proof (proj1 (wf_solution_spec s) Hwf)
    as (Hp & Hlen & Hcs & Hds & _ & _ & _ & _ & Hsum).
  destruct (reachable_covers s Hr) as [Hcov _].
  assert (Hnd : NoDup (containers s)).
  { apply (NoDup_app_remove_r _ (not_picked s)).
    apply (Permutation_NoDup (Permutation_sym Hcov)). apply NoDup_range. }
  assert (Hnil : len (containers s) = n (problem s) <-> not_picked s = []).
  { split.
    - intros E. destruct (not_picked s); [ reflexivity | ].
      unfold len in Hsum at 2. cbn in Hsum. lia.
    - intros E. rewrite E in Hsum. unfold len in Hsum at 2. cbn in Hsum. lia. }
  split; [ assumption | ].
  split.
  { unfold is_feasible. rewrite (nodup_fixed_point Z.eq_dec Hnd).
    destruct (Z.eqb_spec (len (containers s)) (n (problem s))); cbn;
      split; congruence. }
  split; [ assumption | ].
  split.
  - intros Hne. split.
    + unfold objective.
      destruct (Z.ltb_spec 0 (len (not_picked s))) as [ _ | H0 ]; [ reflexivity | ].
      destruct (not_picked s); [ congruence | unfold len in H0; cbn in H0; lia ].
    + apply (base_lower_bound_partial s Hwf).
      destruct (Z.eq_dec (len (containers s)) (n (problem s))) as [E | E];
        [ | pose proof (len_nonneg (not_picked s)); lia ].
      apply Hnil in E. contradiction.
  - intros E. split; [ apply base_lower_bound_complete; [ assumption | now apply Hnil ] | ].
    apply Hnil in E as Hfull.
    unfold objective. rewrite E. cbn [len List.length Z.of_nat Z.ltb Z.compare].
    split.
    + intros Hpos.
      assert (Hne : containers s <> [])
        by (intros H0; rewrite H0 in Hfull; unfold len in Hfull; cbn in Hfull; lia).
      assert (Hne' : directions s <> [])
        by (intros H0; rewrite H0 in Hlen; destruct (containers s); [ congruence | discriminate ]).
      destruct (getitem_last (containers s) Hne) as (lc & Gc & Hlc).
      destruct (getitem_last (directions s) Hne') as (ld & Gd & Hld).
      pose proof (wf_problem_spec _ Hp) as (_ & _ & H2 & _).
      apply Hds in Hld. apply is_bit_spec in Hld.
      destruct (lookup2_ok 2 (n (problem s)) (container_to_plant (problem s)) ld lc H2)
        as (exit & Hexit); [ lia | auto | ].
      exists lc, ld, exit. split; [ exact Gc | ]. split; [ exact Gd | ].
      split; [ exact Hexit | ].
      rewrite Gd, Gc. cbn [rbind]. rewrite Hexit. reflexivity.
    + intros H0.
      assert (Hd : directions s = []).
      { destruct (directions s); [ reflexivity | ].
        rewrite H0 in Hfull. unfold len in Hfull. cbn in Hlen. lia. }
      rewrite Hd. reflexivity.
Qed.

Lemma base_complete_iff_witness :
  is_feasible line3_tour = true
  /\ objective line3_tour = Ok (Some (obj_value line3_tour + 1)).
Proof.
  destruct (base_complete_iff line3_tour line3_tour_reachable)
    as (_ & Hf & _ & _ & Hc).
  split.
  - apply Hf. reflexivity.
  - destruct Hc as (_ & Hobj & _); [ reflexivity | ].
    destruct Hobj as (c & d & exit & Gc & Gd & Hexit & Hobj); [ reflexivity | ].
    vm_compute in Gc. injection Gc as <-.
    vm_compute in Gd. injection Gd as <-.
    vm_compute in Hexit. injection Hexit as <-. exact Hobj.
Defined.
End BaseCompleteness.

(** ** Reachable states of the closed-tour variant *)
Section TspReach.
Import Tsp TspSpec TspInv.

Lemma shape2_distance_matrix (coords : list Point) :
  shape2 (len coords) (len coords) (distance_matrix coords) = true.
Proof.
  unfold shape2, distance_matrix, len. rewrite length_map, Z.eqb_refl. cbn [andb].
  apply forallb_forall. intros row Hr. apply in_map_iff in Hr as (a & <- & _).
  rewrite length_map. apply Z.eqb_refl.
Qed.

Lemma set_discard_range_0 (n : Z) : set_discard 0 (range 0 n) = range 1 n.
Proof.
  unfold range. rewrite Z.sub_0_r.
  destruct (Z.to_nat n) as [ | m ] eqn:E.
  - replace (Z.to_nat (n - 1)) with 0%nat by lia. reflexivity.
  - replace (Z.to_nat (n - 1)) with m by lia.
    rewrite <- cons_seq, <- seq_shift. unfold set_discard.
    cbn [map filter]. change (0 =? 0 + Z.of_nat 0) with true. cbn [negb].
    rewrite map_map.
    induction (seq 0 m) as [ | k l IH ]; [ reflexivity | ].
    cbn [map filter].
    destruct (Z.eqb_spec 0 (0 + Z.of_nat (S k))) as [ H | _ ]; [ lia | ].
    cbn [negb]. rewrite IH. f_equal. lia.
Qed.

Lemma empty_solution_is_start_0 (p : Problem) :
  empty_solution p = empty_solution_with_start p 0.
Proof.
  unfold empty_solution, empty_solution_with_start.
  now rewrite set_discard_range_0.
Qed.

Lemma NoDup_app_apart {A : Type} (l l' : list A) (x : A) :
  NoDup (l ++ l') -> In x l -> In x l' -> False.
Proof.
  intros Hnd Hl Hl'. apply in_split in Hl' as (l1 & l2 & ->).
  rewrite app_assoc in Hnd. apply NoDup_remove_2 in Hnd.
  apply Hnd. apply in_or_app. left. apply in_or_app. now left.
Qed.

Lemma partial_facts (s : Solution) :
  partial_tour s ->
  NoDup (path s ++ unused s)
  /\ (forall x, In x (path s ++ unused s) <-> 0 <= x < nnodes (problem s))
  /\ len (path s) + len (unused s) = Z.max 0 (nnodes (problem s)).
Proof.
  intros (_ & Hp). split; [ | split ].
  - eapply Permutation_NoDup; [ symmetry; exact Hp | apply NoDup_range ].
  - intros x. rewrite <- In_range. split; apply Permutation_in; [ | symmetry ]; exact Hp.
  - apply Permutation_length in Hp. rewrite length_app in Hp.
    pose proof (len_range 0 (nnodes (problem s))) as Hl. unfold len in *. lia.
Qed.

Lemma closed_facts (s : Solution) :
  0 <= start s < nnodes (problem s) ->
  closed_tour s ->
  len (path s) = nnodes (problem s) + 1
  /\ forall x, In x (path s) -> 0 <= x < nnodes (problem s).
Proof.
  intros Hs (body & Ep & Hp & _). split.
  - rewrite Ep. apply Permutation_length in Hp.
    pose proof (len_range 0 (nnodes (problem s))) as Hl.
    unfold len in *. rewrite length_app. cbn [List.length]. lia.
  - intros x Hx. rewrite Ep in Hx. apply in_app_or in Hx as [Hx | [<- | []]]; [ | exact Hs ].
    apply In_range. eapply Permutation_in; eassumption.
Qed.

Lemma tour_inv_wf (s : Solution) : tour_inv s -> wf_solution s = true.
Proof.
  intros (Hsh & Hs & _ & _ & Hc). apply tsp_wf_solution_spec. split; [ exact Hsh | ].
  destruct Hc as [Hp | Hc].
  - intros x Hx. apply (partial_facts s Hp). apply in_or_app. now left.
  - apply (closed_facts s Hs Hc).
Qed.

Lemma tsp_add_fresh (c : Component) (s : Solution) (d : float) :
  v c <> start s -> In (v c) (unused s) ->
  dist_at (problem s) (u c) (v c) = Ok d ->
  add c s
  = (mkSolution (problem s) (start s) (path s ++ [v c])
                (set_add (v c) (used s)) (set_discard (v c) (unused s))
                (PrimFloat.add (dist s) d),
     Ok tt).
Proof.
  intros Hne Hin Hd. apply mem_spec in Hin.
  unfold add, bind, get, lift, modify, ret. cbn.
  destruct (Z.eqb_spec (v c) (start s)); [ contradiction | ].
  cbn. unfold set_remove. rewrite Hin. cbn. rewrite Hd. reflexivity.
Qed.

Lemma getitem_minus_1 {A : Type} (l : list A) :
  l <> [] -> getitem l (-1) = getitem l (len l - 1).
Proof.
  intros Hl. unfold getitem, norm_index.
  assert (0 < len l) by (unfold len; destruct l; [ contradiction | cbn; lia ]).
  destruct (Z.leb_spec 0 (-1)); [ lia | ].
  destruct (Z.leb_spec 0 (len l - 1)); [ | lia ].
  destruct (Z.ltb_spec (len l - 1) (len l)); [ | lia ].
  destruct (Z.leb_spec (- len l) (-1)); [ | lia ].
  destruct (Z.ltb_spec (-1) 0); [ | lia ].
  cbn [andb]. now replace (-1 + len l) with (len l - 1) by lia.
Qed.

Lemma last_reverse_slice {A : Type} (l : list A) (i j : Z) :
  0 <= i -> i <= j -> j < len l ->
  getitem (reverse_slice l i j) (-1) = getitem l (-1).
Proof.
  intros Hi Hij Hj.
  assert (Hl : l <> []) by (intros ->; cbn in Hj; lia).
  assert (Hr : reverse_slice l i j <> []).
  { intros E. apply (f_equal (@List.length A)) in E.
    rewrite length_reverse_slice in E. destruct l; [ contradiction | discriminate ]. }
  rewrite (getitem_minus_1 _ Hr), (getitem_minus_1 _ Hl).
  replace (len (reverse_slice l i j)) with (len l)
    by (unfold len; now rewrite length_reverse_slice).
  rewrite getitem_reverse_slice by lia.
  destruct (Z.ltb_spec (len l - 1) i); [ lia | ].
  destruct (Z.ltb_spec (len l - 1) j); [ lia | ]. reflexivity.
Qed.

Lemma reverse_slice_app {A : Type} (l l' : list A) (i j : Z) :
  0 <= i -> i <= j -> j <= len l ->
  reverse_slice (l ++ l') i j = reverse_slice l i j ++ l'.
Proof.
  intros Hi Hij Hj. unfold reverse_slice, slice_bound.
  assert (Hlen : len (l ++ l') = len l + len l')
    by (unfold len; rewrite length_app; lia).
  assert (0 <= len l') by (unfold len; lia).
  destruct (Z.ltb_spec i 0); [ lia | ]. destruct (Z.ltb_spec j 0); [ lia | ].
  rewrite Hlen. rewrite !Z.min_l by lia.
  rewrite Nat.max_r by lia.
  assert (Hi' : (Z.to_nat i <= List.length l)%nat) by (unfold len in *; lia).
  assert (Hj' : (Z.to_nat j <= List.length l)%nat) by (unfold len in *; lia).
  rewrite firstn_app, !skipn_app.
  replace (Z.to_nat i - List.length l)%nat with 0%nat by lia.
  replace (Z.to_nat j - List.length l)%nat with 0%nat by lia.
  cbn [firstn skipn]. rewrite app_nil_r.
  rewrite firstn_app.
  replace (Z.to_nat j - Z.to_nat i - List.length (skipn (Z.to_nat i) l))%nat with 0%nat
    by (rewrite length_skipn; lia).
  cbn [firstn]. rewrite app_nil_r. now rewrite <- !app_assoc.
Qed.

Lemma tsp_step_ok_ends (m : LocalMove) (s s' : Solution) :
  step m s = (s', Ok tt) ->
  getitem (path s') 0 = Ok (start s') /\ getitem (path s') (-1) = Ok (start s').
Proof.
  unfold step, bind, get, lift, modify, ret, py_assert.
  destruct (edge s (i m - 1) (i m)) as [e1 | ]; [ | discriminate ].
  cbn [fst snd].
  match goal with |- context [edge ?t (j m - 1) (j m)] =>
    destruct (edge t (j m - 1) (j m)) as [e2 | ]; [ | discriminate ] end.
  cbn [fst snd].
  match goal with |- context [edge ?t (i m - 1) (i m)] =>
    destruct (edge t (i m - 1) (i m)) as [e3 | ]; [ | discriminate ] end.
  match goal with |- context [edge ?t (j m - 1) (j m)] =>
    destruct (edge t (j m - 1) (j m)) as [e4 | ]; [ | discriminate ] end.
  match goal with |- context [recomputed_dist ?t] => set (s5 := t) end.
  destruct (recomputed_dist s5) as [total | ] eqn:Et; [ | discriminate ].
  destruct (isclose total (dist s5)) eqn:Ec; [ | discriminate ].
  destruct (getitem (path s5) 0) as [first | ] eqn:Ef; [ | discriminate ].
  destruct (Z.eqb_spec first (start s5)) as [-> | ]; [ | discriminate ].
  destruct (getitem (path s5) (-1)) as [last | ] eqn:El; [ | discriminate ].
  destruct (Z.eqb_spec last (start s5)) as [-> | ]; [ | discriminate ].
  intros [= <-]. split; assumption.
Qed.

(** On a path without repetition that is longer than one point, the
    last point is not the first. *)
Lemma last_is_not_first (l : list Z) (a b : Z) :
  NoDup l -> 2 <= len l -> hd_error l = Some a -> getitem l (-1) = Ok b -> a <> b.
Proof.
  intros Hnd Hlen Hhd Hlast.
  destruct (getitem_last_snoc l b Hlast) as (l' & ->).
  destruct l' as [ | a' l'' ]; [ cbn in Hlen; lia | ].
  cbn in Hhd. injection Hhd as ->.
  intros <-. cbn in Hnd. apply NoDup_cons_iff in Hnd as (Hn & _).
  apply Hn. apply in_or_app. right. now left.
Qed.

Lemma tsp_open_step_raises (s : Solution) (m : LocalMove) :
  tour_inv s -> partial_tour s -> In m (local_moves s) ->
  snd (step m s) = Raise AssertionError.
Proof.
  intros Hinv Hp Hm.
  pose proof (tour_inv_wf s Hinv) as Hwf.
  destruct (tsp_step_state s m Hwf Hm)
    as (e1 & e2 & e3 & e4 & _ & _ & _ & _ & Hstate & [Hok | Hr]); [ | exact Hr ].
  exfalso.
  destruct (step m s) as [s' r] eqn:E. cbn [fst snd] in *. subst r.
  destruct (tsp_step_ok_ends m s s' E) as (_ & Hlast).
  rewrite Hstate in Hlast. cbn [path start] in Hlast.
  apply In_tsp_local_moves in Hm as (Hi & Hij & Hj).
  rewrite last_reverse_slice in Hlast by lia.
  destruct Hinv as (_ & _ & Hhd & _ & _).
  destruct (partial_facts s Hp) as (Hnd & _ & _).
  apply NoDup_app_remove_r in Hnd.
  apply (last_is_not_first (path s) (start s) (start s) Hnd); [ lia | assumption | assumption | reflexivity ].
Qed.

Lemma tour_inv_empty (coords : list Point) (start : Z) :
  0 <= start < len coords ->
  tour_inv (empty_solution_with_start (new_problem coords) start).
Proof.
  intros Hs. unfold tour_inv, empty_solution_with_start, new_problem. cbn.
  split; [ apply shape2_distance_matrix | ].
  split; [ exact Hs | ]. split; [ reflexivity | ]. split; [ tauto | ].
  left. split; cbn; [ lia | ].
  apply discard_permutation; [ apply NoDup_range | apply In_range; lia ].
Qed.

Lemma tour_inv_add (s s' : Solution) (cs : list Component) (c : Component) :
  tour_inv s -> add_moves s = Ok cs -> In c cs -> add c s = (s', Ok tt) ->
  tour_inv s'.
Proof.
  intros Hinv Hcs Hc Hadd.
  pose proof Hinv as (Hsh & Hs & Hhd & Hused & Hcase).
  assert (Hne : path s <> []) by (intros E; rewrite E in Hhd; discriminate).
  destruct (getitem_last (path s) Hne) as (lastp & Elast & Hlastin).
  unfold add_moves in Hcs. rewrite Elast in Hcs. cbn [rbind] in Hcs.
  destruct (Z.ltb_spec (len (path s)) (nnodes (problem s))) as [Hlt | Hge].
  - injection Hcs as <-. apply in_map_iff in Hc as (w & <- & Hw).
    destruct Hcase as [Hp | Hc]; [ | destruct (closed_facts s Hs Hc); lia ].
    destruct (partial_facts s Hp) as (Hnd & Hin & Hlen).
    assert (Hstart : In (start s) (path s)).
    { destruct (path s); [ discriminate | ]. injection Hhd as ->. now left. }
    assert (Hws : w <> start s).
    { intros ->. apply (NoDup_app_apart _ _ (start s) Hnd); assumption. }
    assert (Hlr : 0 <= lastp < nnodes (problem s))
      by (apply Hin, in_or_app; now left).
    assert (Hwr : 0 <= w < nnodes (problem s))
      by (apply Hin, in_or_app; now right).
    destruct (dist_at_ok (problem s) lastp w Hsh Hlr Hwr) as (d & Ed).
    rewrite (tsp_add_fresh (mkComponent lastp w) s d Hws Hw Ed) in Hadd.
    injection Hadd as <-. cbn [u v].
    unfold tour_inv. cbn [problem start path used unused].
    split; [ exact Hsh | ]. split; [ exact Hs | ].
    split; [ rewrite hd_error_app; assumption | ].
    split.
    { intros x. rewrite In_set_add, in_app_iff, Hused. cbn. intuition. }
    left. split; cbn [path problem unused].
    + unfold len in *. rewrite length_app. cbn [List.length]. lia.
    + destruct Hp as (_ & Hp). rewrite <- Hp, <- app_assoc.
      apply Permutation_app_head. cbn [app].
      apply discard_permutation; [ | exact Hw ].
      now apply NoDup_app_remove_l in Hnd.
  - destruct (Z.eqb_spec (len (path s)) (nnodes (problem s))) as [Heq | Hneq].
    + injection Hcs as <-. destruct Hc as [<- | []].
      destruct Hcase as [Hp | Hc]; [ | destruct (closed_facts s Hs Hc); lia ].
      destruct (partial_facts s Hp) as (Hnd & Hin & Hlen).
      assert (Hlr : 0 <= lastp < nnodes (problem s))
        by (apply Hin, in_or_app; now left).
      destruct (dist_at_ok (problem s) lastp (start s) Hsh Hlr Hs) as (d & Ed).
      rewrite (tsp_add_start_unit (mkComponent lastp (start s)) s d eq_refl Ed) in Hadd.
      injection Hadd as <-. cbn [u v].
      unfold tour_inv. cbn [problem start path used unused].
      assert (Hun : unused s = []).
      { destruct (unused s); [ reflexivity | ]. cbn [len List.length] in Hlen.
        unfold len in *. cbn [List.length] in Hlen. lia. }
      split; [ exact Hsh | ]. split; [ exact Hs | ].
      split; [ rewrite hd_error_app; assumption | ].
      split.
      { intros x. rewrite In_set_add, in_app_iff, Hused. cbn.
        assert (In (start s) (path s)).
        { destruct (path s); [ discriminate | ]. injection Hhd as ->. now left. }
        intuition; subst; auto. }
      right. exists (path s). cbn [path start problem unused].
      split; [ reflexivity | ]. split; [ | exact Hun ].
      destruct Hp as (_ & Hp). rewrite Hun, app_nil_r in Hp. exact Hp.
    + injection Hcs as <-. destruct Hc.
Qed.

Lemma tour_inv_step (s s' : Solution) (m : LocalMove) :
  tour_inv s -> In m (local_moves s) -> step m s = (s', Ok tt) -> tour_inv s'.
Proof.
  intros Hinv Hm Hstep.
  pose proof Hinv as (Hsh & Hs & Hhd & Hused & Hcase).
  destruct Hcase as [Hp | Hc].
  - pose proof (tsp_open_step_raises s m Hinv Hp Hm) as Hr.
    rewrite Hstep in Hr. discriminate.
  - pose proof (tour_inv_wf s Hinv) as Hwf.
    destruct (tsp_step_state s m Hwf Hm)
      as (e1 & e2 & e3 & e4 & _ & _ & _ & _ & Hstate & _).
    rewrite Hstep in Hstate. cbn [fst] in Hstate. subst s'.
    apply In_tsp_local_moves in Hm as (Hi & Hij & Hj).
    destruct (closed_facts s Hs Hc) as (Hlen & _).
    destruct Hc as (body & Ep & Hperm & Hun).
    assert (Hbody : len body = nnodes (problem s)).
    { rewrite Ep in Hlen. unfold len in *. rewrite length_app in Hlen.
      cbn [List.length] in Hlen. lia. }
    unfold tour_inv. cbn [problem start path used unused].
    split; [ exact Hsh | ]. split; [ exact Hs | ].
    split; [ rewrite hd_error_reverse_slice; assumption | ].
    split.
    { intros x. rewrite Hused. split.
      - apply Permutation_in. symmetry. apply reverse_slice_permutation.
      - apply Permutation_in. apply reverse_slice_permutation. }
    right. exists (reverse_slice body (i m) (j m)).
    cbn [path start problem unused].
    split; [ rewrite Ep; apply reverse_slice_app; lia | ].
    split; [ | exact Hun ].
    rewrite reverse_slice_permutation. exact Hperm.
Qed.

Lemma reachable_tour_inv (s : Solution) : reachable s -> tour_inv s.
Proof.
  induction 1 as [ coords st Hst | s s' cs c _ IH Hcs Hc Hadd | s s' m _ IH Hm Hstep ].
  - now apply tour_inv_empty.
  - eapply tour_inv_add; eassumption.
  - eapply tour_inv_step; eassumption.
Qed.


Lemma tsp_add_moves_ok (s : Solution) :
  tour_inv s ->
  exists cs, add_moves s = Ok cs /\ (cs = [] <-> is_feasible s = true).
Proof.
  intros Hinv. pose proof Hinv as (Hsh & Hs & Hhd & Hused & Hcase).
  assert (Hne : path s <> []) by (intros E; rewrite E in Hhd; discriminate).
  destruct (getitem_last (path s) Hne) as (lastp & Elast & _).
  unfold add_moves, is_feasible. rewrite Elast. cbn [rbind].
  destruct (Z.ltb_spec (len (path s)) (nnodes (problem s))) as [Hlt | Hge].
  - eexists. split; [ reflexivity | ].
    destruct Hcase as [Hp | Hc]; [ | destruct (closed_facts s Hs Hc); lia ].
    destruct (partial_facts s Hp) as (_ & _ & Hlen).
    split.
    + intros E. apply map_eq_nil in E. rewrite E in Hlen. cbn in Hlen. lia.
    + intros E. apply Z.eqb_eq in E. lia.
  - destruct (Z.eqb_spec (len (path s)) (nnodes (problem s))) as [Heq | Hneq].
    + eexists. split; [ reflexivity | ]. split; [ discriminate | ].
      intros E. apply Z.eqb_eq in E. lia.
    + eexists. split; [ reflexivity | ]. split; [ | reflexivity ].
      intros _. apply Z.eqb_eq.
      destruct Hcase as [(Hp & _) | Hc]; [ lia | ].
      now destruct (closed_facts s Hs Hc).
Qed.

Lemma tsp_add_candidate_ok (s : Solution) (cs : list Component) (c : Component) :
  tour_inv s -> add_moves s = Ok cs -> In c cs ->
  getitem (path s) (-1) = Ok (u c) /\ snd (add c s) = Ok tt.
Proof.
  intros Hinv Hcs Hc.
  pose proof Hinv as (Hsh & Hs & Hhd & Hused & Hcase).
  assert (Hne : path s <> []) by (intros E; rewrite E in Hhd; discriminate).
  destruct (getitem_last (path s) Hne) as (lastp & Elast & Hlastin).
  unfold add_moves in Hcs. rewrite Elast in Hcs. cbn [rbind] in Hcs.
  destruct (Z.ltb_spec (len (path s)) (nnodes (problem s))) as [Hlt | Hge].
  - injection Hcs as <-. apply in_map_iff in Hc as (w & <- & Hw).
    destruct Hcase as [Hp | Hc]; [ | destruct (closed_facts s Hs Hc); lia ].
    destruct (partial_facts s Hp) as (Hnd & Hin & Hlen).
    assert (Hstart : In (start s) (path s)).
    { destruct (path s); [ discriminate | ]. injection Hhd as ->. now left. }
    assert (Hws : w <> start s).
    { intros ->. apply (NoDup_app_apart _ _ (start s) Hnd); assumption. }
    assert (Hlr : 0 <= lastp < nnodes (problem s))
      by (apply Hin, in_or_app; now left).
    assert (Hwr : 0 <= w < nnodes (problem s))
      by (apply Hin, in_or_app; now right).
    destruct (dist_at_ok (problem s) lastp w Hsh Hlr Hwr) as (d & Ed).
    rewrite (tsp_add_fresh (mkComponent lastp w) s d Hws Hw Ed).
    split; [ exact Elast | reflexivity ].
  - destruct (Z.eqb_spec (len (path s)) (nnodes (problem s))) as [Heq | Hneq].
    + injection Hcs as <-. destruct Hc as [<- | []].
      destruct Hcase as [Hp | Hc]; [ | destruct (closed_facts s Hs Hc); lia ].
      destruct (partial_facts s Hp) as (Hnd & Hin & Hlen).
      assert (Hlr : 0 <= lastp < nnodes (problem s))
        by (apply Hin, in_or_app; now left).
      destruct (dist_at_ok (problem s) lastp (start s) Hsh Hlr Hs) as (d & Ed).
      rewrite (tsp_add_start_unit (mkComponent lastp (start s)) s d eq_refl Ed).
      split; [ exact Elast | reflexivity ].
    + injection Hcs as <-. destruct Hc.
Qed.

Lemma reach_add_fst (s : Solution) (cs : list Component) (c : Component) :
  reachable s -> add_moves s = Ok cs -> In c cs -> reachable (fst (add c s)).
Proof.
  intros Hr Hcs Hc.
  destruct (tsp_add_candidate_ok s cs c (reachable_tour_inv s Hr) Hcs Hc) as (_ & Hok).
  destruct (add c s) as [s' r] eqn:E. cbn [fst snd] in *. subst r.
  eapply reach_add; eassumption.
Qed.

Lemma square_tour_reachable : reachable square_tour.
Proof.
  assert (E : square_tour
              = fst (add (mkComponent 3 0)
                  (fst (add (mkComponent 2 3)
                     (fst (add (mkComponent 1 2)
                        (fst (add (mkComponent 0 1)
                           (empty_solution_with_start square 0)))))))))
    by (vm_compute; reflexivity).
  rewrite E.
  repeat (eapply reach_add_fst; [ | vm_compute; reflexivity | vm_compute; auto ]).
  apply (reach_empty [mkPoint 0 0; mkPoint 0 1; mkPoint 1 1; mkPoint 1 0] 0).
  cbn. lia.
Qed.

Lemma line5_path_reachable : reachable line5_path.
Proof.
  assert (E : line5_path
              = fst (add (mkComponent 2 3)
                     (fst (add (mkComponent 1 2)
                        (fst (add (mkComponent 0 1)
                           (empty_solution_with_start line5 0)))))))
    by (vm_compute; reflexivity).
  rewrite E.
  repeat (eapply reach_add_fst; [ | vm_compute; reflexivity | vm_compute; auto ]).
  apply (reach_empty [mkPoint 0 0; mkPoint 1 0; mkPoint 2 0; mkPoint 3 0; mkPoint 4 0] 0).
  cbn. lia.
Qed.

(** X10.  Closed-tour variant: on every reachable state the path
    starts at the start point and [used] holds exactly the points of the
    path; while the state is not feasible the path visits no point twice
    and, together with [unused], makes up the points [0 .. nnodes - 1]; a
    feasible state is a Hamiltonian cycle: the path is a permutation of all
    the points followed by the start point, and [unused] is empty. *)
Theorem tsp_reachable_tour (s : Solution) :
  reachable s ->
  hd_error (path s) = Some (start s)
  /\ (forall x, In x (used s) <-> In x (path s))
  /\ (is_feasible s = false -> partial_tour s /\ NoDup (path s))
  /\ (is_feasible s = true -> closed_tour s).
Proof.
  intros Hr. destruct (reachable_tour_inv s Hr) as (Hsh & Hs & Hhd & Hused & Hcase).
  split; [ exact Hhd | ]. split; [ exact Hused | ].
  unfold is_feasible. split; intros Hf.
  - destruct Hcase as [Hp | Hc].
    + split; [ exact Hp | ].
      destruct (partial_facts s Hp) as (Hnd & _ & _).
      now apply NoDup_app_remove_r in Hnd.
    + destruct (closed_facts s Hs Hc) as (Hlen & _).
      apply Z.eqb_neq in Hf. lia.
  - destruct Hcase as [(Hlen & _) | Hc]; [ | exact Hc ].
    apply Z.eqb_eq in Hf. lia.
Qed.

Lemma tsp_reachable_tour_witness : closed_tour square_tour.
Proof.
  apply (tsp_reachable_tour square_tour square_tour_reachable).
  reflexivity.
Defined.

(** X11.  Closed-tour variant: a construction never gets stuck and never
    raises.  On every reachable state [add_moves] returns normally, and it
    yields nothing exactly when the state is feasible; every component it
    yields leaves from the last point of the path, and [add] of it returns
    normally, in a reachable state whose path is one point longer. *)
Theorem tsp_construction_progress (s : Solution) :
  reachable s ->
  exists cs,
    add_moves s = Ok cs
    /\ (cs = [] <-> is_feasible s = true)
    /\ forall c, In c cs ->
         getitem (path s) (-1) = Ok (u c)
         /\ exists s', add c s = (s', Ok tt)
                       /\ reachable s'
                       /\ len (path s') = len (path s) + 1.
Proof.
  intros Hr. pose proof (reachable_tour_inv s Hr) as Hinv.
  destruct (tsp_add_moves_ok s Hinv) as (cs & Hcs & Hempty).
  exists cs. split; [ exact Hcs | ]. split; [ exact Hempty | ].
  intros c Hc.
  destruct (tsp_add_candidate_ok s cs c Hinv Hcs Hc) as (Hlast & Hok).
  split; [ exact Hlast | ].
  destruct (add c s) as [s' r] eqn:E. cbn [snd] in Hok. subst r.
  exists s'. split; [ reflexivity | ].
  split; [ eapply reach_add; eassumption | ].
  pose proof (tsp_add_path c s) as Hp. rewrite E in Hp. cbn [fst] in Hp.
  rewrite Hp. unfold len. rewrite length_app. cbn [List.length]. lia.
Qed.

Lemma tsp_construction_progress_witness :
  exists cs,
    add_moves line5_path = Ok cs
    /\ (cs = [] <-> is_feasible line5_path = true)
    /\ forall c, In c cs ->
         getitem (path line5_path) (-1) = Ok (u c)
         /\ exists s', add c line5_path = (s', Ok tt)
                       /\ reachable s'
                       /\ len (path s') = len (path line5_path) + 1.
Proof.
  apply (tsp_construction_progress line5_path line5_path_reachable).
Defined.

(** X12.  Closed-tour variant, with the checks made under [__debug__]:
    on a reachable state that is not a complete tour, [step] on any move
    yielded by [local_moves] raises [AssertionError] (the path does not
    end at the start point). *)
Theorem tsp_step_on_open_path_asserts (s : Solution) (m : LocalMove) :
  reachable s -> is_feasible s = false -> In m (local_moves s) ->
  snd (step m s) = Raise AssertionError.
Proof.
  intros Hr Hf Hm. pose proof (reachable_tour_inv s Hr) as Hinv.
  apply tsp_open_step_raises; [ exact Hinv | | exact Hm ].
  destruct Hinv as (_ & Hs & _ & _ & [Hp | Hc]); [ exact Hp | ].
  destruct (closed_facts s Hs Hc) as (Hlen & _).
  unfold is_feasible in Hf. apply Z.eqb_neq in Hf. lia.
Qed.

Lemma tsp_step_on_open_path_asserts_witness :
  snd (step (mkLocalMove 1 3) line5_path) = Raise AssertionError.
Proof.
  apply (tsp_step_on_open_path_asserts line5_path (mkLocalMove 1 3)
           line5_path_reachable).
  - reflexivity.
  - vm_compute. auto.
Defined.

End TspReach.

(** ** The nearest-neighbour rule of the closed-tour variant *)
Section FloatOrder.

Lemma SFltb_trans (x y z : spec_float) :
  SFltb x y = true -> SFltb y z = true -> SFltb x z = true.
Proof.
  unfold SFltb, SFcompare.
  destruct x as [sx | sx | | sx mx ex], y as [sy | sy | | sy my ey],
           z as [sz | sz | | sz mz ez];
    try destruct sx; try destruct sy; try destruct sz;
    try discriminate; try reflexivity;
    change (PosDef.Pos.compare_cont Eq) with Pos.compare;
    destruct (Z.compare_spec ex ey), (Z.compare_spec ey ez), (Z.compare_spec ex ez);
    try discriminate; try reflexivity; try lia; subst;
    destruct (Pos.compare_spec mx my), (Pos.compare_spec my mz),
             (Pos.compare_spec mx mz);
    cbn [CompOpp]; try discriminate; try reflexivity; try lia.
Qed.

Lemma ltb_trans (a b c : float) :
  PrimFloat.ltb a b = true -> PrimFloat.ltb b c = true -> PrimFloat.ltb a c = true.
Proof. rewrite !ltb_spec. apply SFltb_trans. Qed.

End FloatOrder.

Section TspHeuristic.
Import Tsp TspSpec TspInv.

Lemma SFltb_irrefl (x : spec_float) : SFltb x x = false.
Proof.
  unfold SFltb, SFcompare.
  destruct x as [sx | sx | | sx mx ex]; try destruct sx; try reflexivity;
    rewrite Z.compare_refl; change (PosDef.Pos.compare_cont Eq) with Pos.compare;
    rewrite Pos.compare_refl; reflexivity.
Qed.

Lemma ltb_irrefl (a : float) : PrimFloat.ltb a a = false.
Proof. rewrite ltb_spec. apply SFltb_irrefl. Qed.

(** What the loop of [heuristic_add_move] holds after the points
    [seen]: nothing yet, or a point of [seen] with its distance from [w0],
    than which no point of [seen] is strictly closer. *)
Lemma nearest_loop (p : Problem) (w0 : Z) (l seen : list Z)
  (best : option (Component * float)) :
  (forall x, In x l -> exists d, dist_at p w0 x = Ok d) ->
  match best with
  | None => seen = []
  | Some (c, bd) =>
      u c = w0 /\ In (v c) seen /\ dist_at p w0 (v c) = Ok bd
      /\ forall x d, In x seen -> dist_at p w0 x = Ok d -> PrimFloat.ltb d bd = false
  end ->
  exists best',
    rfold (fun (best : option (Component * float)) v =>
             let* d := dist_at p w0 v in
             Ok (match best with
                 | None => Some (mkComponent w0 v, d)
                 | Some (_, bestd) =>
                     if PrimFloat.ltb d bestd then Some (mkComponent w0 v, d)
                     else best
                 end))
          l best = Ok best'
    /\ match best' with
       | None => seen ++ l = []
       | Some (c, bd) =>
           u c = w0 /\ In (v c) (seen ++ l) /\ dist_at p w0 (v c) = Ok bd
           /\ forall x d, In x (seen ++ l) -> dist_at p w0 x = Ok d ->
                          PrimFloat.ltb d bd = false
       end.
Proof.
  revert seen best. induction l as [ | y l IH ]; intros seen best Hd Hb.
  - exists best. split; [ reflexivity | ]. now rewrite app_nil_r.
  - destruct (Hd y (or_introl eq_refl)) as (d & Ed).
    cbn [rfold]. rewrite Ed. cbn [rbind].
    replace (seen ++ y :: l) with ((seen ++ [y]) ++ l)
      by (now rewrite <- app_assoc).
    apply IH; [ intros x Hx; apply Hd; now right | ].
    destruct best as [ [c bd] | ].
    + destruct Hb as (Hu & Hv & Hbd & Hmin).
      destruct (PrimFloat.ltb d bd) eqn:Elt.
      * cbn [u v]. split; [ reflexivity | ].
        split; [ apply in_or_app; right; now left | ].
        split; [ exact Ed | ].
        intros x dx Hx Edx. apply in_app_or in Hx as [Hx | [<- | []]].
        -- destruct (PrimFloat.ltb dx d) eqn:E; [ | reflexivity ].
           pose proof (ltb_trans dx d bd E Elt) as Ht.
           now rewrite (Hmin x dx Hx Edx) in Ht.
        -- rewrite Ed in Edx. injection Edx as <-. apply ltb_irrefl.
      * split; [ exact Hu | ].
        split; [ apply in_or_app; now left | ].
        split; [ exact Hbd | ].
        intros x dx Hx Edx. apply in_app_or in Hx as [Hx | [<- | []]].
        -- now apply (Hmin x).
        -- rewrite Ed in Edx. now injection Edx as <-.
    + subst seen. cbn [app u v]. split; [ reflexivity | ].
      split; [ now left | ]. split; [ exact Ed | ].
      intros x dx [<- | []] Edx. rewrite Ed in Edx. injection Edx as <-.
      apply ltb_irrefl.
Qed.

Lemma tsp_heuristic_of_inv (s : Solution) :
  tour_inv s ->
  exists cs r,
    add_moves s = Ok cs
    /\ heuristic_add_move s = Ok r
    /\ (r = None <-> is_feasible s = true)
    /\ forall c, r = Some c ->
         In c cs
         /\ exists d, length_of s c = Ok d
            /\ forall c' d', In c' cs -> length_of s c' = Ok d' ->
                 PrimFloat.ltb d' d = false.
Proof.
  intros Hinv. pose proof Hinv as (Hsh & Hs & Hhd & Hused & Hcase).
  assert (Hne : path s <> []) by (intros E; rewrite E in Hhd; discriminate).
  destruct (getitem_last (path s) Hne) as (lastp & Elast & Hlastin).
  unfold add_moves, heuristic_add_move, is_feasible, length_of.
  rewrite Elast. cbn [rbind].
  destruct (Z.ltb_spec (len (path s)) (nnodes (problem s))) as [Hlt | Hge].
  - destruct Hcase as [Hp | Hc]; [ | destruct (closed_facts s Hs Hc); lia ].
    destruct (partial_facts s Hp) as (Hnd & Hin & Hlen).
    assert (Hlr : 0 <= lastp < nnodes (problem s))
      by (apply Hin, in_or_app; now left).
    destruct (nearest_loop (problem s) lastp (unused s) [] None) as (best & Eb & Hb).
    { intros x Hx. apply dist_at_ok; [ exact Hsh | exact Hlr | ].
      apply Hin, in_or_app. now right. }
    { reflexivity. }
    rewrite Eb. cbn [rbind app] in *.
    exists (map (fun v => mkComponent lastp v) (unused s)), (option_map fst best).
    split; [ reflexivity | ]. split; [ reflexivity | ].
    split.
    + split.
      * destruct best as [ [c bd] | ]; [ discriminate | ]. intros _.
        rewrite Hb in Hlen. cbn in Hlen. lia.
      * intros E. apply Z.eqb_eq in E. lia.
    + intros c Ec. destruct best as [ [c0 bd] | ]; [ | discriminate ].
      cbn in Ec. injection Ec as ->.
      destruct Hb as (Hu & Hv & Hbd & Hmin).
      split.
      * apply in_map_iff. exists (v c). split; [ | exact Hv ].
        destruct c; cbn in *; now subst.
      * exists bd. rewrite Hu. split; [ exact Hbd | ].
        intros c' d' Hc' Ed'. apply in_map_iff in Hc' as (w & <- & Hw).
        cbn [u v] in Ed'. now apply (Hmin w).
  - destruct (Z.eqb_spec (len (path s)) (nnodes (problem s))) as [Heq | Hneq].
    + destruct Hcase as [Hp | Hc]; [ | destruct (closed_facts s Hs Hc); lia ].
      destruct (partial_facts s Hp) as (Hnd & Hin & Hlen).
      assert (Hlr : 0 <= lastp < nnodes (problem s))
        by (apply Hin, in_or_app; now left).
      destruct (dist_at_ok (problem s) lastp (start s) Hsh Hlr Hs) as (d & Ed).
      exists [mkComponent lastp (start s)], (Some (mkComponent lastp (start s))).
      split; [ reflexivity | ]. split; [ reflexivity | ].
      split.
      * split; [ discriminate | ]. intros E. apply Z.eqb_eq in E. lia.
      * intros c [= <-]. split; [ now left | ].
        exists d. cbn [u v]. split; [ exact Ed | ].
        intros c' d' [<- | []] Ed'. cbn [u v] in Ed'.
        rewrite Ed in Ed'. injection Ed' as <-. apply ltb_irrefl.
    + exists [], None. split; [ reflexivity | ]. split; [ reflexivity | ].
      split; [ | discriminate ].
      split; [ | reflexivity ]. intros _. apply Z.eqb_eq.
      destruct Hcase as [(Hp & _) | Hc]; [ lia | ].
      now destruct (closed_facts s Hs Hc).
Qed.

(** X13.  Closed-tour variant, nearest neighbour: on every reachable
    state [heuristic_add_move] returns normally; it returns [None] exactly
    when the state is feasible, and otherwise a component yielded by
    [add_moves] such that no component yielded by [add_moves] is strictly
    shorter (the comparison is the one of binary64, so a distance that is
    not a number is never strictly shorter). *)
Theorem tsp_heuristic_add_move_nearest (s : Solution) :
  reachable s ->
  exists cs r,
    add_moves s = Ok cs
    /\ heuristic_add_move s = Ok r
    /\ (r = None <-> is_feasible s = true)
    /\ forall c, r = Some c ->
         In c cs
         /\ exists d, length_of s c = Ok d
            /\ forall c' d', In c' cs -> length_of s c' = Ok d' ->
                 PrimFloat.ltb d' d = false.
Proof.
  intros Hr. apply tsp_heuristic_of_inv. now apply reachable_tour_inv.
Qed.

Lemma tsp_heuristic_add_move_nearest_witness :
  exists cs r,
    add_moves line5_path = Ok cs
    /\ heuristic_add_move line5_path = Ok r
    /\ (r = None <-> is_feasible line5_path = true)
    /\ forall c, r = Some c ->
         In c cs
         /\ exists d, length_of line5_path c = Ok d
            /\ forall c' d', In c' cs -> length_of line5_path c' = Ok d' ->
                 PrimFloat.ltb d' d = false.
Proof.
  apply (tsp_heuristic_add_move_nearest line5_path line5_path_reachable).
Defined.

End TspHeuristic.

(** ** The increment of the lower bound, orientation variant *)
Section Rearranged.

Lemma rmap_perm {A B : Type} (f : A -> result B) (l l' : list A) (ys : list B) :
  Permutation l l' -> rmap f l = Ok ys ->
  exists ys', rmap f l' = Ok ys' /\ Permutation ys ys'.
Proof.
  intros Hp. revert ys.
  induction Hp as [ | x l l' _ IH | x y l | l l' l'' _ IH1 _ IH2 ]; intros ys E.
  - exists ys. split; [ exact E | reflexivity ].
  - cbn [rmap] in *. destruct (f x) as [b | ]; [ | discriminate ].
    cbn [rbind] in *. destruct (rmap f l) as [bs | ]; [ | discriminate ].
    cbn [rbind] in E. injection E as <-.
    destruct (IH bs eq_refl) as (bs' & -> & Hbs).
    exists (b :: bs'). split; [ reflexivity | now constructor ].
  - cbn [rmap] in *. destruct (f y) as [b | ]; [ | discriminate ].
    cbn [rbind] in *. destruct (f x) as [a | ]; [ | discriminate ].
    cbn [rbind] in *. destruct (rmap f l) as [bs | ]; [ | discriminate ].
    cbn [rbind] in E. injection E as <-.
    exists (a :: b :: bs). split; [ reflexivity | constructor ].
  - destruct (IH1 ys E) as (ys1 & E1 & H1).
    destruct (IH2 ys1 E1) as (ys2 & E2 & H2).
    exists ys2. split; [ exact E2 | now transitivity ys1 ].
Qed.

Lemma fold_min_spec (l : list Z) (a : Z) :
  (fold_left Z.min l a = a \/ In (fold_left Z.min l a) l)
  /\ fold_left Z.min l a <= a
  /\ forall x, In x l -> fold_left Z.min l a <= x.
Proof.
  revert a. induction l as [ | y l IH ]; intros a; cbn [fold_left].
  - split; [ now left | ]. split; [ lia | intros x [] ].
  - destruct (IH (Z.min a y)) as (Hin & Hle & Hall).
    split; [ | split ].
    + destruct Hin as [E | Hin]; [ | right; now right ].
      rewrite E. destruct (Z.min_spec a y) as [(_ & ->) | (_ & ->)];
        [ now left | right; now left ].
    + lia.
    + intros x [<- | Hx]; [ lia | now apply Hall ].
Qed.

Lemma py_min_spec (l : list Z) (m : Z) :
  py_min l = Ok m -> In m l /\ forall x, In x l -> m <= x.
Proof.
  destruct l as [ | a l ]; [ discriminate | ]. cbn [py_min]. intros [= <-].
  destruct (fold_min_spec l a) as (Hin & Hle & Hall).
  split.
  - destruct Hin as [-> | Hin]; [ now left | now right ].
  - intros x [<- | Hx]; [ exact Hle | now apply Hall ].
Qed.

Lemma py_min_perm (l l' : list Z) : Permutation l l' -> py_min l = py_min l'.
Proof.
  intros Hp. destruct l as [ | a l ].
  - apply Permutation_nil in Hp. now subst.
  - destruct l' as [ | a' l'' ];
      [ apply Permutation_sym, Permutation_nil in Hp; discriminate | ].
    destruct (py_min_ok (a :: l)) as (m & E); [ discriminate | ].
    destruct (py_min_ok (a' :: l'')) as (m' & E'); [ discriminate | ].
    rewrite E, E'. f_equal.
    destruct (py_min_spec _ _ E) as (Hin & Hall).
    destruct (py_min_spec _ _ E') as (Hin' & Hall').
    assert (m <= m') by (apply Hall; eapply Permutation_in; [ symmetry | ]; eassumption).
    assert (m' <= m) by (apply Hall'; eapply Permutation_in; eassumption).
    lia.
Qed.

Lemma Permutation_list_prod {A B : Type} (l l' : list A) (r : list B) :
  Permutation l l' -> Permutation (list_prod l r) (list_prod l' r).
Proof.
  induction 1 as [ | x l l' _ IH | x y l | l l' l'' _ IH1 _ IH2 ]; cbn [list_prod].
  - reflexivity.
  - now apply Permutation_app_head.
  - rewrite !app_assoc. apply Permutation_app_tail, Permutation_app_comm.
  - now transitivity (list_prod l' r).
Qed.

(** A loop that adds one number for each element comes to the same
    total in any order. *)
Lemma rfold_add_perm {B : Type} (g : B -> result Z) (l l' : list B) :
  Permutation l l' ->
  (forall x, In x l -> exists m, g x = Ok m) ->
  forall a,
    rfold (fun a x => let* m := g x in Ok (a + m)) l a
    = rfold (fun a x => let* m := g x in Ok (a + m)) l' a.
Proof.
  induction 1 as [ | x l l' Hp IH | x y l | l l' l'' Hp1 IH1 Hp2 IH2 ];
    intros Hok a.
  - reflexivity.
  - cbn [rfold]. destruct (g x) as [m | ]; [ | reflexivity ]. cbn [rbind].
    apply IH. intros z Hz. apply Hok. now right.
  - cbn [rfold].
    destruct (Hok x) as (mx & Ex); [ right; now left | ].
    destruct (Hok y) as (my & Ey); [ now left | ].
    rewrite Ex, Ey. cbn [rbind]. rewrite ?Ex, ?Ey. cbn [rbind].
    now replace (a + my + mx) with (a + mx + my) by lia.
  - rewrite IH1 by exact Hok. apply IH2.
    intros z Hz. apply Hok. eapply Permutation_in; [ symmetry | ]; eassumption.
Qed.

Lemma rfold_ext {A B : Type} (f f' : A -> B -> result A) (l : list B) :
  (forall a x, In x l -> f a x = f' a x) ->
  forall a, rfold f l a = rfold f' l a.
Proof.
  induction l as [ | x l IH ]; intros Hext a; [ reflexivity | ].
  cbn [rfold]. rewrite Hext by now left.
  destruct (f' a x); [ | reflexivity ]. cbn [rbind].
  apply IH. intros a' z Hz. apply Hext. now right.
Qed.

End Rearranged.

Section BaseBoundIncrement.
Import Base BaseSpec BaseInv.

Lemma incoming_options_perm (p : Problem) (l l' : list Z) (dest : Z) :
  wf_problem p = true ->
  (forall v, In v l -> 0 <= v < n p) -> 0 <= dest < n p ->
  Permutation l l' ->
  exists o o',
    incoming_options p l dest = Ok o /\ incoming_options p l' dest = Ok o'
    /\ Permutation o o'.
Proof.
  intros Hp Hl Hd Hperm.
  destruct (incoming_options_ok p l dest Hp Hl Hd) as (o & E).
  exists o. unfold incoming_options in *.
  destruct (rmap_perm _ _ (filter (fun dd => negb (fst dd =? dest))
                                  (list_prod l' (range 0 4))) o
              (Permutation_filter _ _ _ (Permutation_list_prod l l' (range 0 4) Hperm)) E)
    as (o' & E' & Ho).
  exists o'. repeat split; assumption.
Qed.

Lemma get_minimal_connections_perm (p : Problem) (l l' : list Z) :
  wf_problem p = true ->
  (forall v, In v l -> 0 <= v < n p) ->
  Permutation l l' ->
  get_minimal_connections p l = get_minimal_connections p l'.
Proof.
  intros Hp Hl Hperm.
  assert (Hl' : forall v, In v l' -> 0 <= v < n p).
  { intros v Hv. apply Hl. eapply Permutation_in; [ symmetry | ]; eassumption. }
  unfold get_minimal_connections.
  set (G := fun (conts : list Z) (dest : Z) =>
              let* options := incoming_options p conts dest in
              if 0 <? len options then py_min options else Ok 0).
  assert (Hbody : forall conts a x,
             (let* options := incoming_options p conts x in
              if 0 <? len options
              then let* m := py_min options in Ok (a + m)
              else Ok a)
             = (let* m := G conts x in Ok (a + m))).
  { intros conts a x. unfold G.
    destruct (incoming_options p conts x) as [o | ]; [ | reflexivity ].
    cbn [rbind]. destruct (0 <? len o); [ reflexivity | ].
    cbn [rbind]. now rewrite Z.add_0_r. }
  assert (HG : forall x, In x l -> G l x = G l' x /\ exists m, G l x = Ok m).
  { intros x Hx. unfold G.
    destruct (incoming_options_perm p l l' x Hp Hl (Hl x Hx) Hperm)
      as (o & o' & -> & -> & Ho).
    cbn [rbind]. unfold len. rewrite <- (Permutation_length Ho).
    rewrite <- (py_min_perm o o' Ho). split; [ reflexivity | ].
    destruct (Z.ltb_spec 0 (Z.of_nat (List.length o))); [ | now eexists ].
    apply py_min_ok. intros ->. cbn in *. lia. }
  rewrite (rfold_ext _ (fun a x => let* m := G l x in Ok (a + m)) l)
    by (intros; apply Hbody).
  rewrite (rfold_ext _ (fun a x => let* m := G l' x in Ok (a + m)) l')
    by (intros; apply Hbody).
  rewrite (rfold_add_perm (G l) l l' Hperm) by (intros x Hx; apply (HG x Hx)).
  rewrite (rfold_ext (fun a x => let* m := G l x in Ok (a + m))
                     (fun a x => let* m := G l' x in Ok (a + m)) l').
  2:{ intros a x Hx. destruct (HG x) as (-> & _); [ | reflexivity ].
      eapply Permutation_in; [ symmetry | ]; eassumption. }
  destruct (rfold _ l' 0) as [acc | ]; [ | reflexivity ]. cbn [rbind].
  destruct (rmap (fun dd => lookup2 (container_to_plant p) (Some (snd dd)) (Some (fst dd)))
                 (list_prod l (range 0 2))) as [o | e] eqn:E.
  - destruct (rmap_perm _ _ _ o (Permutation_list_prod l l' (range 0 2) Hperm) E)
      as (o' & -> & Ho).
    cbn [rbind]. now rewrite (py_min_perm o o' Ho).
  - exfalso.
    destruct (rmap_ok (fun dd => lookup2 (container_to_plant p) (Some (snd dd)) (Some (fst dd)))
                (list_prod l (range 0 2))) as (ys & Eys & _).
    + intros [v d] Hvd. apply in_prod_iff in Hvd as (Hv & Hd). cbn [fst snd].
      destruct (wf_problem_spec p Hp) as (_ & _ & Hplant & _).
      apply In_range in Hd.
      apply (lookup2_ok 2 (n p)); [ exact Hplant | lia | now apply Hl ].
    + rewrite Eys in E. discriminate.
Qed.


Lemma reachable_fresh_cost (s : Solution) :
  reachable s -> containers s = [] -> obj_value s = 0.
Proof.
  induction 1 as [ p Hp | s s' c Hr IH Hc Hadd | s s' m Hr IH Hm Hstep ]; intros He.
  - reflexivity.
  - apply In_add_moves in Hc as (v & d & -> & Hv & Hd).
    destruct (base_add_candidate s v d (reachable_is_wf s Hr) Hv Hd) as (cost & E).
    rewrite E in Hadd. injection Hadd as <-. cbn in He.
    destruct (containers s); discriminate.
  - destruct (base_step_ok_inv m s s' Hstep)
      as (tmp & cj & cs1 & cs2 & ds1 & ds2 & G1 & _ & S1 & S2 & _ & _ & ->).
    cbn in He. subst cs2. apply setitem_length in S1, S2. cbn in S2.
    destruct (containers s) as [ | x l ]; [ | rewrite <- S2 in S1; discriminate ].
    apply getitem_In in G1. destruct G1.
Qed.

Lemma base_lower_bound_incr_add_run (s : Solution) (v d : Z) :
  wf_solution s = true -> (containers s = [] -> obj_value s = 0) ->
  In v (not_picked s) -> is_bit d = true -> len (not_picked s) <> 1 ->
  exists cost more rest,
    add (mkComponent (Some v) (Some d)) s
    = (mkSolution (problem s) (containers s ++ [v]) (directions s ++ [d])
                  (set_add v (picked s)) (set_discard v (not_picked s))
                  (obj_value s + cost),
       Ok tt)
    /\ get_minimal_connections (problem s) (set_discard v (not_picked s)) = Ok more
    /\ get_minimal_connections (problem s) (not_picked s) = Ok rest
    /\ lower_bound_incr_add (mkComponent (Some v) (Some d)) s
       = (set_not_picked (set_discard v (not_picked s) ++ [v]) s,
          Ok (obj_value s + cost + more - (obj_value s + rest))).
Proof.
  intros Hwf Hfresh Hv Hd Hlen.
  destruct (base_add_candidate_cost s v d Hwf Hv Hd) as (cost & Ecost & Eadd).
  pose proof (proj1 (wf_solution_spec s) Hwf)
    as (Hp & _ & _ & _ & Hnp & Hnd & _ & _ & _).
  pose proof (length_set_discard v (not_picked s) Hnd Hv) as Hdl.
  assert (Hdne : set_discard v (not_picked s) <> []).
  { intros E. rewrite E in Hdl. unfold len in Hlen. cbn in Hdl. lia. }
  assert (Hdr : forall x, In x (set_discard v (not_picked s)) -> 0 <= x < n (problem s)).
  { intros x Hx. apply In_set_discard in Hx as (Hx & _). now apply Hnp. }
  destruct (get_minimal_connections_ok (problem s) _ Hp Hdr Hdne) as (more & Emore).
  assert (Hnne : not_picked s <> []) by (intros E; rewrite E in Hv; destruct Hv).
  destruct (get_minimal_connections_ok (problem s) _ Hp Hnp Hnne) as (rest & Erest).
  exists cost, more, rest.
  split; [ exact Eadd | ]. split; [ exact Emore | ]. split; [ exact Erest | ].
  assert (Hperm : Permutation (set_discard v (not_picked s) ++ [v]) (not_picked s)).
  { rewrite <- Permutation_cons_append. now apply discard_permutation. }
  assert (Hmem : mem v (set_discard v (not_picked s)) = false).
  { destruct (mem v (set_discard v (not_picked s))) eqn:E; [ | reflexivity ].
    apply mem_spec, In_set_discard in E. now destruct E. }
  assert (Hsa : set_add v (set_discard v (not_picked s))
                = set_discard v (not_picked s) ++ [v])
    by (unfold set_add; now rewrite Hmem).
  assert (Hrest' : get_minimal_connections (problem s)
                     (set_discard v (not_picked s) ++ [v]) = Ok rest).
  { rewrite <- Erest. apply get_minimal_connections_perm; [ exact Hp | | exact Hperm ].
    intros x Hx. apply Hnp. eapply Permutation_in; eassumption. }
  assert (Hlen' : (len (set_discard v (not_picked s) ++ [v]) =? 0) = false).
  { apply Z.eqb_neq. unfold len. rewrite length_app. cbn. lia. }
  unfold lower_bound_incr_add, bind, get, lift, modify, ret. cbn [fst snd].
  destruct (Z.eqb_spec (len (not_picked s)) 1) as [ | _ ]; [ contradiction | ].
  revert Ecost.
  destruct (Z.eqb_spec (len (containers s)) 0) as [Hz | Hnz]; intros Ecost.
  - cbn [node direction]. rewrite Ecost. cbn [fst snd as_int].
    rewrite (set_remove_member v (not_picked s)) by now apply mem_spec.
    cbn [fst snd problem not_picked set_not_picked]. rewrite Emore.
    cbn [fst snd problem not_picked set_not_picked].
    rewrite !Hsa. unfold lower_bound.
    cbn [fst snd problem not_picked set_not_picked obj_value].
    rewrite Hlen', Hrest'. cbn [rbind fst snd].
    unfold set_not_picked. cbn [problem containers directions picked not_picked obj_value].
    rewrite Hfresh.
    2:{ destruct (containers s); [ reflexivity | cbn in Hz; lia ]. }
    reflexivity.
  - destruct (getitem (containers s) (-1)) as [lc | ]; [ | discriminate ].
    cbn [rbind] in *.
    destruct (getitem (directions s) (-1)) as [ld | ]; [ | discriminate ].
    cbn [rbind] in *. rewrite Ecost. cbn [rbind fst snd as_int node].
    rewrite (set_remove_member v (not_picked s)) by now apply mem_spec.
    cbn [fst snd problem not_picked set_not_picked]. rewrite Emore.
    cbn [fst snd problem not_picked set_not_picked].
    rewrite !Hsa. unfold lower_bound.
    cbn [fst snd problem not_picked set_not_picked obj_value].
    rewrite Hlen', Hrest'. cbn [rbind fst snd].
    unfold set_not_picked. cbn [problem containers directions picked not_picked obj_value].
    reflexivity.
Qed.


(** X14.  Orientation variant, on a reachable state and a component
    yielded by [add_moves]: [lower_bound_incr_add] returns normally and
    leaves the state as it was, the unvisited set up to the order of its
    elements.  With exactly one container unvisited it returns 0, where
    [lower_bound] after [add] of the component is [None]; otherwise it
    returns [lower_bound] after [add] of the component minus [lower_bound]
    before. *)
Theorem base_lower_bound_incr_add_spec (s : Solution) (c : Component) :
  reachable s -> In c (add_moves s) ->
  exists s1 incr,
    lower_bound_incr_add c s = (s1, Ok incr)
    /\ set_not_picked (not_picked s) s1 = s
    /\ Permutation (not_picked s1) (not_picked s)
    /\ (len (not_picked s) = 1 ->
        s1 = s /\ incr = 0 /\ lower_bound (fst (add c s)) = Ok None)
    /\ (len (not_picked s) <> 1 ->
        exists b b',
          lower_bound s = Ok (Some b)
          /\ lower_bound (fst (add c s)) = Ok (Some b')
          /\ incr = b' - b).
Proof.
  intros Hr Hc. pose proof (reachable_is_wf s Hr) as Hwf.
  apply In_add_moves in Hc as (v & d & -> & Hv & Hd).
  pose proof (proj1 (wf_solution_spec s) Hwf)
    as (Hp & _ & _ & _ & Hnp & Hnd & _ & _ & _).
  pose proof (length_set_discard v (not_picked s) Hnd Hv) as Hdl.
  destruct (Z.eq_dec (len (not_picked s)) 1) as [H1 | H1].
  - exists s, 0.
    split.
    { unfold lower_bound_incr_add, bind, get, ret. cbn [fst snd].
      now rewrite (proj2 (Z.eqb_eq _ _) H1). }
    split; [ now destruct s | ]. split; [ reflexivity | ].
    split; [ | intros H; contradiction ].
    intros _. split; [ reflexivity | ]. split; [ reflexivity | ].
    destruct (base_add_candidate s v d Hwf Hv Hd) as (cost & ->).
    unfold lower_bound. cbn [fst not_picked].
    assert (E : set_discard v (not_picked s) = []).
    { destruct (set_discard v (not_picked s)); [ reflexivity | ].
      unfold len in H1. cbn in Hdl. lia. }
    now rewrite E.
  - destruct (base_lower_bound_incr_add_run s v d Hwf (reachable_fresh_cost s Hr) Hv Hd H1)
      as (cost & more & rest & Eadd & Emore & Erest & Erun).
    eexists. eexists. split; [ exact Erun | ].
    split; [ now destruct s | ].
    split.
    { cbn [not_picked set_not_picked]. rewrite <- Permutation_cons_append.
      now apply discard_permutation. }
    split; [ intros H; contradiction | ].
    intros _. exists (obj_value s + rest), (obj_value s + cost + more).
    split; [ | split; [ | reflexivity ] ].
    + unfold lower_bound. rewrite Erest. cbn [rbind].
      destruct (Z.eqb_spec (len (not_picked s)) 0) as [E | _]; [ | reflexivity ].
      destruct (not_picked s); [ destruct Hv | discriminate ].
    + rewrite Eadd. unfold lower_bound. cbn [fst not_picked problem obj_value].
      rewrite Emore. cbn [rbind].
      destruct (Z.eqb_spec (len (set_discard v (not_picked s))) 0) as [E | _];
        [ | reflexivity ].
      unfold len in *. lia.
Qed.

Lemma base_lower_bound_incr_add_spec_witness :
  exists s1 incr,
    lower_bound_incr_add (mkComponent (Some 0) (Some 0)) (empty_solution line3)
    = (s1, Ok incr)
    /\ Permutation (not_picked s1) (not_picked (empty_solution line3))
    /\ exists b b',
         lower_bound (empty_solution line3) = Ok (Some b)
         /\ lower_bound (fst (add (mkComponent (Some 0) (Some 0))
                                  (empty_solution line3))) = Ok (Some b')
         /\ incr = b' - b.
Proof.
  destruct (base_lower_bound_incr_add_spec (empty_solution line3)
              (mkComponent (Some 0) (Some 0)))
    as (s1 & incr & E & _ & Hp & _ & Hincr).
  - apply reach_empty. reflexivity.
  - vm_compute. auto.
  - exists s1, incr. split; [ exact E | ]. split; [ exact Hp | ].
    apply Hincr. vm_compute. discriminate.
Defined.

End BaseBoundIncrement.

(** ** Components of a closed tour *)
Section Ranges.

Lemma range_snoc (a b : Z) : a <= b -> range a (b + 1) = range a b ++ [b].
Proof.
  intros H. unfold range.
  replace (Z.to_nat (b + 1 - a)) with (S (Z.to_nat (b - a))) by lia.
  rewrite seq_S, map_app. cbn [map]. do 2 f_equal. lia.
Qed.

Lemma getitem_app_l {A : Type} (l l' : list A) (k : Z) :
  0 <= k < len l -> getitem (l ++ l') k = getitem l k.
Proof.
  intros Hk. rewrite !getitem_nth.
  - rewrite nth_error_app1 by (unfold len in Hk; lia). reflexivity.
  - exact Hk.
  - unfold len in *. rewrite length_app. lia.
Qed.

Lemma getitem_app_r {A : Type} (l : list A) (x : A) :
  getitem (l ++ [x]) (len l) = Ok x.
Proof.
  rewrite getitem_nth.
  - unfold len. rewrite Nat2Z.id, nth_error_app2, Nat.sub_diag by lia. reflexivity.
  - unfold len. rewrite length_app. cbn. lia.
Qed.

Lemma rmap_ext {A B : Type} (f f' : A -> result B) (l : list A) :
  (forall x, In x l -> f x = f' x) -> rmap f l = rmap f' l.
Proof.
  induction l as [ | x l IH ]; intros Hext; [ reflexivity | ].
  cbn [rmap]. rewrite Hext by now left.
  rewrite IH; [ reflexivity | ]. intros y Hy. apply Hext. now right.
Qed.

Lemma length_pairwise {A : Type} (l : list A) :
  List.length (pairwise l) = (List.length l - 1)%nat.
Proof.
  induction l as [ | x l IH ]; [ reflexivity | ].
  destruct l as [ | y l ]; [ reflexivity | ].
  change (pairwise (x :: y :: l)) with ((x, y) :: pairwise (y :: l)).
  cbn [List.length] in *. rewrite IH. lia.
Qed.

End Ranges.

Section TspComponents.
Import Tsp TspSpec TspInv.

Lemma consecutive_pairs (l : list Z) :
  rmap (fun k =>
          let* a := getitem l (k - 1) in
          let* b := getitem l k in
          Ok (mkComponent a b))
       (range 1 (len l))
  = Ok (map (fun ab => mkComponent (fst ab) (snd ab)) (pairwise l)).
Proof.
  induction l as [ | x l IH ] using rev_ind; [ reflexivity | ].
  destruct l as [ | y0 l0 ] using rev_ind; [ reflexivity | ].
  clear IHl0. rewrite pairwise_snoc, map_app. cbn [map fst snd].
  set (l := l0 ++ [y0]) in *.
  assert (Hl : 1 <= len l) by (unfold l, len; rewrite length_app; cbn; lia).
  replace (len (l ++ [x])) with (len l + 1)
    by (unfold len; rewrite length_app; cbn; lia).
  rewrite range_snoc by exact Hl.
  apply rmap_snoc.
  - rewrite <- IH. apply rmap_ext. intros k Hk. apply In_range in Hk.
    now rewrite !getitem_app_l by lia.
  - rewrite getitem_app_l by lia. rewrite getitem_app_r. unfold l at 1.
    replace (len l - 1) with (len l0)
      by (unfold l, len; rewrite length_app; cbn; lia).
    rewrite getitem_app_r. reflexivity.
Qed.

Lemma tsp_components_pairs (s : Solution) :
  components s
  = Ok (map (fun ab => mkComponent (fst ab) (snd ab)) (pairwise (path s))).
Proof. apply consecutive_pairs. Qed.


Lemma reachable_origin (s : Solution) :
  reachable s ->
  exists coords, problem s = new_problem coords /\ 0 <= start s < len coords.
Proof.
  induction 1 as [ coords st Hst | s s' cs c _ IH Hcs Hc Hadd | s s' m _ IH Hm Hstep ].
  - exists coords. split; [ reflexivity | exact Hst ].
  - destruct (tsp_add_ok_inv c s) as (d & rest & _ & E);
      [ now rewrite Hadd | ].
    rewrite Hadd in E. cbn [fst] in E. subst s'. exact IH.
  - destruct (tsp_step_frame m s) as (Hp & Hs & _ & _).
    rewrite Hstep in Hp, Hs. cbn [fst] in Hp, Hs. now rewrite Hp, Hs.
Qed.

(** Every reachable path is the beginning of a closed tour. *)
Lemma reachable_prefix (s : Solution) :
  tour_inv s ->
  exists r body,
    path s ++ r = body ++ [start s]
    /\ Permutation body (range 0 (nnodes (problem s))).
Proof.
  intros (_ & _ & _ & _ & [Hp | Hc]).
  - exists (unused s ++ [start s]), (path s ++ unused s).
    split; [ now rewrite app_assoc | apply Hp ].
  - destruct Hc as (body & Ep & Hperm & _).
    exists [], body. split; [ now rewrite app_nil_r | exact Hperm ].
Qed.

Lemma replay (q : list Z) :
  forall (t : Solution) (r body : list Z) (lastp : Z),
    reachable t ->
    getitem (path t) (-1) = Ok lastp ->
    path t ++ q ++ r = body ++ [start t] ->
    Permutation body (range 0 (nnodes (problem t))) ->
    exists t',
      add_all (map (fun ab => mkComponent (fst ab) (snd ab)) (pairwise (lastp :: q))) t
      = (t', Ok tt)
      /\ reachable t'
      /\ path t' = path t ++ q
      /\ problem t' = problem t
      /\ start t' = start t.
Proof.
  induction q as [ | x q IH ]; intros t r body lastp Hr Hlast Hpre Hperm.
  - exists t. cbn. rewrite app_nil_r. repeat split; try reflexivity. exact Hr.
  - pose proof (reachable_tour_inv t Hr) as Hinv.
    pose proof Hinv as (Hsh & Hs & Hhd & Hused & Hcase).
    assert (Hcand : exists cs, add_moves t = Ok cs /\ In (mkComponent lastp x) cs).
    { unfold add_moves. rewrite Hlast. cbn [rbind].
      destruct (q ++ r) as [ | z0 rest0 ] eqn:Erest using rev_ind.
      - (* [x] closes the tour *)
        cbn [app] in Hpre. rewrite Erest in Hpre.
        apply app_inj_tail in Hpre as (Ep & Ex). subst x.
        assert (Hlen : len (path t) = nnodes (problem t)).
        { rewrite Ep. apply Permutation_length in Hperm.
          pose proof (len_range 0 (nnodes (problem t))). unfold len in *. lia. }
        rewrite Hlen, Z.ltb_irrefl, Z.eqb_refl.
        eexists. split; [ reflexivity | now left ].
      - clear IHrest0. cbn [app] in Hpre. rewrite Erest in Hpre.
        replace (path t ++ x :: rest0 ++ [z0])
          with ((path t ++ x :: rest0) ++ [z0]) in Hpre
          by (now rewrite <- app_assoc).
        apply app_inj_tail in Hpre as (Eb & _).
        assert (Hnd : NoDup body)
          by (eapply Permutation_NoDup; [ symmetry; exact Hperm | apply NoDup_range ]).
        assert (Hlen : len (path t) < nnodes (problem t)).
        { apply Permutation_length in Hperm.
          pose proof (len_range 0 (nnodes (problem t))) as Hl.
          rewrite <- Eb in Hperm. rewrite length_app in Hperm. cbn in Hperm.
          unfold len in *. lia. }
        destruct (Z.ltb_spec (len (path t)) (nnodes (problem t))); [ | lia ].
        eexists. split; [ reflexivity | ].
        apply in_map_iff. exists x. split; [ reflexivity | ].
        destruct Hcase as [Hp | Hc]; [ | destruct (closed_facts t Hs Hc); lia ].
        destruct (partial_facts t Hp) as (_ & Hin & _).
        assert (Hx : In x (path t ++ unused t)).
        { apply Hin. apply In_range. eapply Permutation_in; [ exact Hperm | ].
          rewrite <- Eb. apply in_or_app. right. now left. }
        apply in_app_or in Hx as [Hx | Hx]; [ | exact Hx ].
        exfalso. rewrite <- Eb in Hnd.
        apply (NoDup_app_apart _ _ x Hnd); [ exact Hx | now left ]. }
    destruct Hcand as (cs & Hcs & Hc).
    destruct (tsp_add_candidate_ok t cs _ Hinv Hcs Hc) as (_ & Hok).
    pose proof (reach_add_fst t cs _ Hr Hcs Hc) as Hr1.
    destruct (tsp_add_ok_inv _ t Hok) as (d & rest & _ & E1).
    destruct (add (mkComponent lastp x) t) as [t1 res] eqn:Eadd.
    cbn [fst snd] in *. subst res.
    assert (Hp1 : path t1 = path t ++ [x]) by (rewrite E1; reflexivity).
    assert (Hpr1 : problem t1 = problem t) by (rewrite E1; reflexivity).
    assert (Hs1 : start t1 = start t) by (rewrite E1; reflexivity).
    destruct (IH t1 r body x Hr1) as (t' & Erun & Hr' & Hp' & Hpr' & Hs').
    + rewrite Hp1. apply getitem_snoc.
    + rewrite Hp1, Hs1, <- app_assoc. exact Hpre.
    + now rewrite Hpr1.
    + exists t'. cbn [pairwise map add_all fst snd].
      unfold bind. rewrite Eadd.
      split; [ exact Erun | ]. split; [ exact Hr' | ].
      split; [ rewrite Hp', Hp1, <- app_assoc; reflexivity | ].
      split; congruence.
Qed.

(** X15.  Closed-tour variant: [components] never raises and yields the
    pairs of consecutive points of the path, one less than the path has
    points.  On a reachable state, replaying them with [add] from
    [empty_solution_with_start] of the same problem and start returns
    normally at every step and rebuilds the path: the state reached has
    the same path, the same unvisited points and the same feasibility. *)
Theorem tsp_components_replay (s : Solution) :
  reachable s ->
  exists cs s',
    components s = Ok cs
    /\ len cs = len (path s) - 1
    /\ add_all cs (empty_solution_with_start (problem s) (start s)) = (s', Ok tt)
    /\ reachable s'
    /\ path s' = path s
    /\ Permutation (unused s') (unused s)
    /\ is_feasible s' = is_feasible s.
Proof.
  intros Hr. pose proof (reachable_tour_inv s Hr) as Hinv.
  pose proof Hinv as (Hsh & Hs & Hhd & Hused & Hcase).
  destruct (reachable_origin s Hr) as (coords & Ep & Hst).
  destruct (reachable_prefix s Hinv) as (r & body & Hpre & Hperm).
  destruct (path s) as [ | st q ] eqn:Epath; [ discriminate | ].
  injection Hhd as ->.
  set (t0 := empty_solution_with_start (problem s) (start s)).
  assert (Hr0 : reachable t0)
    by (unfold t0; rewrite Ep; now apply reach_empty).
  destruct (replay q t0 r body (start s) Hr0) as (s' & Erun & Hr' & Hp' & Hpr' & Hs');
    [ reflexivity | exact Hpre | exact Hperm | ].
  exists (map (fun ab => mkComponent (fst ab) (snd ab)) (pairwise (start s :: q))), s'.
  split; [ rewrite tsp_components_pairs, Epath; reflexivity | ].
  split.
  { unfold len. rewrite length_map, length_pairwise. cbn [List.length]. lia. }
  split; [ exact Erun | ]. split; [ exact Hr' | ].
  assert (Hpath : path s' = start s :: q) by (rewrite Hp'; reflexivity).
  split; [ exact Hpath | ].
  cbn [problem t0 empty_solution_with_start] in Hpr'.
  split.
  - pose proof (reachable_tour_inv s' Hr') as (_ & Hs2 & _ & _ & Hcase').
    destruct Hcase as [Hp | Hc]; destruct Hcase' as [Hp2 | Hc2].
    + destruct Hp as (_ & Hp). destruct Hp2 as (_ & Hp2).
      rewrite Hpr', Hpath in Hp2. rewrite Epath in Hp.
      eapply Permutation_app_inv_l. rewrite Hp2. now symmetry.
    + destruct (closed_facts s' Hs2 Hc2) as (Hl & _). destruct Hp as (Hl' & _).
      rewrite Hpath, Hpr' in Hl. rewrite Epath in Hl'. lia.
    + destruct (closed_facts s Hs Hc) as (Hl & _). destruct Hp2 as (Hl' & _).
      rewrite Hpath, Hpr' in Hl'. rewrite Epath in Hl. lia.
    + destruct Hc as (_ & _ & _ & ->). destruct Hc2 as (_ & _ & _ & ->). reflexivity.
  - unfold is_feasible. now rewrite Hpath, Hpr', Epath.
Qed.

Lemma tsp_components_replay_witness :
  exists cs s',
    components square_tour = Ok cs
    /\ len cs = len (path square_tour) - 1
    /\ add_all cs (empty_solution_with_start (problem square_tour) (start square_tour))
       = (s', Ok tt)
    /\ reachable s'
    /\ path s' = path square_tour
    /\ Permutation (unused s') (unused square_tour)
    /\ is_feasible s' = is_feasible square_tour.
Proof.
  apply (tsp_components_replay square_tour square_tour_reachable).
Defined.

(** X16.  Closed-tour variant, on a reachable state and a component
    yielded by [add_moves]: [lower_bound] is [dist], and after [add] of the
    component it is [dist] plus the length of the component.
    [lower_bound_incr_add] returns that length while the path has fewer
    than [nnodes] points, and 0 for the component that closes the tour. *)
Theorem tsp_lower_bound_incr_add_spec (s : Solution) (cs : list Component)
  (c : Component) :
  reachable s -> add_moves s = Ok cs -> In c cs ->
  exists d,
    length_of s c = Ok d
    /\ lower_bound s = Some (dist s)
    /\ lower_bound (fst (add c s)) = Some (PrimFloat.add (dist s) d)
    /\ (len (path s) < nnodes (problem s) -> lower_bound_incr_add s c = Ok d)
    /\ (len (path s) = nnodes (problem s) ->
        v c = start s /\ lower_bound_incr_add s c = Ok 0%float).
Proof.
  intros Hr Hcs Hc. pose proof (reachable_tour_inv s Hr) as Hinv.
  destruct (tsp_add_candidate_ok s cs c Hinv Hcs Hc) as (Hlast & Hok).
  destruct (tsp_add_ok_inv c s Hok) as (d & rest & Ed & E).
  exists d. unfold length_of, lower_bound, lower_bound_incr_add.
  split; [ exact Ed | ]. split; [ reflexivity | ].
  split; [ rewrite E; reflexivity | ].
  split.
  - intros Hlt. destruct (Z.leb_spec (len (path s) + 1) (nnodes (problem s))); [ exact Ed | lia ].
  - intros Heq. split.
    + unfold add_moves in Hcs. rewrite Hlast in Hcs. cbn [rbind] in Hcs.
      rewrite Heq, Z.ltb_irrefl, Z.eqb_refl in Hcs. injection Hcs as <-.
      destruct Hc as [<- | []]. reflexivity.
    + destruct (Z.leb_spec (len (path s) + 1) (nnodes (problem s))); [ lia | reflexivity ].
Qed.

Lemma tsp_lower_bound_incr_add_spec_witness :
  exists d,
    length_of line5_path (mkComponent 3 4) = Ok d
    /\ lower_bound (fst (add (mkComponent 3 4) line5_path))
       = Some (PrimFloat.add (dist line5_path) d)
    /\ lower_bound_incr_add line5_path (mkComponent 3 4) = Ok d.
Proof.
  destruct (tsp_lower_bound_incr_add_spec line5_path [mkComponent 3 4] (mkComponent 3 4)
              line5_path_reachable)
    as (d & Ed & _ & Hb & Hincr & _).
  - vm_compute. reflexivity.
  - now left.
  - exists d. split; [ exact Ed | ]. split; [ exact Hb | ].
    apply Hincr. vm_compute. reflexivity.
Defined.

End TspComponents.

(** ** Random moves and perturbation, orientation variant *)
Section BaseMoves.
Import Base BaseSpec BaseInv.

Lemma setitem_inside {A : Type} (l : list A) (i : Z) (x : A) :
  0 <= i < len l -> exists l', setitem l i x = Ok l'.
Proof.
  intros H. unfold setitem. rewrite norm_index_inside by exact H. eauto.
Qed.

Lemma base_step_total (m : LocalMove) (s : Solution) :
  List.length (directions s) = List.length (containers s) ->
  0 <= i m < len (containers s) -> 0 <= j m < len (containers s) ->
  exists s', step m s = (s', Ok tt).
Proof.
  intros Hlen Hi Hj.
  destruct (getitem_inside (containers s) (i m) Hi) as (tmp & G1 & _).
  destruct (getitem_inside (containers s) (j m) Hj) as (cj & G2 & _).
  destruct (setitem_inside (containers s) (i m) cj Hi) as (cs1 & S1).
  pose proof (setitem_length _ _ _ _ S1) as L1.
  destruct (setitem_inside cs1 (j m) tmp) as (cs2 & S2);
    [ unfold len in *; lia | ].
  destruct (setitem_inside (directions s) (i m) (i_dir m)) as (ds1 & S3);
    [ unfold len in *; lia | ].
  pose proof (setitem_length _ _ _ _ S3) as L3.
  destruct (setitem_inside ds1 (j m) (j_dir m)) as (ds2 & S4);
    [ unfold len in *; lia | ].
  unfold step, bind, get, lift, modify. cbn [fst snd].
  rewrite G1, G2, S1. cbn [fst snd containers set_containers].
  rewrite S2. cbn [fst snd directions set_containers].
  rewrite S3. cbn [fst snd directions set_directions].
  rewrite S4. eauto.
Qed.

Lemma base_feasible_len (s : Solution) :
  reachable s -> (is_feasible s = true <-> len (containers s) = n (problem s)).
Proof.
  intros Hr. destruct (reachable_covers s Hr) as [Hcov _].
  assert (Hnd : NoDup (containers s)).
  { apply (NoDup_app_remove_r _ (not_picked s)).
    apply (Permutation_NoDup (Permutation_sym Hcov)). apply NoDup_range. }
  unfold is_feasible. rewrite (nodup_fixed_point Z.eq_dec Hnd).
  destruct (Z.eqb_spec (len (containers s)) (n (problem s))); cbn;
    split; congruence.
Qed.

(** On a complete reachable state every move of [local_moves] can
    be applied, and gives a complete reachable state. *)
Lemma base_step_complete (m : LocalMove) (s : Solution) :
  reachable s -> len (containers s) = n (problem s) -> In m (local_moves s) ->
  exists s',
    step m s = (s', Ok tt) /\ reachable s'
    /\ len (containers s') = n (problem s')
    /\ problem s' = problem s
    /\ obj_value s' = obj_value s
    /\ Permutation (containers s') (containers s).
Proof.
  intros Hr Hfull Hm.
  pose proof (reachable_is_wf s Hr) as Hwf.
  pose proof (proj1 (wf_solution_spec s) Hwf) as (_ & Hlen & _).
  pose proof (In_local_moves s m Hm) as (Hi & Hij & Hj & _ & _).
  destruct (base_step_total m s Hlen) as (s' & E); [ lia | lia | ].
  exists s'. split; [ exact E | ].
  split; [ eapply reach_step; eassumption | ].
  pose proof (base_step_frame m s) as (Hperm & _ & Hp & _ & _).
  rewrite E in Hperm, Hp. cbn [fst] in Hperm, Hp.
  split; [ | split; [ exact Hp | split; [ | exact Hperm ] ] ].
  - rewrite Hp, <- Hfull. unfold len. now rewrite (Permutation_length Hperm).
  - destruct (base_step_ok_inv m s s' E)
      as (? & ? & ? & ? & ? & ? & _ & _ & _ & _ & _ & _ & ->).
    reflexivity.
Qed.

End BaseMoves.

Section BaseRandomMove.
Import Base BaseSpec BaseInv.
Variable rng : Type.
Variable shuffle : list Z -> rng -> list Z * rng.

Lemma for_first_hd {X Y : Type} (l : list X)
  (body : X -> rng -> list Y * rng) (body1 : X -> rng -> option Y * rng) :
  (forall x g,
      fst (body1 x g) = hd_error (fst (body x g))
      /\ (hd_error (fst (body x g)) = None -> snd (body1 x g) = snd (body x g))) ->
  forall g,
    fst (for_first rng l body1 g) = hd_error (fst (for_each rng l body g))
    /\ (hd_error (fst (for_each rng l body g)) = None ->
        snd (for_first rng l body1 g) = snd (for_each rng l body g)).
Proof.
  intros Hb. induction l as [ | x l IH ]; intros g; [ split; reflexivity | ].
  cbn [for_first for_each].
  destruct (Hb x g) as (E1 & E2).
  destruct (body1 x g) as [o g1]. destruct (body x g) as [ys g1'].
  cbn [fst snd] in *.
  destruct ys as [ | y ys ]; cbn [hd_error] in *.
  - subst o. rewrite (E2 eq_refl). specialize (IH g1').
    destruct (for_each rng l body g1') as [zs g2]. cbn [fst snd app] in *.
    exact IH.
  - subst o. destruct (for_each rng l body g1') as [zs g2]. cbn [fst snd app hd_error].
    split; [ reflexivity | discriminate ].
Qed.

(** [random_local_move] returns the first move that
    [random_local_moves_wor] would yield from the same generator state. *)
Lemma random_local_move_is_first (s : Solution) (g : rng) :
  fst (random_local_move rng shuffle s g)
  = hd_error (fst (random_local_moves_wor rng shuffle s g)).
Proof.
  unfold random_local_move, random_local_moves_wor.
  destruct (shuffle (range 0 (n (problem s))) g) as [range_1 g1].
  apply for_first_hd. intros idx_1 g2.
  destruct (shuffle (range idx_1 (n (problem s))) g2) as [range_2 g3].
  apply for_first_hd. intros idx_2 g4.
  destruct (shuffle (range 0 4) g4) as [rd g5]. cbn [fst snd].
  split; [ now destruct rd | reflexivity ].
Qed.

Hypothesis shuffle_permutes : forall l g, Permutation (fst (shuffle l g)) l.

Lemma shuffled_head (a b : Z) (g : rng) :
  a < b ->
  exists x l g', shuffle (range a b) g = (x :: l, g') /\ a <= x < b.
Proof.
  intros Hab. pose proof (shuffle_permutes (range a b) g) as Hp.
  destruct (shuffle (range a b) g) as [l g']. cbn [fst] in Hp.
  destruct l as [ | x l ].
  - apply Permutation_nil in Hp.
    apply (f_equal (@List.length Z)) in Hp.
    pose proof (len_range a b). unfold len in *. cbn in Hp. lia.
  - exists x, l, g'. split; [ reflexivity | ].
    apply In_range. eapply Permutation_in; [ exact Hp | now left ].
Qed.

Lemma base_random_local_move_some (s : Solution) (g : rng) :
  0 < n (problem s) ->
  exists m g', random_local_move rng shuffle s g = (Some m, g')
               /\ In m (local_moves s).
Proof.
  intros Hn. unfold random_local_move, local_moves.
  destruct (shuffled_head 0 (n (problem s)) g Hn) as (i1 & l1 & g1 & -> & Hi1).
  cbn [for_first].
  destruct (shuffled_head i1 (n (problem s)) g1) as (i2 & l2 & g2 & -> & Hi2);
    [ lia | ].
  cbn [for_first].
  destruct (shuffled_head 0 4 g2) as (d & l3 & g3 & -> & Hd); [ lia | ].
  cbn [hd_error option_map].
  eexists. eexists. split; [ reflexivity | ].
  apply in_flat_map. exists i1. split; [ apply In_range; lia | ].
  apply in_flat_map. exists i2. split; [ apply In_range; lia | ].
  apply in_map. apply In_range. lia.
Qed.

Lemma base_random_local_move_none (s : Solution) (g : rng) :
  n (problem s) <= 0 -> fst (random_local_move rng shuffle s g) = None.
Proof.
  intros Hn. unfold random_local_move.
  pose proof (shuffle_permutes (range 0 (n (problem s))) g) as Hp.
  destruct (shuffle (range 0 (n (problem s))) g) as [l g'].
  cbn [fst] in Hp.
  assert (E : range 0 (n (problem s)) = []).
  { unfold range. now replace (Z.to_nat (n (problem s) - 0)) with 0%nat by lia. }
  rewrite E in Hp. apply Permutation_sym, Permutation_nil in Hp. now subst l.
Qed.

Lemma base_perturb_loop_complete (k : nat) :
  forall (s : Solution) (g : rng),
    reachable s -> len (containers s) = n (problem s) -> 0 < n (problem s) ->
    exists s' g',
      perturb_loop rng shuffle k s g = (s', Perturbed, g')
      /\ reachable s'
      /\ len (containers s') = n (problem s')
      /\ problem s' = problem s
      /\ obj_value s' = obj_value s
      /\ Permutation (containers s') (containers s).
Proof.
  induction k as [ | k IH ]; intros s g Hr Hfull Hn.
  - exists s, g. repeat split; try reflexivity; assumption.
  - cbn [perturb_loop].
    destruct (base_random_local_move_some s g Hn) as (m & g1 & -> & Hm).
    destruct (base_step_complete m s Hr Hfull Hm)
      as (s1 & -> & Hr1 & Hfull1 & Hp & Hobj1 & Hperm1).
    destruct (IH s1 g1 Hr1 Hfull1) as (s' & g' & E & Hr' & Hfull' & Hp' & Hobj' & Hperm');
      [ now rewrite Hp | ].
    exists s', g'. split; [ exact E | ]. split; [ exact Hr' | ].
    split; [ exact Hfull' | ]. split; [ congruence | ].
    split; [ congruence | ]. now transitivity (containers s1).
Qed.


(** X17.  Orientation variant, whatever orders [random.shuffle]
    produces: [random_local_move] returns the first move that
    [random_local_moves_wor] would yield from the same generator state; on
    an instance with at least one container that is a move of
    [local_moves], and on an instance without containers it is [None]. *)
Theorem base_random_local_move_spec (s : Solution) (g : rng) :
  fst (random_local_move rng shuffle s g)
  = hd_error (fst (random_local_moves_wor rng shuffle s g))
  /\ (0 < n (problem s) ->
      exists m, fst (random_local_move rng shuffle s g) = Some m
                /\ In m (local_moves s))
  /\ (n (problem s) <= 0 -> fst (random_local_move rng shuffle s g) = None).
Proof.
  split; [ apply random_local_move_is_first | ].
  split.
  - intros Hn. destruct (base_random_local_move_some s g Hn) as (m & g' & -> & Hm).
    exists m. split; [ reflexivity | exact Hm ].
  - apply base_random_local_move_none.
Qed.

(** X18.  Orientation variant, whatever orders [random.shuffle]
    produces: on a feasible reachable state of an instance with at least
    one container, [perturb] returns normally for every kick strength, in a
    feasible reachable state with the same containers in some order and
    the same [obj_value]; on an instance without containers, [perturb] with
    a positive kick strength stops at [step(None)]. *)
Theorem base_perturb_spec (ks : Z) (s : Solution) (g : rng) :
  (reachable s -> is_feasible s = true -> 0 < n (problem s) ->
   exists s' g',
     perturb rng shuffle ks s g = (s', Perturbed, g')
     /\ reachable s'
     /\ is_feasible s' = true
     /\ obj_value s' = obj_value s
     /\ Permutation (containers s') (containers s))
  /\ (n (problem s) <= 0 -> 0 < ks ->
      fst (perturb rng shuffle ks s g) = (s, NoMove)).
Proof.
  split.
  - intros Hr Hf Hn. apply (base_feasible_len s Hr) in Hf.
    destruct (base_perturb_loop_complete (Z.to_nat ks) s g Hr Hf Hn)
      as (s' & g' & E & Hr' & Hfull' & _ & Hobj & Hperm).
    exists s', g'. split; [ exact E | ]. split; [ exact Hr' | ].
    split; [ now apply (base_feasible_len s' Hr') | ].
    split; assumption.
  - intros Hn Hks. unfold perturb.
    destruct (Z.to_nat ks) as [ | k ] eqn:Ek; [ lia | ].
    cbn [perturb_loop].
    pose proof (base_random_local_move_none s g Hn) as E.
    destruct (random_local_move rng shuffle s g) as [o g1]. cbn [fst] in E.
    now subst o.
Qed.

End BaseRandomMove.

Lemma base_random_local_move_spec_witness :
  let shuffle := fun (l : list Z) (g : unit) => (rev l, g) in
  exists m, fst (Base.random_local_move unit shuffle BaseSpec.line3_tour tt) = Some m
            /\ In m (Base.local_moves BaseSpec.line3_tour).
Proof.
  intros shuffle.
  assert (Hs : forall l g, Permutation (fst (shuffle l g)) l)
    by (intros l g; symmetry; apply Permutation_rev).
  apply (base_random_local_move_spec unit shuffle Hs BaseSpec.line3_tour tt).
  reflexivity.
Defined.

Lemma base_perturb_spec_witness :
  let shuffle := fun (l : list Z) (g : unit) => (rev l, g) in
  exists s' g',
    Base.perturb unit shuffle 2 BaseSpec.line3_tour tt = (s', Base.Perturbed, g')
    /\ BaseSpec.reachable s'
    /\ Base.is_feasible s' = true
    /\ Base.obj_value s' = Base.obj_value BaseSpec.line3_tour
    /\ Permutation (Base.containers s') (Base.containers BaseSpec.line3_tour).
Proof.
  intros shuffle.
  assert (Hs : forall l g, Permutation (fst (shuffle l g)) l)
    by (intros l g; symmetry; apply Permutation_rev).
  apply (base_perturb_spec unit shuffle Hs 2 BaseSpec.line3_tour tt).
  - exact line3_tour_reachable.
  - reflexivity.
  - reflexivity.
Defined.

(** ** Random moves and perturbation, closed-tour variant *)
Section TspRandomMove.
Import Tsp TspSpec TspInv.
Variable rng : Type.
Variable randrange : Z -> Z -> rng -> result Z * rng.
Hypothesis randrange_in :
  forall a b g, a < b ->
    exists r g', randrange a b g = (Ok r, g') /\ a <= r < b.

Lemma tsp_local_moves_short (s : Solution) :
  len (path s) < 4 -> local_moves s = [].
Proof.
  intros Hlen. destruct (local_moves s) as [ | m l ] eqn:E; [ reflexivity | ].
  assert (Hm : In m (local_moves s)) by (rewrite E; now left).
  apply In_tsp_local_moves in Hm. lia.
Qed.

Lemma tsp_random_local_move_some (s : Solution) (g : rng) :
  4 <= len (path s) ->
  exists m g', random_local_move rng randrange s g = (Ok (Some m), g')
               /\ In m (local_moves s).
Proof.
  intros Hlen. unfold random_local_move.
  destruct (Z.leb_spec 4 (len (path s))); [ | lia ].
  destruct (randrange_in 1 (len (path s) - 2) g) as (i0 & g1 & -> & Hi); [ lia | ].
  destruct (randrange_in (i0 + 2) (len (path s)) g1) as (j0 & g2 & -> & Hj); [ lia | ].
  eexists. eexists. split; [ reflexivity | ].
  apply In_tsp_local_moves. cbn [i j]. lia.
Qed.

Lemma tsp_random_local_move_none (s : Solution) (g : rng) :
  len (path s) < 4 -> random_local_move rng randrange s g = (Ok None, g).
Proof.
  intros Hlen. unfold random_local_move.
  destruct (Z.leb_spec 4 (len (path s))); [ lia | reflexivity ].
Qed.

Lemma tsp_step_outcome (m : LocalMove) (s : Solution) :
  reachable s -> In m (local_moves s) ->
  (snd (step m s) = Ok tt /\ reachable (fst (step m s))
   \/ snd (step m s) = Raise AssertionError)
  /\ Permutation (path (fst (step m s))) (path s)
  /\ problem (fst (step m s)) = problem s.
Proof.
  intros Hr Hm. pose proof (tour_inv_wf s (reachable_tour_inv s Hr)) as Hwf.
  destruct (tsp_step_state s m Hwf Hm)
    as (e1 & e2 & e3 & e4 & _ & _ & _ & _ & Hstate & Hout).
  split; [ | split ].
  - destruct Hout as [Hok | Hraise]; [ left | now right ].
    split; [ exact Hok | ].
    destruct (step m s) as [s' r] eqn:E. cbn [fst snd] in *. subst r.
    eapply reach_step; eassumption.
  - rewrite Hstate. cbn [path]. apply reverse_slice_permutation.
  - rewrite Hstate. reflexivity.
Qed.

Lemma tsp_perturb_loop_outcome (k : nat) :
  forall (s : Solution) (g : rng),
    reachable s ->
    (snd (fst (perturb_loop rng randrange k s g)) = Ok tt
     /\ reachable (fst (fst (perturb_loop rng randrange k s g)))
     \/ snd (fst (perturb_loop rng randrange k s g)) = Raise AssertionError)
    /\ Permutation (path (fst (fst (perturb_loop rng randrange k s g)))) (path s)
    /\ problem (fst (fst (perturb_loop rng randrange k s g))) = problem s.
Proof.
  induction k as [ | k IH ]; intros s g Hr.
  - cbn. split; [ left; split; [ reflexivity | exact Hr ] | ].
    split; reflexivity.
  - cbn [perturb_loop].
    destruct (Z_lt_le_dec (len (path s)) 4) as [Hshort | Hlong].
    + rewrite (tsp_random_local_move_none s g Hshort). now apply IH.
    + destruct (tsp_random_local_move_some s g Hlong) as (m & g1 & -> & Hm).
      destruct (tsp_step_outcome m s Hr Hm) as (Hout & Hperm & Hp).
      destruct (step m s) as [s1 r] eqn:E. cbn [fst snd] in *.
      destruct Hout as [(-> & Hr1) | ->].
      * destruct (IH s1 g1 Hr1) as (Hout' & Hperm' & Hp').
        split; [ exact Hout' | ].
        split; [ now transitivity (path s1) | congruence ].
      * cbn [fst snd]. split; [ now right | ]. split; assumption.
Qed.

(** X19.  Closed-tour variant, for a [random.randrange] that returns
    a number of the range it is given: [random_local_move] returns a move
    of [local_moves] when the path has at least four points, and [None]
    without drawing when it has fewer, which is when [local_moves] yields
    nothing; it never raises. *)
Theorem tsp_random_local_move_spec (s : Solution) (g : rng) :
  (4 <= len (path s) ->
   exists m g', random_local_move rng randrange s g = (Ok (Some m), g')
                /\ In m (local_moves s))
  /\ (len (path s) < 4 ->
      random_local_move rng randrange s g = (Ok None, g)
      /\ local_moves s = []).
Proof.
  split.
  - apply tsp_random_local_move_some.
  - intros Hlen. split;
      [ now apply tsp_random_local_move_none | now apply tsp_local_moves_short ].
Qed.

(** X20.  Closed-tour variant, for a [random.randrange] that returns a
    number of the range it is given, with the checks made under
    [__debug__]: on a reachable state [perturb] returns normally or raises
    [AssertionError]; either way the path it leaves is a permutation of the
    path before and the feasibility is the same, and when it returns
    normally the state is reachable.  On a state that is not a complete
    tour and has at least four points, [perturb] with a positive kick
    strength raises [AssertionError]; with fewer than four points it
    changes nothing. *)
Theorem tsp_perturb_spec (ks : Z) (s : Solution) (g : rng) :
  reachable s ->
  (snd (fst (perturb rng randrange ks s g)) = Ok tt
   /\ reachable (fst (fst (perturb rng randrange ks s g)))
   \/ snd (fst (perturb rng randrange ks s g)) = Raise AssertionError)
  /\ Permutation (path (fst (fst (perturb rng randrange ks s g)))) (path s)
  /\ is_feasible (fst (fst (perturb rng randrange ks s g))) = is_feasible s
  /\ (is_feasible s = false -> 4 <= len (path s) -> 0 < ks ->
      snd (fst (perturb rng randrange ks s g)) = Raise AssertionError)
  /\ (len (path s) < 4 -> perturb rng randrange ks s g = (s, Ok tt, g)).
Proof.
  intros Hr. unfold perturb.
  destruct (tsp_perturb_loop_outcome (Z.to_nat ks) s g Hr) as (Hout & Hperm & Hp).
  split; [ exact Hout | ]. split; [ exact Hperm | ].
  split; [ | split ].
  - unfold is_feasible. rewrite Hp. unfold len.
    now rewrite (Permutation_length Hperm).
  - intros Hf Hlen Hks.
    destruct (Z.to_nat ks) as [ | k ] eqn:Ek; [ lia | ].
    cbn [perturb_loop].
    destruct (tsp_random_local_move_some s g Hlen) as (m & g1 & -> & Hm).
    pose proof (reachable_tour_inv s Hr) as Hinv.
    assert (Hpart : partial_tour s).
    { destruct Hinv as (_ & Hs & _ & _ & [Hpt | Hc]); [ exact Hpt | ].
      destruct (closed_facts s Hs Hc) as (Hl & _).
      unfold is_feasible in Hf. apply Z.eqb_neq in Hf. lia. }
    pose proof (tsp_open_step_raises s m Hinv Hpart Hm) as Hraise.
    destruct (step m s) as [s1 r]. cbn [snd] in Hraise. subst r. reflexivity.
  - intros Hshort. clear Hout Hperm Hp.
    induction (Z.to_nat ks) as [ | k IH ]; [ reflexivity | ].
    cbn [perturb_loop]. now rewrite (tsp_random_local_move_none s g Hshort).
Qed.

End TspRandomMove.

Lemma tsp_random_local_move_spec_witness :
  let randrange := fun (a b : Z) (g : unit) =>
                     (if a <? b then Ok a else Raise ValueError, g) in
  exists m g',
    Tsp.random_local_move unit randrange TspSpec.square_tour tt = (Ok (Some m), g')
    /\ In m (Tsp.local_moves TspSpec.square_tour).
Proof.
  intros randrange.
  assert (Hrr : forall a b g, a < b ->
             exists r g', randrange a b g = (Ok r, g') /\ a <= r < b).
  { intros a b g Hab. exists a, g. unfold randrange.
    destruct (Z.ltb_spec a b); [ split; [ reflexivity | lia ] | lia ]. }
  apply (tsp_random_local_move_spec unit randrange Hrr TspSpec.square_tour tt).
  vm_compute. discriminate.
Defined.

Lemma tsp_perturb_spec_witness :
  let randrange := fun (a b : Z) (g : unit) =>
                     (if a <? b then Ok a else Raise ValueError, g) in
  snd (fst (Tsp.perturb unit randrange 1 TspInv.line5_path tt)) = Raise AssertionError.
Proof.
  intros randrange.
  assert (Hrr : forall a b g, a < b ->
             exists r g', randrange a b g = (Ok r, g') /\ a <= r < b).
  { intros a b g Hab. exists a, g. unfold randrange.
    destruct (Z.ltb_spec a b); [ split; [ reflexivity | lia ] | lia ]. }
  apply (tsp_perturb_spec unit randrange Hrr 1 TspInv.line5_path tt
           line5_path_reachable).
  - reflexivity.
  - vm_compute. discriminate.
  - lia.
Defined.

(** ** Components, orientation variant *)
Section BaseComponents.
Import Base BaseSpec BaseInv.

Lemma rmap_raises {A B : Type} (f : A -> result B) (l1 l2 : list A) (x : A) (e : exn) :
  (forall y, In y l1 -> exists z, f y = Ok z) -> f x = Raise e ->
  rmap f (l1 ++ x :: l2) = Raise e.
Proof.
  intros Hok Hx. induction l1 as [ | y l1 IH ]; cbn [app rmap].
  - now rewrite Hx.
  - destruct (Hok y (or_introl eq_refl)) as (z & ->). cbn [rbind].
    rewrite IH; [ reflexivity | ]. intros w Hw. apply Hok. now right.
Qed.

Lemma getitem_at_len {A : Type} (l : list A) : getitem l (len l) = Raise IndexError.
Proof.
  unfold getitem, norm_index. pose proof (len_nonneg l).
  destruct (Z.ltb_spec (len l) (len l)); [ lia | ].
  destruct (Z.ltb_spec (len l) 0); [ lia | ].
  now rewrite !andb_false_r.
Qed.

Lemma map_seq_from {B : Type} (len0 : nat) :
  forall (start : nat) (f g : nat -> B),
    (forall k, f (start + k)%nat = g k) ->
    map f (seq start len0) = map g (seq 0 len0).
Proof.
  induction len0 as [ | len0 IH ]; intros start f g H; [ reflexivity | ].
  cbn [seq map]. f_equal.
  - rewrite <- (H 0%nat). f_equal. lia.
  - rewrite <- (seq_shift len0 0), map_map. apply IH.
    intros k. rewrite <- (H (S k)). f_equal. lia.
Qed.

Lemma range_split (a b c : Z) :
  a <= b < c -> range a c = range a b ++ b :: range (b + 1) c.
Proof.
  intros H. unfold range.
  replace (Z.to_nat (c - a)) with (Z.to_nat (b - a) + S (Z.to_nat (c - (b + 1))))%nat
    by lia.
  rewrite seq_app, map_app. f_equal. cbn [seq map Nat.add]. f_equal; [ lia | ].
  apply map_seq_from. intros k. lia.
Qed.

Lemma indexed_pairs (cs : list Z) :
  forall ds : list Z,
    List.length ds = List.length cs ->
    rmap (fun k =>
            let* c := getitem cs k in
            let* d := getitem ds k in
            Ok (mkComponent (Some c) (Some d)))
         (range 0 (len cs))
    = Ok (map candidate_of (combine cs ds)).
Proof.
  induction cs as [ | x cs IH ] using rev_ind; intros ds Hlen.
  - reflexivity.
  - destruct ds as [ | y ds ] using rev_ind;
      [ rewrite length_app in Hlen; cbn in Hlen; lia | ].
    clear IHds. rewrite !length_app in Hlen. cbn [List.length] in Hlen.
    assert (Hl : List.length ds = List.length cs) by lia.
    rewrite combine_snoc by (symmetry; exact Hl).
    rewrite map_app. cbn [map].
    replace (len (cs ++ [x])) with (len cs + 1)
      by (unfold len; rewrite length_app; cbn; lia).
    rewrite range_snoc by apply len_nonneg.
    apply rmap_snoc.
    + rewrite <- (IH ds Hl). apply rmap_ext. intros k Hk. apply In_range in Hk.
      rewrite !getitem_app_l; [ reflexivity | unfold len in *; lia | lia ].
    + rewrite getitem_app_r. cbn [rbind].
      replace (len cs) with (len ds) by (unfold len; lia).
      rewrite getitem_app_r. reflexivity.
Qed.

Lemma base_components_complete (s : Solution) :
  List.length (directions s) = List.length (containers s) ->
  len (containers s) = n (problem s) ->
  components s = Ok (map candidate_of (combine (containers s) (directions s))).
Proof.
  intros Hlen Hfull. unfold components. rewrite <- Hfull.
  now apply indexed_pairs.
Qed.

Lemma base_components_partial (s : Solution) :
  len (containers s) < n (problem s) ->
  List.length (directions s) = List.length (containers s) ->
  components s = Raise IndexError.
Proof.
  intros Hlt Hlen. unfold components.
  rewrite (range_split 0 (len (containers s)) (n (problem s)))
    by (pose proof (len_nonneg (containers s)); lia).
  apply rmap_raises.
  - intros k Hk. apply In_range in Hk.
    destruct (getitem_inside (containers s) k Hk) as (c & -> & _).
    destruct (getitem_inside (directions s) k) as (d & -> & _);
      [ unfold len in *; lia | ].
    cbn [rbind]. eauto.
  - now rewrite getitem_at_len.
Qed.

Lemma base_replay (q : list (Z * Z)) :
  forall t : Solution,
    reachable t ->
    NoDup (containers t ++ map fst q) ->
    (forall vd, In vd q -> 0 <= fst vd < n (problem t) /\ is_bit (snd vd) = true) ->
    exists t',
      add_all (map candidate_of q) t = (t', Ok tt)
      /\ reachable t'
      /\ containers t' = containers t ++ map fst q
      /\ directions t' = directions t ++ map snd q
      /\ problem t' = problem t.
Proof.
  induction q as [ | [v d] q IH ]; intros t Hr Hnd Hq.
  - exists t. cbn. rewrite !app_nil_r. repeat split; try reflexivity. exact Hr.
  - pose proof (reachable_is_wf t Hr) as Hwf.
    destruct (reachable_covers t Hr) as [Hcov _].
    destruct (Hq (v, d) (or_introl eq_refl)) as (Hv & Hd). cbn [fst snd] in Hv, Hd.
    assert (Hin : In v (not_picked t)).
    { assert (H : In v (containers t ++ not_picked t)).
      { eapply Permutation_in; [ symmetry; exact Hcov | now apply In_range ]. }
      apply in_app_or in H as [H | H]; [ | exact H ].
      exfalso. apply (NoDup_app_apart _ _ v Hnd H). now left. }
    destruct (base_add_candidate t v d Hwf Hin Hd) as (cost & Eadd).
    set (t1 := mkSolution (problem t) (containers t ++ [v]) (directions t ++ [d])
                          (set_add v (picked t)) (set_discard v (not_picked t))
                          (obj_value t + cost)) in *.
    assert (Hr1 : reachable t1).
    { eapply reach_add; [ exact Hr | | exact Eadd ].
      apply In_add_moves. exists v, d. repeat split; assumption. }
    destruct (IH t1 Hr1) as (t' & Erun & Hr' & Hc' & Hd' & Hp').
    + cbn [containers t1]. rewrite <- app_assoc. exact Hnd.
    + intros vd Hvd. apply Hq. now right.
    + exists t'. cbn [map add_all]. unfold bind.
      change (candidate_of (v, d)) with (mkComponent (Some v) (Some d)).
      rewrite Eadd. split; [ exact Erun | ]. split; [ exact Hr' | ].
      cbn [containers directions problem t1] in Hc', Hd', Hp'.
      rewrite <- !app_assoc in Hc', Hd'.
      repeat split; assumption.
Qed.

Lemma map_fst_combine {A B : Type} (l : list A) (l' : list B) :
  List.length l = List.length l' -> map fst (combine l l') = l.
Proof.
  revert l'. induction l as [ | x l IH ]; intros [ | y l' ] H;
    try discriminate; [ reflexivity | ].
  cbn. f_equal. apply IH. now injection H.
Qed.

Lemma map_snd_combine {A B : Type} (l : list A) (l' : list B) :
  List.length l = List.length l' -> map snd (combine l l') = l'.
Proof.
  revert l'. induction l as [ | x l IH ]; intros [ | y l' ] H;
    try discriminate; [ reflexivity | ].
  cbn. f_equal. apply IH. now injection H.
Qed.

(** X21.  Orientation variant, on a reachable state: [components]
    yields the placed containers with their orientations, in order, when
    the state is feasible, and raises [IndexError] when it is not (it runs
    over [range(problem.n)], past the end of a shorter sequence).  On a
    feasible state, replaying the components with [add] from
    [empty_solution] of the same problem returns normally at every step
    and rebuilds the sequence and the orientations. *)
Theorem base_components_spec (s : Solution) :
  reachable s ->
  (is_feasible s = false -> components s = Raise IndexError)
  /\ (is_feasible s = true ->
      components s = Ok (map candidate_of (combine (containers s) (directions s)))
      /\ exists s',
           add_all (map candidate_of (combine (containers s) (directions s)))
                   (empty_solution (problem s)) = (s', Ok tt)
           /\ reachable s'
           /\ containers s' = containers s
           /\ directions s' = directions s
           /\ is_feasible s' = true).
Proof.
  intros Hr. pose proof (reachable_is_wf s Hr) as Hwf.
  pose proof (proj1 (wf_solution_spec s) Hwf)
    as (Hp & Hlen & Hcs & Hds & _ & _ & _ & _ & Hsum).
  pose proof (base_feasible_len s Hr) as Hfl.
  split.
  - intros Hf. apply base_components_partial; [ | exact Hlen ].
    destruct (Z.eq_dec (len (containers s)) (n (problem s))) as [E | E].
    + apply Hfl in E. congruence.
    + pose proof (len_nonneg (not_picked s)). lia.
  - intros Hf. apply Hfl in Hf as Hfull.
    split; [ now apply base_components_complete | ].
    destruct (reachable_covers s Hr) as [Hcov _].
    assert (Hnd : NoDup (containers s)).
    { apply (NoDup_app_remove_r _ (not_picked s)).
      apply (Permutation_NoDup (Permutation_sym Hcov)). apply NoDup_range. }
    destruct (base_replay (combine (containers s) (directions s))
                (empty_solution (problem s)))
      as (s' & Erun & Hr' & Hc' & Hd' & Hp').
    + apply reach_empty. exact Hp.
    + cbn [containers empty_solution app].
      rewrite map_fst_combine by (symmetry; exact Hlen). exact Hnd.
    + intros [v d] Hvd. cbn [fst snd problem empty_solution].
      split; [ apply Hcs; eapply in_combine_l; exact Hvd
             | apply Hds; eapply in_combine_r; exact Hvd ].
    + exists s'. split; [ exact Erun | ]. split; [ exact Hr' | ].
      cbn [containers directions problem empty_solution app] in Hc', Hd', Hp'.
      rewrite map_fst_combine in Hc' by (symmetry; exact Hlen).
      rewrite map_snd_combine in Hd' by (symmetry; exact Hlen).
      split; [ exact Hc' | ]. split; [ exact Hd' | ].
      apply (base_feasible_len s' Hr'). now rewrite Hc', Hp'.
Qed.

Lemma base_components_spec_witness :
  components line3_tour
  = Ok (map candidate_of (combine (containers line3_tour) (directions line3_tour)))
  /\ exists s',
       add_all (map candidate_of (combine (containers line3_tour)
                                          (directions line3_tour)))
               (empty_solution (problem line3_tour)) = (s', Ok tt)
       /\ reachable s'
       /\ containers s' = containers line3_tour
       /\ directions s' = directions line3_tour
       /\ is_feasible s' = true.
Proof.
  apply (base_components_spec line3_tour line3_tour_reachable).
  reflexivity.
Defined.

End BaseComponents.

(** ** Reading an instance of the orientation variant *)
Section Textio.
Import Base BaseSpec TextioSpec.

Lemma rfold_snoc {A B : Type} (f : A -> B -> result A) (l : list B) (x : B) :
  forall a, rfold f (l ++ [x]) a = (let* a' := rfold f l a in f a' x).
Proof.
  induction l as [ | y l IH ]; intros a; cbn [app rfold rbind].
  - destruct (f a x); reflexivity.
  - destruct (f a y); cbn [rbind]; [ apply IH | reflexivity ].
Qed.

(** A loop over [range(a, a + k)] whose body takes the state [E (m - 1)]
    to the state [E m] at every step [m]. *)
Lemma rfold_range_chain {A : Type} (f : A -> Z -> result A) (E : Z -> A)
  (a : Z) (k : nat) :
  (forall m, a <= m < a + Z.of_nat k -> f (E (m - 1)) m = Ok (E m)) ->
  rfold f (range a (a + Z.of_nat k)) (E (a - 1)) = Ok (E (a + Z.of_nat k - 1)).
Proof.
  induction k as [ | k IH ]; intros H.
  - unfold range. replace (Z.to_nat (a + Z.of_nat 0 - a)) with 0%nat by lia.
    cbn [seq map rfold]. do 2 f_equal. lia.
  - replace (a + Z.of_nat (S k)) with (a + Z.of_nat k + 1) by lia.
    rewrite range_snoc by lia. rewrite rfold_snoc, IH by (intros m Hm; apply H; lia).
    cbn [rbind]. rewrite H by lia. do 2 f_equal. lia.
Qed.

Lemma rfold_inv {A B : Type} (P : A -> Prop) (f : A -> B -> result A) (l : list B) :
  (forall a x a', P a -> f a x = Ok a' -> P a') ->
  forall a r, P a -> rfold f l a = Ok r -> P r.
Proof.
  intros Hf. induction l as [ | x l IH ]; intros a r Ha E; cbn [rfold] in E.
  - now injection E as <-.
  - destruct (f a x) as [a' | ] eqn:Ex; [ | discriminate ]. cbn [rbind] in E.
    eapply IH; [ | exact E ]. eapply Hf; eassumption.
Qed.

Lemma nth_error_range (a b : Z) (q : nat) :
  nth_error (range a b) q
  = if (q <? Z.to_nat (b - a))%nat then Some (a + Z.of_nat q) else None.
Proof.
  unfold range. rewrite nth_error_map, nth_error_seq.
  destruct (q <? Z.to_nat (b - a))%nat; reflexivity.
Qed.

Lemma update_block (f f' : Z -> list Z) (n b : Z) (row : list Z) :
  0 <= b < n -> f' b = row ->
  (forall a, 0 <= a < n -> a <> b -> f' a = f a) ->
  update (map f (range 0 n)) (Z.to_nat b) row = map f' (range 0 n).
Proof.
  intros Hb Hrow Hsame. apply nth_error_ext. intros q.
  destruct (Nat.eq_dec q (Z.to_nat b)) as [-> | Hq].
  - rewrite nth_error_update_same
      by (rewrite length_map; fold (len (range 0 n)); pose proof (len_range 0 n);
          unfold len in *; lia).
    rewrite nth_error_map, nth_error_range.
    destruct (Nat.ltb_spec (Z.to_nat b) (Z.to_nat (n - 0))); [ | lia ].
    cbn [option_map]. rewrite <- Hrow. do 2 f_equal. lia.
  - rewrite nth_error_update_other by congruence.
    rewrite !nth_error_map, nth_error_range.
    destruct (Nat.ltb_spec q (Z.to_nat (n - 0))); [ | reflexivity ].
    cbn [option_map]. f_equal. symmetry. apply Hsame; lia.
Qed.

Lemma get2_0 {A : Type} (a b : A) : getitem [a; b] 0 = Ok a.
Proof. reflexivity. Qed.
Lemma get2_1 {A : Type} (a b : A) : getitem [a; b] 1 = Ok b.
Proof. reflexivity. Qed.
Lemma set2_0 {A : Type} (a b x : A) : setitem [a; b] 0 x = Ok [x; b].
Proof. reflexivity. Qed.
Lemma set2_1 {A : Type} (a b x : A) : setitem [a; b] 1 x = Ok [a; x].
Proof. reflexivity. Qed.
Lemma get4_0 {A : Type} (a b c d : A) : getitem [a; b; c; d] 0 = Ok a.
Proof. reflexivity. Qed.
Lemma get4_1 {A : Type} (a b c d : A) : getitem [a; b; c; d] 1 = Ok b.
Proof. reflexivity. Qed.
Lemma get4_2 {A : Type} (a b c d : A) : getitem [a; b; c; d] 2 = Ok c.
Proof. reflexivity. Qed.
Lemma get4_3 {A : Type} (a b c d : A) : getitem [a; b; c; d] 3 = Ok d.
Proof. reflexivity. Qed.
Lemma set4_0 {A : Type} (a b c d x : A) : setitem [a; b; c; d] 0 x = Ok [x; b; c; d].
Proof. reflexivity. Qed.
Lemma set4_1 {A : Type} (a b c d x : A) : setitem [a; b; c; d] 1 x = Ok [a; x; c; d].
Proof. reflexivity. Qed.
Lemma set4_2 {A : Type} (a b c d x : A) : setitem [a; b; c; d] 2 x = Ok [a; b; x; d].
Proof. reflexivity. Qed.
Lemma set4_3 {A : Type} (a b c d x : A) : setitem [a; b; c; d] 3 x = Ok [a; b; c; x].
Proof. reflexivity. Qed.

Lemma assign_row_fits (n : Z) (elements : list Z) :
  len elements = n -> assign_row n elements = Ok elements.
Proof. intros H. unfold assign_row. now rewrite H, Z.eqb_refl. Qed.

Lemma round_float64_small (z : Z) :
  Z.abs z <= 2 ^ 53 -> round_float64 z = Ok z.
Proof.
  intros H. unfold round_float64. cbv zeta.
  destruct (Z.leb_spec (Z.abs z) (2 ^ 53)); [ reflexivity | lia ].
Qed.

Lemma cells_small (elements : list Z) :
  (forall x, In x elements -> Z.abs x <= 2 ^ 53) ->
  rmap round_float64 elements = Ok elements.
Proof.
  induction elements as [ | x l IH ]; intros H; [ reflexivity | ].
  cbn [rmap]. rewrite round_float64_small by (apply H; now left).
  cbn [rbind]. rewrite IH by (intros y Hy; apply H; now right). reflexivity.
Qed.

Lemma row_upto_same (n : Z) (lines : list (list Z)) (m k : Z) :
  k <> m - 1 -> row_upto n lines m k = row_upto n lines (m - 1) k.
Proof.
  intros H. unfold row_upto.
  destruct (Z.ltb_spec k m), (Z.ltb_spec k (m - 1)); try reflexivity; lia.
Qed.

Lemma row_upto_new (n : Z) (lines : list (list Z)) (m : Z) :
  row_upto n lines m (m - 1) = line_at lines (m - 1).
Proof. unfold row_upto. destruct (Z.ltb_spec (m - 1) m); [ reflexivity | lia ]. Qed.

Lemma block_upto_same (n : Z) (lines : list (list Z)) (m first : Z) :
  (forall a, 0 <= a < n -> first + a <> m - 1) ->
  block_upto n lines m first = block_upto n lines (m - 1) first.
Proof.
  intros H. unfold block_upto. apply map_ext_in. intros a Ha.
  apply In_range in Ha. apply row_upto_same. now apply H.
Qed.

(** The conversion at the cells of a [float64] array: to the nearest
    binary64 number, ties to even, and [OverflowError] beyond the range. *)
Lemma round_float64_examples :
  round_float64 (2 ^ 53 + 1) = Ok (2 ^ 53)
  /\ round_float64 (2 ^ 53 + 3) = Ok (2 ^ 53 + 4)
  /\ round_float64 (- (2 ^ 53 + 1)) = Ok (- 2 ^ 53)
  /\ round_float64 (2 ^ 1024 - 1) = Raise OverflowError.
Proof. repeat split; vm_compute; reflexivity. Qed.

Lemma store_block_row (n : Z) (lines : list (list Z)) (m first : Z) :
  0 <= m - 1 - first < n -> len (line_at lines (m - 1)) = n ->
  (forall x, In x (line_at lines (m - 1)) -> Z.abs x <= 2 ^ 53) ->
  store_row2 n (block_upto n lines (m - 1) first) (m - 1 - first)
             (line_at lines (m - 1))
  = Ok (block_upto n lines m first).
Proof.
  intros Hb Hlen Hsmall. unfold store_row2.
  assert (Hl : len (block_upto n lines (m - 1) first) = n).
  { unfold block_upto, len. rewrite length_map. fold (len (range 0 n)).
    rewrite len_range. lia. }
  destruct (getitem_inside (block_upto n lines (m - 1) first) (m - 1 - first))
    as (old & -> & _); [ lia | ].
  cbn [rbind]. rewrite (cells_small _ Hsmall). cbn [rbind].
  rewrite (assign_row_fits n _ Hlen). cbn [rbind].
  unfold setitem. rewrite norm_index_inside by lia. f_equal.
  unfold block_upto. apply update_block; [ exact Hb | | ].
  - replace (first + (m - 1 - first)) with (m - 1) by lia. apply row_upto_new.
  - intros a Ha Hne. apply row_upto_same. lia.
Qed.

Lemma problem_eq (n : Z) (d d' p p' : list (list Z)) (c c' : list (list (list Z))) :
  d = d' -> p = p' -> c = c' ->
  Ok (mkProblem n d p c) = Ok (mkProblem n d' p' c').
Proof. now intros -> -> ->. Qed.

Lemma pair2_eq {A : Type} (a a' b b' : A) : a = a' -> b = b' -> [a; b] = [a'; b'].
Proof. now intros -> ->. Qed.

Lemma quad_eq {A : Type} (a a' b b' c c' d d' : A) :
  a = a' -> b = b' -> c = c' -> d = d' -> [a; b; c; d] = [a'; b'; c'; d'].
Proof. now intros -> -> -> ->. Qed.

Ltac same_cell n lines m :=
  first [ reflexivity
        | symmetry; apply row_upto_same; lia
        | symmetry; apply block_upto_same; intros; lia
        | rewrite <- (row_upto_new n lines m); f_equal; lia ].

Lemma from_textio_step (n : Z) (lines : list (list Z)) (m : Z) :
  1 <= m < 5 + 4 * n -> len (line_at lines (m - 1)) = n ->
  (forall x, In x (line_at lines (m - 1)) -> Z.abs x <= 2 ^ 53) ->
  (fun p idx =>
     let elements := nth (Z.to_nat (idx - 1)) lines [] in
     if idx =? 1 then
       let* t := store_row2 n (depot_to_container p) 0 elements in
       Ok (mkProblem n t (container_to_plant p) (container_to_container p))
     else if idx =? 2 then
       let* t := store_row2 n (depot_to_container p) 1 elements in
       Ok (mkProblem n t (container_to_plant p) (container_to_container p))
     else if idx =? 3 then
       let* t := store_row2 n (container_to_plant p) 0 elements in
       Ok (mkProblem n (depot_to_container p) t (container_to_container p))
     else if idx =? 4 then
       let* t := store_row2 n (container_to_plant p) 1 elements in
       Ok (mkProblem n (depot_to_container p) t (container_to_container p))
     else if idx <? n + 5 then
       let* t := store_row3 n (container_to_container p) 0 (idx - 5) elements in
       Ok (mkProblem n (depot_to_container p) (container_to_plant p) t)
     else if idx <? 2 * n + 5 then
       let* t := store_row3 n (container_to_container p) 1 (idx - n - 5) elements in
       Ok (mkProblem n (depot_to_container p) (container_to_plant p) t)
     else if idx <? 3 * n + 5 then
       let* t := store_row3 n (container_to_container p) 3 (idx - 2 * n - 5) elements in
       Ok (mkProblem n (depot_to_container p) (container_to_plant p) t)
     else
       let* t := store_row3 n (container_to_container p) 2 (idx - 3 * n - 5) elements in
       Ok (mkProblem n (depot_to_container p) (container_to_plant p) t))
    (filled n lines (m - 1)) m
  = Ok (filled n lines m).
Proof.
  intros Hm Hlen Hsmall. cbv beta zeta.
  change (nth (Z.to_nat (m - 1)) lines []) with (line_at lines (m - 1)).
  set (target := filled n lines m).
  unfold filled.
  cbn [depot_to_container container_to_plant container_to_container].
  subst target.
  pose proof (assign_row_fits n _ Hlen) as Hrow.
  pose proof (cells_small _ Hsmall) as Hcells.
  destruct (Z.eqb_spec m 1) as [E1 | N1].
  { unfold store_row2. rewrite get2_0. cbn [rbind]. rewrite Hcells. cbn [rbind].
    rewrite Hrow. cbn [rbind].
    rewrite set2_0. cbn [rbind]. unfold filled.
    apply problem_eq; [ apply pair2_eq | apply pair2_eq | apply quad_eq ];
      same_cell n lines m. }
  destruct (Z.eqb_spec m 2) as [E2 | N2].
  { unfold store_row2. rewrite get2_1. cbn [rbind]. rewrite Hcells. cbn [rbind].
    rewrite Hrow. cbn [rbind].
    rewrite set2_1. cbn [rbind]. unfold filled.
    apply problem_eq; [ apply pair2_eq | apply pair2_eq | apply quad_eq ];
      same_cell n lines m. }
  destruct (Z.eqb_spec m 3) as [E3 | N3].
  { unfold store_row2. rewrite get2_0. cbn [rbind]. rewrite Hcells. cbn [rbind].
    rewrite Hrow. cbn [rbind].
    rewrite set2_0. cbn [rbind]. unfold filled.
    apply problem_eq; [ apply pair2_eq | apply pair2_eq | apply quad_eq ];
      same_cell n lines m. }
  destruct (Z.eqb_spec m 4) as [E4 | N4].
  { unfold store_row2. rewrite get2_1. cbn [rbind]. rewrite Hcells. cbn [rbind].
    rewrite Hrow. cbn [rbind].
    rewrite set2_1. cbn [rbind]. unfold filled.
    apply problem_eq; [ apply pair2_eq | apply pair2_eq | apply quad_eq ];
      same_cell n lines m. }
  destruct (Z.ltb_spec m (n + 5)) as [L1 | G1].
  { unfold store_row3. rewrite get4_0. cbn [rbind].
    replace (m - 5) with (m - 1 - 4) by lia.
    rewrite store_block_row by (try exact Hlen; try exact Hsmall; lia). cbn [rbind].
    rewrite set4_0. unfold filled.
    apply problem_eq; [ apply pair2_eq | apply pair2_eq | apply quad_eq ];
      same_cell n lines m. }
  destruct (Z.ltb_spec m (2 * n + 5)) as [L2 | G2].
  { unfold store_row3. rewrite get4_1. cbn [rbind].
    replace (m - n - 5) with (m - 1 - (4 + n)) by lia.
    rewrite store_block_row by (try exact Hlen; try exact Hsmall; lia). cbn [rbind].
    rewrite set4_1. unfold filled.
    apply problem_eq; [ apply pair2_eq | apply pair2_eq | apply quad_eq ];
      same_cell n lines m. }
  destruct (Z.ltb_spec m (3 * n + 5)) as [L3 | G3].
  { unfold store_row3. rewrite get4_3. cbn [rbind].
    replace (m - 2 * n - 5) with (m - 1 - (4 + 2 * n)) by lia.
    rewrite store_block_row by (try exact Hlen; try exact Hsmall; lia). cbn [rbind].
    rewrite set4_3. unfold filled.
    apply problem_eq; [ apply pair2_eq | apply pair2_eq | apply quad_eq ];
      same_cell n lines m. }
  unfold store_row3. rewrite get4_2. cbn [rbind].
  replace (m - 3 * n - 5) with (m - 1 - (4 + 3 * n)) by lia.
  rewrite store_block_row by (try exact Hlen; try exact Hsmall; lia). cbn [rbind].
  rewrite set4_2. unfold filled.
  apply problem_eq; [ apply pair2_eq | apply pair2_eq | apply quad_eq ];
    same_cell n lines m.
Qed.


Lemma blank_row_block (n : Z) (lines : list (list Z)) (first : Z) :
  0 <= first -> block_upto n lines 0 first = blank2 n n.
Proof.
  intros Hf. unfold block_upto, blank2.
  rewrite (map_ext_in _ (fun _ => repeat 0 (Z.to_nat n))).
  - rewrite map_const. f_equal. fold (len (range 0 n)).
    pose proof (len_range 0 n). unfold len in *. lia.
  - intros a Ha. apply In_range in Ha. unfold row_upto.
    destruct (Z.ltb_spec (first + a) 0); [ lia | reflexivity ].
Qed.

Lemma filled_0 (n : Z) (lines : list (list Z)) :
  0 <= n ->
  filled n lines 0 = mkProblem n (blank2 2 n) (blank2 2 n) (blank3 4 n n).
Proof.
  intros Hn. unfold filled. rewrite !blank_row_block by lia. reflexivity.
Qed.

Lemma filled_all (n : Z) (lines : list (list Z)) :
  0 <= n -> filled n lines (4 + 4 * n) = laid_out n lines.
Proof.
  intros Hn. unfold filled, laid_out.
  assert (Hrow : forall k, k < 4 + 4 * n ->
             row_upto n lines (4 + 4 * n) k = line_at lines k).
  { intros k Hk. unfold row_upto.
    destruct (Z.ltb_spec k (4 + 4 * n)); [ reflexivity | lia ]. }
  assert (Hblock : forall first, first + n <= 4 + 4 * n ->
             block_upto n lines (4 + 4 * n) first = block n lines first).
  { intros first Hf. unfold block_upto, block. apply map_ext_in.
    intros a Ha. apply In_range in Ha. apply Hrow. lia. }
  rewrite !Hrow by lia. rewrite !Hblock by lia. reflexivity.
Qed.

Lemma from_textio_laid_out (n : Z) (lines : list (list Z)) :
  0 <= n ->
  (forall k, 0 <= k < 4 + 4 * n -> len (line_at lines k) = n) ->
  (forall k x, 0 <= k < 4 + 4 * n -> In x (line_at lines k) ->
               Z.abs x <= 2 ^ 53) ->
  from_textio n lines = Ok (laid_out n lines).
Proof.
  intros Hn Hlines Hsmall. unfold from_textio.
  destruct (Z.ltb_spec n 0); [ lia | ].
  rewrite <- (filled_0 n lines Hn), <- (filled_all n lines Hn).
  match goal with
  | |- rfold ?f _ _ = _ =>
      pose proof (rfold_range_chain f (filled n lines) 1 (Z.to_nat (4 + 4 * n))) as Hchain
  end.
  replace (1 + Z.of_nat (Z.to_nat (4 + 4 * n))) with (5 + 4 * n) in Hchain by lia.
  replace (5 + 4 * n - 1) with (4 + 4 * n) in Hchain by lia.
  change (1 - 1) with 0 in Hchain.
  apply Hchain.
  intros m Hm. apply from_textio_step;
    [ lia | apply Hlines; lia | intros x Hx; apply (Hsmall (m - 1)); [ lia | exact Hx ] ].
Qed.

Lemma shape2_intro {A : Type} (r c : Z) (t : list (list A)) :
  len t = r -> (forall row, In row t -> len row = c) -> shape2 r c t = true.
Proof.
  intros Hl Hrows. unfold shape2. rewrite Hl, Z.eqb_refl. cbn [andb].
  apply forallb_forall. intros row Hrow. apply Z.eqb_eq. now apply Hrows.
Qed.

Lemma assign_row_len (n : Z) (elements row : list Z) :
  0 <= n -> assign_row n elements = Ok row -> len row = n.
Proof.
  intros Hn. unfold assign_row.
  destruct (Z.eqb_spec (len elements) n) as [E | _]; [ now intros [= <-] | ].
  destruct elements as [ | x [ | y l ] ]; try discriminate.
  intros [= <-]. unfold len. rewrite repeat_length. lia.
Qed.

Lemma store_row2_shape (n r : Z) (t t' : list (list Z)) (a : Z) (elements : list Z) :
  0 <= n -> shape2 r n t = true -> store_row2 n t a elements = Ok t' ->
  shape2 r n t' = true.
Proof.
  intros Hn Hsh. unfold store_row2.
  destruct (getitem t a) as [old | ]; [ | discriminate ]. cbn [rbind].
  destruct (rmap round_float64 elements) as [cells | ]; [ | discriminate ].
  cbn [rbind].
  destruct (assign_row n cells) as [row | ] eqn:Er; [ | discriminate ].
  cbn [rbind]. intros Es.
  destruct (shape2_spec r n t Hsh) as (Hl & Hrows).
  apply shape2_intro.
  - unfold len in *. now rewrite (setitem_length _ _ _ _ Es).
  - intros y Hy. destruct (setitem_In _ _ _ _ _ Es Hy) as [-> | Hy'].
    + now apply (assign_row_len n cells).
    + now apply Hrows.
Qed.

Lemma store_row3_shape (n k : Z) (t t' : list (list (list Z))) (a b : Z)
  (elements : list Z) :
  0 <= n -> shape3 k n n t = true -> store_row3 n t a b elements = Ok t' ->
  shape3 k n n t' = true.
Proof.
  intros Hn Hsh. unfold store_row3.
  destruct (getitem t a) as [plane | ] eqn:Eg; [ | discriminate ]. cbn [rbind].
  destruct (store_row2 n plane b elements) as [plane' | ] eqn:Ep; [ | discriminate ].
  cbn [rbind]. intros Es.
  unfold shape3 in *. apply andb_prop in Hsh as (Hl & Hall).
  rewrite forallb_forall in Hall.
  apply andb_true_intro. split.
  - unfold len in *. now rewrite (setitem_length _ _ _ _ Es).
  - apply forallb_forall. intros y Hy.
    destruct (setitem_In _ _ _ _ _ Es Hy) as [-> | Hy']; [ | now apply Hall ].
    eapply store_row2_shape; [ exact Hn | | exact Ep ].
    apply Hall. eapply getitem_In. exact Eg.
Qed.

Lemma from_textio_wf (n : Z) (lines : list (list Z)) (p : Problem) :
  from_textio n lines = Ok p -> Base.n p = n /\ wf_problem p = true.
Proof.
  unfold from_textio. destruct (Z.ltb_spec n 0) as [ | Hn ]; [ discriminate | ].
  apply (rfold_inv (fun p => Base.n p = n /\ wf_problem p = true)).
  - intros q idx q' (Hq & Hwf) Hstep.
    destruct (wf_problem_spec q Hwf) as (_ & Hd & Hp & Hc). rewrite Hq in *.
    assert (Hmk : forall d pl c,
               shape2 2 n d = true -> shape2 2 n pl = true -> shape3 4 n n c = true ->
               Base.n (mkProblem n d pl c) = n
               /\ wf_problem (mkProblem n d pl c) = true).
    { intros d pl c H1 H2 H3. split; [ reflexivity | ].
      unfold wf_problem. cbn [Base.n depot_to_container container_to_plant
                                container_to_container].
      rewrite H1, H2, H3. now destruct (Z.leb_spec 0 n); [ | lia ]. }
    cbv beta zeta in Hstep.
    repeat match type of Hstep with
           | (if ?b then _ else _) = _ => destruct b
           end;
      match type of Hstep with
      | (let* t := ?c in _) = _ =>
          destruct c as [t | ] eqn:Et; [ | discriminate ];
          cbn [rbind] in Hstep; injection Hstep as <-
      end;
      apply Hmk; try assumption;
      solve [ eapply store_row2_shape; [ exact Hn | | exact Et ]; assumption
            | eapply store_row3_shape; [ exact Hn | | exact Et ]; assumption ].
  - split; [ reflexivity | ].
    unfold wf_problem. cbn [Base.n depot_to_container container_to_plant
                              container_to_container].
    assert (Hb : forall r, 0 <= r -> shape2 r n (blank2 r n) = true).
    { intros r Hr. apply shape2_intro.
      - unfold blank2, len. rewrite repeat_length. lia.
      - intros row Hrow. apply repeat_spec in Hrow. subst row.
        unfold len. rewrite repeat_length. lia. }
    rewrite (Hb 2) by lia. unfold shape3.
    replace (len (blank3 4 n n) =? 4) with true by reflexivity.
    destruct (Z.leb_spec 0 n); [ | lia ]. cbn [andb].
    apply forallb_forall. intros pl Hpl. apply repeat_spec in Hpl. subst pl.
    apply Hb. lia.
Qed.

(** X22.  Orientation variant, [Problem.from_textio] on the numbers
    read ([n], then the integers of each following line).  Whenever it
    returns, the instance has [n] containers and tables of the shapes
    [2 x n], [2 x n] and [4 x n x n]; a negative [n] gives [ValueError].
    When each of the [4 + 4 n] lines holds [n] integers and no integer
    is beyond [2 ^ 53] in absolute value (the float64 cells then hold
    them as they are), it returns the instance laid out as follows: lines
    1 and 2 are the entry costs, lines 3 and 4 the exit costs, and the
    four blocks of [n] lines that follow are the transition tables 0, 1, 3
    and 2, in that order. *)
Theorem base_from_textio_spec (n : Z) (lines : list (list Z)) :
  (forall p, from_textio n lines = Ok p -> Base.n p = n /\ wf_problem p = true)
  /\ (n < 0 -> from_textio n lines = Raise ValueError)
  /\ (0 <= n ->
      (forall k, 0 <= k < 4 + 4 * n -> len (line_at lines k) = n) ->
      (forall k x, 0 <= k < 4 + 4 * n -> In x (line_at lines k) ->
                   Z.abs x <= 2 ^ 53) ->
      from_textio n lines = Ok (laid_out n lines)).
Proof.
  split; [ apply from_textio_wf | ]. split.
  - intros Hn. unfold from_textio. destruct (Z.ltb_spec n 0); [ reflexivity | lia ].
  - apply from_textio_laid_out.
Qed.

Lemma base_from_textio_spec_witness :
  from_textio 2 two_lines
  = Ok (mkProblem 2 [[1; 2]; [3; 4]] [[5; 6]; [7; 8]]
          [[[0; 10]; [11; 0]]; [[0; 20]; [21; 0]];
           [[0; 40]; [41; 0]]; [[0; 30]; [31; 0]]]).
Proof.
  destruct (base_from_textio_spec 2 two_lines) as (_ & _ & H).
  assert (Hc : forall k, 0 <= k < 4 + 4 * 2 ->
             k = 0 \/ k = 1 \/ k = 2 \/ k = 3 \/ k = 4 \/ k = 5 \/ k = 6
             \/ k = 7 \/ k = 8 \/ k = 9 \/ k = 10 \/ k = 11) by (intros; lia).
  rewrite H; [ reflexivity | lia | | ].
  - intros k Hk. specialize (Hc k Hk).
    repeat (destruct Hc as [-> | Hc]; [ reflexivity | ]). now subst k.
  - intros k x Hk Hx. specialize (Hc k Hk).
    repeat (destruct Hc as [-> | Hc];
            [ cbn in Hx; repeat (destruct Hx as [<- | Hx]; [ cbn; lia | ]);
              destruct Hx | ]).
    subst k. cbn in Hx. repeat (destruct Hx as [<- | Hx]; [ cbn; lia | ]).
    destruct Hx.
Defined.

End Textio.

(** ** The output of the orientation variant *)
Section Strings.
Open Scope string_scope.

Lemma append_assoc (a b c : string) : (a ++ b) ++ c = a ++ (b ++ c).
Proof. induction a as [ | x a IH ]; cbn; [ reflexivity | now rewrite IH ]. Qed.

Lemma append_nil_r (a : string) : a ++ EmptyString = a.
Proof. induction a as [ | x a IH ]; cbn; [ reflexivity | now rewrite IH ]. Qed.

Lemma rstrip_cons (c : ascii) (s : string) :
  is_space c = false -> rstrip s = s -> rstrip (String c s) = String c s.
Proof.
  intros Hc Hs. cbn [rstrip]. rewrite Hs, Hc. now destruct s.
Qed.

Lemma rstrip_app_kept (s t : string) :
  rstrip t <> EmptyString -> rstrip (s ++ t) = s ++ rstrip t.
Proof.
  intros Ht. induction s as [ | c s IH ]; [ reflexivity | ].
  cbn [append rstrip]. rewrite IH.
  destruct (s ++ rstrip t) as [ | c' r ] eqn:E; [ | reflexivity ].
  destruct s; [ cbn in E; contradiction | discriminate ].
Qed.

Lemma rstrip_app_blank (s ws : string) :
  rstrip ws = EmptyString -> rstrip (s ++ ws) = rstrip s.
Proof.
  intros Hws. induction s as [ | c s IH ]; [ exact Hws | ].
  cbn [append rstrip]. now rewrite IH.
Qed.

Lemma rstrip_digits (d : Decimal.uint) :
  rstrip (NilEmpty.string_of_uint d) = NilEmpty.string_of_uint d.
Proof.
  induction d; cbn [NilEmpty.string_of_uint];
    [ reflexivity | apply rstrip_cons; [ reflexivity | assumption ] .. ].
Qed.

(** [str] of an integer is not empty and does not end in white space. *)
Lemma rstrip_py_str (z : Z) :
  rstrip (py_str (Some z)) = py_str (Some z) /\ py_str (Some z) <> EmptyString.
Proof.
  assert (Hu : forall d, rstrip (NilZero.string_of_uint d) = NilZero.string_of_uint d
                         /\ NilZero.string_of_uint d <> EmptyString).
  { intros d. split.
    - destruct d; try reflexivity; apply (rstrip_digits (_ d)).
    - destruct d; discriminate. }
  unfold py_str, NilZero.string_of_int.
  destruct (Z.to_int z) as [d | d].
  - apply Hu.
  - split; [ | discriminate ].
    apply rstrip_cons; [ reflexivity | apply Hu ].
Qed.

End Strings.

Section BaseOutput.
Import Base BaseSpec.
Open Scope string_scope.

Lemma indexed_fold {X : Type} (h : X -> Z -> Z -> X) (cs : list Z) :
  forall (ds : list Z) (a : X),
    List.length ds = List.length cs ->
    rfold (fun acc k =>
             let* c := getitem cs k in
             let* d := getitem ds k in
             Ok (h acc c d))
          (range 0 (len cs)) a
    = Ok (fold_left (fun acc cd => h acc (fst cd) (snd cd)) (combine cs ds) a).
Proof.
  induction cs as [ | x cs IH ] using rev_ind; intros ds a Hlen.
  - reflexivity.
  - destruct ds as [ | y ds ] using rev_ind;
      [ rewrite length_app in Hlen; cbn in Hlen; lia | ].
    clear IHds. rewrite !length_app in Hlen. cbn [List.length] in Hlen.
    assert (Hl : List.length ds = List.length cs) by lia.
    rewrite combine_snoc by (symmetry; exact Hl).
    rewrite fold_left_app. cbn [fold_left fst snd].
    replace (len (cs ++ [x])) with (len cs + 1)
      by (unfold len; rewrite length_app; cbn; lia).
    rewrite range_snoc by apply len_nonneg.
    rewrite rfold_snoc.
    rewrite (rfold_ext _ (fun acc k =>
                            let* c := getitem cs k in
                            let* d := getitem ds k in
                            Ok (h acc c d))).
    + rewrite (IH ds a Hl). cbn [rbind].
      rewrite getitem_app_r. cbn [rbind].
      replace (len cs) with (len ds) by (unfold len; lia).
      rewrite getitem_app_r. reflexivity.
    + intros acc k Hk. apply In_range in Hk.
      rewrite !getitem_app_l; [ reflexivity | unfold len in *; lia | lia ].
Qed.

Lemma fold_left_append {X : Type} (g : X -> string) (l : list X) :
  forall a, fold_left (fun acc x => acc ++ g x) l a
            = a ++ fold_right String.append EmptyString (map g l).
Proof.
  induction l as [ | x l IH ]; intros a; cbn [fold_left map fold_right].
  - now rewrite append_nil_r.
  - now rewrite IH, append_assoc.
Qed.

Lemma join_nonempty (sep l : string) (ls : list string) :
  l <> EmptyString -> join sep (l :: ls) <> EmptyString.
Proof.
  intros Hl. cbn [join]. destruct ls; [ exact Hl | ].
  destruct l; [ contradiction | discriminate ].
Qed.

(** Lines that end in something else than white space, each followed
    by a new line: [rstrip] takes the last new line away and nothing
    else. *)
Lemma rstrip_lines (ls : list string) :
  (forall l, In l ls -> rstrip l = l /\ l <> EmptyString) ->
  rstrip (fold_right String.append EmptyString (map (fun l => l ++ newline) ls))
  = join newline ls.
Proof.
  induction ls as [ | l ls IH ]; intros Hls; [ reflexivity | ].
  destruct (Hls l (or_introl eq_refl)) as (Hl & Hne).
  cbn [map fold_right]. destruct ls as [ | l2 ls ].
  - cbn [map fold_right join]. rewrite append_nil_r.
    rewrite rstrip_app_blank by reflexivity. exact Hl.
  - assert (Hrest : rstrip (fold_right String.append EmptyString
                              (map (fun l => l ++ newline) (l2 :: ls)))
                    = join newline (l2 :: ls))
      by (apply IH; intros l' Hl'; apply Hls; now right).
    rewrite append_assoc, rstrip_app_kept.
    + rewrite rstrip_app_kept; [ now rewrite Hrest | ].
      rewrite Hrest. apply join_nonempty. apply (Hls l2). right. now left.
    + rewrite rstrip_app_kept; [ discriminate | ].
      rewrite Hrest. apply join_nonempty. apply (Hls l2). right. now left.
Qed.

(** X23.  Orientation variant: on a state with as many orientations as
    containers (every reachable state), [output] returns normally one line
    per placed container, in order: the container number counted from 1, a
    space, the orientation; the lines are separated by new lines and there
    is no new line at the end. *)
Theorem base_output_spec (s : Solution) :
  List.length (directions s) = List.length (containers s) ->
  output s
  = Ok (join newline
          (map (fun cd => py_str (Some (fst cd + 1))
                          ++ (" " ++ py_str (Some (snd cd))))
               (combine (containers s) (directions s)))).
Proof.
  intros Hlen. unfold output.
  rewrite (indexed_fold
             (fun str c d =>
                str ++ (py_str (Some (c + 1)) ++ (" " ++ (py_str (Some d) ++ newline))))
             (containers s) (directions s) EmptyString Hlen).
  cbn [rbind]. f_equal.
  rewrite (fold_left_append
             (fun cd => py_str (Some (fst cd + 1))
                        ++ (" " ++ (py_str (Some (snd cd)) ++ newline)))).
  cbn [append].
  rewrite <- rstrip_lines.
  - rewrite map_map. apply (f_equal rstrip).
    apply (f_equal (fold_right String.append EmptyString)).
    apply map_ext. intros cd. now rewrite append_assoc.
  - intros l Hl. apply in_map_iff in Hl as (cd & <- & _).
    destruct (rstrip_py_str (snd cd)) as (Hr & Hne).
    assert (Ht : rstrip (String " " (py_str (Some (snd cd))))
                 = String " " (py_str (Some (snd cd)))).
    { cbn [rstrip]. rewrite Hr.
      destruct (py_str (Some (snd cd))); [ contradiction | reflexivity ]. }
    cbn [append]. split.
    + rewrite rstrip_app_kept; rewrite Ht; [ reflexivity | discriminate ].
    + destruct (rstrip_py_str (fst cd + 1)) as (_ & Hne1).
      destruct (py_str (Some (fst cd + 1))); [ contradiction | discriminate ].
Qed.

Lemma base_output_spec_witness :
  output line3_tour
  = Ok (String.append "1 0" (String.append newline
         (String.append "2 0" (String.append newline "3 0")))).
Proof.
  rewrite (base_output_spec line3_tour); reflexivity.
Defined.

End BaseOutput.

(** ** Delta evaluation of a local move, orientation variant *)
Section Legs.
Import Base BaseSpec BaseRoute.

Lemma legs_cons2 (p : Problem) (a b : Component) (l : list Component) :
  legs p (a :: b :: l) = leg p a b + legs p (b :: l).
Proof. reflexivity. Qed.

Lemma nth_update_same {A : Type} (l : list A) (k : nat) (x d : A) :
  (k < List.length l)%nat -> nth k (update l k x) d = x.
Proof.
  revert k. induction l as [ | y l IH ]; intros [ | k ] Hk; cbn in *; try lia.
  - reflexivity.
  - apply IH. lia.
Qed.

Lemma nth_update_other {A : Type} (l : list A) (k q : nat) (x d : A) :
  k <> q -> nth q (update l k x) d = nth q l d.
Proof.
  revert k q. induction l as [ | y l IH ]; intros [ | k ] [ | q ] H; cbn;
    try reflexivity; try congruence.
  apply IH. congruence.
Qed.

(** Replacing one stop that is neither the first nor the last changes
    the two legs at that stop. *)
Lemma legs_replace1 (p : Problem) (d : Component) (l : list Component) :
  forall (q : nat) (y : Component),
    (1 <= q)%nat -> (q + 1 < List.length l)%nat ->
    legs p (update l q y)
    = legs p l
      - (leg p (nth (q - 1) l d) (nth q l d) + leg p (nth q l d) (nth (q + 1) l d))
      + (leg p (nth (q - 1) l d) y + leg p y (nth (q + 1) l d)).
Proof.
  induction l as [ | z l IH ]; intros q y Hq Hlen; [ cbn in Hlen; lia | ].
  destruct q as [ | q1 ]; [ lia | ].
  destruct l as [ | w l2 ]; [ cbn in Hlen; lia | ].
  destruct q1 as [ | q2 ].
  - destruct l2 as [ | v l3 ]; [ cbn in Hlen; lia | ].
    cbn [update Nat.sub Nat.add nth]. rewrite !legs_cons2. lia.
  - change (update (z :: w :: l2) (S (S q2)) y)
      with (z :: update (w :: l2) (S q2) y).
    change (update (w :: l2) (S q2) y) with (w :: update l2 q2 y) at 1.
    rewrite !legs_cons2.
    change (w :: update l2 q2 y) with (update (w :: l2) (S q2) y).
    rewrite (IH (S q2) y) by (cbn [List.length] in *; lia).
    replace (S (S q2) - 1)%nat with (S (S q2 - 1)) by lia.
    replace (S (S q2) + 1)%nat with (S (S q2 + 1)) by lia.
    cbn [nth]. lia.
Qed.

(** Replacing two stops with at least one stop between them. *)
Lemma legs_replace2 (p : Problem) (d : Component) (l : list Component)
  (a q : nat) (x y : Component) :
  (1 <= a)%nat -> (a + 2 <= q)%nat -> (q + 1 < List.length l)%nat ->
  legs p (update (update l a x) q y) - legs p l
  = (leg p (nth (a - 1) l d) x + leg p x (nth (a + 1) l d)
     + leg p (nth (q - 1) l d) y + leg p y (nth (q + 1) l d))
    - (leg p (nth (a - 1) l d) (nth a l d) + leg p (nth a l d) (nth (a + 1) l d)
       + leg p (nth (q - 1) l d) (nth q l d) + leg p (nth q l d) (nth (q + 1) l d)).
Proof.
  intros Ha Haq Hq.
  rewrite (legs_replace1 p d (update l a x) q y)
    by (rewrite ?update_length; lia).
  rewrite (legs_replace1 p d l a x) by lia.
  rewrite !(nth_update_other l a) by lia. lia.
Qed.

End Legs.

Section RouteOfState.
Import Base BaseSpec BaseRoute.

Lemma leg_of_ok (p : Problem) (x y : Component) :
  (exists v, connection_cost p x y = Ok v) ->
  connection_cost p x y = Ok (leg p x y).
Proof. intros (v & E). unfold leg. now rewrite E. Qed.

Lemma rmap_total {A B : Type} (f : A -> result B) (g : A -> B) (l : list A) :
  (forall x, In x l -> f x = Ok (g x)) -> rmap f l = Ok (map g l).
Proof.
  induction l as [ | x l IH ]; intros H; [ reflexivity | ].
  cbn [rmap map]. rewrite (H x) by now left. cbn [rbind].
  rewrite IH by (intros y Hy; apply H; now right). reflexivity.
Qed.

Lemma fold_left_add_right (l : list Z) (a : Z) :
  fold_left Z.add l a = a + fold_right Z.add 0 l.
Proof.
  revert a. induction l as [ | x l IH ]; intros a; cbn; [ lia | ].
  rewrite IH. lia.
Qed.

Lemma stops_placed (s : Solution) (x : Component) :
  wf_solution s = true ->
  In x (map stop_of (combine (containers s) (directions s))) ->
  placed_stop (problem s) x.
Proof.
  intros Hwf Hx. apply in_map_iff in Hx as ([c d] & <- & Hcd).
  pose proof (proj1 (wf_solution_spec s) Hwf) as (_ & _ & Hcs & Hds & _).
  exists c, d. split; [ reflexivity | ].
  split; [ apply Hcs; eapply in_combine_l; exact Hcd
         | apply Hds; eapply in_combine_r; exact Hcd ].
Qed.

Lemma leg_stop_stop (p : Problem) (x y : Component) :
  wf_problem p = true -> placed_stop p x -> placed_stop p y ->
  exists v, connection_cost p x y = Ok v.
Proof.
  intros Hp (c & d & -> & Hc & Hd) (c' & d' & -> & Hc' & Hd').
  now apply connection_cost_ok.
Qed.

Lemma leg_depot_stop (p : Problem) (y : Component) :
  wf_problem p = true -> placed_stop p y ->
  exists v, connection_cost p depot_stop y = Ok v.
Proof.
  intros Hp (c & d & -> & Hc & Hd).
  unfold connection_cost, depot_stop, stop_of. cbn [node direction fst snd].
  rewrite Z.eqb_refl. now apply entry_cost_ok.
Qed.

Lemma leg_stop_plant (p : Problem) (x : Component) :
  wf_problem p = true -> placed_stop p x ->
  connection_cost p x (plant_stop p)
  = lookup2 (container_to_plant p) (direction x) (node x)
  /\ exists v, connection_cost p x (plant_stop p) = Ok v.
Proof.
  intros Hp (c & d & -> & Hc & Hd).
  unfold connection_cost, plant_stop, stop_of. cbn [node direction fst snd].
  destruct (Z.eqb_spec c (-1)); [ lia | ]. rewrite Z.eqb_refl.
  split; [ reflexivity | ].
  destruct (wf_problem_spec p Hp) as (_ & _ & Hplant & _).
  apply is_bit_spec in Hd.
  apply (lookup2_ok 2 (n p)); [ exact Hplant | lia | exact Hc ].
Qed.

Lemma tail_pairs_ok (p : Problem) (T : list Component) :
  wf_problem p = true -> (forall x, In x T -> placed_stop p x) ->
  forall t, In t (pairwise (T ++ [plant_stop p])) ->
            exists v, connection_cost p (fst t) (snd t) = Ok v.
Proof.
  intros Hp. induction T as [ | x T IH ]; intros HT t Ht; [ destruct Ht | ].
  destruct T as [ | y T ].
  - destruct Ht as [<- | []]. cbn [fst snd].
    apply leg_stop_plant; [ exact Hp | apply HT; now left ].
  - cbn [app pairwise] in Ht. destruct Ht as [<- | Ht].
    + cbn [fst snd]. apply leg_stop_stop;
        [ exact Hp | apply HT; now left | apply HT; right; now left ].
    + apply IH; [ intros z Hz; apply HT; now right | exact Ht ].
Qed.

Lemma route_pairs_ok (s : Solution) :
  wf_solution s = true -> containers s <> [] ->
  forall t, In t (pairwise (route s)) ->
            exists v, connection_cost (problem s) (fst t) (snd t) = Ok v.
Proof.
  intros Hwf Hne t Ht.
  pose proof (proj1 (wf_solution_spec s) Hwf) as (Hp & Hlen & _).
  unfold route in Ht.
  remember (map stop_of (combine (containers s) (directions s))) as T eqn:ET.
  assert (HT : forall x, In x T -> placed_stop (problem s) x)
    by (intros x Hx; subst T; now apply stops_placed).
  destruct T as [ | t1 T ].
  - exfalso. destruct (containers s) as [ | c cs ]; [ congruence | ].
    destruct (directions s); discriminate.
  - cbn [app pairwise] in Ht. destruct Ht as [<- | Ht].
    + cbn [fst snd]. apply leg_depot_stop; [ exact Hp | apply HT; now left ].
    + apply (tail_pairs_ok (problem s) (t1 :: T) Hp HT). exact Ht.
Qed.

Lemma route_cost_legs (s : Solution) :
  wf_solution s = true -> containers s <> [] ->
  route_cost s = Ok (legs (problem s) (route s)).
Proof.
  intros Hwf Hne. unfold route_cost, legs.
  rewrite (rmap_total _ (fun t => leg (problem s) (fst t) (snd t))).
  - cbn [rbind]. f_equal. rewrite fold_left_add_right. lia.
  - intros t Ht. apply leg_of_ok. now apply route_pairs_ok.
Qed.

Lemma consecutive_in_pairwise {A : Type} (l : list A) (d : A) :
  forall k, (S k < List.length l)%nat ->
            In (nth k l d, nth (S k) l d) (pairwise l).
Proof.
  induction l as [ | x l IH ]; intros k Hk; [ cbn in Hk; lia | ].
  destruct l as [ | y l ]; [ cbn in Hk; lia | ].
  destruct k as [ | k ].
  - now left.
  - right. apply (IH k). cbn [List.length] in *. lia.
Qed.

Lemma nth_error_combine {A B : Type} (l : list A) (l' : list B) (k : nat)
  (a : A) (b : B) :
  nth_error l k = Some a -> nth_error l' k = Some b ->
  nth_error (combine l l') k = Some (a, b).
Proof.
  revert l' k. induction l as [ | x l IH ]; intros [ | y l' ] [ | k ] Ha Hb;
    cbn in *; try discriminate.
  - congruence.
  - now apply IH.
Qed.

Lemma length_route (s : Solution) :
  List.length (directions s) = List.length (containers s) ->
  List.length (route s) = S (S (List.length (containers s))).
Proof.
  intros Hlen. unfold route. cbn [List.length].
  rewrite length_app, length_map, length_combine, Hlen, Nat.min_id.
  cbn [List.length]. lia.
Qed.

Lemma route_nth (s : Solution) (k : Z) :
  wf_solution s = true -> 0 <= k < len (containers s) ->
  exists c d,
    getitem (containers s) k = Ok c /\ getitem (directions s) k = Ok d
    /\ nth (S (Z.to_nat k)) (route s) depot_stop = stop_of (c, d)
    /\ placed_stop (problem s) (stop_of (c, d)).
Proof.
  intros Hwf Hk.
  pose proof (proj1 (wf_solution_spec s) Hwf) as (_ & Hlen & _).
  destruct (getitem_inside (containers s) k Hk) as (c & Gc & Nc).
  destruct (getitem_inside (directions s) k) as (d & Gd & Nd);
    [ unfold len in *; lia | ].
  exists c, d. split; [ exact Gc | ]. split; [ exact Gd | ].
  pose proof (nth_error_combine _ _ _ _ _ Nc Nd) as Hcd.
  assert (Hin : nth_error (map stop_of (combine (containers s) (directions s)))
                          (Z.to_nat k) = Some (stop_of (c, d)))
    by (now apply map_nth_error).
  split.
  - unfold route. cbn [nth]. rewrite app_nth1.
    + now apply nth_error_nth.
    + apply nth_error_Some. now rewrite Hin.
  - apply (stops_placed s _ Hwf). eapply nth_error_In. exact Hin.
Qed.

Lemma route_nth_plant (s : Solution) :
  List.length (directions s) = List.length (containers s) ->
  nth (S (List.length (containers s))) (route s) depot_stop
  = plant_stop (problem s).
Proof.
  intros Hlen. unfold route. cbn [nth]. rewrite app_nth2.
  - rewrite length_map, length_combine, Hlen, Nat.min_id, Nat.sub_diag.
    reflexivity.
  - rewrite length_map, length_combine, Hlen, Nat.min_id. lia.
Qed.

End RouteOfState.

Section DeltaEvaluation.
Import Base BaseSpec BaseRoute.

Lemma setitem_update {A : Type} (l : list A) (k : Z) (x : A) :
  0 <= k < len l -> setitem l k x = Ok (update l (Z.to_nat k) x).
Proof. intros H. unfold setitem. now rewrite norm_index_inside. Qed.

Lemma combine_update {A B : Type} (l : list A) (l' : list B) (k : nat) (x : A) (y : B) :
  combine (update l k x) (update l' k y) = update (combine l l') k (x, y).
Proof.
  revert l' k. induction l as [ | a l IH ]; intros [ | b l' ] [ | k ]; cbn;
    try reflexivity.
  now rewrite IH.
Qed.

Lemma map_update {A B : Type} (f : A -> B) (l : list A) (k : nat) (x : A) :
  map f (update l k x) = update (map f l) k (f x).
Proof.
  revert k. induction l as [ | a l IH ]; intros [ | k ]; cbn; try reflexivity.
  now rewrite IH.
Qed.

Lemma update_app_l {A : Type} (l r : list A) (k : nat) (x : A) :
  (k < List.length l)%nat -> update (l ++ r) k x = update l k x ++ r.
Proof.
  revert k. induction l as [ | a l IH ]; intros [ | k ] H; cbn in *; try lia.
  - reflexivity.
  - rewrite IH by lia. reflexivity.
Qed.

Lemma route_after_step (m : LocalMove) (s s' : Solution) (ci cj : Z) :
  List.length (directions s) = List.length (containers s) ->
  0 <= i m < len (containers s) -> 0 <= j m < len (containers s) ->
  getitem (containers s) (i m) = Ok ci -> getitem (containers s) (j m) = Ok cj ->
  step m s = (s', Ok tt) ->
  problem s' = problem s
  /\ route s'
     = update (update (route s) (S (Z.to_nat (i m))) (stop_of (cj, i_dir m)))
              (S (Z.to_nat (j m))) (stop_of (ci, j_dir m)).
Proof.
  intros Hlen Hi Hj Gi Gj Hstep.
  destruct (base_step_ok_inv m s s' Hstep)
    as (tmp & cj' & cs1 & cs2 & ds1 & ds2 & G1 & G2 & S1 & S2 & S3 & S4 & ->).
  rewrite Gi in G1. injection G1 as <-. rewrite Gj in G2. injection G2 as <-.
  split; [ reflexivity | ].
  rewrite setitem_update in S1 by exact Hi. injection S1 as <-.
  rewrite setitem_update in S2
    by (unfold len in *; rewrite update_length; lia).
  injection S2 as <-.
  rewrite setitem_update in S3 by (unfold len in *; lia). injection S3 as <-.
  rewrite setitem_update in S4
    by (unfold len in *; rewrite update_length; lia).
  injection S4 as <-.
  unfold route. cbn [problem containers directions].
  rewrite !combine_update, !map_update.
  cbn [update]. f_equal.
  assert (HT : List.length (map stop_of (combine (containers s) (directions s)))
               = List.length (containers s))
    by (rewrite length_map, length_combine, Hlen; apply Nat.min_id).
  rewrite <- !update_app_l; [ reflexivity | | ];
    rewrite ?update_length; unfold len in *; lia.
Qed.

Lemma prev_component (s : Solution) (k : Z) :
  wf_solution s = true -> 0 <= k < len (containers s) ->
  exists pc pd,
    (if 0 <? k then let* c := getitem (containers s) (k - 1) in Ok c
     else Ok (-1)) = Ok pc
    /\ (if 0 <? k then let* d := getitem (directions s) (k - 1) in Ok (Some d)
        else Ok None) = Ok pd
    /\ mkComponent (Some pc) pd = nth (Z.to_nat k) (route s) depot_stop.
Proof.
  intros Hwf Hk. destruct (Z.ltb_spec 0 k) as [Hpos | Hz].
  - destruct (route_nth s (k - 1) Hwf) as (c & d & Gc & Gd & Hn & _); [ lia | ].
    exists c, (Some d). rewrite Gc, Gd. cbn [rbind].
    split; [ reflexivity | ]. split; [ reflexivity | ].
    replace (Z.to_nat k) with (S (Z.to_nat (k - 1))) by lia.
    now rewrite Hn.
  - exists (-1), None. split; [ reflexivity | ]. split; [ reflexivity | ].
    replace (Z.to_nat k) with 0%nat by lia. reflexivity.
Qed.

Lemma next_component (s : Solution) (k : Z) :
  wf_solution s = true -> len (containers s) = n (problem s) ->
  0 <= k < len (containers s) ->
  exists fc fd,
    (if k <? n (problem s) - 1 then getitem (containers s) (k + 1)
     else Ok (n (problem s))) = Ok fc
    /\ (if k <? n (problem s) - 1
        then let* d := getitem (directions s) (k + 1) in Ok (Some d)
        else Ok None) = Ok fd
    /\ mkComponent (Some fc) fd = nth (S (S (Z.to_nat k))) (route s) depot_stop.
Proof.
  intros Hwf Hfull Hk.
  pose proof (proj1 (wf_solution_spec s) Hwf) as (_ & Hlen & _).
  destruct (Z.ltb_spec k (n (problem s) - 1)) as [Hlt | Hge].
  - destruct (route_nth s (k + 1) Hwf) as (c & d & Gc & Gd & Hn & _); [ lia | ].
    exists c, (Some d). rewrite Gc, Gd. cbn [rbind].
    split; [ reflexivity | ]. split; [ reflexivity | ].
    replace (S (Z.to_nat k)) with (Z.to_nat (k + 1)) by lia.
    now rewrite Hn.
  - exists (n (problem s)), None. split; [ reflexivity | ]. split; [ reflexivity | ].
    replace (S (Z.to_nat k)) with (List.length (containers s))
      by (unfold len in *; lia).
    now rewrite route_nth_plant.
Qed.


Lemma base_delta_far (s : Solution) (m : LocalMove) :
  wf_solution s = true -> len (containers s) = n (problem s) ->
  0 <= i m -> i m + 2 <= j m -> j m < n (problem s) ->
  is_bit (i_dir m) = true -> is_bit (j_dir m) = true ->
  exists s',
    step (crossed m) s = (s', Ok tt)
    /\ wf_solution s' = true
    /\ problem s' = problem s
    /\ route_cost s = Ok (legs (problem s) (route s))
    /\ route_cost s' = Ok (legs (problem s) (route s'))
    /\ objective_incr_local s m
       = Ok (legs (problem s) (route s') - legs (problem s) (route s)).
Proof.
  intros Hwf Hfull Hi Hij Hj Hbi Hbj.
  pose proof (proj1 (wf_solution_spec s) Hwf) as (_ & Hlen & _).
  destruct (base_step_total (crossed m) s Hlen) as (s' & E);
    [ cbn [i crossed]; lia | cbn [j crossed]; lia | ].
  assert (Hwf' : wf_solution s' = true)
    by (eapply (wf_after_step (crossed m)); [ exact Hwf | | | exact E ]; assumption).
  destruct (route_nth s (i m) Hwf) as (ci & di & Gci & Gdi & Hni & _); [ lia | ].
  destruct (route_nth s (j m) Hwf) as (cj & dj & Gcj & Gdj & Hnj & _); [ lia | ].
  destruct (route_after_step (crossed m) s s' ci cj Hlen) as (Hp' & Hroute);
    try assumption; try (cbn [i j crossed]; lia).
  cbn [i j i_dir j_dir crossed] in Hroute.
  assert (Hne : containers s <> [])
    by (intros E0; rewrite E0 in Hfull; cbn in Hfull; lia).
  assert (Hne' : containers s' <> []).
  { pose proof (base_step_frame (crossed m) s) as (Hperm & _).
    rewrite E in Hperm. cbn [fst] in Hperm. intros E0. rewrite E0 in Hperm.
    apply Permutation_nil in Hperm. contradiction. }
  exists s'. split; [ exact E | ]. split; [ exact Hwf' | ].
  split; [ exact Hp' | ].
  split; [ now apply route_cost_legs | ].
  split; [ rewrite <- Hp'; now apply route_cost_legs | ].
  set (L := route s) in *. set (L' := route s') in *.
  set (D := depot_stop) in *.
  set (I := Z.to_nat (i m)) in *. set (J := Z.to_nat (j m)) in *.
  set (X := stop_of (cj, j_dir m)) in *. set (Y := stop_of (ci, i_dir m)) in *.
  assert (HLlen : List.length L = S (S (List.length (containers s))))
    by (now apply length_route).
  assert (HN : List.length (containers s) = Z.to_nat (n (problem s)))
    by (unfold len in Hfull; lia).
  assert (HIJ : (I + 2 <= J)%nat /\ (J < List.length (containers s))%nat)
    by (unfold I, J; lia).
  assert (Hold : forall k, (S k < List.length L)%nat ->
             connection_cost (problem s) (nth k L D) (nth (S k) L D)
             = Ok (leg (problem s) (nth k L D) (nth (S k) L D))).
  { intros k Hk. apply leg_of_ok.
    apply (route_pairs_ok s Hwf Hne (nth k L D, nth (S k) L D)).
    now apply consecutive_in_pairwise. }
  assert (HL'len : List.length L' = List.length L)
    by (rewrite Hroute, !update_length; reflexivity).
  assert (Hnew : forall k, (S k < List.length L)%nat ->
             connection_cost (problem s) (nth k L' D) (nth (S k) L' D)
             = Ok (leg (problem s) (nth k L' D) (nth (S k) L' D))).
  { intros k Hk. apply leg_of_ok. rewrite <- Hp'.
    apply (route_pairs_ok s' Hwf' Hne' (nth k L' D, nth (S k) L' D)).
    apply consecutive_in_pairwise. fold L'. lia. }
  assert (HX : nth (S I) L' D = X).
  { rewrite Hroute, nth_update_other by lia.
    apply nth_update_same. lia. }
  assert (HY : nth (S J) L' D = Y).
  { rewrite Hroute. apply nth_update_same. rewrite update_length. lia. }
  assert (Hsame : forall k, k <> S I -> k <> S J -> nth k L' D = nth k L D).
  { intros k H1 H2. rewrite Hroute, !nth_update_other by congruence. reflexivity. }
  destruct (prev_component s (i m) Hwf) as (pc1 & pd1 & P1 & P2 & HU); [ lia | ].
  destruct (next_component s (i m) Hwf Hfull) as (fc1 & fd1 & F1 & F2 & HH); [ lia | ].
  destruct (prev_component s (j m) Hwf) as (pc2 & pd2 & Q1 & Q2 & HM); [ lia | ].
  destruct (next_component s (j m) Hwf Hfull) as (fc2 & fd2 & R1 & R2 & HV); [ lia | ].
  fold L D I in HU, HH. fold L D J in HM, HV.
  assert (HA : mkComponent (Some ci) (Some di) = nth (S I) L D)
    by (symmetry; exact Hni).
  assert (HB : mkComponent (Some cj) (Some dj) = nth (S J) L D)
    by (symmetry; exact Hnj).
  unfold objective_incr_local. cbv zeta.
  rewrite P1. cbn [rbind]. rewrite P2. cbn [rbind].
  rewrite Gci. cbn [rbind]. rewrite Gdi. cbn [rbind].
  rewrite F1. cbn [rbind]. rewrite F2. cbn [rbind].
  rewrite Q1. cbn [rbind]. rewrite Q2. cbn [rbind].
  rewrite Gcj. cbn [rbind]. rewrite Gdj. cbn [rbind].
  rewrite R1. cbn [rbind]. rewrite R2. cbn [rbind].
  change (mkComponent (Some cj) (Some (j_dir m))) with X.
  change (mkComponent (Some ci) (Some (i_dir m))) with Y.
  rewrite HU, HH, HM, HV, HA, HB.
  rewrite (Hold I) by lia. cbn [rbind].
  rewrite (Hold (S I)) by lia. cbn [rbind].
  rewrite (Hold J) by lia. cbn [rbind].
  rewrite (Hold (S J)) by lia. cbn [rbind].
  (* the four new legs *)
  pose proof (Hnew I) as N1. rewrite HX, (Hsame I) in N1 by lia.
  pose proof (Hnew (S I)) as N2. rewrite HX, (Hsame (S (S I))) in N2 by lia.
  pose proof (Hnew J) as N3. rewrite HY, (Hsame J) in N3 by lia.
  pose proof (Hnew (S J)) as N4. rewrite HY, (Hsame (S (S J))) in N4 by lia.
  rewrite N1 by lia. cbn [rbind]. rewrite N2 by lia. cbn [rbind].
  rewrite N3 by lia. cbn [rbind]. rewrite N4 by lia. cbn [rbind].
  f_equal. rewrite Hroute.
  rewrite (legs_replace2 (problem s) D L (S I) (S J) X Y) by lia.
  replace (S I - 1)%nat with I by lia. replace (S I + 1)%nat with (S (S I)) by lia.
  replace (S J - 1)%nat with J by lia. replace (S J + 1)%nat with (S (S J)) by lia.
  lia.
Qed.


Lemma legs_snoc (p : Problem) (l : list Component) (u v : Component) :
  legs p ((l ++ [u]) ++ [v]) = legs p (l ++ [u]) + leg p u v.
Proof.
  unfold legs. rewrite pairwise_snoc, map_app, fold_right_app. cbn [map fold_right fst snd].
  generalize (map (fun t => leg p (fst t) (snd t)) (pairwise (l ++ [u]))) as xs.
  induction xs as [ | x xs IH ]; cbn [fold_right]; [ lia | ]. rewrite IH. lia.
Qed.

(** The cost of the route is the cost recomputed up to the last
    container, plus the exit cost that [objective] adds. *)
Lemma route_cost_split (s : Solution) :
  wf_solution s = true -> containers s <> [] ->
  exists inner c d exit,
    recomputed_cost s = Ok inner
    /\ getitem (containers s) (-1) = Ok c
    /\ getitem (directions s) (-1) = Ok d
    /\ lookup2 (container_to_plant (problem s)) (Some d) (Some c) = Ok exit
    /\ route_cost s = Ok (inner + exit).
Proof.
  intros Hwf Hne.
  pose proof (proj1 (wf_solution_spec s) Hwf) as (Hp & Hlen & _).
  assert (Hne' : directions s <> []).
  { intros E. rewrite E in Hlen. destruct (containers s); [ congruence | discriminate ]. }
  destruct (getitem_last (containers s) Hne) as (c & Gc & _).
  destruct (getitem_last (directions s) Hne') as (d & Gd & _).
  destruct (getitem_last_snoc _ _ Gc) as (cs0 & Ecs).
  destruct (getitem_last_snoc _ _ Gd) as (ds0 & Eds).
  assert (Hl0 : List.length cs0 = List.length ds0).
  { rewrite Ecs, Eds, !length_app in Hlen. cbn in Hlen. lia. }
  assert (ET : map stop_of (combine (containers s) (directions s))
               = map stop_of (combine cs0 ds0) ++ [stop_of (c, d)]).
  { rewrite Ecs, Eds, combine_snoc by exact Hl0. now rewrite map_app. }
  assert (Hroute : route s
                   = ((depot_stop :: map stop_of (combine cs0 ds0)) ++ [stop_of (c, d)])
                       ++ [plant_stop (problem s)]).
  { unfold route. rewrite ET. reflexivity. }
  assert (Hlast : placed_stop (problem s) (stop_of (c, d))).
  { apply (stops_placed s _ Hwf). rewrite ET. apply in_or_app. right. now left. }
  destruct (leg_stop_plant (problem s) _ Hp Hlast) as (Eexit & (exit & Hexit)).
  cbn [stop_of node direction fst snd] in Eexit.
  exists (legs (problem s)
            ((depot_stop :: map stop_of (combine cs0 ds0)) ++ [stop_of (c, d)])),
         c, d, exit.
  split; [ | split; [ exact Gc | split; [ exact Gd | split ] ] ].
  - unfold recomputed_cost.
    change (map (fun cd => mkComponent (Some (fst cd)) (Some (snd cd)))
                (combine (containers s) (directions s)))
      with (map stop_of (combine (containers s) (directions s))).
    change (mkComponent (Some (-1)) None) with depot_stop.
    rewrite ET.
    change (depot_stop :: map stop_of (combine cs0 ds0) ++ [stop_of (c, d)])
      with ((depot_stop :: map stop_of (combine cs0 ds0)) ++ [stop_of (c, d)]).
    rewrite (rmap_total _ (fun t => leg (problem s) (fst t) (snd t))).
    + cbn [rbind]. f_equal. rewrite fold_left_add_right. unfold legs. lia.
    + intros t Ht. apply leg_of_ok. apply (route_pairs_ok s Hwf Hne).
      rewrite Hroute, pairwise_snoc. apply in_or_app. now left.
  - now rewrite <- Eexit.
  - rewrite (route_cost_legs s Hwf Hne), Hroute, legs_snoc. do 2 f_equal.
    unfold leg. now rewrite Hexit.
Qed.

Lemma line4_tour_reachable : reachable line4_tour.
Proof.
  pose (c0 := mkComponent (Some 0) (Some 0)).
  pose (c1 := mkComponent (Some 1) (Some 0)).
  pose (c2 := mkComponent (Some 2) (Some 1)).
  pose (c3 := mkComponent (Some 3) (Some 0)).
  pose (s0 := empty_solution line4).
  apply reach_add with (s := fst (add_all [c0; c1; c2] s0)) (c := c3);
    [ | vm_compute; auto | vm_compute; reflexivity ].
  apply reach_add with (s := fst (add_all [c0; c1] s0)) (c := c2);
    [ | vm_compute; auto | vm_compute; reflexivity ].
  apply reach_add with (s := fst (add_all [c0] s0)) (c := c1);
    [ | vm_compute; auto | vm_compute; reflexivity ].
  apply reach_add with (s := s0) (c := c0);
    [ | vm_compute; auto | vm_compute; reflexivity ].
  apply reach_empty. reflexivity.
Qed.

Lemma lookup2_within (t : list (list Z)) (a b : option Z) (v B : Z) :
  Forall (Forall (fun e => Z.abs e <= B)) t ->
  lookup2 t a b = Ok v -> Z.abs v <= B.
Proof.
  intros Ht. unfold lookup2. destruct a as [a | ], b as [b | ]; try discriminate.
  destruct (getitem t a) as [row | ] eqn:Er; [ | discriminate ]. cbn [rbind].
  intros Ev. apply getitem_In in Er, Ev.
  rewrite Forall_forall in Ht. specialize (Ht row Er).
  rewrite Forall_forall in Ht. now apply Ht.
Qed.

Lemma lookup3_within (t : list (list (list Z))) (a b c : option Z) (v B : Z) :
  Forall (Forall (Forall (fun e => Z.abs e <= B))) t ->
  lookup3 t a b c = Ok v -> Z.abs v <= B.
Proof.
  intros Ht. unfold lookup3.
  destruct a as [a | ], b as [b | ], c as [c | ]; try discriminate.
  destruct (getitem t a) as [plane | ] eqn:Ep; [ | discriminate ]. cbn [rbind].
  destruct (getitem plane b) as [row | ] eqn:Er; [ | discriminate ]. cbn [rbind].
  intros Ev. apply getitem_In in Ep, Er, Ev.
  rewrite Forall_forall in Ht. specialize (Ht plane Ep).
  rewrite Forall_forall in Ht. specialize (Ht row Er).
  rewrite Forall_forall in Ht. now apply Ht.
Qed.

Lemma leg_within (p : Problem) (B : Z) (x y : Component) :
  0 <= B -> costs_within p B -> Z.abs (leg p x y) <= B.
Proof.
  intros HB (Hd & Hp & Hc). unfold leg.
  destruct (connection_cost p x y) as [v | ] eqn:E; [ | cbn; lia ].
  unfold connection_cost in E.
  destruct (match node x with Some v0 => v0 =? -1 | None => false end).
  - now apply (lookup2_within _ _ _ _ _ Hd E).
  - destruct (match node y with Some v0 => v0 =? n p | None => false end).
    + now apply (lookup2_within _ _ _ _ _ Hp E).
    + destruct (dir_index (direction x) (direction y)) as [k | ]; [ | discriminate ].
      cbn [rbind] in E. now apply (lookup3_within _ _ _ _ _ _ Hc E).
Qed.

Lemma legs_within (p : Problem) (B : Z) (l : list Component) :
  0 <= B -> costs_within p B ->
  Z.abs (legs p l) <= Z.of_nat (List.length (pairwise l)) * B.
Proof.
  intros HB Hc. unfold legs.
  induction (pairwise l) as [ | t ts IH ]; cbn [map fold_right List.length].
  - cbn. lia.
  - pose proof (leg_within p B (fst t) (snd t) HB Hc). lia.
Qed.

Lemma route_cost_within (s : Solution) (B : Z) :
  List.length (directions s) = List.length (containers s) ->
  0 <= B -> costs_within (problem s) B ->
  Z.abs (legs (problem s) (route s)) <= (len (containers s) + 1) * B.
Proof.
  intros Hlen HB Hc.
  pose proof (legs_within (problem s) B (route s) HB Hc) as H.
  rewrite length_pairwise, (length_route s Hlen) in H.
  unfold len. replace (Z.of_nat (List.length (containers s)) + 1)
    with (Z.of_nat (S (S (List.length (containers s))) - 1)) by lia.
  exact H.
Qed.


Lemma line4_exact_costs : exact_costs line4.
Proof.
  exists 5. split; [ lia | ]. split.
  - unfold costs_within, line4.
    cbn [depot_to_container container_to_plant container_to_container].
    repeat split; repeat first [ apply Forall_nil | apply Forall_cons ]; cbn; lia.
  - cbn. lia.
Qed.

(** X24.  Orientation variant, delta evaluation.  The costs are integers
    bounded so that every sum formed here stays within [2 ^ 53] in absolute
    value ([exact_costs]), the range in which the program's binary64
    additions and subtractions of integers are exact and agree with the
    integer arithmetic of the model.  On a feasible reachable state and a
    move of [local_moves] whose positions are at least two apart,
    [objective_incr_local] returns the change of the route cost (entry,
    transitions and exit, recomputed from the sequence) that [step] brings
    about for the move with its two orientations exchanged: it prices the
    container that comes to position [i] with [j_dir] and the one that
    comes to position [j] with [i_dir], where [step] gives them [i_dir] and
    [j_dir].  So for such a move with [i_dir = j_dir] it is the change made
    by [step] on the move itself.  Both route costs and their difference
    are within [2 ^ 53].  The route cost is what [objective] returns while
    [obj_value] agrees with the sequence. *)
Theorem base_objective_incr_local_far (s : Solution) (m : LocalMove) :
  reachable s -> is_feasible s = true -> In m (local_moves s) ->
  i m + 2 <= j m -> exact_costs (problem s) ->
  exists s' before after,
    step (crossed m) s = (s', Ok tt)
    /\ route_cost s = Ok before
    /\ route_cost s' = Ok after
    /\ objective_incr_local s m = Ok (after - before)
    /\ Z.abs before <= 2 ^ 53 /\ Z.abs after <= 2 ^ 53
    /\ Z.abs (after - before) <= 2 ^ 53
    /\ (i_dir m = j_dir m -> crossed m = m)
    /\ (recomputed_cost s = Ok (obj_value s) -> objective s = Ok (Some before)).
Proof.
  intros Hr Hf Hm Hfar (B & HB & Hc & Hsmall).
  pose proof (reachable_is_wf s Hr) as Hwf.
  apply (base_feasible_len s Hr) in Hf.
  pose proof (In_local_moves s m Hm) as (Hi & _ & Hj & Hbi & Hbj).
  destruct (base_delta_far s m Hwf Hf Hi Hfar Hj Hbi Hbj)
    as (s' & E & Hwf' & Hp' & Hbefore & Hafter & Hdelta).
  pose proof (proj1 (wf_solution_spec s) Hwf) as (_ & Hlen & _).
  pose proof (proj1 (wf_solution_spec s') Hwf')
    as (_ & Hlen' & _ & _ & _ & _ & _ & _ & Hsum').
  pose proof (route_cost_within s B Hlen HB Hc) as Hb1.
  rewrite <- Hp' in Hc.
  pose proof (route_cost_within s' B Hlen' HB Hc) as Hb2.
  rewrite Hp' in Hb2, Hsum'.
  assert (Hn' : len (containers s') <= n (problem s)).
  { pose proof (Zle_0_nat (List.length (not_picked s'))). unfold len in *. lia. }
  exists s', (legs (problem s) (route s)), (legs (problem s) (route s')).
  split; [ exact E | ]. split; [ exact Hbefore | ]. split; [ exact Hafter | ].
  split; [ exact Hdelta | ].
  split; [ nia | ]. split; [ nia | ]. split; [ nia | ]. split.
  - intros Hd. destruct m as [i0 j0 a b]. cbn in *. now subst b.
  - intros Hobj.
    assert (Hne : containers s <> [])
      by (intros E0; rewrite E0 in Hf; cbn in Hf; lia).
    destruct (route_cost_split s Hwf Hne)
      as (inner & c & d & exit & Hin & Gc & Gd & Hexit & Hroute).
    rewrite Hobj in Hin. injection Hin as <-.
    rewrite Hbefore in Hroute. injection Hroute as ->.
    unfold objective.
    pose proof (proj1 (wf_solution_spec s) Hwf) as (_ & _ & _ & _ & _ & _ & _ & _ & Hsum).
    assert (Hnp : not_picked s = []).
    { destruct (not_picked s); [ reflexivity | ]. unfold len in *. cbn in Hsum. lia. }
    rewrite Hnp. cbn [len List.length Z.of_nat Z.ltb Z.compare].
    rewrite Gd, Gc. cbn [rbind]. rewrite Hexit. reflexivity.
Qed.

Lemma base_objective_incr_local_far_witness :
  exists s' before after,
    step (crossed (mkLocalMove 0 2 0 1)) line4_tour = (s', Ok tt)
    /\ route_cost line4_tour = Ok before
    /\ route_cost s' = Ok after
    /\ objective_incr_local line4_tour (mkLocalMove 0 2 0 1) = Ok (after - before)
    /\ Z.abs before <= 2 ^ 53 /\ Z.abs after <= 2 ^ 53
    /\ Z.abs (after - before) <= 2 ^ 53.
Proof.
  destruct (base_objective_incr_local_far line4_tour (mkLocalMove 0 2 0 1)
              line4_tour_reachable)
    as (s' & before & after & E & Hb & Ha & Hd & B1 & B2 & B3 & _).
  - reflexivity.
  - vm_compute. auto 20.
  - cbn. lia.
  - exact line4_exact_costs.
  - exists s', before, after. repeat split; assumption.
Defined.

End DeltaEvaluation.

(** ** The distance table of the closed-tour variant *)
Section Symmetry.
Import Tsp TspSpec TspInv.

Lemma binary_round_aux_abs (pr em : Z) (m e : Z) (l : location) :
  SFabs (binary_round_aux pr em true m e l)
  = SFabs (binary_round_aux pr em false m e l).
Proof.
  unfold binary_round_aux.
  destruct (shr_fexp pr em m e l) as [mrs' e'].
  destruct (shr_fexp pr em _ e' loc_Exact) as [mrs'' e''].
  destruct (shr_m mrs''); try reflexivity.
  destruct (e'' <=? em - pr); reflexivity.
Qed.

Lemma binary_round_abs (pr em : Z) (m : positive) (e : Z) :
  SFabs (binary_round pr em true m e) = SFabs (binary_round pr em false m e).
Proof.
  unfold binary_round.
  destruct (shl_align m e _) as [mz ez]. apply binary_round_aux_abs.
Qed.

Lemma binary_normalize_abs (pr em m e : Z) :
  SFabs (binary_normalize pr em (- m) e false)
  = SFabs (binary_normalize pr em m e false).
Proof.
  destruct m as [ | m | m ]; cbn [Z.opp binary_normalize];
    [ reflexivity | apply binary_round_abs | symmetry; apply binary_round_abs ].
Qed.

(** [y - x] is [x - y] up to the sign. *)
Lemma SFsub_abs (pr em : Z) (x y : spec_float) :
  SFabs (SFsub pr em y x) = SFabs (SFsub pr em x y).
Proof.
  destruct x as [sx | sx | | sx mx ex], y as [sy | sy | | sy my ey];
    cbn [SFsub]; try reflexivity;
    try (destruct sx, sy; reflexivity).
  cbv zeta. rewrite (Z.min_comm ey ex).
  rewrite <- binary_normalize_abs. f_equal. f_equal. lia.
Qed.

Lemma SFmul_square (pr em : Z) (x y : spec_float) :
  SFabs x = SFabs y -> SFmul pr em x x = SFmul pr em y y.
Proof.
  destruct x as [sx | sx | | sx mx ex], y as [sy | sy | | sy my ey];
    cbn [SFabs SFmul]; try discriminate; try reflexivity;
    try (intros _; destruct sx, sy; reflexivity).
  intros [= -> ->]. destruct sx, sy; reflexivity.
Qed.

Lemma square_of_difference (a b : float) :
  ((a - b) * (a - b))%float = ((b - a) * (b - a))%float.
Proof.
  apply Prim2SF_inj. rewrite !mul_spec, !sub_spec.
  apply SFmul_square. apply SFsub_abs.
Qed.

(** In the model, where NaN is one value; it is used at finite
    coordinates, where the distance is not a NaN. *)
Lemma euclidean_dist_sym (a b : Point) :
  euclidean_dist a b = euclidean_dist b a.
Proof.
  unfold euclidean_dist. cbv zeta.
  now rewrite (square_of_difference (x a) (x b)),
              (square_of_difference (y a) (y b)).
Qed.

Lemma getitem_error {A : Type} (l : list A) (k : Z) (e : exn) :
  getitem l k = Raise e -> e = IndexError.
Proof.
  unfold getitem. destruct (norm_index (len l) k) as [q | ];
    [ destruct (nth_error l q) | ]; congruence.
Qed.

Lemma getitem_map {A B : Type} (f : A -> B) (l : list A) (k : Z) :
  getitem (map f l) k
  = match getitem l k with
    | Ok x => Ok (f x)
    | Raise e => Raise e
    end.
Proof.
  unfold getitem, len. rewrite length_map.
  destruct (norm_index (Z.of_nat (List.length l)) k) as [q | ]; [ | reflexivity ].
  rewrite nth_error_map. destruct (nth_error l q); reflexivity.
Qed.

Lemma dist_at_new_problem (coords : list Point) (a b : Z) :
  dist_at (new_problem coords) a b
  = match getitem coords a, getitem coords b with
    | Ok pa, Ok pb => Ok (euclidean_dist pa pb)
    | _, _ => Raise IndexError
    end.
Proof.
  unfold dist_at, new_problem, distance_matrix. cbn [pdist].
  rewrite getitem_map.
  destruct (getitem coords a) as [pa | e] eqn:Ea.
  - cbn [rbind]. rewrite getitem_map.
    destruct (getitem coords b) as [pb | e] eqn:Eb; [ reflexivity | ].
    now rewrite (getitem_error _ _ _ Eb).
  - cbn [rbind]. now rewrite (getitem_error _ _ _ Ea).
Qed.


Lemma finite_shape (v : float) :
  PrimFloat.is_finite v = true ->
  (exists s, Prim2SF v = S754_zero s) \/ (exists s m e, Prim2SF v = S754_finite s m e).
Proof.
  unfold PrimFloat.is_finite, PrimFloat.is_nan, PrimFloat.is_infinity.
  rewrite !eqb_spec, abs_spec.
  change (Prim2SF infinity) with (S754_infinity false).
  destruct (Prim2SF v) as [s | s | | s m e]; intros H.
  - left. now exists s.
  - destruct s; cbn in H; discriminate.
  - cbn in H. discriminate.
  - right. now exists s, m, e.
Qed.

Lemma sub_self (v : float) :
  PrimFloat.is_finite v = true -> Prim2SF (v - v) = S754_zero false.
Proof.
  intros Hf. rewrite sub_spec.
  destruct (finite_shape v Hf) as [(s & ->) | (s & m & e & ->)].
  - now destruct s.
  - unfold SF64sub, SFsub. cbv zeta. now rewrite Z.sub_diag.
Qed.

Lemma euclidean_dist_self (a : Point) :
  PrimFloat.is_finite (x a) = true -> PrimFloat.is_finite (y a) = true ->
  euclidean_dist a a = 0%float.
Proof.
  intros Hx Hy. apply Prim2SF_inj. unfold euclidean_dist. cbv zeta.
  rewrite sqrt_spec, add_spec, !mul_spec, (sub_self _ Hx), (sub_self _ Hy).
  reflexivity.
Qed.

Lemma shr_1_nonneg (mrs : shr_record) :
  0 <= shr_m mrs -> 0 <= shr_m (shr_1 mrs).
Proof.
  destruct mrs as [m r s]. cbn [shr_m shr_1].
  destruct m as [ | [ p | p | ] | [ p | p | ] ]; cbn [shr_m]; lia.
Qed.

Lemma iter_pos_shr_1_nonneg (p : positive) (mrs : shr_record) :
  0 <= shr_m mrs -> 0 <= shr_m (iter_pos shr_1 p mrs).
Proof.
  revert mrs. induction p as [ p IH | p IH | ]; intros mrs H; cbn [iter_pos].
  - apply IH, IH, shr_1_nonneg, H.
  - apply IH, IH, H.
  - apply shr_1_nonneg, H.
Qed.

Lemma shr_fexp_nonneg (pr em m e : Z) (l : location) :
  0 <= m -> 0 <= shr_m (fst (shr_fexp pr em m e l)).
Proof.
  intros H. unfold shr_fexp, shr.
  assert (H0 : 0 <= shr_m (shr_record_of_loc m l))
    by (destruct l as [ | [ | | ] ]; exact H).
  destruct (fexp pr em (Zdigits2 m + e) - e); cbn [fst];
    [ exact H0 | now apply iter_pos_shr_1_nonneg | exact H0 ].
Qed.

Lemma round_nearest_even_nonneg (m : Z) (l : location) :
  0 <= m -> 0 <= round_nearest_even m l.
Proof.
  intros H. unfold round_nearest_even.
  destruct l as [ | [ | | ] ]; [ | destruct (Z.even m) | | ]; lia.
Qed.

(** Rounding a non-negative mantissa gives a zero, a finite number or an
    infinity of the given sign, never a NaN. *)
Lemma binary_round_aux_signed (pr em : Z) (sx : bool) (m e : Z) (l : location) :
  0 <= m ->
  binary_round_aux pr em sx m e l = S754_zero sx
  \/ binary_round_aux pr em sx m e l = S754_infinity sx
  \/ exists m' e', binary_round_aux pr em sx m e l = S754_finite sx m' e'.
Proof.
  intros H. unfold binary_round_aux.
  pose proof (shr_fexp_nonneg pr em m e l H) as H1.
  destruct (shr_fexp pr em m e l) as [mrs' e']. cbn [fst] in H1.
  pose proof (shr_fexp_nonneg pr em _ e' loc_Exact
                (round_nearest_even_nonneg _ (loc_of_shr_record mrs') H1)) as H2.
  destruct (shr_fexp pr em _ e' loc_Exact) as [mrs'' e'']. cbn [fst] in H2.
  destruct (shr_m mrs'') as [ | q | q ]; [ now left | | lia ].
  destruct (e'' <=? em - pr); [ right; right; now exists q, e'' | right; now left ].
Qed.

Lemma binary_round_signed (pr em : Z) (sx : bool) (m : positive) (e : Z) :
  binary_round pr em sx m e <> S754_nan.
Proof.
  unfold binary_round. destruct (shl_align m e _) as [mz ez].
  destruct (binary_round_aux_signed pr em sx (Z.pos mz) ez loc_Exact)
    as [-> | [-> | (m' & e' & ->)]]; [ lia | | | ]; discriminate.
Qed.

Lemma binary_normalize_not_nan (pr em m e : Z) (sz : bool) :
  binary_normalize pr em m e sz <> S754_nan.
Proof.
  destruct m; cbn [binary_normalize];
    [ discriminate | apply binary_round_signed | apply binary_round_signed ].
Qed.

(** The difference of two finite numbers is not a NaN. *)
Lemma sub_not_nan (u v : float) :
  PrimFloat.is_finite u = true -> PrimFloat.is_finite v = true ->
  Prim2SF (u - v) <> S754_nan.
Proof.
  intros Hu Hv. rewrite sub_spec.
  destruct (finite_shape u Hu) as [(s & ->) | (s & m & e & ->)],
           (finite_shape v Hv) as [(s' & ->) | (s' & m' & e' & ->)].
  - destruct s, s'; discriminate.
  - discriminate.
  - discriminate.
  - apply binary_normalize_not_nan.
Qed.

(** The square of a number that is not a NaN is a zero, a finite number or
    an infinity with the sign [+]. *)
Lemma square_signed (v : float) :
  Prim2SF v <> S754_nan ->
  Prim2SF (v * v) = S754_zero false
  \/ Prim2SF (v * v) = S754_infinity false
  \/ exists m e, Prim2SF (v * v) = S754_finite false m e.
Proof.
  intros Hv. rewrite mul_spec.
  destruct (Prim2SF v) as [s | s | | s m e]; [ | | congruence | ].
  - left. now destruct s.
  - right. left. now destruct s.
  - unfold SF64mul, SFmul. rewrite xorb_nilpotent.
    apply binary_round_aux_signed. lia.
Qed.

Lemma add_signed (u v : float) :
  (Prim2SF u = S754_zero false \/ Prim2SF u = S754_infinity false
   \/ exists m e, Prim2SF u = S754_finite false m e) ->
  (Prim2SF v = S754_zero false \/ Prim2SF v = S754_infinity false
   \/ exists m e, Prim2SF v = S754_finite false m e) ->
  Prim2SF (u + v) = S754_zero false \/ Prim2SF (u + v) = S754_infinity false
  \/ exists m e, Prim2SF (u + v) = S754_finite false m e.
Proof.
  intros Hu Hv. rewrite add_spec.
  destruct Hu as [-> | [-> | (m & e & ->)]],
           Hv as [-> | [-> | (m' & e' & ->)]];
    try (left; reflexivity); try (right; left; reflexivity);
    try (right; right; eexists; eexists; reflexivity).
  unfold SF64add, SFadd. cbv zeta. cbn [cond_Zopp Z.add binary_normalize].
  unfold binary_round. destruct (shl_align _ _ _) as [mz ez].
  apply binary_round_aux_signed. lia.
Qed.

Lemma sqrt_not_nan (v : float) :
  (Prim2SF v = S754_zero false \/ Prim2SF v = S754_infinity false
   \/ exists m e, Prim2SF v = S754_finite false m e) ->
  Prim2SF (PrimFloat.sqrt v) <> S754_nan.
Proof.
  intros Hv. rewrite sqrt_spec.
  destruct Hv as [-> | [-> | (m & e & ->)]]; [ discriminate | discriminate | ].
  unfold SF64sqrt, SFsqrt.
  destruct (SFsqrt_core_binary _ _ (Z.pos m) e) as [[mz ez] lz] eqn:E.
  assert (Hq : 0 <= mz).
  { unfold SFsqrt_core_binary in E. cbv zeta in E.
    match type of E with
    | context [Z.sqrtrem ?a] =>
        pose proof (Z.sqrtrem_spec a) as Hs; destruct (Z.sqrtrem a) as [q r]
    end.
    injection E as <- _ _.
    match type of Hs with
    | 0 <= ?a -> _ => destruct (Z_le_gt_dec 0 a) as [Ha | Ha]
    end.
    - specialize (Hs Ha). nia.
    - exfalso. revert Ha.
      match goal with |- context [match ?s with _ => _ end] => destruct s end;
        try lia.
      rewrite Z.shiftl_mul_pow2 by lia. intros Ha.
      pose proof (Z.pow_pos_nonneg 2 (Z.pos p)). nia. }
  destruct (binary_round_aux_signed prec emax false mz ez lz Hq)
    as [-> | [-> | (m' & e' & ->)]]; discriminate.
Qed.

Lemma not_nan_is_nan (v : float) :
  Prim2SF v <> S754_nan -> PrimFloat.is_nan v = false.
Proof.
  intros H. unfold PrimFloat.is_nan. rewrite eqb_spec. unfold SFeqb, SFcompare.
  destruct (Prim2SF v) as [s | s | | s m e]; [ reflexivity | | congruence | ].
  - now destruct s.
  - rewrite Z.compare_refl, Pos.compare_cont_refl. now destruct s.
Qed.

Lemma euclidean_dist_not_nan (a b : Point) :
  PrimFloat.is_finite (x a) = true -> PrimFloat.is_finite (y a) = true ->
  PrimFloat.is_finite (x b) = true -> PrimFloat.is_finite (y b) = true ->
  PrimFloat.is_nan (euclidean_dist a b) = false.
Proof.
  intros Hxa Hya Hxb Hyb. apply not_nan_is_nan. unfold euclidean_dist. cbv zeta.
  apply sqrt_not_nan, add_signed; apply square_signed, sub_not_nan; assumption.
Qed.

(** X25.  Closed-tour variant: the table that [distance_matrix] builds
    for [Problem.__init__] is square, and symmetric at points with finite
    coordinates: [dist[a][b]] and [dist[b][a]] are the same binary64
    number, which is not a NaN (it is [inf] when a difference or the sum
    of the squares overflows); on the diagonal it is [0.0] at every point
    whose coordinates are finite. *)
Theorem tsp_distance_matrix_symmetric (coords : list Point) (a b : Z) :
  shape2 (len coords) (len coords) (pdist (new_problem coords)) = true
  /\ (forall pa pb,
         getitem coords a = Ok pa -> getitem coords b = Ok pb ->
         PrimFloat.is_finite (x pa) = true -> PrimFloat.is_finite (y pa) = true ->
         PrimFloat.is_finite (x pb) = true -> PrimFloat.is_finite (y pb) = true ->
         exists d,
           dist_at (new_problem coords) a b = Ok d
           /\ dist_at (new_problem coords) b a = Ok d
           /\ PrimFloat.is_nan d = false)
  /\ (forall pa, getitem coords a = Ok pa ->
                 PrimFloat.is_finite (x pa) = true ->
                 PrimFloat.is_finite (y pa) = true ->
                 dist_at (new_problem coords) a a = Ok 0%float).
Proof.
  split; [ apply shape2_distance_matrix | ]. split.
  - intros pa pb Ga Gb Hxa Hya Hxb Hyb. exists (euclidean_dist pa pb).
    rewrite !dist_at_new_problem, Ga, Gb.
    split; [ reflexivity | ]. split.
    + now rewrite euclidean_dist_sym.
    + now apply euclidean_dist_not_nan.
  - intros pa Ga Hx Hy. rewrite dist_at_new_problem, Ga.
    now rewrite euclidean_dist_self.
Qed.

Lemma tsp_distance_matrix_symmetric_witness :
  (exists d, dist_at square 1 2 = Ok d /\ dist_at square 2 1 = Ok d
             /\ PrimFloat.is_nan d = false)
  /\ dist_at square 1 1 = Ok 0%float.
Proof.
  destruct (tsp_distance_matrix_symmetric
              [mkPoint 0 0; mkPoint 0 1; mkPoint 1 1; mkPoint 1 0] 1 2)
    as (_ & Hsym & _).
  destruct (tsp_distance_matrix_symmetric
              [mkPoint 0 0; mkPoint 0 1; mkPoint 1 1; mkPoint 1 0] 1 1)
    as (_ & _ & Hdiag).
  split.
  - apply (Hsym (mkPoint 0 1) (mkPoint 1 1)); reflexivity.
  - apply (Hdiag (mkPoint 0 1)); reflexivity.
Defined.

End Symmetry.
